(** * Snitch cluster DNN kernels: FlashAttention-2 and LayerNorm

    A shallow embedding of [layernorm.h] and of the FlashAttention-2 layer
    kernel, with the properties of the kernels stated and settled on it.

    Conventions of the embedding.
    - [uint32_t] values are integers of [Z] reduced by [u32]; loop counters
      are the integers the loops run over.
    - A buffer is a total map from element index to value.  Pointers into
      main memory and into the scratchpad are byte offsets, as in the C text;
      an element of size [esz] at byte offset [a] is element [a / esz].
    - Single-precision arithmetic is an interface ([FloatOps]); the kernels
      are written once over it.  Its instance [Ideal.ideal_ops] is IEEE
      arithmetic without rounding: the extended reals with a NaN.
    - The cores of a cluster run the same text in phases separated by the
      hardware barrier; the effect of a phase on memory is the composition of
      the effects of the cores that take part in it. *)

From Stdlib Require Import ZArith List Bool Lia.
From Stdlib Require String Ascii.
From Stdlib Require Import Reals Lra.
Import ListNotations.

Set Implicit Arguments.

(* ===================================================================== *)
(** * Machine integers, loops and buffers *)
(* ===================================================================== *)

Module Machine.

Local Open Scope Z_scope.

(** Value of a [uint32_t] expression. *)
Definition u32 (x : Z) : Z := x mod 2 ^ 32.

(** Unsigned 32-bit division, as the C text uses it on [uint32_t]
    operands; division by zero has no defined result and is left to [Z./]. *)
Definition udiv (a b : Z) : Z := u32 a / u32 b.

(** [for (i = lo; i < hi; i++) s = body i s]. *)
Fixpoint for_count (S : Type) (n : nat) (i : Z) (body : Z -> S -> S) (s : S) : S :=
  match n with
  | O => s
  | Datatypes.S n' => for_count n' (i + 1) body (body i s)
  end.

Definition for_range (S : Type) (lo hi : Z) (body : Z -> S -> S) (s : S) : S :=
  for_count (Z.to_nat (hi - lo)) lo body s.

(** The values the counter of [for (i = lo; i < hi; i++)] takes. *)
Definition loop_indices (lo hi : Z) : list Z :=
  map (fun k => lo + Z.of_nat k) (seq 0 (Z.to_nat (hi - lo))).

(** A buffer of elements of type [F], indexed by element. *)
Definition buf (F : Type) : Type := Z -> F.

Definition upd (F : Type) (b : buf F) (i : Z) (v : F) : buf F :=
  fun j => if Z.eqb j i then v else b j.

(** Modelled from the spec: the strided 2D transfer primitive
    [snrt_dma_start_2d (dst, src, size, dst_stride, src_stride, repetitions)]
    of the runtime, which is not part of the sources.  It copies
    [repetitions] chunks of [size] bytes each, advancing source and
    destination by their strides between chunks.  Pointers and sizes are in
    bytes; [esz] is the element size of the two buffers. *)
Definition dma_2d (F : Type) (esz : Z)
    (dst : buf F) (dst_ptr : Z) (src : buf F) (src_ptr : Z)
    (size dst_stride src_stride repetitions : Z) : buf F :=
  for_range 0 repetitions (fun r d =>
    for_range 0 (size / esz) (fun k d =>
      upd d ((dst_ptr + r * dst_stride) / esz + k)
            (src ((src_ptr + r * src_stride) / esz + k))) d) dst.

End Machine.

(* ===================================================================== *)
(** * Single-precision arithmetic *)
(* ===================================================================== *)

(** The operations the kernels apply to [float] values. *)
Class FloatOps (F : Type) : Type := {
  f_zero : F;
  f_one : F;
  f_neg_inf : F;                 (* -INFINITY *)
  f_add : F -> F -> F;
  f_sub : F -> F -> F;
  f_mul : F -> F -> F;
  f_div : F -> F -> F;
  f_sqrt : F -> F;               (* sqrtf, fsqrt.s *)
  f_exp : F -> F;                (* expf *)
  f_gt : F -> F -> bool;         (* the C comparison a > b *)
  f_of_int : Z -> F;             (* conversion of an integer to float *)
  f_to_int : F -> Z;             (* conversion of a float to int32_t *)
  f_half : F -> F;               (* rounding of a float to __fp16 *)
  (* A float occupies the two 16-bit words of two adjacent __fp16
     elements, the low word at the lower address. *)
  f_join : F -> F -> F;          (* the float read from a low and a high word *)
  f_low : F -> F;                (* the __fp16 element in the low word of a float *)
  f_high : F -> F                (* the __fp16 element in its high word *)
}.

(** [a] is [b] or compares greater than [b]. *)
Definition f_ge (F : Type) (FO : FloatOps F) (a b : F) : Prop :=
  a = b \/ f_gt a b = true.
Arguments f_ge {F FO} a b.

(** The order facts about [>] that hold in IEEE arithmetic. *)
Class FloatOrder (F : Type) (FO : FloatOps F) : Prop := {
  f_gt_trans : forall a b c : F, f_gt a b = true -> f_gt b c = true -> f_gt a c = true
}.

Module Ideal.

Local Open Scope R_scope.

(** IEEE values without rounding: a real, an infinity or a NaN.  Zero has
    no sign: a nonzero value divided by zero takes the sign of the
    numerator. *)
Inductive xreal : Type :=
| Fin (r : R)
| PInf
| NInf
| NaN.

Definition Rsign (A : Type) (r : R) (neg zero pos : A) : A :=
  match total_order_T r 0 with
  | inleft (left _) => neg
  | inleft (right _) => zero
  | inright _ => pos
  end.

Definition xopp (a : xreal) : xreal :=
  match a with
  | Fin r => Fin (- r)
  | PInf => NInf
  | NInf => PInf
  | NaN => NaN
  end.

Definition xadd (a b : xreal) : xreal :=
  match a, b with
  | Fin x, Fin y => Fin (x + y)
  | NaN, _ | _, NaN => NaN
  | PInf, NInf | NInf, PInf => NaN
  | PInf, _ | _, PInf => PInf
  | NInf, _ | _, NInf => NInf
  end.

Definition xsub (a b : xreal) : xreal := xadd a (xopp b).

Definition xinf_signed (r : R) (pos_result : xreal) : xreal :=
  Rsign r (xopp pos_result) NaN pos_result.

Definition xmul (a b : xreal) : xreal :=
  match a, b with
  | Fin x, Fin y => Fin (x * y)
  | NaN, _ | _, NaN => NaN
  | Fin x, PInf | PInf, Fin x => xinf_signed x PInf
  | Fin x, NInf | NInf, Fin x => xinf_signed x NInf
  | PInf, PInf | NInf, NInf => PInf
  | PInf, NInf | NInf, PInf => NInf
  end.

Definition xdiv (a b : xreal) : xreal :=
  match a, b with
  | Fin x, Fin y => Rsign y (Fin (x / y)) (xinf_signed x PInf) (Fin (x / y))
  | NaN, _ | _, NaN => NaN
  | Fin _, PInf | Fin _, NInf => Fin 0
  | PInf, Fin y => Rsign y NInf PInf PInf
  | NInf, Fin y => Rsign y PInf NInf NInf
  | PInf, PInf | PInf, NInf | NInf, PInf | NInf, NInf => NaN
  end.

Definition xsqrt (a : xreal) : xreal :=
  match a with
  | Fin x => Rsign x NaN (Fin 0) (Fin (sqrt x))
  | PInf => PInf
  | NInf | NaN => NaN
  end.

Definition xexp (a : xreal) : xreal :=
  match a with
  | Fin x => Fin (exp x)
  | PInf => PInf
  | NInf => Fin 0
  | NaN => NaN
  end.

Definition xgt (a b : xreal) : bool :=
  match a, b with
  | Fin x, Fin y => if Rlt_dec y x then true else false
  | NaN, _ | _, NaN => false
  | PInf, PInf | NInf, NInf => false
  | PInf, _ | _, NInf => true
  | _, PInf | NInf, _ => false
  end.

(** Truncation toward zero. *)
Definition Rtrunc (r : R) : Z :=
  if Rle_dec 0 r then Int_part r else (- Int_part (- r))%Z.

(** Conversion to [int32_t]: truncation, saturating outside the range as
    the RISC-V conversion instruction does. *)
Definition x_to_int (a : xreal) : Z :=
  match a with
  | Fin r => Z.max (- 2 ^ 31) (Z.min (2 ^ 31 - 1) (Rtrunc r))
  | PInf | NaN => (2 ^ 31 - 1)%Z
  | NInf => (- 2 ^ 31)%Z
  end.

(** The real a finite value stands for. *)
Definition to_R (a : xreal) : R :=
  match a with
  | Fin r => r
  | PInf | NInf | NaN => 0
  end.

Definition finite (a : xreal) : Prop := a = Fin (to_R a).

(** The sum of [g 0 .. g (n - 1)]. *)
Definition Rsum (g : Z -> R) (n : Z) : R :=
  Machine.for_range 0%Z n (fun i a => a + g i) 0.

(** The ideal values as [float]s.  They have no bit pattern: by convention
    the low word of a float carries its value and the high word is zero, so
    that a float stored and loaded again is the value stored. *)
#[export] Instance ideal_ops : FloatOps xreal := {
  f_zero := Fin 0;
  f_one := Fin 1;
  f_neg_inf := NInf;
  f_add := xadd;
  f_sub := xsub;
  f_mul := xmul;
  f_div := xdiv;
  f_sqrt := xsqrt;
  f_exp := xexp;
  f_gt := xgt;
  f_of_int := fun z => Fin (IZR z);
  f_to_int := x_to_int;
  f_half := fun a => a;
  f_join := fun lo _ => lo;
  f_low := fun a => a;
  f_high := fun _ => Fin 0
}.

End Ideal.

(* ===================================================================== *)
(** * Reference attention *)
(* ===================================================================== *)

Module Reference.

Import Ideal.
Local Open Scope Z_scope.

(** The score of query [r] against key [j]: the dot product, with no
    scaling. *)
Definition score (Q K : Z -> R) (d r j : Z) : R :=
  Rsum (fun k => (Q (r * d + k)%Z * K (j * d + k)%Z)%R) d.

(** Element [(r, c)] of softmax (Q K^t) V restricted to the first [ncols]
    keys and values: the direct, non-tiled computation. *)
Definition softmax_attention (Q K V : Z -> R) (d ncols r c : Z) : R :=
  (Rsum (fun j => (exp (score Q K d r j) * V (j * d + c)%Z)%R) ncols
   / Rsum (fun j => exp (score Q K d r j)) ncols)%R.

End Reference.

(* ===================================================================== *)
(** * Runtime: cluster topology and roles *)
(* ===================================================================== *)

Module Runtime.

Local Open Scope Z_scope.

(** Modelled from the spec: the role and topology queries of the runtime
    ([snrt.h] is not part of the sources).  A cluster is a fixed team of
    [cluster_compute_core_num] compute cores, indexed from 0, followed by
    exactly one data-movement core; all clusters have the same shape and
    the cores are numbered cluster after cluster. *)
Record platform : Type := {
  cluster_num : Z;                 (* snrt_cluster_num () *)
  cluster_compute_core_num : Z     (* snrt_cluster_compute_core_num () *)
}.

Record hart : Type := {
  cluster_idx : Z;                 (* snrt_cluster_idx () *)
  cluster_core_idx : Z             (* snrt_cluster_core_idx () *)
}.

Definition is_compute_core (p : platform) (h : hart) : bool :=
  cluster_core_idx h <? cluster_compute_core_num p.

Definition is_core1 (p : platform) (h : hart) : bool :=
  negb (is_compute_core p h).

Definition global_core_idx (p : platform) (h : hart) : Z :=
  cluster_idx h * (cluster_compute_core_num p + 1) + cluster_core_idx h.

(** The harts of one cluster, compute cores first. *)
Definition cluster_harts (p : platform) (c : Z) : list hart :=
  map (fun k => {| cluster_idx := c; cluster_core_idx := Z.of_nat k |})
      (seq 0 (Z.to_nat (cluster_compute_core_num p + 1))).

End Runtime.

(* ===================================================================== *)
(** * LayerNorm ([layernorm.h]) *)
(* ===================================================================== *)

Module LayerNorm.

Import Machine Runtime.
Local Open Scope Z_scope.

Definition UNROLL : Z := 4.

(** Modelled from the spec: the element precision selector [precision_t],
    declared in [dnn.h], which is not part of the sources.  Only the two
    selectors the kernel tests for are named. *)
Inductive precision_t : Type :=
| FP32
| FP16
| FP_other (code : Z).

Definition sizeof_float : Z := 4.
Definition sizeof_fp16 : Z := 2.
Definition sizeof_double : Z := 8.

Record layernorm_layer_t (F : Type) : Type := {
  batch_size : Z;
  seq_len : Z;
  embeddings : Z;
  n_tiles : Z;
  baseline : Z;
  eps : F;
  ifmap : buf F;       (* contents of the input feature map *)
  ofmap : buf F;       (* contents of the output feature map *)
  dtype : precision_t
}.

Section Kernels.

Context {F : Type} {FO : FloatOps F}.
Variable p : platform.
Variable h : hart.

(** [layernorm_fp32_naive], lines 45-97.  [input] and [output] are the two
    tile buffers; the result is the output tile after the call. *)
Definition layernorm_fp32_naive (input output : buf F)
    (batch_size seq_len embeddings eps : Z) : buf F :=
  if is_compute_core p h then
    let offset := u32 (cluster_core_idx h * embeddings) in
    let stride := u32 (cluster_compute_core_num p * embeddings) in
    let tile_seq_len := udiv seq_len (cluster_compute_core_num p) in
    let core_itile := fun i => input (offset + i) in
    let batch_offset := u32 (seq_len * embeddings) in
    for_range 0 batch_size (fun b out =>
      for_range 0 tile_seq_len (fun s out =>
        let at_ := fun i => u32 (b * batch_offset + s * stride + i) in
        let mean :=
          for_range 0 embeddings (fun i mean => f_add mean (core_itile (at_ i)))
                    f_zero in
        let mean := f_div mean (f_of_int embeddings) in
        let var :=
          for_range 0 embeddings (fun i var =>
            f_add var (f_mul (f_sub (core_itile (at_ i)) mean)
                             (f_sub (core_itile (at_ i)) mean)))
                    f_zero in
        let var := f_div var (f_of_int embeddings) in
        let var := f_sqrt (f_add var (f_of_int eps)) in
        for_range 0 embeddings (fun i out =>
          upd out (offset + at_ i)
              (f_div (f_sub (core_itile (at_ i)) mean) var)) out) out) output
  else output.

(** Element [k] of a [float] array that starts at 16-bit word [base] of a
    memory of half-precision elements: it occupies words [base + 2 k] and
    [base + 2 k + 1]. *)
Definition load_float (m : buf F) (base k : Z) : F :=
  f_join (m (base + 2 * k)) (m (base + 2 * k + 1)).

Definition store_float (m : buf F) (base k : Z) (v : F) : buf F :=
  upd (upd m (base + 2 * k) (f_low v)) (base + 2 * k + 1) (f_high v).

(** [layernorm_fp32_naive], lines 45-97, as it runs when its two [float]
    pointers point into one memory of 16-bit words, as [layernorm_layer]
    calls it on half-precision tiles: [input] and [output] are the words the
    pointers address in the memory [m], and the result is the memory after
    the call.  The two regions may overlap, so every load reads the memory
    as the stores before it have left it. *)
Definition layernorm_fp32_naive_words (m : buf F) (input output : Z)
    (batch_size seq_len embeddings eps : Z) : buf F :=
  if is_compute_core p h then
    let offset := u32 (cluster_core_idx h * embeddings) in
    let stride := u32 (cluster_compute_core_num p * embeddings) in
    let tile_seq_len := udiv seq_len (cluster_compute_core_num p) in
    let core_itile := fun (m : buf F) i => load_float m input (offset + i) in
    let batch_offset := u32 (seq_len * embeddings) in
    for_range 0 batch_size (fun b m =>
      for_range 0 tile_seq_len (fun s m =>
        let at_ := fun i => u32 (b * batch_offset + s * stride + i) in
        let mean :=
          for_range 0 embeddings (fun i mean => f_add mean (core_itile m (at_ i)))
                    f_zero in
        let mean := f_div mean (f_of_int embeddings) in
        let var :=
          for_range 0 embeddings (fun i var =>
            f_add var (f_mul (f_sub (core_itile m (at_ i)) mean)
                             (f_sub (core_itile m (at_ i)) mean)))
                    f_zero in
        let var := f_div var (f_of_int embeddings) in
        let var := f_sqrt (f_add var (f_of_int eps)) in
        for_range 0 embeddings (fun i m =>
          store_float m output (offset + at_ i)
              (f_div (f_sub (core_itile m (at_ i)) mean) var)) m) m) m
  else m.

(** [layernorm_fp16_naive], lines 249-301: the same text on [__fp16] tiles.
    Loads promote to [float], which is exact; stores round to [__fp16]. *)
Definition layernorm_fp16_naive (input output : buf F)
    (batch_size seq_len embeddings eps : Z) : buf F :=
  if is_compute_core p h then
    let offset := u32 (cluster_core_idx h * embeddings) in
    let stride := u32 (cluster_compute_core_num p * embeddings) in
    let tile_seq_len := udiv seq_len (cluster_compute_core_num p) in
    let core_itile := fun i => input (offset + i) in
    let batch_offset := u32 (seq_len * embeddings) in
    for_range 0 batch_size (fun b out =>
      for_range 0 tile_seq_len (fun s out =>
        let at_ := fun i => u32 (b * batch_offset + s * stride + i) in
        let mean :=
          for_range 0 embeddings (fun i mean => f_add mean (core_itile (at_ i)))
                    f_zero in
        let mean := f_div mean (f_of_int embeddings) in
        let var :=
          for_range 0 embeddings (fun i var =>
            f_add var (f_mul (f_sub (core_itile (at_ i)) mean)
                             (f_sub (core_itile (at_ i)) mean)))
                    f_zero in
        let var := f_div var (f_of_int embeddings) in
        let var := f_sqrt (f_add var (f_of_int eps)) in
        for_range 0 embeddings (fun i out =>
          upd out (offset + at_ i)
              (f_half (f_div (f_sub (core_itile (at_ i)) mean) var))) out) out)
      output
  else output.

(** ** The vectorised single-precision kernel *)

(** A [v2f32] register: lane 0 and lane 1. *)
Definition v2f32 : Type := (F * F)%type.

Definition vfcpka_s_s (a b : F) : v2f32 := (a, b).
Definition vfsub_s (a b : v2f32) : v2f32 :=
  (f_sub (fst a) (fst b), f_sub (snd a) (snd b)).
Definition vfadd_s (a b : v2f32) : v2f32 :=
  (f_add (fst a) (fst b), f_add (snd a) (snd b)).
Definition vfmul_s (a b : v2f32) : v2f32 :=
  (f_mul (fst a) (fst b), f_mul (snd a) (snd b)).

(** [vfsum.s rd, rs]: the accumulating horizontal sum, [rd += rs[0] + rs[1]]
    (the reading the comments of [layernorm_fp16_opt] give). *)
Definition vfsum_s (rd : F) (rs : v2f32) : F :=
  f_add (f_add rd (fst rs)) (snd rs).

(** Modelled from the spec: the stream address generators configured by
    [snrt_ssr_loop_4d] and [snrt_ssr_loop_2d] (the runtime is not part of the
    sources).  A stream walks a loop nest, innermost index first; the access
    with indices [i0 .. i3] is at this byte offset from the base it was
    armed with. *)
Definition ssr_offset (s0 s1 s2 s3 i0 i1 i2 i3 : Z) : Z :=
  i0 * s0 + i1 * s1 + i2 * s2 + i3 * s3.

Definition load2 (b : buf F) (i : Z) : v2f32 := (b i, b (i + 1)).
Definition store2 (b : buf F) (i : Z) (v : v2f32) : buf F :=
  upd (upd b i (fst v)) (i + 1) (snd v).

(** Number of repetitions of a [frep.o] block armed with [n_frep - 1]. *)
Definition frep_count (n_frep : Z) : Z := u32 (n_frep - 1) + 1.

(** The three assembly blocks of [layernorm_fp32_opt].  A stream is given
    by the element index of the vector that unrolled instruction [i0] of
    repetition [i1] of the block reads or writes. *)

(** Lines 160-179: computation of the row mean. *)
Definition asm_row_mean (input : buf F) (dm0 : Z -> Z -> Z)
    (n_frep embeddings : Z) : F :=
  let '(mean0, mean1, mean2, mean3) :=
    for_range 0 (frep_count n_frep) (fun j '(m0, m1, m2, m3) =>
      (vfsum_s m0 (load2 input (dm0 0 j)),
       vfsum_s m1 (load2 input (dm0 1 j)),
       vfsum_s m2 (load2 input (dm0 2 j)),
       vfsum_s m3 (load2 input (dm0 3 j))))
      (f_zero, f_zero, f_zero, f_zero) in
  let mean0 := f_add mean0 mean1 in
  let mean2 := f_add mean2 mean3 in
  let mean_tot := f_add mean0 mean2 in
  f_div mean_tot (f_of_int embeddings).

(** Lines 182-225: computation of the row variance.  The differences
    [x - mean] go to the output row through DM1; the result is the output
    buffer and the reciprocal of the standard deviation. *)
Definition asm_row_variance (input : buf F) (dm0 dm1 : Z -> Z -> Z)
    (n_frep embeddings eps : Z) (mean_tot : F) (out : buf F) : buf F * F :=
  let zero := vfcpka_s_s f_zero f_zero in
  let mean_reg := vfcpka_s_s mean_tot mean_tot in
  let '(out, (var0, var1, var2, var3)) :=
    for_range 0 (frep_count n_frep) (fun j '(out, (v0, v1, v2, v3)) =>
      let var_reg0 := vfsub_s (load2 input (dm0 0 j)) mean_reg in
      let var_reg1 := vfsub_s (load2 input (dm0 1 j)) mean_reg in
      let var_reg2 := vfsub_s (load2 input (dm0 2 j)) mean_reg in
      let var_reg3 := vfsub_s (load2 input (dm0 3 j)) mean_reg in
      let out := store2 out (dm1 0 j) (vfadd_s var_reg0 zero) in
      let out := store2 out (dm1 1 j) (vfadd_s var_reg1 zero) in
      let out := store2 out (dm1 2 j) (vfadd_s var_reg2 zero) in
      let out := store2 out (dm1 3 j) (vfadd_s var_reg3 zero) in
      let pow0 := vfmul_s var_reg0 var_reg0 in
      let pow1 := vfmul_s var_reg1 var_reg1 in
      let pow2 := vfmul_s var_reg2 var_reg2 in
      let pow3 := vfmul_s var_reg3 var_reg3 in
      (out, (vfsum_s v0 pow0, vfsum_s v1 pow1, vfsum_s v2 pow2, vfsum_s v3 pow3)))
      (out, (f_zero, f_zero, f_zero, f_zero)) in
  let var0 := f_add var0 var1 in
  let var2 := f_add var2 var3 in
  let var_tot := f_add var0 var2 in
  let var_tot := f_div var_tot (f_of_int embeddings) in
  let var_tot := f_add var_tot (f_of_int eps) in
  let var_tot := f_sqrt var_tot in
  let var_tot := f_div f_one var_tot in
  (out, var_tot).

(** Lines 230-240: normalization of the row, read back through DM2 and
    written through DM1. *)
Definition asm_row_normalize (dm2 dm1 : Z -> Z -> Z) (n_frep : Z)
    (mean_reg : v2f32) (out : buf F) : buf F :=
  for_range 0 (frep_count n_frep) (fun j out =>
    let out := store2 out (dm1 0 j) (vfmul_s (load2 out (dm2 0 j)) mean_reg) in
    let out := store2 out (dm1 1 j) (vfmul_s (load2 out (dm2 1 j)) mean_reg) in
    let out := store2 out (dm1 2 j) (vfmul_s (load2 out (dm2 2 j)) mean_reg) in
    store2 out (dm1 3 j) (vfmul_s (load2 out (dm2 3 j)) mean_reg)) out.

(** [layernorm_fp32_opt], lines 99-247.  Streams DM0 (read) and DM1 (write)
    walk the nest ([UNROLL], [n_frep], 2, [tile_seq_len]): the four unrolled
    instructions of a repetition, the repetitions of a block, the two
    passes over a row, the rows.  DM2 re-reads the output row. *)
Definition layernorm_fp32_opt (input output : buf F)
    (batch_size seq_len embeddings eps : Z) : buf F :=
  if is_compute_core p h then
    let offset := u32 (cluster_core_idx h * embeddings) in
    let stride := u32 (cluster_compute_core_num p * embeddings) in
    let tile_seq_len := udiv seq_len (cluster_compute_core_num p) in
    let batch_offset := u32 (seq_len * embeddings) in
    let num_elems_per_vector := sizeof_double / sizeof_float in
    for_range 0 batch_size (fun b out =>
      let n_frep := udiv embeddings (UNROLL * num_elems_per_vector) in
      let base := offset + u32 (b * batch_offset) in
      let ssr0 := fun i2 i3 i0 i1 =>
        base + ssr_offset sizeof_double (UNROLL * sizeof_double) 0
                          (u32 (stride * sizeof_float)) i0 i1 i2 i3
               / sizeof_float in
      for_range 0 tile_seq_len (fun s out =>
        let mean_tot := asm_row_mean input (ssr0 0 s) n_frep embeddings in
        let '(out, var_tot) :=
          asm_row_variance input (ssr0 1 s) (ssr0 0 s) n_frep embeddings eps
                           mean_tot out in
        let mean_reg := vfcpka_s_s var_tot var_tot in
        let row := offset + u32 (b * batch_offset + s * stride) in
        let ssr2 := fun i0 i1 =>
          row + ssr_offset sizeof_double (UNROLL * sizeof_double) 0 0 i0 i1 0 0
                / sizeof_float in
        asm_row_normalize ssr2 (ssr0 1 s) n_frep mean_reg out) out) output
  else output.

(** [layernorm_fp16_opt], lines 303-418.  The one assembly block left in
    the body reads stream DM0 and accumulates in registers; the variance and
    normalisation blocks are commented out, no instruction names the write
    stream and there is no store.  The output tile is returned as it was
    (the row mean only reaches the trace through [DUMP]). *)
Definition layernorm_fp16_opt (input output : buf F)
    (batch_size seq_len embeddings eps : Z) : buf F :=
  output.

End Kernels.

(** ** The normalisation of one row *)

Section RowSpec.

Context {F : Type} {FO : FloatOps F}.

(** Row [r] of a buffer of rows of [E] elements. *)
Definition row_of (b : buf F) (E r : Z) : Z -> F := fun j => b (r * E + j).

(** The mean and the variance of a row of [E] elements, summed from the
    first element to the last. *)
Definition row_mean (E : Z) (x : Z -> F) : F :=
  f_div (for_range 0 E (fun i mean => f_add mean (x i)) f_zero) (f_of_int E).

Definition row_var (E : Z) (x : Z -> F) : F :=
  f_div (for_range 0 E (fun i var =>
           f_add var (f_mul (f_sub (x i) (row_mean E x)) (f_sub (x i) (row_mean E x))))
           f_zero)
        (f_of_int E).

(** Element [i] of the normalised row:
    [(x - mean) / sqrt (variance + eps)]. *)
Definition layernorm_row (E : Z) (eps : F) (x : Z -> F) (i : Z) : F :=
  f_div (f_sub (x i) (row_mean E x)) (f_sqrt (f_add (row_var E x) eps)).

(** The row as the vectorised kernel computes it: sums kept in four
    accumulators, each fed two lanes per repetition, and combined pairwise;
    the deviation multiplied by the reciprocal of the standard deviation. *)
Definition lanes_sum4 (q : Z) (g : Z -> F) : F * F * F * F :=
  for_range 0 q (fun j '(a0, a1, a2, a3) =>
    (vfsum_s a0 (g (8 * j), g (8 * j + 1)),
     vfsum_s a1 (g (8 * j + 2), g (8 * j + 3)),
     vfsum_s a2 (g (8 * j + 4), g (8 * j + 5)),
     vfsum_s a3 (g (8 * j + 6), g (8 * j + 7))))
    (f_zero, f_zero, f_zero, f_zero).

Definition tree_sum4 (a : F * F * F * F) : F :=
  let '(a0, a1, a2, a3) := a in f_add (f_add a0 a1) (f_add a2 a3).

Definition opt_mean (E : Z) (x : Z -> F) : F :=
  f_div (tree_sum4 (lanes_sum4 (E / 8) x)) (f_of_int E).

Definition opt_rstd (E : Z) (eps : F) (x : Z -> F) : F :=
  let dev := fun i => f_sub (x i) (opt_mean E x) in
  f_div f_one
        (f_sqrt (f_add (f_div (tree_sum4 (lanes_sum4 (E / 8)
                                            (fun i => f_mul (dev i) (dev i))))
                              (f_of_int E))
                       eps)).

Definition layernorm_row_opt (E : Z) (eps : F) (x : Z -> F) (i : Z) : F :=
  f_mul (f_add (f_sub (x i) (opt_mean E x)) f_zero) (opt_rstd E eps x).

(** A buffer with row [r] replaced by the image of row [r] of [input]
    under the row function [f]. *)
Definition write_row (f : (Z -> F) -> Z -> F) (E : Z) (input : buf F) (r : Z)
    (out : buf F) : buf F :=
  for_range 0 E (fun i out => upd out (r * E + i) (f (row_of input E r) i)) out.

End RowSpec.

(** The rows of a tile of [B] batches of [ts] rows that the hart with
    index [k] of a team of [n] handles. *)
Definition hart_rows (B ts n k : Z) : list Z :=
  flat_map (fun b => map (fun s => b * ts + s * n + k) (loop_indices 0 (ts / n)))
           (loop_indices 0 B).


(** ** The layer driver, lines 423-526 *)

(** The kernels of the file. *)
Inductive kernel_t : Type :=
| K_fp32_naive
| K_fp32_opt
| K_fp16_naive
| K_fp16_opt.

(** What one hart does, in program order. *)
Inductive event : Type :=
| EvPrintf (msg : String.string)
| EvDmaIn (tile_idx : Z)
| EvDmaOut (tile_idx : Z)
| EvKernel (k : kernel_t) (tile_dtype : precision_t)
| EvClusterBarrier
| EvGlobalBarrier.

(** The text of the three [printf] calls, with its newline. *)
Module Diagnostics.
Import String.
Definition unsupported_msg : string :=
  ("Unsupported data type" ++ String (Ascii.ascii_of_nat 10) EmptyString)%string.
End Diagnostics.
Definition unsupported_msg : String.string := Diagnostics.unsupported_msg.

(** Lines 424-431: [data_type_size] is assigned in the first two branches
    only; [None] is the uninitialised variable. *)
Definition data_type_size (d : precision_t) : option Z :=
  match d with
  | FP32 => Some sizeof_float
  | FP16 => Some sizeof_fp16
  | FP_other _ => None
  end.

Section Layer.

Context {F : Type} {FO : FloatOps F}.
Variable p : platform.

Definition n_tiles_per_cluster (l : layernorm_layer_t F) : Z :=
  udiv (n_tiles l) (cluster_num p).

Definition tile_seq_len (l : layernorm_layer_t F) : Z :=
  udiv (seq_len l) (n_tiles l).

Definition tile_size (l : layernorm_layer_t F) (dts : Z) : Z :=
  u32 (batch_size l * tile_seq_len l * embeddings l * dts).

Definition tile_offset (l : layernorm_layer_t F) (dts : Z) : Z :=
  u32 (tile_seq_len l * embeddings l * dts).

Definition tile_idx_of (l : layernorm_layer_t F) (c cluster_tile_idx : Z) : Z :=
  u32 (c * n_tiles_per_cluster l + cluster_tile_idx).

(** Lines 488-503: the kernel the tile is handed to, or [None] when the
    branch taken only prints. *)
Definition select_kernel (l : layernorm_layer_t F) : option kernel_t :=
  if baseline l =? 1 then Some K_fp32_naive
  else match dtype l with
       | FP32 => Some K_fp32_opt
       | FP16 => Some K_fp16_opt
       | FP_other _ => None
       end.

(** Lines 464-523: the events of one hart in one iteration of the tile
    loop. *)
Definition tile_events (h : hart) (l : layernorm_layer_t F) (cluster_tile_idx : Z)
  : list event :=
  let tile_idx := tile_idx_of l (cluster_idx h) cluster_tile_idx in
  (if is_core1 p h then [EvDmaIn tile_idx] else []) ++
  [EvClusterBarrier] ++
  (if baseline l =? 1 then [EvKernel K_fp32_naive (dtype l)]
   else match dtype l with
        | FP32 => [EvKernel K_fp32_opt (dtype l)]
        | FP16 => [EvKernel K_fp16_opt (dtype l)]
        | FP_other _ => [EvPrintf unsupported_msg]
        end) ++
  [EvClusterBarrier] ++
  (if is_core1 p h then [EvDmaOut tile_idx] else []).

(** The events of one hart running [layernorm_layer]. *)
Definition layernorm_layer_events (h : hart) (l : layernorm_layer_t F) : list event :=
  (* lines 425-431 *)
  (match dtype l with
   | FP32 | FP16 => []
   | FP_other _ => [EvPrintf unsupported_msg]
   end) ++
  (* lines 447-460 *)
  (match dtype l with
   | FP32 | FP16 => []
   | FP_other _ => [EvPrintf unsupported_msg]
   end) ++
  (* lines 464-523 *)
  for_range 0 (n_tiles_per_cluster l) (fun cluster_tile_idx evs =>
    evs ++ tile_events h l cluster_tile_idx) [] ++
  (* line 525 *)
  [EvGlobalBarrier].

(** The call of a kernel by one hart.  The scalar [l.eps] is a [float]
    passed for an [int32_t] parameter, so it is converted at the call. *)
Definition run_kernel (k : kernel_t) (h : hart) (l : layernorm_layer_t F)
    (local_itile local_otile : buf F) : buf F :=
  match k with
  | K_fp32_naive =>
      layernorm_fp32_naive p h local_itile local_otile (batch_size l)
                           (tile_seq_len l) (embeddings l) (f_to_int (eps l))
  | K_fp32_opt =>
      layernorm_fp32_opt p h local_itile local_otile (batch_size l)
                         (tile_seq_len l) (embeddings l) (f_to_int (eps l))
  | K_fp16_naive =>
      layernorm_fp16_naive p h local_itile local_otile (batch_size l)
                           (tile_seq_len l) (embeddings l) (f_to_int (eps l))
  | K_fp16_opt =>
      layernorm_fp16_opt local_itile local_otile (batch_size l)
                         (tile_seq_len l) (embeddings l) (f_to_int (eps l))
  end.

(** The compute phase of a tile: every hart of the cluster makes the call;
    the harts own disjoint rows. *)
Definition compute_tile (k : kernel_t) (c : Z) (l : layernorm_layer_t F)
    (local_itile local_otile : buf F) : buf F :=
  fold_left (fun out h => run_kernel k h l local_itile out)
            (cluster_harts p c) local_otile.

(** The scratchpad of a cluster: the input tile and the output tile. *)
Record tcdm : Type := { local_itile : buf F; local_otile : buf F }.

(** One iteration of the tile loop in cluster [c], on the scratchpad of the
    cluster and the output feature map. *)
Definition tile_step (dts : Z) (k : kernel_t) (l : layernorm_layer_t F) (c : Z)
    (cluster_tile_idx : Z) (st : tcdm * buf F) : tcdm * buf F :=
  let '(t, remote_ofmap) := st in
  let tile_idx := tile_idx_of l c cluster_tile_idx in
  (* Copy input tile *)
  let itile :=
    dma_2d dts (local_itile t) 0 (ifmap l) (u32 (tile_idx * tile_offset l dts))
           (u32 (tile_seq_len l * embeddings l * dts))
           (u32 (tile_seq_len l * embeddings l * dts))
           (u32 (seq_len l * embeddings l * dts))
           (batch_size l) in
  (* Compute layernorm tile *)
  let otile := compute_tile k c l itile (local_otile t) in
  (* DMA transfer the ofmap to DRAM *)
  let remote_ofmap :=
    dma_2d dts remote_ofmap (u32 (tile_idx * tile_offset l dts)) otile 0
           (u32 (tile_seq_len l * embeddings l * dts))
           (u32 (seq_len l * embeddings l * dts))
           (u32 (tile_seq_len l * embeddings l * dts))
           (batch_size l) in
  ({| local_itile := itile; local_otile := otile |}, remote_ofmap).

(** The tile loop of cluster [c], started on scratchpad contents [t0]. *)
Definition cluster_run (dts : Z) (k : kernel_t) (l : layernorm_layer_t F) (c : Z)
    (t0 : tcdm) (remote_ofmap : buf F) : buf F :=
  snd (for_range 0 (n_tiles_per_cluster l) (tile_step dts k l c) (t0, remote_ofmap)).

(** Does kernel [k] read tiles of element type [d]? *)
Definition kernel_reads (k : kernel_t) (d : precision_t) : bool :=
  match k, d with
  | (K_fp32_naive | K_fp32_opt), FP32 => true
  | (K_fp16_naive | K_fp16_opt), FP16 => true
  | _, _ => false
  end.

(** ** The scalar single-precision kernel on half-precision tiles

    With [baseline == 1] line 489 calls [layernorm_fp32_naive] whatever the
    precision; for half-precision data the tiles were sized and transferred
    in 16-bit elements and the kernel reads and writes them as [float]s. *)

(** The word of the scratchpad, counted from [local_itile], at which
    [local_otile] starts: [local_otile = local_itile + tile_size], line
    453, with [tile_size] in bytes. *)
Definition otile_word (l : layernorm_layer_t F) : Z :=
  tile_size l sizeof_fp16 / sizeof_fp16.

(** The scratchpad from [local_itile] on as one memory of 16-bit words:
    the input tile, then the output tile. *)
Definition words_of (l : layernorm_layer_t F) (t : tcdm) : buf F :=
  fun i => if i <? otile_word l then local_itile t i
           else local_otile t (i - otile_word l).

(** The compute phase: every hart calls the kernel with the two tile
    pointers.  The calls are made one after the other, in the order of the
    core index.  The float arrays reach past the half-precision tiles, so
    the stores of one hart can fall on words another hart loads; the source
    leaves the order of the two open. *)
Definition compute_tile_words (c : Z) (l : layernorm_layer_t F) (m : buf F) : buf F :=
  fold_left (fun m h =>
               layernorm_fp32_naive_words p h m 0 (otile_word l) (batch_size l)
                 (tile_seq_len l) (embeddings l) (f_to_int (eps l)))
            (cluster_harts p c) m.

(** One iteration of the tile loop in cluster [c], lines 464-523. *)
Definition tile_step_words (l : layernorm_layer_t F) (c : Z)
    (cluster_tile_idx : Z) (st : tcdm * buf F) : tcdm * buf F :=
  let '(t, remote_ofmap) := st in
  let dts := sizeof_fp16 in
  let tile_idx := tile_idx_of l c cluster_tile_idx in
  (* Copy input tile *)
  let itile :=
    dma_2d dts (local_itile t) 0 (ifmap l) (u32 (tile_idx * tile_offset l dts))
           (u32 (tile_seq_len l * embeddings l * dts))
           (u32 (tile_seq_len l * embeddings l * dts))
           (u32 (seq_len l * embeddings l * dts))
           (batch_size l) in
  (* Compute layernorm tile *)
  let m :=
    compute_tile_words c l
      (words_of l {| local_itile := itile; local_otile := local_otile t |}) in
  let otile := fun j => m (otile_word l + j) in
  (* DMA transfer the ofmap to DRAM *)
  let remote_ofmap :=
    dma_2d dts remote_ofmap (u32 (tile_idx * tile_offset l dts)) otile 0
           (u32 (tile_seq_len l * embeddings l * dts))
           (u32 (seq_len l * embeddings l * dts))
           (u32 (tile_seq_len l * embeddings l * dts))
           (batch_size l) in
  ({| local_itile := fun i => if i <? otile_word l then m i else itile i;
      local_otile := otile |}, remote_ofmap).

Definition cluster_run_words (l : layernorm_layer_t F) (c : Z)
    (t0 : tcdm) (remote_ofmap : buf F) : buf F :=
  snd (for_range 0 (n_tiles_per_cluster l) (tile_step_words l c) (t0, remote_ofmap)).

(** [layernorm_layer]: the output feature map after the call, every cluster
    [c] starting on scratchpad contents [t0 c].  The clusters write disjoint
    regions of the output, so they are run one after the other.  There is
    no value when the run reads an uninitialised variable (unsupported
    precision).  The kernel called reads the tile at the element type it
    was transferred at, except for half-precision data with [baseline == 1],
    where the scalar single-precision kernel is called on the
    half-precision tiles. *)
Definition layernorm_layer (t0 : Z -> tcdm) (l : layernorm_layer_t F) : option (buf F) :=
  match data_type_size (dtype l), select_kernel l with
  | Some dts, Some k =>
      if kernel_reads k (dtype l) then
        Some (for_range 0 (cluster_num p) (fun c remote_ofmap =>
                cluster_run dts k l c (t0 c) remote_ofmap) (ofmap l))
      else
        match k, dtype l with
        | K_fp32_naive, FP16 =>
            Some (for_range 0 (cluster_num p) (fun c remote_ofmap =>
                    cluster_run_words l c (t0 c) remote_ofmap) (ofmap l))
        | _, _ => None
        end
  | _, _ => None
  end.

(** A row function that reads the [E] elements of its row only. *)
Definition row_local (E : Z) (f : (Z -> F) -> Z -> F) : Prop :=
  forall (x y : Z -> F) (i : Z),
    0 <= i < E -> (forall j, 0 <= j < E -> x j = y j) -> f x i = f y i.

(** Kernel [k] is row-wise with row function [f]: a compute hart writes
    the image of each of its rows and nothing else, the data mover
    nothing. *)
Definition kernel_rowwise (f : (Z -> F) -> Z -> F) (k : kernel_t)
    (l : layernorm_layer_t F) : Prop :=
  forall (h : hart) (input output : buf F) (idx : Z),
    (0 <= cluster_core_idx h < cluster_compute_core_num p ->
       run_kernel k h l input output idx =
       fold_left (fun o r => write_row f (embeddings l) input r o)
                 (hart_rows (batch_size l) (tile_seq_len l)
                            (cluster_compute_core_num p) (cluster_core_idx h))
                 output idx) /\
    (cluster_core_idx h = cluster_compute_core_num p ->
       run_kernel k h l input output idx = output idx).

(** The configurations the driver is written for: positive sizes, the
    tiles dividing the sequence, the clusters dividing the tiles, the
    compute cores dividing the rows of a tile, and a feature map that fits
    the 32-bit address space. *)
Definition layer_ok (l : layernorm_layer_t F) : Prop :=
  0 < batch_size l /\ 0 < seq_len l /\ 0 < embeddings l /\
  0 < n_tiles l /\ 0 < cluster_num p /\ 0 < cluster_compute_core_num p /\
  (n_tiles l | seq_len l) /\ (cluster_num p | n_tiles l) /\
  (cluster_compute_core_num p | seq_len l / n_tiles l) /\
  batch_size l * seq_len l * embeddings l * sizeof_float < 2 ^ 32.

(** The configuration [l] with the sequence axis cut into [k] tiles. *)
Definition with_tiles (l : layernorm_layer_t F) (k : Z) : layernorm_layer_t F :=
  {| batch_size := batch_size l; seq_len := seq_len l; embeddings := embeddings l;
     n_tiles := k; baseline := baseline l; eps := eps l; ifmap := ifmap l;
     ofmap := ofmap l; dtype := dtype l |}.

(** The row function of the single-precision kernel a configuration
    selects, with the [eps] the kernel receives. *)
Definition fp32_row (l : layernorm_layer_t F) : (Z -> F) -> Z -> F :=
  if baseline l =? 1
  then layernorm_row (embeddings l) (f_of_int (f_to_int (eps l)))
  else layernorm_row_opt (embeddings l) (f_of_int (f_to_int (eps l))).

(** The feature map the layer is to produce: every row of the input
    normalised with the row function [f], the rest of the output buffer
    as it was. *)
Definition rowwise_spec (f : (Z -> F) -> Z -> F) (l : layernorm_layer_t F) : buf F :=
  fun idx =>
    if (0 <=? idx) && (idx <? batch_size l * seq_len l * embeddings l)
    then f (row_of (ifmap l) (embeddings l) (idx / embeddings l)) (idx mod embeddings l)
    else ofmap l idx.

End Layer.

(** The elements of row [r] the vectorised kernel reaches: the first
    [8 * q] of its [E]. *)
Definition reached (E q r idx : Z) : bool :=
  (r * E <=? idx) && (idx <? r * E + 8 * q).

(** ** Observations on the events of a run *)

Definition is_cluster_barrier (e : event) : bool :=
  match e with EvClusterBarrier => true | _ => false end.

(** The number of times a hart waits at the cluster barrier. *)
Definition cluster_barriers (evs : list event) : nat :=
  length (filter is_cluster_barrier evs).

(** Where the transfers of lines 472-480 and 511-519 put element [idx] of
    a feature map of rows [S] x [E] per batch, cut into tiles of [ts] rows:
    the tile it belongs to, and its index within the scratchpad tile. *)
Definition tile_of (S E ts idx : Z) : Z := idx mod (S * E) / (ts * E).

Definition tile_slot (S E ts idx : Z) : Z :=
  idx / (S * E) * (ts * E) + idx mod (S * E) mod (ts * E).

(** The configuration [l] with another [eps]. *)
Definition with_eps (F : Type) (l : layernorm_layer_t F) (e : F) : layernorm_layer_t F :=
  {| batch_size := batch_size l; seq_len := seq_len l; embeddings := embeddings l;
     n_tiles := n_tiles l; baseline := baseline l; eps := e; ifmap := ifmap l;
     ofmap := ofmap l; dtype := dtype l |}.

End LayerNorm.

(* ===================================================================== *)
(** * Row statistics over the reals *)
(* ===================================================================== *)

Module RowStatistics.

Import Ideal.
Local Open Scope R_scope.

(** The mean and the (biased) variance of [x 0 .. x (E - 1)], and element
    [i] of the row normalised with the constant [e] under the root. *)
Definition mean (x : Z -> R) (E : Z) : R := Rsum x E / IZR E.

Definition variance (x : Z -> R) (E : Z) : R :=
  Rsum (fun j => (x j - mean x E) * (x j - mean x E)) E / IZR E.

Definition normalized (x : Z -> R) (E : Z) (e : R) (i : Z) : R :=
  (x i - mean x E) / sqrt (variance x E + e).

End RowStatistics.

(* ===================================================================== *)
(** * Dense linear algebra primitives *)
(* ===================================================================== *)

Module Blas.

Import Machine.
Local Open Scope Z_scope.

Section Primitives.

Context {F : Type} {FO : FloatOps F}.

(** Modelled from the spec: the dense GEMM primitive [sc_st_gemm] of
    [blas.h], which is not part of the sources:
    [C = alpha * op(A) * op(B) + beta * C], with an independent transpose
    flag on each operand, overwriting [C] when [beta] is 0 and accumulating
    otherwise.  It is a collective call of the compute cores of a cluster;
    this is its effect on [C] once all of them have returned. *)
Definition gemm (transa transb : Z) (M N K : Z) (alpha : Z)
    (A : buf F) (lda : Z) (B : buf F) (ldb : Z)
    (beta : Z) (C : buf F) (ldc : Z) : buf F :=
  for_range 0 M (fun m C =>
    for_range 0 N (fun n C =>
      let a := fun k => if transa =? 0 then A (m * lda + k) else A (k * lda + m) in
      let b := fun k => if transb =? 0 then B (k * ldb + n) else B (n * ldb + k) in
      let dot := for_range 0 K (fun k acc => f_add acc (f_mul (a k) (b k))) f_zero in
      let ab := f_mul (f_of_int alpha) dot in
      upd C (m * ldc + n)
          (if beta =? 0 then ab
           else f_add ab (f_mul (f_of_int beta) (C (m * ldc + n))))) C) C.

(** Modelled from the spec: the transpose primitive [transpose_kernel],
    which is not part of the sources: [dst = src^t] for a [rows] x [cols]
    source. *)
Definition transpose_kernel (src dst : buf F) (rows cols : Z) : buf F :=
  for_range 0 rows (fun r dst =>
    for_range 0 cols (fun c dst => upd dst (c * rows + r) (src (r * cols + c))) dst)
    dst.

(** The dot product the GEMM primitive accumulates for one element of the
    result. *)
Definition dot (K : Z) (a b : Z -> F) : F :=
  for_range 0 K (fun k acc => f_add acc (f_mul (a k) (b k))) f_zero.

End Primitives.

End Blas.

(* ===================================================================== *)
(** * FlashAttention-2 layer *)
(* ===================================================================== *)

Module FlashAttention.

Import Machine Runtime Blas.
Local Open Scope Z_scope.

Definition sizeof_float : Z := 4.

Record flashattention_2_layer_t (F : Type) : Type := {
  N : Z;
  d : Z;
  B_r : Z;
  B_c : Z;
  Q : buf F;      (* contents of the query tensor *)
  K : buf F;      (* contents of the key tensor *)
  V : buf F;      (* contents of the value tensor *)
  O : buf F;      (* contents of the output tensor *)
  baseline : Z
}.

(** The buffers carved out of the scratchpad, lines 78-97, and the
    transposed value tile of the optimised path. *)
Record tcdm (F : Type) : Type := {
  Q_fa : buf F;
  K_fa : buf F;
  V_fa : buf F;
  S_fa : buf F;
  P_fa : buf F;
  O_fa : buf F;
  m_i : buf F;
  m_i_prev : buf F;
  l_i : buf F;
  V_t : buf F
}.

Section Kernel.

Context {F : Type} {FO : FloatOps F}.
Variable p : platform.

Definition set_Q_fa (t : tcdm F) (b : buf F) : tcdm F :=
  {| Q_fa := b; K_fa := K_fa t; V_fa := V_fa t; S_fa := S_fa t; P_fa := P_fa t;
     O_fa := O_fa t; m_i := m_i t; m_i_prev := m_i_prev t; l_i := l_i t;
     V_t := V_t t |}.
Definition set_K_fa (t : tcdm F) (b : buf F) : tcdm F :=
  {| Q_fa := Q_fa t; K_fa := b; V_fa := V_fa t; S_fa := S_fa t; P_fa := P_fa t;
     O_fa := O_fa t; m_i := m_i t; m_i_prev := m_i_prev t; l_i := l_i t;
     V_t := V_t t |}.
Definition set_V_fa (t : tcdm F) (b : buf F) : tcdm F :=
  {| Q_fa := Q_fa t; K_fa := K_fa t; V_fa := b; S_fa := S_fa t; P_fa := P_fa t;
     O_fa := O_fa t; m_i := m_i t; m_i_prev := m_i_prev t; l_i := l_i t;
     V_t := V_t t |}.
Definition set_S_fa (t : tcdm F) (b : buf F) : tcdm F :=
  {| Q_fa := Q_fa t; K_fa := K_fa t; V_fa := V_fa t; S_fa := b; P_fa := P_fa t;
     O_fa := O_fa t; m_i := m_i t; m_i_prev := m_i_prev t; l_i := l_i t;
     V_t := V_t t |}.
Definition set_P_fa (t : tcdm F) (b : buf F) : tcdm F :=
  {| Q_fa := Q_fa t; K_fa := K_fa t; V_fa := V_fa t; S_fa := S_fa t; P_fa := b;
     O_fa := O_fa t; m_i := m_i t; m_i_prev := m_i_prev t; l_i := l_i t;
     V_t := V_t t |}.
Definition set_O_fa (t : tcdm F) (b : buf F) : tcdm F :=
  {| Q_fa := Q_fa t; K_fa := K_fa t; V_fa := V_fa t; S_fa := S_fa t; P_fa := P_fa t;
     O_fa := b; m_i := m_i t; m_i_prev := m_i_prev t; l_i := l_i t;
     V_t := V_t t |}.
Definition set_m_i (t : tcdm F) (b : buf F) : tcdm F :=
  {| Q_fa := Q_fa t; K_fa := K_fa t; V_fa := V_fa t; S_fa := S_fa t; P_fa := P_fa t;
     O_fa := O_fa t; m_i := b; m_i_prev := m_i_prev t; l_i := l_i t;
     V_t := V_t t |}.
Definition set_m_i_prev (t : tcdm F) (b : buf F) : tcdm F :=
  {| Q_fa := Q_fa t; K_fa := K_fa t; V_fa := V_fa t; S_fa := S_fa t; P_fa := P_fa t;
     O_fa := O_fa t; m_i := m_i t; m_i_prev := b; l_i := l_i t;
     V_t := V_t t |}.
Definition set_l_i (t : tcdm F) (b : buf F) : tcdm F :=
  {| Q_fa := Q_fa t; K_fa := K_fa t; V_fa := V_fa t; S_fa := S_fa t; P_fa := P_fa t;
     O_fa := O_fa t; m_i := m_i t; m_i_prev := m_i_prev t; l_i := b;
     V_t := V_t t |}.
Definition set_V_t (t : tcdm F) (b : buf F) : tcdm F :=
  {| Q_fa := Q_fa t; K_fa := K_fa t; V_fa := V_fa t; S_fa := S_fa t; P_fa := P_fa t;
     O_fa := O_fa t; m_i := m_i t; m_i_prev := m_i_prev t; l_i := l_i t;
     V_t := b |}.

(** The quantities row 0 of the row block carries from one column tile
    to the next: its query element, running maximum, running sum and
    accumulator, for head dimension 1. *)
Definition row_state (t : tcdm F) (q mx li ov : F) : Prop :=
  Q_fa t 0 = q /\ m_i t 0 = mx /\ l_i t 0 = li /\ O_fa t 0 = ov.

Variable l : flashattention_2_layer_t F.

(** Lines 57-64. *)
Definition compute_id (h : hart) : Z := u32 (global_core_idx p h).
Definition num_cores : Z := cluster_compute_core_num p.
Definition T_r : Z := udiv (N l) (B_r l).
Definition T_c : Z := udiv (N l) (B_c l).

(** Lines 124-126. *)
Definition rows_per_core : Z := udiv (B_r l) num_cores.
Definition start_row (h : hart) : Z := u32 (rows_per_core * compute_id h).
Definition end_row (h : hart) : Z := u32 (start_row h + rows_per_core).

(** Lines 127-133: one hart initialises the statistics of its rows. *)
Definition init_stats (h : hart) (t : tcdm F) : tcdm F :=
  if is_compute_core p h then
    for_range (start_row h) (end_row h) (fun row_idx t =>
      let t := set_m_i t (upd (m_i t) row_idx f_neg_inf) in
      let t := set_m_i_prev t (upd (m_i_prev t) row_idx f_neg_inf) in
      set_l_i t (upd (l_i t) row_idx f_zero)) t
  else t.

(** Lines 187-223: one row of the softmax statistics in column tile [t_c]. *)
Definition softmax_row (t_c : Z) (row_idx : Z) (t : tcdm F) : tcdm F :=
  (* Save m of current tile to rescale next tile *)
  let t := set_m_i_prev t (upd (m_i_prev t) row_idx (m_i t row_idx)) in
  let row_sum := f_zero in
  (* maximum of the current row *)
  let t :=
    for_range 0 (B_c l) (fun col_idx t =>
      let val := S_fa t (u32 (row_idx * B_c l + col_idx)) in
      if f_gt val (m_i t row_idx) then set_m_i t (upd (m_i t) row_idx val) else t) t in
  (* P tile as the local softmax of S *)
  let '(t, row_sum) :=
    for_range 0 (B_c l) (fun col_idx '(t, row_sum) =>
      let t :=
        set_P_fa t (upd (P_fa t) (u32 (row_idx * B_c l + col_idx))
                        (f_exp (f_sub (S_fa t (u32 (row_idx * B_c l + col_idx)))
                                      (m_i t row_idx)))) in
      (t, f_add row_sum (P_fa t (u32 (row_idx * B_c l + col_idx)))))
      (t, row_sum) in
  (* rescaling factor l *)
  let shifted_exp := f_exp (f_sub (m_i_prev t row_idx) (m_i t row_idx)) in
  let t :=
    if negb (t_c =? 0)
    then set_l_i t (upd (l_i t) row_idx
                        (f_add (f_mul (l_i t row_idx) shifted_exp) row_sum))
    else set_l_i t (upd (l_i t) row_idx row_sum) in
  (* O_ij = diag(shifted_exp)^(-1) * O_i(j-1) *)
  if negb (t_c =? 0) then
    for_range 0 (d l) (fun col_idx t =>
      set_O_fa t (upd (O_fa t) (u32 (row_idx * d l + col_idx))
                      (f_div (O_fa t (u32 (row_idx * d l + col_idx))) shifted_exp))) t
  else t.

Definition softmax_rows (t_c : Z) (h : hart) (t : tcdm F) : tcdm F :=
  if is_compute_core p h then
    for_range (start_row h) (end_row h) (softmax_row t_c) t
  else t.

(** Lines 276-282: the final normalisation of the rows of one hart. *)
Definition normalize_rows (h : hart) (t : tcdm F) : tcdm F :=
  if is_compute_core p h then
    for_range (start_row h) (end_row h) (fun row_idx t =>
      for_range 0 (d l) (fun col_idx t =>
        set_O_fa t (upd (O_fa t) (u32 (row_idx * d l + col_idx))
                        (f_div (O_fa t (u32 (row_idx * d l + col_idx)))
                               (l_i t row_idx)))) t) t
  else t.

(** A phase that every hart of cluster [c] takes part in. *)
Definition all_harts (c : Z) (phase : hart -> tcdm F -> tcdm F) (t : tcdm F) : tcdm F :=
  fold_left (fun t h => phase h t) (cluster_harts p c) t.

(** Lines 141-270: one iteration of the column-tile loop in cluster [c]. *)
Definition inner_iter (c : Z) (t_c : Z) (t : tcdm F) : tcdm F :=
  let k_fa_offset := u32 (t_c * B_c l * d l) in
  let v_fa_offset := u32 (t_c * B_c l * d l) in
  (* DMA copy of the K and V blocks *)
  let t := set_K_fa t
    (dma_2d sizeof_float (K_fa t) 0 (K l) (k_fa_offset * sizeof_float)
            (u32 (d l * sizeof_float)) (u32 (d l * sizeof_float))
            (u32 (d l * sizeof_float)) (B_c l)) in
  let t := set_V_fa t
    (dma_2d sizeof_float (V_fa t) 0 (V l) (v_fa_offset * sizeof_float)
            (u32 (d l * sizeof_float)) (u32 (d l * sizeof_float))
            (u32 (d l * sizeof_float)) (B_c l)) in
  (* S = Q * K^T *)
  let t := set_S_fa t
    (gemm 0 1 (B_r l) (B_c l) (d l) 1 (Q_fa t) (d l) (K_fa t) (d l) 0
          (S_fa t) (B_c l)) in
  (* softmax statistics, rows distributed to the cores *)
  let t := all_harts c (softmax_rows t_c) t in
  (* O tile *)
  if negb (baseline l =? 0) then
    let beta := if t_c =? 0 then 0 else 1 in
    set_O_fa t
      (gemm 0 0 (B_r l) (d l) (B_c l) 1 (P_fa t) (B_c l) (V_fa t) (d l) beta
            (O_fa t) (d l))
  else
    let t := set_V_t t (transpose_kernel (V_fa t) (V_t t) (B_c l) (d l)) in
    let beta := if t_c =? 0 then 0 else 1 in
    set_O_fa t
      (gemm 0 1 (B_r l) (d l) (B_c l) 1 (P_fa t) (B_c l) (V_t t) (B_c l) beta
            (O_fa t) (d l)).

(** Lines 104-137: the part of a row-tile iteration before the inner loop. *)
Definition outer_prologue (c : Z) (t_r : Z) (t : tcdm F) : tcdm F :=
  let q_fa_offset := u32 (t_r * B_r l * d l) in
  let t := set_Q_fa t
    (dma_2d sizeof_float (Q_fa t) 0 (Q l) (q_fa_offset * sizeof_float)
            (u32 (d l * sizeof_float)) (u32 (d l * sizeof_float))
            (u32 (d l * sizeof_float)) (B_r l)) in
  all_harts c init_stats t.

(** The inner loop run for its first [n] column tiles. *)
Definition inner_loop (c : Z) (n : Z) (t : tcdm F) : tcdm F :=
  for_range 0 n (inner_iter c) t.

(** Lines 272-304: the part of a row-tile iteration after the inner loop. *)
Definition outer_epilogue (c : Z) (t_r : Z) (st : tcdm F * buf F) : tcdm F * buf F :=
  let '(t, O_l3) := st in
  let t := all_harts c normalize_rows t in
  let o_fa_offset := u32 (t_r * B_r l * d l) in
  (t, dma_2d sizeof_float O_l3 (o_fa_offset * sizeof_float) (O_fa t) 0
             (u32 (d l * sizeof_float)) (u32 (d l * sizeof_float))
             (u32 (d l * sizeof_float)) (B_r l)).

(** Lines 103-306: one iteration of the row-tile loop. *)
Definition outer_iter (c : Z) (t_r : Z) (st : tcdm F * buf F) : tcdm F * buf F :=
  let '(t, O_l3) := st in
  outer_epilogue c t_r (inner_loop c T_c (outer_prologue c t_r t), O_l3).

(** [flashattention_2_layer] run by cluster [c] on scratchpad contents [t0]:
    the output tensor after the call. *)
Definition flashattention_2_layer (c : Z) (t0 : tcdm F) : buf F :=
  snd (for_range 0 T_r (outer_iter c) (t0, O l)).

End Kernel.

(** ** Control skeleton: what one hart executes between barriers *)

Inductive op : Type :=
| HwBarrier          (* snrt_cluster_hw_barrier *)
| DmaTransfer        (* snrt_dma_start_2d ... snrt_dma_wait_all *)
| InitStats
| Gemm
| Transpose
| Softmax
| Normalize
| FpuFence.

(** The role-split branch of the inner loop, lines 174-269. *)
Definition inner_branch_ops (is_compute : bool) (baseline : Z) : list op :=
  if is_compute then
    [Gemm; HwBarrier; Softmax; HwBarrier; HwBarrier] ++
    (if negb (baseline =? 0) then [Gemm] else [Transpose; Gemm]) ++
    [HwBarrier]
  else [HwBarrier; HwBarrier; HwBarrier; HwBarrier].

(** One iteration of the inner loop, lines 141-270. *)
Definition inner_iter_ops (is_compute : bool) (baseline : Z) : list op :=
  [HwBarrier] ++
  (if negb is_compute then [DmaTransfer] else []) ++
  [HwBarrier] ++
  inner_branch_ops is_compute baseline.

(** One iteration of the outer loop, lines 103-306. *)
Definition outer_iter_ops (is_compute : bool) (baseline : Z) (T_c : nat) : list op :=
  (if negb is_compute then [DmaTransfer] else []) ++
  [HwBarrier] ++
  (if is_compute then [InitStats] else []) ++
  [HwBarrier; HwBarrier] ++
  concat (repeat (inner_iter_ops is_compute baseline) T_c) ++
  [HwBarrier] ++
  (if is_compute then [Normalize] else []) ++
  [FpuFence; HwBarrier; HwBarrier] ++
  (if negb is_compute then [DmaTransfer] else []).

(** The whole kernel, lines 102-309. *)
Definition layer_ops (is_compute : bool) (baseline : Z) (T_r T_c : nat) : list op :=
  concat (repeat (outer_iter_ops is_compute baseline T_c) T_r) ++ [HwBarrier].

Definition is_barrier (o : op) : bool :=
  match o with HwBarrier => true | _ => false end.

Definition barrier_count (ops : list op) : nat :=
  length (filter is_barrier ops).

(** ** The hardware barrier as a rendezvous *)

(** A hart runs its operations up to its next barrier and waits there. *)
Fixpoint to_barrier (ops : list op) : list op :=
  match ops with
  | [] => []
  | HwBarrier :: _ => ops
  | _ :: rest => to_barrier rest
  end.

Definition finished (ops : list op) : bool :=
  match ops with [] => true | _ => false end.

Inductive verdict : Type :=
| Completed       (* every hart ran to the end of its text *)
| Deadlock        (* some hart waits at a barrier another never reaches *)
| OutOfFuel.

(** The team runs in rounds: every hart advances to its next barrier; the
    barrier releases when all of them wait at it. *)
Fixpoint rendezvous (fuel : nat) (team : list (list op)) : verdict :=
  let team := map to_barrier team in
  if forallb finished team then Completed
  else if existsb finished team then Deadlock
  else match fuel with
       | Datatypes.O => OutOfFuel
       | Datatypes.S fuel' => rendezvous fuel' (map (@tl op) team)
       end.

(** ** The tiles of the scratchpad by name *)

Inductive field : Type :=
| f_Q_fa | f_K_fa | f_V_fa | f_S_fa | f_P_fa | f_O_fa
| f_m_i | f_m_i_prev | f_l_i | f_V_t.

Definition get (F : Type) (f : field) (t : tcdm F) : buf F :=
  match f with
  | f_Q_fa => Q_fa t
  | f_K_fa => K_fa t
  | f_V_fa => V_fa t
  | f_S_fa => S_fa t
  | f_P_fa => P_fa t
  | f_O_fa => O_fa t
  | f_m_i => m_i t
  | f_m_i_prev => m_i_prev t
  | f_l_i => l_i t
  | f_V_t => V_t t
  end.

Section RowLoops.

Context {F : Type} {FO : FloatOps F}.

(** The maximum the loop of lines 196-199 leaves, started from [m0], over
    the entries [s 0 .. s (n - 1)]. *)
Definition running_max (n : Z) (s : Z -> F) (m0 : F) : F :=
  for_range 0 n (fun col m => if f_gt (s col) m then s col else m) m0.

(** The sum the loop of lines 202-206 accumulates. *)
Definition exp_sum (n : Z) (s : Z -> F) (m : F) : F :=
  for_range 0 n (fun col a => f_add a (f_exp (f_sub (s col) m))) f_zero.

Variable l : flashattention_2_layer_t F.

(** Row [r] of the S tile. *)
Definition row_scores (t : tcdm F) (r : Z) : Z -> F :=
  fun col => S_fa t (r * B_c l + col).

(** What the statistics pass makes of row [r], from the scratchpad [t] it
    starts on: the new maximum, the factor [shifted_exp] and the new sum. *)
Definition new_max (t : tcdm F) (r : Z) : F :=
  running_max (B_c l) (row_scores t r) (m_i t r).

Definition rescale_factor (t : tcdm F) (r : Z) : F :=
  f_exp (f_sub (m_i t r) (new_max t r)).

Definition new_sum (t_c : Z) (t : tcdm F) (r : Z) : F :=
  if t_c =? 0 then exp_sum (B_c l) (row_scores t r) (new_max t r)
  else f_add (f_mul (l_i t r) (rescale_factor t r))
             (exp_sum (B_c l) (row_scores t r) (new_max t r)).

(** The scores of query row [r] of the row block in the scratchpad [t]
    against the keys of column tile 0, as the first GEMM computes them. *)
Definition tile_scores (t : tcdm F) (r : Z) : Z -> F :=
  fun j => f_mul (f_of_int 1)
                 (dot (d l) (fun k => Q_fa t (r * d l + k)) (fun k => K l (j * d l + k))).

(** Element [(i, c)] of the attention of query [i] over the keys and
    values of column tile 0, as one column tile leaves it in the output:
    the scores [Q K^t], the exponentials of the scores less their running
    maximum started at [-INFINITY], their product with [V], and the division
    by their sum. *)
Definition first_tile_attention (i c : Z) : F :=
  let s := fun j =>
    f_mul (f_of_int 1)
          (dot (d l) (fun k => Q l (i * d l + k)) (fun k => K l (j * d l + k))) in
  let mx := running_max (B_c l) s f_neg_inf in
  f_div (f_mul (f_of_int 1)
               (dot (B_c l) (fun j => f_exp (f_sub (s j) mx))
                            (fun j => V l (j * d l + c))))
        (exp_sum (B_c l) s mx).

End RowLoops.

(** The tiles the statistics pass and the final rescaling only read. *)
Definition read_only (f : field) : bool :=
  match f with
  | f_Q_fa | f_K_fa | f_V_fa | f_S_fa | f_V_t => true
  | _ => false
  end.

(** ** The scratchpad layout, lines 66-97 and 244-246 *)

(** The byte addresses of the buffers carved out of the scratchpad, and
    the bump pointer after them.  Addresses are 32 bits wide. *)
Record tcdm_layout : Type := {
  Q_fa_at : Z;
  K_fa_at : Z;
  V_fa_at : Z;
  S_fa_at : Z;
  P_fa_at : Z;
  O_fa_at : Z;
  m_i_at : Z;
  m_i_prev_at : Z;
  l_i_at : Z;
  tcdm_ptr : Z
}.

Section Layout.

Context {F : Type}.
Variable l : flashattention_2_layer_t F.

(** Lines 66-97, from the address [l1_next] that [snrt_l1_next ()]
    returns. *)
Definition allocate (l1_next : Z) : tcdm_layout :=
  let q_fa_size := u32 (B_r l * d l * sizeof_float) in
  let k_fa_size := u32 (B_c l * d l * sizeof_float) in
  let v_fa_size := u32 (B_c l * d l * sizeof_float) in
  let s_fa_size := u32 (B_r l * B_c l * sizeof_float) in
  let p_fa_size := u32 (B_r l * B_c l * sizeof_float) in
  let o_fa_size := u32 (B_r l * d l * sizeof_float) in
  let m_i_size := u32 (B_r l * sizeof_float) in
  let m_i_prev_size := m_i_size in
  let l_i_size := u32 (B_r l * sizeof_float) in
  let tcdm_ptr := l1_next in
  let Q_fa := tcdm_ptr in
  let tcdm_ptr := u32 (tcdm_ptr + q_fa_size) in
  let K_fa := tcdm_ptr in
  let tcdm_ptr := u32 (tcdm_ptr + k_fa_size) in
  let V_fa := tcdm_ptr in
  let tcdm_ptr := u32 (tcdm_ptr + v_fa_size) in
  let S_fa := tcdm_ptr in
  let tcdm_ptr := u32 (tcdm_ptr + s_fa_size) in
  let P_fa := tcdm_ptr in
  let tcdm_ptr := u32 (tcdm_ptr + p_fa_size) in
  let O_fa := tcdm_ptr in
  let tcdm_ptr := u32 (tcdm_ptr + o_fa_size) in
  let m_i := tcdm_ptr in
  let tcdm_ptr := u32 (tcdm_ptr + m_i_size) in
  let m_i_prev := tcdm_ptr in
  let tcdm_ptr := u32 (tcdm_ptr + m_i_prev_size) in
  let l_i := tcdm_ptr in
  let tcdm_ptr := u32 (tcdm_ptr + l_i_size) in
  {| Q_fa_at := Q_fa; K_fa_at := K_fa; V_fa_at := V_fa; S_fa_at := S_fa;
     P_fa_at := P_fa; O_fa_at := O_fa; m_i_at := m_i; m_i_prev_at := m_i_prev;
     l_i_at := l_i; tcdm_ptr := tcdm_ptr |}.

(** The bytes of the nine tiles taken together. *)
Definition fixed_bytes : Z :=
  (2 * (B_r l * d l) + 2 * (B_c l * d l) + 2 * (B_r l * B_c l) + 3 * B_r l) * 4.

(** Lines 231-259, on the bump pointer of a compute core: the baseline
    path leaves it alone, the optimised path takes the transposed value
    tile from it. *)
Definition inner_iter_ptr (ptr : Z) : Z :=
  if negb (baseline l =? 0) then ptr
  else u32 (ptr + u32 (B_c l * d l * sizeof_float)).

(** The bump pointer of a compute core at the start of inner iteration
    [t_c] of outer iteration [t_r]: the address the optimised path gives
    [V_t] there. *)
Definition V_t_at (l1_next t_r t_c : Z) : Z :=
  for_range 0 t_c (fun _ ptr => inner_iter_ptr ptr)
    (for_range 0 t_r (fun _ ptr => for_range 0 (T_c l) (fun _ ptr => inner_iter_ptr ptr) ptr)
       (tcdm_ptr (allocate l1_next))).

(** The bump pointer of a compute core when the kernel returns. *)
Definition final_tcdm_ptr (l1_next : Z) : Z := V_t_at l1_next (T_r l) 0.

End Layout.

End FlashAttention.

(* ===================================================================== *)
(** * Concrete configurations *)
(* ===================================================================== *)

Module Scenarios.

Import Machine Runtime Ideal.
Local Open Scope Z_scope.

(** One cluster with a single compute core, and one with two. *)
Definition one_core : platform :=
  {| cluster_num := 1; cluster_compute_core_num := 1 |}.
Definition two_cores : platform :=
  {| cluster_num := 1; cluster_compute_core_num := 2 |}.

(** Scratchpads holding zeros. *)
Definition zero_tiles : Z -> @LayerNorm.tcdm xreal :=
  fun _ => {| LayerNorm.local_itile := fun _ => Fin 0;
              LayerNorm.local_otile := fun _ => Fin 0 |}.

(** A feature map of one constant row [1, 1] with the usual [eps] of
    [1e-5], baseline kernel, single precision. *)
Definition constant_row : LayerNorm.layernorm_layer_t xreal :=
  {| LayerNorm.batch_size := 1; LayerNorm.seq_len := 1; LayerNorm.embeddings := 2;
     LayerNorm.n_tiles := 1; LayerNorm.baseline := 1;
     LayerNorm.eps := Fin (1 / 100000);
     LayerNorm.ifmap := fun _ => Fin 1; LayerNorm.ofmap := fun _ => Fin 0;
     LayerNorm.dtype := LayerNorm.FP32 |}.

(** A feature map of two rows [0, 2], [eps] zero, baseline kernel, single
    precision, the sequence axis in one tile. *)
Definition two_rows : LayerNorm.layernorm_layer_t xreal :=
  {| LayerNorm.batch_size := 1; LayerNorm.seq_len := 2; LayerNorm.embeddings := 2;
     LayerNorm.n_tiles := 1; LayerNorm.baseline := 1;
     LayerNorm.eps := Fin 0;
     LayerNorm.ifmap := fun i => if Z.odd i then Fin 2 else Fin 0;
     LayerNorm.ofmap := fun _ => Fin 0;
     LayerNorm.dtype := LayerNorm.FP32 |}.

(** The two rows again, as half-precision data behind the baseline flag,
    and behind a selector that is neither FP32 nor FP16. *)
Definition half_rows : LayerNorm.layernorm_layer_t xreal :=
  {| LayerNorm.batch_size := 1; LayerNorm.seq_len := 2; LayerNorm.embeddings := 2;
     LayerNorm.n_tiles := 1; LayerNorm.baseline := 1;
     LayerNorm.eps := Fin 0;
     LayerNorm.ifmap := fun i => if Z.odd i then Fin 2 else Fin 0;
     LayerNorm.ofmap := fun _ => Fin 0;
     LayerNorm.dtype := LayerNorm.FP16 |}.

Definition double_rows : LayerNorm.layernorm_layer_t xreal :=
  {| LayerNorm.batch_size := 1; LayerNorm.seq_len := 2; LayerNorm.embeddings := 2;
     LayerNorm.n_tiles := 1; LayerNorm.baseline := 0;
     LayerNorm.eps := Fin 0;
     LayerNorm.ifmap := fun i => if Z.odd i then Fin 2 else Fin 0;
     LayerNorm.ofmap := fun _ => Fin 0;
     LayerNorm.dtype := LayerNorm.FP_other 8 |}.

(** The two rows as half-precision data for the vectorised kernel. *)
Definition half_vector_rows : LayerNorm.layernorm_layer_t xreal :=
  {| LayerNorm.batch_size := 1; LayerNorm.seq_len := 2; LayerNorm.embeddings := 2;
     LayerNorm.n_tiles := 1; LayerNorm.baseline := 0;
     LayerNorm.eps := Fin 0;
     LayerNorm.ifmap := fun i => if Z.odd i then Fin 2 else Fin 0;
     LayerNorm.ofmap := fun _ => Fin 0;
     LayerNorm.dtype := LayerNorm.FP16 |}.

(** One half-precision row of sixteen elements [0, 2, 0, 2, ...] and an
    output tile of zeros. *)
Definition sixteen : Z -> xreal := fun i => if Z.odd i then Fin 2 else Fin 0.
Definition zeros : Z -> xreal := fun _ => Fin 0.

(** The first two cores of the first cluster. *)
Definition core0 : hart := {| cluster_idx := 0; cluster_core_idx := 0 |}.
Definition core1 : hart := {| cluster_idx := 0; cluster_core_idx := 1 |}.

(** A compute core of a second cluster of two compute cores. *)
Definition far_core : hart := {| cluster_idx := 1; cluster_core_idx := 0 |}.

(** Attention over two tokens with head dimension 1, in row and column
    blocks of one token: [Q = [1; 1]], [K = [0; 1]], [V = [1; 0]], so the
    scores of every query are [0, 1].  [baseline] selects the GEMM path. *)
Definition two_tokens (baseline : Z) : FlashAttention.flashattention_2_layer_t xreal :=
  {| FlashAttention.N := 2; FlashAttention.d := 1;
     FlashAttention.B_r := 1; FlashAttention.B_c := 1;
     FlashAttention.Q := fun _ => Fin 1;
     FlashAttention.K := fun i => if i =? 1 then Fin 1 else Fin 0;
     FlashAttention.V := fun i => if i =? 0 then Fin 1 else Fin 0;
     FlashAttention.O := fun _ => Fin 0;
     FlashAttention.baseline := baseline |}.

(** Row blocks of four rows over two compute cores. *)
Definition four_rows : FlashAttention.flashattention_2_layer_t xreal :=
  {| FlashAttention.N := 4; FlashAttention.d := 1;
     FlashAttention.B_r := 4; FlashAttention.B_c := 1;
     FlashAttention.Q := fun _ => Fin 1;
     FlashAttention.K := fun _ => Fin 0;
     FlashAttention.V := fun _ => Fin 1;
     FlashAttention.O := fun _ => Fin 0;
     FlashAttention.baseline := 1 |}.

(** A scratchpad holding zeros. *)
Definition zero_tcdm : FlashAttention.tcdm xreal :=
  {| FlashAttention.Q_fa := fun _ => Fin 0; FlashAttention.K_fa := fun _ => Fin 0;
     FlashAttention.V_fa := fun _ => Fin 0; FlashAttention.S_fa := fun _ => Fin 0;
     FlashAttention.P_fa := fun _ => Fin 0; FlashAttention.O_fa := fun _ => Fin 0;
     FlashAttention.m_i := fun _ => Fin 0; FlashAttention.m_i_prev := fun _ => Fin 0;
     FlashAttention.l_i := fun _ => Fin 0; FlashAttention.V_t := fun _ => Fin 0 |}.

(** Two clusters of one compute core each. *)
Definition two_clusters : platform :=
  {| cluster_num := 2; cluster_compute_core_num := 1 |}.

(** Attention over three tokens in row blocks of two: the last token has
    no whole row block. *)
Definition three_tokens : FlashAttention.flashattention_2_layer_t xreal :=
  {| FlashAttention.N := 3; FlashAttention.d := 1;
     FlashAttention.B_r := 2; FlashAttention.B_c := 1;
     FlashAttention.Q := fun _ => Fin 1;
     FlashAttention.K := fun _ => Fin 0;
     FlashAttention.V := fun _ => Fin 1;
     FlashAttention.O := fun _ => Fin 0;
     FlashAttention.baseline := 1 |}.

(** The two tokens of [two_tokens] with both keys in one column tile. *)
Definition whole_tile (baseline : Z) : FlashAttention.flashattention_2_layer_t xreal :=
  {| FlashAttention.N := 2; FlashAttention.d := 1;
     FlashAttention.B_r := 1; FlashAttention.B_c := 2;
     FlashAttention.Q := fun _ => Fin 1;
     FlashAttention.K := fun i => if i =? 1 then Fin 1 else Fin 0;
     FlashAttention.V := fun i => if i =? 0 then Fin 1 else Fin 0;
     FlashAttention.O := fun _ => Fin 0;
     FlashAttention.baseline := baseline |}.

(** The two tokens with a column block of four, longer than the
    sequence. *)
Definition wide_tile : FlashAttention.flashattention_2_layer_t xreal :=
  {| FlashAttention.N := 2; FlashAttention.d := 1;
     FlashAttention.B_r := 1; FlashAttention.B_c := 4;
     FlashAttention.Q := fun _ => Fin 1;
     FlashAttention.K := fun i => if i =? 1 then Fin 1 else Fin 0;
     FlashAttention.V := fun i => if i =? 0 then Fin 1 else Fin 0;
     FlashAttention.O := fun _ => Fin 0;
     FlashAttention.baseline := 1 |}.

End Scenarios.

(* ===================================================================== *)
(** * Facts about loops and buffers *)
(* ===================================================================== *)

Section LoopFacts.

Import Machine.
Local Open Scope Z_scope.

Lemma for_count_fold (S : Type) (body : Z -> S -> S) (n : nat) :
  forall (i : Z) (s : S),
    for_count n i body s =
    fold_left (fun s j => body j s) (map (fun k => i + Z.of_nat k) (seq 0 n)) s.
Proof.
  induction n as [|n IH]; intros i s; simpl; [reflexivity|].
  rewrite IH, Z.add_0_r. f_equal.
  rewrite <- seq_shift, map_map.
  apply map_ext. intros k. lia.
Qed.

Lemma for_range_fold (S : Type) (body : Z -> S -> S) (lo hi : Z) (s : S) :
  for_range lo hi body s = fold_left (fun s j => body j s) (loop_indices lo hi) s.
Proof. unfold for_range, loop_indices. apply for_count_fold. Qed.

Lemma in_loop_indices (lo hi i : Z) :
  In i (loop_indices lo hi) <-> lo <= i < hi.
Proof.
  unfold loop_indices. rewrite in_map_iff. split.
  - intros [k [<- Hk]]. apply in_seq in Hk. lia.
  - intros Hi. exists (Z.to_nat (i - lo)). split; [lia|].
    apply in_seq. lia.
Qed.

Lemma loop_indices_nil (lo hi : Z) : hi <= lo -> loop_indices lo hi = [].
Proof.
  intros H. unfold loop_indices.
  replace (Z.to_nat (hi - lo)) with 0%nat by lia. reflexivity.
Qed.

Lemma loop_indices_snoc (lo hi : Z) :
  lo <= hi -> loop_indices lo (hi + 1) = loop_indices lo hi ++ [hi].
Proof.
  intros H. unfold loop_indices.
  replace (Z.to_nat (hi + 1 - lo)) with (Z.to_nat (hi - lo) + 1)%nat by lia.
  rewrite seq_app, map_app. simpl. do 2 f_equal. lia.
Qed.

Lemma for_range_nil (S : Type) (body : Z -> S -> S) (lo hi : Z) (s : S) :
  hi <= lo -> for_range lo hi body s = s.
Proof. intros H. rewrite for_range_fold, loop_indices_nil by assumption. reflexivity. Qed.

Lemma for_range_snoc (S : Type) (body : Z -> S -> S) (lo hi : Z) (s : S) :
  lo <= hi -> for_range lo (hi + 1) body s = body hi (for_range lo hi body s).
Proof.
  intros H. rewrite !for_range_fold, loop_indices_snoc by assumption.
  rewrite fold_left_app. reflexivity.
Qed.

Lemma for_range_ext (S : Type) (f g : Z -> S -> S) (lo hi : Z) (s : S) :
  (forall i s', lo <= i < hi -> f i s' = g i s') ->
  for_range lo hi f s = for_range lo hi g s.
Proof.
  intros H. rewrite !for_range_fold.
  assert (Hin : forall i, In i (loop_indices lo hi) -> lo <= i < hi)
    by (intros i; apply in_loop_indices).
  revert s Hin. induction (loop_indices lo hi) as [|a L IH]; intros s Hin; simpl.
  - reflexivity.
  - rewrite H by (apply Hin; left; reflexivity).
    apply IH. intros i Hi. apply Hin. right. exact Hi.
Qed.

(** An invariant carried through a loop. *)
Lemma for_range_inv (S : Type) (P : S -> Prop) (body : Z -> S -> S) (lo hi : Z) (s : S) :
  P s ->
  (forall i s', lo <= i < hi -> P s' -> P (body i s')) ->
  P (for_range lo hi body s).
Proof.
  intros H0 Hstep. rewrite for_range_fold.
  assert (Hin : forall i, In i (loop_indices lo hi) -> lo <= i < hi)
    by (intros i; apply in_loop_indices).
  revert s H0 Hin. induction (loop_indices lo hi) as [|a L IH]; intros s H0 Hin; simpl.
  - exact H0.
  - apply IH.
    + apply Hstep; [apply Hin; left; reflexivity | exact H0].
    + intros i Hi. apply Hin. right. exact Hi.
Qed.

(** The loop rule with the counter in the invariant. *)
Lemma for_range_ind (S : Type) (P : Z -> S -> Prop) (body : Z -> S -> S)
    (lo hi : Z) (s : S) :
  lo <= hi ->
  P lo s ->
  (forall i s', lo <= i < hi -> P i s' -> P (i + 1) (body i s')) ->
  P hi (for_range lo hi body s).
Proof.
  intros Hle H0 Hstep.
  replace hi with (lo + Z.of_nat (Z.to_nat (hi - lo))) at 1 by lia.
  assert (Hn : lo + Z.of_nat (Z.to_nat (hi - lo)) <= hi) by lia.
  unfold for_range.
  rewrite for_count_fold.
  revert Hn. generalize (Z.to_nat (hi - lo)) as n.
  induction n as [|n IH]; intros Hn.
  - simpl. rewrite Z.add_0_r. exact H0.
  - rewrite seq_S, map_app, fold_left_app. cbn [map fold_left Nat.add].
    replace (lo + Z.of_nat (Datatypes.S n)) with (lo + Z.of_nat n + 1) in * by lia.
    apply Hstep; [lia|]. apply IH. lia.
Qed.

Lemma upd_same (F : Type) (b : buf F) (i : Z) (v : F) : upd b i v i = v.
Proof. unfold upd. rewrite Z.eqb_refl. reflexivity. Qed.

Lemma upd_other (F : Type) (b : buf F) (i j : Z) (v : F) :
  j <> i -> upd b i v j = b j.
Proof. intros H. unfold upd. apply Z.eqb_neq in H. rewrite H. reflexivity. Qed.

(** A loop that stores [g k] at [a + k]. *)
Lemma for_range_upd_at (F : Type) (g : Z -> F) (a cnt : Z) (d : buf F) (idx : Z) :
  0 <= cnt ->
  for_range 0 cnt (fun k d => upd d (a + k) (g k)) d idx =
  if (a <=? idx) && (idx <? a + cnt) then g (idx - a) else d idx.
Proof.
  intros Hc. revert idx.
  apply (for_range_ind
    (fun i (o : buf F) => forall idx,
       o idx = if (a <=? idx) && (idx <? a + i) then g (idx - a) else d idx));
    [exact Hc| |].
  - intros j. destruct (a <=? j) eqn:E1; destruct (j <? a + 0) eqn:E2;
      try reflexivity. apply Z.leb_le in E1. apply Z.ltb_lt in E2. lia.
  - intros i o Hi IHo j. unfold upd.
    destruct (j =? a + i) eqn:Ej.
    + apply Z.eqb_eq in Ej. subst j.
      replace (a <=? a + i) with true by (symmetry; apply Z.leb_le; lia).
      replace (a + i <? a + (i + 1)) with true by (symmetry; apply Z.ltb_lt; lia).
      simpl. f_equal. lia.
    + rewrite IHo. apply Z.eqb_neq in Ej.
      destruct (a <=? j) eqn:E1; [|reflexivity]. simpl.
      destruct (j <? a + i) eqn:E2; destruct (j <? a + (i + 1)) eqn:E3;
        try reflexivity.
      * apply Z.ltb_lt in E2. apply Z.ltb_ge in E3. lia.
      * apply Z.ltb_ge in E2. apply Z.ltb_lt in E3. apply Z.leb_le in E1. lia.
Qed.

(** What one member of a list establishes and all members preserve holds
    after the fold. *)
Lemma fold_left_establish (A B : Type) (g : A -> B -> A) (good : A -> Prop)
    (L : list B) (b0 : B) :
  In b0 L ->
  (forall a, good (g a b0)) ->
  (forall b a, In b L -> good a -> good (g a b)) ->
  forall a : A, good (fold_left g L a).
Proof.
  intros Hin Hest Hpres.
  assert (Hp : forall L', (forall b, In b L' -> In b L) ->
                forall a, good a -> good (fold_left g L' a)).
  { induction L' as [|b L' IH]; intros Hsub a Ha; simpl; [exact Ha|].
    apply IH; [intros b' Hb'; apply Hsub; right; exact Hb'|].
    apply Hpres; [apply Hsub; left; reflexivity | exact Ha]. }
  revert Hin Hpres Hp. induction L as [|b L IH]; intros Hin Hpres Hp a; [destruct Hin|].
  simpl. destruct Hin as [-> | Hin].
  - apply Hp; [intros b' Hb'; right; exact Hb' | apply Hest].
  - apply IH; [exact Hin | |].
    + intros b' a' Hb'. apply Hpres. right. exact Hb'.
    + intros L' Hsub a' Ha'. apply Hp; [|exact Ha'].
      intros b' Hb'. right. apply Hsub. exact Hb'.
Qed.

Lemma fold_left_preserve (A B : Type) (g : A -> B -> A) (good : A -> Prop) (L : list B) :
  (forall b a, In b L -> good a -> good (g a b)) ->
  forall a : A, good a -> good (fold_left g L a).
Proof.
  induction L as [|b L IH]; intros Hpres a Ha; simpl; [exact Ha|].
  apply IH; [intros b' a' Hb'; apply Hpres; right; exact Hb'|].
  apply Hpres; [left; reflexivity | exact Ha].
Qed.

Lemma for_range_establish (S : Type) (good : S -> Prop) (body : Z -> S -> S)
    (lo hi i0 : Z) (s : S) :
  lo <= i0 < hi ->
  (forall s', good (body i0 s')) ->
  (forall i s', lo <= i < hi -> good s' -> good (body i s')) ->
  good (for_range lo hi body s).
Proof.
  intros Hi Hest Hpres. rewrite for_range_fold.
  apply (fold_left_establish (fun s j => body j s) good (loop_indices lo hi) i0).
  - apply in_loop_indices. exact Hi.
  - exact Hest.
  - intros b a Hb. apply Hpres. apply in_loop_indices. exact Hb.
Qed.

(** The strided transfer, element by element, when the chunks do not
    overlap in the destination. *)
Lemma dma_2d_at (F : Type) (esz : Z) (dst : buf F) (dp : Z) (src : buf F)
    (sp cnt ds ss reps idx : Z) :
  0 < esz -> 0 <= cnt <= ds -> 0 < ds -> 0 <= reps ->
  dma_2d esz dst (dp * esz) src (sp * esz) (cnt * esz) (ds * esz) (ss * esz) reps idx =
  if (0 <=? idx - dp) && (idx - dp <? reps * ds) && ((idx - dp) mod ds <? cnt)
  then src (sp + (idx - dp) / ds * ss + (idx - dp) mod ds)
  else dst idx.
Proof.
  intros He Hc Hds Hr. unfold dma_2d.
  rewrite Z.div_mul by lia.
  assert (Hbody : forall r d,
    for_range 0 cnt (fun k d =>
      upd d ((dp * esz + r * (ds * esz)) / esz + k)
            (src ((sp * esz + r * (ss * esz)) / esz + k))) d
    = for_range 0 cnt (fun k d => upd d (dp + r * ds + k) (src (sp + r * ss + k))) d).
  { intros r d. apply for_range_ext. intros k d' _.
    replace (dp * esz + r * (ds * esz)) with ((dp + r * ds) * esz) by ring.
    replace (sp * esz + r * (ss * esz)) with ((sp + r * ss) * esz) by ring.
    rewrite !Z.div_mul by lia. reflexivity. }
  revert idx.
  apply (for_range_ind
    (fun r (o : buf F) => forall idx,
       o idx = if (0 <=? idx - dp) && (idx - dp <? r * ds) && ((idx - dp) mod ds <? cnt)
               then src (sp + (idx - dp) / ds * ss + (idx - dp) mod ds)
               else dst idx)); [exact Hr| |].
  - intros j. destruct (0 <=? j - dp) eqn:E1; [|reflexivity].
    destruct (j - dp <? 0 * ds) eqn:E2; [|reflexivity].
    apply Z.leb_le in E1. apply Z.ltb_lt in E2. lia.
  - intros r o Hrr IHo j. rewrite Hbody.
    rewrite (for_range_upd_at (fun k => src (sp + r * ss + k)) (dp + r * ds) o j)
      by lia.
    rewrite IHo.
    pose proof (Z.div_mod (j - dp) ds ltac:(lia)) as Hdm.
    pose proof (Z.mod_pos_bound (j - dp) ds Hds) as Hmb.
    destruct (dp + r * ds <=? j) eqn:E1; destruct (j <? dp + r * ds + cnt) eqn:E2;
      destruct (0 <=? j - dp) eqn:E3; destruct (j - dp <? r * ds) eqn:E4;
      destruct (j - dp <? (r + 1) * ds) eqn:E5;
      destruct ((j - dp) mod ds <? cnt) eqn:E6; simpl;
      try reflexivity;
      try apply Z.leb_le in E1; try apply Z.leb_gt in E1;
      try apply Z.ltb_lt in E2; try apply Z.ltb_ge in E2;
      try apply Z.leb_le in E3; try apply Z.leb_gt in E3;
      try apply Z.ltb_lt in E4; try apply Z.ltb_ge in E4;
      try apply Z.ltb_lt in E5; try apply Z.ltb_ge in E5;
      try apply Z.ltb_lt in E6; try apply Z.ltb_ge in E6;
      try (exfalso; nia).
    + assert (Hq : (j - dp) / ds = r) by nia.
      f_equal. nia.
    + exfalso. assert (Hq : (j - dp) / ds = r) by nia. nia.
    + exfalso. assert (Hq : (j - dp) / ds = r) by nia. nia.
Qed.

Lemma dma_2d_at_bytes (F : Type) (esz : Z) (dst : buf F) (dst_ptr : Z) (src : buf F)
    (src_ptr size dst_stride src_stride reps dp sp cnt ds ss idx : Z) :
  dst_ptr = dp * esz -> src_ptr = sp * esz -> size = cnt * esz ->
  dst_stride = ds * esz -> src_stride = ss * esz ->
  0 < esz -> 0 <= cnt <= ds -> 0 < ds -> 0 <= reps ->
  dma_2d esz dst dst_ptr src src_ptr size dst_stride src_stride reps idx =
  if (0 <=? idx - dp) && (idx - dp <? reps * ds) && ((idx - dp) mod ds <? cnt)
  then src (sp + (idx - dp) / ds * ss + (idx - dp) mod ds)
  else dst idx.
Proof. intros -> -> -> -> ->. apply dma_2d_at. Qed.

Lemma u32_small (x : Z) : 0 <= x < 2 ^ 32 -> u32 x = x.
Proof. intros H. unfold u32. apply Z.mod_small. exact H. Qed.

Lemma udiv_small (a b : Z) :
  0 <= a < 2 ^ 32 -> 0 <= b < 2 ^ 32 -> udiv a b = a / b.
Proof. intros Ha Hb. unfold udiv. rewrite !u32_small by assumption. reflexivity. Qed.

End LoopFacts.

(* ===================================================================== *)
(** * FlashAttention-2: the barrier discipline *)
(* ===================================================================== *)

Section BarrierFacts.

Import FlashAttention.

Lemma barrier_count_app (a b : list op) :
  barrier_count (a ++ b) = (barrier_count a + barrier_count b)%nat.
Proof. unfold barrier_count. rewrite filter_app, length_app. reflexivity. Qed.

Lemma barrier_count_concat_repeat (ops : list op) (n : nat) :
  barrier_count (concat (repeat ops n)) = (n * barrier_count ops)%nat.
Proof.
  induction n as [|n IH]; simpl; [reflexivity|].
  rewrite barrier_count_app, IH. reflexivity.
Qed.

Lemma inner_branch_barriers (is_compute : bool) (baseline : Z) :
  barrier_count (inner_branch_ops is_compute baseline) = 4%nat.
Proof.
  destruct is_compute; simpl; [|reflexivity].
  destruct (negb (baseline =? 0)%Z); reflexivity.
Qed.

Lemma inner_iter_barriers (is_compute : bool) (baseline : Z) :
  barrier_count (inner_iter_ops is_compute baseline) = 6%nat.
Proof.
  unfold inner_iter_ops. rewrite !barrier_count_app, inner_branch_barriers.
  destruct is_compute; reflexivity.
Qed.

Lemma outer_iter_barriers (is_compute : bool) (baseline : Z) (T_c : nat) :
  barrier_count (outer_iter_ops is_compute baseline T_c) = (6 + T_c * 6)%nat.
Proof.
  unfold outer_iter_ops.
  rewrite !barrier_count_app, barrier_count_concat_repeat, inner_iter_barriers.
  destruct is_compute; unfold barrier_count; simpl; lia.
Qed.

Lemma layer_barriers (is_compute : bool) (baseline : Z) (T_r T_c : nat) :
  barrier_count (layer_ops is_compute baseline T_r T_c)
  = (T_r * (6 + T_c * 6) + 1)%nat.
Proof.
  unfold layer_ops.
  rewrite barrier_count_app, barrier_count_concat_repeat, outer_iter_barriers.
  reflexivity.
Qed.

Lemma to_barrier_count (ops : list op) :
  barrier_count (to_barrier ops) = barrier_count ops.
Proof.
  induction ops as [|o ops IH]; [reflexivity|].
  destruct o; simpl; try exact IH; reflexivity.
Qed.

Lemma to_barrier_shape (ops : list op) :
  to_barrier ops = [] \/ exists rest, to_barrier ops = HwBarrier :: rest.
Proof.
  induction ops as [|o ops IH]; [left; reflexivity|].
  destruct o; simpl; try exact IH. right. eexists. reflexivity.
Qed.

(** A team whose members all have [n] barriers left runs to completion. *)
Lemma rendezvous_uniform (n : nat) :
  forall team : list (list op),
    Forall (fun ops => barrier_count ops = n) team ->
    rendezvous n team = Completed.
Proof.
  induction n as [|n IH]; intros team Hall.
  - simpl.
    replace (forallb finished (map to_barrier team)) with true; [reflexivity|].
    symmetry. apply forallb_forall. intros ops Hin.
    apply in_map_iff in Hin. destruct Hin as [o [<- Ho]].
    rewrite Forall_forall in Hall. specialize (Hall o Ho).
    destruct (to_barrier_shape o) as [-> | [rest Hr]]; [reflexivity|].
    rewrite <- to_barrier_count, Hr in Hall. discriminate.
  - destruct team as [|m team]; [reflexivity|].
    assert (Hshape : forall o, In o (m :: team) ->
              exists rest, to_barrier o = HwBarrier :: rest /\ barrier_count rest = n).
    { intros o Ho. rewrite Forall_forall in Hall. specialize (Hall o Ho).
      rewrite <- to_barrier_count in Hall.
      destruct (to_barrier_shape o) as [E | [rest E]]; rewrite E in Hall.
      - discriminate.
      - exists rest. split; [exact E|].
        change (S (barrier_count rest) = S n) in Hall. lia. }
    cbn [rendezvous].
    assert (Hnf : forallb finished (map to_barrier (m :: team)) = false).
    { simpl. destruct (Hshape m (or_introl eq_refl)) as [rest [E _]].
      rewrite E. reflexivity. }
    assert (Hne : existsb finished (map to_barrier (m :: team)) = false).
    { apply not_true_is_false. intros Hex. apply existsb_exists in Hex.
      destruct Hex as [x [Hx Hfin]]. apply in_map_iff in Hx.
      destruct Hx as [o [<- Ho]]. destruct (Hshape o Ho) as [rest [E _]].
      rewrite E in Hfin. discriminate. }
    rewrite Hnf, Hne. apply IH.
    apply Forall_forall. intros x Hx.
    apply in_map_iff in Hx. destruct Hx as [y [<- Hy]].
    apply in_map_iff in Hy. destruct Hy as [o [<- Ho]].
    destruct (Hshape o Ho) as [rest [E Hc]]. rewrite E. exact Hc.
Qed.

(** C4: in every iteration of the inner column-tile loop the data mover
    executes as many hardware barriers as a compute core: four in the
    role-split branch, six in the whole iteration with the two shared ones.
    The counts agree over the whole kernel as well, and a team of harts of
    any mix of roles running the kernel meets at every barrier and
    completes: the rendezvous never deadlocks. *)
Theorem barrier_parity :
  forall (baseline : Z) (T_r T_c : nat),
    barrier_count (inner_branch_ops true baseline) = 4%nat /\
    barrier_count (inner_branch_ops false baseline) = 4%nat /\
    barrier_count (inner_iter_ops false baseline)
      = barrier_count (inner_iter_ops true baseline) /\
    barrier_count (layer_ops false baseline T_r T_c)
      = barrier_count (layer_ops true baseline T_r T_c) /\
    forall roles : list bool,
      rendezvous (T_r * (6 + T_c * 6) + 1)
                 (map (fun is_compute => layer_ops is_compute baseline T_r T_c) roles)
      = Completed.
Proof.
  intros baseline T_r T_c.
  rewrite !inner_branch_barriers, !inner_iter_barriers, !layer_barriers.
  repeat split.
  intros roles. apply rendezvous_uniform.
  apply Forall_forall. intros ops Hin.
  apply in_map_iff in Hin. destruct Hin as [r [<- _]].
  apply layer_barriers.
Qed.

(** The rendezvous does tell a mismatch: a data mover that skipped one of
    its four idle barriers would leave the compute cores waiting. *)
Example rendezvous_detects_mismatch :
  rendezvous 10 [inner_iter_ops true 1;
                 [HwBarrier; DmaTransfer; HwBarrier; HwBarrier; HwBarrier; HwBarrier]]
  = Deadlock.
Proof. reflexivity. Qed.

End BarrierFacts.

(* ===================================================================== *)
(** * FlashAttention-2: row partition and running statistics *)
(* ===================================================================== *)

Section RowPartition.

Import Machine Runtime FlashAttention.
Local Open Scope Z_scope.

Context {F : Type} {FO : FloatOps F}.
Variable p : platform.
Variable l : flashattention_2_layer_t F.

(** The rows of a hart when nothing wraps around. *)
Lemma rows_of_hart (h : hart) :
  0 < num_cores p -> 0 < B_r l < 2 ^ 32 -> (num_cores p | B_r l) ->
  0 <= global_core_idx p h ->
  (global_core_idx p h + 1) * rows_per_core p l < 2 ^ 32 ->
  0 < rows_per_core p l /\
  B_r l = rows_per_core p l * num_cores p /\
  compute_id p h = global_core_idx p h /\
  start_row p l h = rows_per_core p l * global_core_idx p h /\
  end_row p l h = rows_per_core p l * (global_core_idx p h + 1).
Proof.
  intros Hn HB [q Hq] Hg Hfit.
  assert (Hnb : num_cores p <= B_r l).
  { apply Z.divide_pos_le; [lia | exists q; exact Hq]. }
  assert (Hrpc : rows_per_core p l = q).
  { unfold rows_per_core. rewrite udiv_small by lia.
    rewrite Hq. apply Z.div_mul. lia. }
  assert (Hqpos : 0 < q) by nia.
  rewrite Hrpc in *.
  assert (Hgb : global_core_idx p h < 2 ^ 32) by nia.
  assert (Hcid : compute_id p h = global_core_idx p h).
  { unfold compute_id. apply u32_small. lia. }
  assert (Hs : start_row p l h = q * global_core_idx p h).
  { unfold start_row. rewrite Hrpc, Hcid. apply u32_small. nia. }
  repeat split; try assumption; try lia.
  unfold end_row. rewrite Hs, Hrpc. rewrite u32_small by nia. ring.
Qed.

(** C10: the rows of a row block are handed out by the global core index.
    With a single cluster, where a compute core's global index is its index
    in the cluster, and [num_cores] dividing [B_r], every row index the
    row loops of a compute core visit lies in [0, B_r).  A compute core
    whose global index is [num_cores] or more visits rows, and every one of
    them is at or beyond [B_r]. *)
Theorem row_partition_bounds (h : hart) :
  0 < num_cores p -> 0 < B_r l < 2 ^ 32 -> (num_cores p | B_r l) ->
  is_compute_core p h = true ->
  0 <= cluster_idx h -> 0 <= cluster_core_idx h ->
  (global_core_idx p h + 1) * rows_per_core p l < 2 ^ 32 ->
  (cluster_num p = 1 -> cluster_idx h < cluster_num p ->
     compute_id p h = cluster_core_idx h /\
     compute_id p h < num_cores p /\
     Forall (fun row_idx => 0 <= row_idx < B_r l)
            (loop_indices (start_row p l h) (end_row p l h))) /\
  (num_cores p <= compute_id p h ->
     loop_indices (start_row p l h) (end_row p l h) <> [] /\
     Forall (fun row_idx => B_r l <= row_idx)
            (loop_indices (start_row p l h) (end_row p l h))).
Proof.
  intros Hn HB Hdiv Hc Hci Hcc Hfit.
  assert (Hg : 0 <= global_core_idx p h).
  { unfold global_core_idx. unfold num_cores in Hn. nia. }
  destruct (rows_of_hart h Hn HB Hdiv Hg Hfit) as (Hq & HBr & Hcid & Hs & He).
  unfold is_compute_core in Hc. apply Z.ltb_lt in Hc.
  split.
  - intros H1 Hlt.
    assert (Hc0 : cluster_idx h = 0) by lia.
    assert (Hgi : global_core_idx p h = cluster_core_idx h).
    { unfold global_core_idx. rewrite Hc0. lia. }
    split; [lia|]. split; [unfold num_cores; lia|].
    apply Forall_forall. intros r Hr. apply in_loop_indices in Hr.
    rewrite Hs, He, Hgi in Hr. unfold num_cores in HBr. nia.
  - intros Hge. rewrite Hcid in Hge. split.
    + intros Hnil.
      assert (Hin : In (start_row p l h) (loop_indices (start_row p l h) (end_row p l h))).
      { apply in_loop_indices. rewrite Hs, He. nia. }
      rewrite Hnil in Hin. exact Hin.
    + apply Forall_forall. intros r Hr. apply in_loop_indices in Hr.
      rewrite Hs in Hr. nia.
Qed.

End RowPartition.

Section RunningStatistics.

Import Machine Runtime FlashAttention.
Local Open Scope Z_scope.

Context {F : Type} {FO : FloatOps F} {FL : FloatOrder FO}.
Variable p : platform.
Variable l : flashattention_2_layer_t F.

Lemma f_ge_refl (a : F) : f_ge a a.
Proof. left. reflexivity. Qed.

Lemma f_ge_trans (a b c : F) : f_ge a b -> f_ge b c -> f_ge a c.
Proof.
  intros [-> | Hab] [-> | Hbc].
  - left. reflexivity.
  - right. exact Hbc.
  - right. exact Hab.
  - right. exact (f_gt_trans _ _ _ Hab Hbc).
Qed.

(** The statistics of the rows a hart owns after its initialisation loop,
    and of the rows it does not own. *)
Lemma init_stats_rows (h : hart) (t : tcdm F) (row : Z) :
  (is_compute_core p h = true /\ start_row p l h <= row < end_row p l h ->
     m_i (init_stats p l h t) row = f_neg_inf /\
     m_i_prev (init_stats p l h t) row = f_neg_inf /\
     l_i (init_stats p l h t) row = f_zero) /\
  (m_i t row = f_neg_inf /\ m_i_prev t row = f_neg_inf /\ l_i t row = f_zero ->
     m_i (init_stats p l h t) row = f_neg_inf /\
     m_i_prev (init_stats p l h t) row = f_neg_inf /\
     l_i (init_stats p l h t) row = f_zero).
Proof.
  unfold init_stats.
  destruct (is_compute_core p h); [|split; [intros [? _]; discriminate | tauto]].
  set (body := fun (row_idx : Z) (t : tcdm F) =>
    set_l_i (set_m_i_prev (set_m_i t (upd (m_i t) row_idx f_neg_inf))
                          (upd (m_i_prev (set_m_i t (upd (m_i t) row_idx f_neg_inf)))
                               row_idx f_neg_inf))
            (upd (l_i (set_m_i_prev (set_m_i t (upd (m_i t) row_idx f_neg_inf))
                          (upd (m_i_prev (set_m_i t (upd (m_i t) row_idx f_neg_inf)))
                               row_idx f_neg_inf))) row_idx f_zero)).
  set (good := fun t' : tcdm F =>
    m_i t' row = f_neg_inf /\ m_i_prev t' row = f_neg_inf /\ l_i t' row = f_zero).
  assert (Hbody : forall i t', (i = row \/ good t') -> good (body i t')).
  { intros i t' H. unfold good, body. simpl.
    destruct (Z.eq_dec row i) as [-> | Hne].
    - rewrite !upd_same. auto.
    - rewrite !upd_other by exact Hne. destruct H as [-> | H]; [congruence | exact H]. }
  split.
  - intros [_ Hr].
    destruct (Z.le_gt_cases (start_row p l h) (end_row p l h)) as [Hle | Hgt]; [|lia].
    assert (H : (row < end_row p l h -> good (for_range (start_row p l h) (end_row p l h) body t))).
    { apply (for_range_ind (fun i t' => row < i -> good t') body t Hle).
      - lia.
      - intros i t' Hi IHt Hlt. apply Hbody.
        destruct (Z.eq_dec i row) as [-> | Hne]; [left; reflexivity|].
        right. apply IHt. lia. }
    apply H. lia.
  - intros Hg. apply for_range_inv; [exact Hg|].
    intros i t' _ Ht'. apply Hbody. right. exact Ht'.
Qed.

(** A phase run by every hart establishes what one hart establishes and
    all harts preserve. *)
Lemma all_harts_establish (c : Z) (phase : hart -> tcdm F -> tcdm F)
    (good : tcdm F -> Prop) (h : hart) (t : tcdm F) :
  In h (cluster_harts p c) ->
  (forall t', good (phase h t')) ->
  (forall h' t', good t' -> good (phase h' t')) ->
  good (all_harts p c phase t).
Proof.
  intros Hin Hest Hpres. unfold all_harts.
  revert t Hin. induction (cluster_harts p c) as [|a L IH]; intros t Hin.
  - destruct Hin.
  - simpl. destruct Hin as [-> | Hin].
    + clear IH. generalize (Hest t). generalize (phase h t).
      induction L as [|b L IHL]; intros t' Ht'; simpl; [exact Ht'|].
      apply IHL. apply Hpres. exact Ht'.
    + apply IH. exact Hin.
Qed.

Lemma all_harts_preserve (c : Z) (phase : hart -> tcdm F -> tcdm F)
    (good : tcdm F -> Prop) (t : tcdm F) :
  good t ->
  (forall h' t', good t' -> good (phase h' t')) ->
  good (all_harts p c phase t).
Proof.
  intros H0 Hpres. unfold all_harts. revert t H0.
  induction (cluster_harts p c) as [|a L IH]; intros t H0; simpl; [exact H0|].
  apply IH. apply Hpres. exact H0.
Qed.

(** C5, the reset: in a single cluster whose core count divides [B_r], the
    statistics of every row of the block are back at their initial values
    when the inner loop begins. *)
Lemma statistics_reset (t_r : Z) (t : tcdm F) (row : Z) :
  0 < num_cores p -> 0 < B_r l < 2 ^ 32 -> (num_cores p | B_r l) ->
  0 <= row < B_r l ->
  m_i (outer_prologue p l 0 t_r t) row = f_neg_inf /\
  m_i_prev (outer_prologue p l 0 t_r t) row = f_neg_inf /\
  l_i (outer_prologue p l 0 t_r t) row = f_zero.
Proof.
  intros Hn HB Hdiv Hrow. unfold outer_prologue.
  destruct Hdiv as [q Hq].
  assert (Hnb : num_cores p <= B_r l).
  { apply Z.divide_pos_le; [lia | exists q; exact Hq]. }
  assert (Hqpos : 0 < q) by nia.
  set (k := row / q).
  assert (Hk : 0 <= k < num_cores p).
  { unfold k. split; [apply Z.div_pos; lia|].
    apply Z.div_lt_upper_bound; nia. }
  assert (Hrk : q * k <= row < q * (k + 1)).
  { unfold k. pose proof (Z.mul_div_le row q Hqpos).
    pose proof (Z.mul_succ_div_gt row q Hqpos). lia. }
  set (h := {| cluster_idx := 0; cluster_core_idx := k |}).
  assert (Hgi : global_core_idx p h = k) by (unfold global_core_idx; simpl; lia).
  assert (Hfit : (global_core_idx p h + 1) * rows_per_core p l < 2 ^ 32).
  { unfold rows_per_core. rewrite udiv_small by lia.
    rewrite Hq, Z.div_mul by lia. rewrite Hgi. nia. }
  assert (HdivB : (num_cores p | B_r l)) by (exists q; exact Hq).
  assert (Hg0 : 0 <= global_core_idx p h) by lia.
  destruct (rows_of_hart p l h Hn HB HdivB Hg0 Hfit) as (_ & HBr & _ & Hs & He).
  assert (Hrpc : rows_per_core p l = q) by nia.
  apply (all_harts_establish 0 (init_stats p l)
           (fun t' => m_i t' row = f_neg_inf /\ m_i_prev t' row = f_neg_inf /\
                      l_i t' row = f_zero) h).
  - unfold cluster_harts. apply in_map_iff. exists (Z.to_nat k). split.
    + unfold h. f_equal. lia.
    + apply in_seq. unfold num_cores in Hk. lia.
  - intros t'. apply (proj1 (init_stats_rows h t' row)). split.
    + unfold is_compute_core, h. simpl. apply Z.ltb_lt. unfold num_cores in Hk. lia.
    + rewrite Hs, He, Hgi, Hrpc. lia.
  - intros h' t'. apply (proj2 (init_stats_rows h' t' row)).
Qed.

(** One row of the softmax statistics never lowers a running maximum. *)
Lemma softmax_row_max (t_c row_idx : Z) (t : tcdm F) (row : Z) :
  f_ge (m_i (softmax_row l t_c row_idx t) row) (m_i t row).
Proof.
  unfold softmax_row.
  set (t1 := set_m_i_prev t (upd (m_i_prev t) row_idx (m_i t row_idx))).
  set (t2 := for_range 0 (B_c l) _ t1).
  assert (H2 : f_ge (m_i t2 row) (m_i t row)).
  { unfold t2. apply for_range_inv; [apply f_ge_refl|].
    intros i t' _ Ht'.
    destruct (f_gt (S_fa t' (u32 (row_idx * B_c l + i))) (m_i t' row_idx)) eqn:Hgt;
      [|exact Ht'].
    simpl. destruct (Z.eq_dec row row_idx) as [-> | Hne].
    - rewrite upd_same. eapply f_ge_trans; [|exact Ht']. right. exact Hgt.
    - rewrite upd_other by exact Hne. exact Ht'. }
  set (tr := for_range 0 (B_c l) _ (t2, f_zero)).
  assert (H3 : m_i (fst tr) = m_i t2).
  { unfold tr. apply (for_range_inv (fun s : tcdm F * F => m_i (fst s) = m_i t2));
      [reflexivity|].
    intros i [t' rs] _ Ht'. exact Ht'. }
  destruct tr as [t3 row_sum]. simpl in H3.
  assert (H4 : forall b, m_i (set_l_i t3 b) = m_i t2) by (intros b; exact H3).
  destruct (negb (t_c =? 0)).
  - match goal with
    | |- f_ge (m_i (for_range _ _ _ ?t0) _) _ =>
        assert (H5 : m_i (for_range 0 (d l)
                  (fun col_idx t =>
                     set_O_fa t (upd (O_fa t) (u32 (row_idx * d l + col_idx))
                       (f_div (O_fa t (u32 (row_idx * d l + col_idx)))
                              (f_exp (f_sub (m_i_prev t3 row_idx) (m_i t3 row_idx))))))
                  t0) = m_i t2)
    end.
    { apply (for_range_inv (fun s : tcdm F => m_i s = m_i t2)); [apply H4|].
      intros i t' _ Ht'. exact Ht'. }
    rewrite H5. exact H2.
  - rewrite H4. exact H2.
Qed.

Lemma softmax_rows_max (t_c : Z) (h : hart) (t : tcdm F) (row : Z) :
  f_ge (m_i (softmax_rows p l t_c h t) row) (m_i t row).
Proof.
  unfold softmax_rows. destruct (is_compute_core p h); [|apply f_ge_refl].
  apply for_range_inv; [apply f_ge_refl|].
  intros i t' _ Ht'. eapply f_ge_trans; [apply softmax_row_max | exact Ht'].
Qed.

Lemma inner_iter_max (c t_c : Z) (t : tcdm F) (row : Z) :
  f_ge (m_i (inner_iter p l c t_c t) row) (m_i t row).
Proof.
  unfold inner_iter.
  match goal with
  | |- context [all_harts p c (softmax_rows p l t_c) ?t0] =>
      assert (H : f_ge (m_i (all_harts p c (softmax_rows p l t_c) t0) row) (m_i t row))
  end.
  { apply (all_harts_preserve c (softmax_rows p l t_c)
             (fun t' => f_ge (m_i t' row) (m_i t row))); [apply f_ge_refl|].
    intros h' t' Ht'. eapply f_ge_trans; [apply softmax_rows_max | exact Ht']. }
  destruct (negb (baseline l =? 0)); exact H.
Qed.


End RunningStatistics.

(* ===================================================================== *)
(** * LayerNorm: the scalar kernel on a memory of 16-bit words *)
(* ===================================================================== *)

Section WordsKernel.

Import Machine Runtime LayerNorm.
Local Open Scope Z_scope.

Context {F : Type} {FO : FloatOps F}.
Variable p : platform.
Variable h : hart.

(** Two loops over the same range whose bodies keep a relation between
    their states end in related states. *)
Lemma for_range_rel (A B : Type) (R : A -> B -> Prop) (f : Z -> A -> A)
    (g : Z -> B -> B) (lo hi : Z) (a : A) (b : B) :
  R a b ->
  (forall i a' b', lo <= i < hi -> R a' b' -> R (f i a') (g i b')) ->
  R (for_range lo hi f a) (for_range lo hi g b).
Proof.
  intros H0 Hstep. rewrite !for_range_fold.
  assert (Hin : forall i, In i (loop_indices lo hi) -> lo <= i < hi)
    by (intros i; apply in_loop_indices).
  revert a b H0 Hin.
  induction (loop_indices lo hi) as [|i L IH]; intros a b H0 Hin; simpl; [exact H0|].
  apply IH.
  - apply Hstep; [apply Hin; left; reflexivity | exact H0].
  - intros j Hj. apply Hin. right. exact Hj.
Qed.

Lemma u32_range (x : Z) : 0 <= u32 x < 2 ^ 32.
Proof. unfold u32. apply Z.mod_pos_bound. lia. Qed.

(** A float stored is the float loaded from the same place, when the two
    words of a float determine it; the other floats of the array are not
    touched. *)
Lemma load_store_float (m : buf F) (base j k : Z) (v : F) :
  (forall x : F, f_join (f_low x) (f_high x) = x) ->
  load_float (store_float m base j v) base k
  = if k =? j then v else load_float m base k.
Proof.
  intros Hrt. unfold load_float, store_float.
  destruct (Z.eqb_spec k j) as [-> | Hne].
  - rewrite upd_same, upd_other by lia. rewrite upd_same. apply Hrt.
  - rewrite !upd_other by lia. reflexivity.
Qed.

(** [layernorm_fp32_naive] on words and on [float] buffers.  When the
    words the two pointers can reach do not overlap, and the two words of a
    float determine it, the call on the memory of words does to the floats
    at [output] what [layernorm_fp32_naive] does to its output buffer, the
    floats at [input] being its input buffer; no word outside the reach of
    [output] is written. *)
Lemma words_kernel_float_view (m0 : buf F) (input output B S E eps : Z) :
  (forall x : F, f_join (f_low x) (f_high x) = x) ->
  input + 2 ^ 34 <= output \/ output + 2 ^ 34 <= input ->
  let m' := layernorm_fp32_naive_words p h m0 input output B S E eps in
  (forall w, ~ output <= w < output + 2 ^ 34 -> m' w = m0 w) /\
  (forall k, load_float m' output k
             = layernorm_fp32_naive p h (fun k => load_float m0 input k)
                                    (fun k => load_float m0 output k) B S E eps k).
Proof.
  intros Hrt Hdis m'.
  set (R := fun (m : buf F) (out : buf F) =>
              (forall w, ~ output <= w < output + 2 ^ 34 -> m w = m0 w) /\
              (forall k, load_float m output k = out k)).
  change (R m' (layernorm_fp32_naive p h (fun k => load_float m0 input k)
                                     (fun k => load_float m0 output k) B S E eps)).
  assert (Hload : forall m out a b, R m out -> 
            load_float m input (u32 a + u32 b) = load_float m0 input (u32 a + u32 b)).
  { intros m out a b [Hfr _]. unfold load_float.
    pose proof (u32_range a). pose proof (u32_range b).
    rewrite !Hfr by lia. reflexivity. }
  assert (Hstore : forall m out a b v, R m out ->
            R (store_float m output (u32 a + u32 b) v) (upd out (u32 a + u32 b) v)).
  { intros m out a b v [Hfr Hv].
    pose proof (u32_range a). pose proof (u32_range b). split.
    - intros w Hw. unfold store_float. rewrite !upd_other by lia. apply Hfr, Hw.
    - intros k. rewrite (load_store_float m output (u32 a + u32 b) k v Hrt).
      unfold upd. destruct (k =? u32 a + u32 b); [reflexivity | apply Hv]. }
  unfold m', layernorm_fp32_naive_words, layernorm_fp32_naive.
  destruct (is_compute_core p h);
    [|split; [intros w _; reflexivity | intros k; reflexivity]].
  cbv zeta.
  apply for_range_rel; [split; [intros w _; reflexivity | intros k; reflexivity]|].
  intros b m out _ HR.
  apply for_range_rel; [exact HR|].
  intros s m1 out1 _ HR1.
  assert (Hmean :
    for_range 0 E (fun i mean =>
      f_add mean (load_float m1 input
                    (u32 (cluster_core_idx h * E)
                     + u32 (b * u32 (S * E)
                            + s * u32 (cluster_compute_core_num p * E) + i)))) f_zero
    = for_range 0 E (fun i mean =>
        f_add mean (load_float m0 input
                      (u32 (cluster_core_idx h * E)
                       + u32 (b * u32 (S * E)
                              + s * u32 (cluster_compute_core_num p * E) + i)))) f_zero).
  { apply for_range_ext. intros i mean _. rewrite (Hload m1 out1 _ _ HR1). reflexivity. }
  rewrite Hmean.
  set (mean := f_div _ (f_of_int E)).
  assert (Hvar :
    for_range 0 E (fun i var =>
      f_add var
        (f_mul (f_sub (load_float m1 input
                         (u32 (cluster_core_idx h * E)
                          + u32 (b * u32 (S * E)
                                 + s * u32 (cluster_compute_core_num p * E) + i))) mean)
               (f_sub (load_float m1 input
                         (u32 (cluster_core_idx h * E)
                          + u32 (b * u32 (S * E)
                                 + s * u32 (cluster_compute_core_num p * E) + i))) mean)))
      f_zero
    = for_range 0 E (fun i var =>
      f_add var
        (f_mul (f_sub (load_float m0 input
                         (u32 (cluster_core_idx h * E)
                          + u32 (b * u32 (S * E)
                                 + s * u32 (cluster_compute_core_num p * E) + i))) mean)
               (f_sub (load_float m0 input
                         (u32 (cluster_core_idx h * E)
                          + u32 (b * u32 (S * E)
                                 + s * u32 (cluster_compute_core_num p * E) + i))) mean)))
      f_zero).
  { apply for_range_ext. intros i var _. rewrite (Hload m1 out1 _ _ HR1). reflexivity. }
  rewrite Hvar.
  set (var := f_sqrt _).
  apply for_range_rel; [exact HR1|].
  intros i m2 out2 _ HR2.
  rewrite (Hload m2 out2 _ _ HR2). apply Hstore. exact HR2.
Qed.

End WordsKernel.

(* ===================================================================== *)
(** * LayerNorm: dispatch and diagnostics *)
(* ===================================================================== *)

Section LayerNormDispatch.

Import Machine Runtime LayerNorm.
Local Open Scope Z_scope.

Context {F : Type} {FO : FloatOps F}.
Variable p : platform.

Lemma fold_left_append_events (A : Type) (g : Z -> list A) (L : list Z) (acc : list A) :
  fold_left (fun evs i => evs ++ g i) L acc = acc ++ concat (map g L).
Proof.
  revert acc. induction L as [|a L IH]; intros acc; simpl.
  - rewrite app_nil_r. reflexivity.
  - rewrite IH, app_assoc. reflexivity.
Qed.

Lemma layernorm_layer_events_unfold (h : hart) (l : layernorm_layer_t F) :
  layernorm_layer_events p h l =
  (match dtype l with FP32 | FP16 => [] | FP_other _ => [EvPrintf unsupported_msg] end) ++
  (match dtype l with FP32 | FP16 => [] | FP_other _ => [EvPrintf unsupported_msg] end) ++
  concat (map (tile_events p h l) (loop_indices 0 (n_tiles_per_cluster p l))) ++
  [EvGlobalBarrier].
Proof.
  unfold layernorm_layer_events. rewrite for_range_fold.
  rewrite (fold_left_append_events (tile_events p h l)). reflexivity.
Qed.

(** The kernel calls among the events of a hart are those of its tiles. *)
Lemma kernel_event_in (h : hart) (l : layernorm_layer_t F) (k : kernel_t) (d : precision_t) :
  In (EvKernel k d) (layernorm_layer_events p h l) <->
  0 < n_tiles_per_cluster p l /\ d = dtype l /\ select_kernel l = Some k.
Proof.
  rewrite layernorm_layer_events_unfold.
  rewrite !in_app_iff, in_concat.
  split.
  - intros [H | [H | [[evs [Hevs Hin]] | H]]].
    + destruct (dtype l); simpl in H; try tauto; destruct H; try discriminate; tauto.
    + destruct (dtype l); simpl in H; try tauto; destruct H; try discriminate; tauto.
    + apply in_map_iff in Hevs. destruct Hevs as [i [<- Hi]].
      apply in_loop_indices in Hi. split; [lia|].
      unfold tile_events in Hin. cbv zeta in Hin. unfold select_kernel.
      rewrite !in_app_iff in Hin.
      destruct Hin as [Hin | [Hin | [Hin | [Hin | Hin]]]].
      * destruct (is_core1 p h); simpl in Hin; try tauto.
        destruct Hin; try discriminate; tauto.
      * simpl in Hin. destruct Hin; try discriminate; tauto.
      * destruct (baseline l =? 1).
        { simpl in Hin. destruct Hin as [E | []]. inversion E. auto. }
        destruct (dtype l) eqn:Ed; simpl in Hin; destruct Hin as [E | []];
          inversion E; auto.
      * simpl in Hin. destruct Hin; try discriminate; tauto.
      * destruct (is_core1 p h); simpl in Hin; try tauto.
        destruct Hin; try discriminate; tauto.
    + simpl in H. destruct H; try discriminate; tauto.
  - intros (Hpos & -> & Hsel). right. right. left.
    exists (tile_events p h l 0). split.
    + apply in_map. apply in_loop_indices. lia.
    + unfold tile_events. rewrite !in_app_iff. right. right. left.
      unfold select_kernel in Hsel.
      destruct (baseline l =? 1).
      * inversion Hsel. left. reflexivity.
      * destruct (dtype l); inversion Hsel; left; reflexivity.
Qed.


(** C7: with a precision selector other than FP32 and FP16 every hart
    prints the diagnostic; the call has no defined result, because the tile
    geometry and the tile pointers are read uninitialised; nothing but the
    events is produced, so no status reaches the caller.  Unless
    [baseline == 1] no kernel is called (the normalisation is skipped, with
    the diagnostic printed again for every tile); with [baseline == 1] the
    scalar kernel runs on the undefined tile. *)
Theorem unsupported_dtype_reported (t0 : Z -> @tcdm F) (h : hart)
    (l : layernorm_layer_t F) (code : Z) :
  dtype l = FP_other code ->
  In (EvPrintf unsupported_msg) (layernorm_layer_events p h l) /\
  data_type_size (dtype l) = None /\
  layernorm_layer p t0 l = None /\
  (baseline l <> 1 ->
     forall k d, ~ In (EvKernel k d) (layernorm_layer_events p h l)) /\
  (baseline l = 1 ->
     forall k d, In (EvKernel k d) (layernorm_layer_events p h l) ->
                 k = K_fp32_naive /\ d = FP_other code).
Proof.
  intros Hd. split; [|split; [|split; [|split]]].
  - rewrite layernorm_layer_events_unfold, Hd. left. reflexivity.
  - rewrite Hd. reflexivity.
  - unfold layernorm_layer. rewrite Hd. reflexivity.
  - intros Hb k d Hin. apply kernel_event_in in Hin.
    destruct Hin as (_ & _ & Hk). unfold select_kernel in Hk.
    apply Z.eqb_neq in Hb. rewrite Hb, Hd in Hk. discriminate.
  - intros Hb k d Hin. apply kernel_event_in in Hin.
    destruct Hin as (_ & -> & Hk). unfold select_kernel in Hk.
    rewrite Hb in Hk. inversion Hk. auto.
Qed.

End LayerNormDispatch.

(* ===================================================================== *)
(** * LayerNorm: the kernels row by row *)
(* ===================================================================== *)

Section RowwiseKernel.

Import Machine Runtime LayerNorm.
Local Open Scope Z_scope.

Context {F : Type} {FO : FloatOps F}.

Lemma write_row_at (f : (Z -> F) -> Z -> F) (E : Z) (input : buf F) (r : Z)
    (out : buf F) (idx : Z) :
  0 < E ->
  write_row f E input r out idx =
  if idx / E =? r then f (row_of input E r) (idx mod E) else out idx.
Proof.
  intros HE. unfold write_row.
  assert (H : forall idx,
    for_range 0 E (fun i out => upd out (r * E + i) (f (row_of input E r) i)) out idx
    = if (r * E <=? idx) && (idx <? r * E + E)
      then f (row_of input E r) (idx - r * E) else out idx).
  { apply (for_range_ind
      (fun i (o : buf F) => forall idx,
         o idx = if (r * E <=? idx) && (idx <? r * E + i)
                 then f (row_of input E r) (idx - r * E) else out idx)); [lia| |].
    - intros j. destruct (r * E <=? j) eqn:E1; destruct (j <? r * E + 0) eqn:E2;
        try reflexivity. apply Z.leb_le in E1. apply Z.ltb_lt in E2. lia.
    - intros i o Hi IHo j. unfold upd.
      destruct (j =? r * E + i) eqn:Ej.
      + apply Z.eqb_eq in Ej. subst j.
        replace (r * E <=? r * E + i) with true by (symmetry; apply Z.leb_le; lia).
        replace (r * E + i <? r * E + (i + 1)) with true by (symmetry; apply Z.ltb_lt; lia).
        simpl. f_equal. lia.
      + rewrite IHo. apply Z.eqb_neq in Ej.
        destruct (r * E <=? j) eqn:E1; [|reflexivity]. simpl.
        destruct (j <? r * E + i) eqn:E2; destruct (j <? r * E + (i + 1)) eqn:E3;
          try reflexivity.
        * apply Z.ltb_lt in E2. apply Z.ltb_ge in E3. lia.
        * apply Z.ltb_ge in E2. apply Z.ltb_lt in E3. apply Z.leb_le in E1. lia. }
  rewrite H.
  destruct (idx / E =? r) eqn:Er.
  - apply Z.eqb_eq in Er.
    pose proof (Z.div_mod idx E ltac:(lia)) as Hdm.
    pose proof (Z.mod_pos_bound idx E HE) as Hm.
    replace (r * E <=? idx) with true by (symmetry; apply Z.leb_le; nia).
    replace (idx <? r * E + E) with true by (symmetry; apply Z.ltb_lt; nia).
    simpl. f_equal. nia.
  - apply Z.eqb_neq in Er.
    destruct (r * E <=? idx) eqn:E1; [|reflexivity].
    destruct (idx <? r * E + E) eqn:E2; [|reflexivity].
    apply Z.leb_le in E1. apply Z.ltb_lt in E2. exfalso. apply Er.
    symmetry. apply (Z.div_unique idx E r (idx - r * E)); lia.
Qed.

Lemma fold_write_rows (f : (Z -> F) -> Z -> F) (E : Z) (input : buf F) (L : list Z) :
  0 < E ->
  forall (out : buf F) (idx : Z),
    fold_left (fun o r => write_row f E input r o) L out idx =
    if existsb (Z.eqb (idx / E)) L
    then f (row_of input E (idx / E)) (idx mod E) else out idx.
Proof.
  intros HE. induction L as [|a L IH]; intros out idx; simpl; [reflexivity|].
  rewrite IH, write_row_at by exact HE.
  destruct (idx / E =? a) eqn:Ea.
  - apply Z.eqb_eq in Ea. subst a. simpl.
    destruct (existsb (Z.eqb (idx / E)) L); reflexivity.
  - reflexivity.
Qed.

Lemma fold_left_flat_map (A B C : Type) (g : A -> C -> A) (k : B -> list C) (L : list B) :
  forall a : A,
    fold_left g (flat_map k L) a = fold_left (fun a b => fold_left g (k b) a) L a.
Proof.
  induction L as [|b L IH]; intros a; simpl; [reflexivity|].
  rewrite fold_left_app. apply IH.
Qed.

Lemma fold_left_agree (A B : Type) (f g : A -> B -> A) (L : list B) :
  (forall b a, In b L -> f a b = g a b) ->
  forall a : A, fold_left f L a = fold_left g L a.
Proof.
  induction L as [|b L IH]; intros H a; simpl; [reflexivity|].
  rewrite H by (left; reflexivity). apply IH.
  intros b' a' Hb'. apply H. right. exact Hb'.
Qed.

Lemma fold_left_mapped (A B C : Type) (f : A -> C -> A) (k : B -> C) (L : list B) :
  forall a : A, fold_left f (map k L) a = fold_left (fun a b => f a (k b)) L a.
Proof. induction L as [|b L IH]; intros a; simpl; [reflexivity | apply IH]. Qed.

Variable p : platform.

Lemma hart_rows_in (B ts n k r : Z) :
  0 < n -> 0 < ts -> (n | ts) -> 0 <= k < n ->
  In r (hart_rows B ts n k) <-> 0 <= r < B * ts /\ r mod n = k.
Proof.
  intros Hn Hts [q Hq] Hk. unfold hart_rows.
  assert (Hqn : ts / n = q) by (rewrite Hq; apply Z.div_mul; lia).
  rewrite Hqn. rewrite in_flat_map. split.
  - intros [b [Hb Hin]]. apply in_loop_indices in Hb.
    apply in_map_iff in Hin. destruct Hin as [s [<- Hs]].
    apply in_loop_indices in Hs. split; [nia|].
    rewrite Hq.
    replace (b * (q * n) + s * n + k) with (k + (b * q + s) * n) by ring.
    rewrite Z.mod_add by lia. apply Z.mod_small. lia.
  - intros [Hr Hm].
    assert (Hts' : 0 < q) by nia.
    exists (r / ts). split.
    + apply in_loop_indices. split; [apply Z.div_pos; lia|].
      apply Z.div_lt_upper_bound; nia.
    + apply in_map_iff. exists ((r mod ts) / n).
      pose proof (Z.div_mod r ts ltac:(lia)) as Hd1.
      pose proof (Z.mod_pos_bound r ts Hts) as Hb1.
      pose proof (Z.div_mod (r mod ts) n ltac:(lia)) as Hd2.
      pose proof (Z.mod_pos_bound (r mod ts) n Hn) as Hb2.
      assert (Hmm : (r mod ts) mod n = k).
      { rewrite <- Hm. rewrite Hq at 1.
        rewrite (Z.mul_comm q n). rewrite Z.rem_mul_r by lia.
        rewrite Z.mul_comm, Z.mod_add by lia. apply Z.mod_mod. lia. }
      split.
      * nia.
      * apply in_loop_indices. split; [apply Z.div_pos; lia|].
        apply Z.div_lt_upper_bound; [lia|]. nia.
Qed.

(** [layernorm_fp32_naive] writes the rows of its hart, each the
    normalisation of the input row, with the integer [eps] it was passed. *)
Lemma naive_kernel_rows (h : hart) (input output : buf F) (B ts E eps : Z) :
  let n := cluster_compute_core_num p in
  let k := cluster_core_idx h in
  0 < B -> 0 < ts -> 0 < E -> 0 < n -> (n | ts) -> 0 <= k < n ->
  B * ts * E < 2 ^ 32 ->
  layernorm_fp32_naive p h input output B ts E eps =
  fold_left (fun o r => write_row (layernorm_row E (f_of_int eps)) E input r o)
            (hart_rows B ts n k) output.
Proof.
  intros n k HB Hts HE Hn Hdiv Hk Hfit.
  assert (Hnts : n <= ts) by (apply Z.divide_pos_le; assumption).
  assert (HtsE : ts * E < 2 ^ 32) by nia.
  unfold layernorm_fp32_naive.
  replace (is_compute_core p h) with true
    by (symmetry; unfold is_compute_core; apply Z.ltb_lt; apply Hk).
  fold n k.
  assert (Ho : u32 (k * E) = k * E) by (apply u32_small; nia).
  assert (Hst : u32 (n * E) = n * E) by (apply u32_small; nia).
  assert (Hbo : u32 (ts * E) = ts * E) by (apply u32_small; nia).
  assert (Hud : udiv ts n = ts / n) by (apply udiv_small; nia).
  rewrite Ho, Hst, Hbo, Hud.
  unfold hart_rows. rewrite fold_left_flat_map, for_range_fold.
  apply fold_left_agree. intros b out Hb. apply in_loop_indices in Hb.
  rewrite for_range_fold, fold_left_mapped.
  apply fold_left_agree. intros s out' Hs. apply in_loop_indices in Hs.
  assert (Hsq : s * n + n <= ts).
  { destruct Hdiv as [q Hq]. rewrite Hq, Z.div_mul in Hs by lia. nia. }
  assert (Hat : forall i, 0 <= i < E ->
            k * E + u32 (b * (ts * E) + s * (n * E) + i) = (b * ts + s * n + k) * E + i).
  { intros i Hi. rewrite u32_small by nia. ring. }
  assert (Hmean :
    for_range 0 E (fun i mean =>
      f_add mean (input (k * E + u32 (b * (ts * E) + s * (n * E) + i)))) f_zero
    = for_range 0 E (fun i mean => f_add mean (row_of input E (b * ts + s * n + k) i)) f_zero).
  { apply for_range_ext. intros i m Hi. unfold row_of. rewrite Hat by exact Hi. reflexivity. }
  rewrite Hmean.
  change (f_div (for_range 0 E (fun i mean =>
            f_add mean (row_of input E (b * ts + s * n + k) i)) f_zero) (f_of_int E))
    with (row_mean E (row_of input E (b * ts + s * n + k))).
  set (x := row_of input E (b * ts + s * n + k)).
  assert (Hvar :
    for_range 0 E (fun i var =>
      f_add var (f_mul
        (f_sub (input (k * E + u32 (b * (ts * E) + s * (n * E) + i))) (row_mean E x))
        (f_sub (input (k * E + u32 (b * (ts * E) + s * (n * E) + i))) (row_mean E x))))
      f_zero
    = for_range 0 E (fun i var =>
        f_add var (f_mul (f_sub (x i) (row_mean E x)) (f_sub (x i) (row_mean E x))))
        f_zero).
  { apply for_range_ext. intros i m Hi. unfold x, row_of. rewrite Hat by exact Hi.
    reflexivity. }
  rewrite Hvar.
  change (f_div (for_range 0 E (fun i var =>
            f_add var (f_mul (f_sub (x i) (row_mean E x)) (f_sub (x i) (row_mean E x))))
            f_zero) (f_of_int E))
    with (row_var E x).
  unfold write_row. apply for_range_ext. intros i o Hi.
  rewrite Hat by exact Hi. unfold layernorm_row. fold x. unfold x at 1, row_of.
  reflexivity.
Qed.

End RowwiseKernel.

(* ===================================================================== *)
(** * LayerNorm: the layer on the whole feature map *)
(* ===================================================================== *)

Section LayerRowwise.

Import Machine Runtime LayerNorm.
Local Open Scope Z_scope.

Context {F : Type} {FO : FloatOps F}.
Variable p : platform.

Lemma div_mod_row (E r j : Z) :
  0 < E -> 0 <= j < E -> (r * E + j) / E = r /\ (r * E + j) mod E = j.
Proof.
  intros HE Hj. split.
  - symmetry. apply (Z.div_unique (r * E + j) E r j); lia.
  - symmetry. apply (Z.mod_unique (r * E + j) E r j); lia.
Qed.

Lemma flat_index_bound (B ts E b r i : Z) :
  0 <= b < B -> 0 <= r < ts -> 0 <= i < E ->
  0 <= (b * ts + r) * E + i < B * ts * E.
Proof.
  intros Hb Hr Hi.
  assert (H1 : 0 <= b * ts) by (apply Z.mul_nonneg_nonneg; lia).
  assert (H2 : (b + 1) * ts <= B * ts) by (apply Z.mul_le_mono_nonneg_r; lia).
  assert (H3 : 0 <= (b * ts + r) * E) by (apply Z.mul_nonneg_nonneg; lia).
  assert (H4 : (b * ts + r + 1) * E <= B * ts * E)
    by (apply Z.mul_le_mono_nonneg_r; lia).
  lia.
Qed.

(** The compute phase of a tile: every row of the tile is normalised. *)
Lemma compute_tile_at (f : (Z -> F) -> Z -> F) (k : kernel_t)
    (l : layernorm_layer_t F) (c : Z) (itile otile : buf F) (idx : Z) :
  let n := cluster_compute_core_num p in
  let B := batch_size l in
  let ts := tile_seq_len l in
  let E := embeddings l in
  0 < B -> 0 < ts -> 0 < E -> 0 < n -> (n | ts) ->
  kernel_rowwise p f k l ->
  compute_tile p k c l itile otile idx =
  if (0 <=? idx) && (idx <? B * ts * E)
  then f (row_of itile E (idx / E)) (idx mod E)
  else otile idx.
Proof.
  intros n B ts E HB Hts HE Hn Hdiv Hk. unfold compute_tile.
  assert (Hharts : forall h, In h (cluster_harts p c) -> 0 <= cluster_core_idx h <= n).
  { intros h Hh. unfold cluster_harts in Hh. apply in_map_iff in Hh.
    destruct Hh as [j [<- Hj]]. apply in_seq in Hj. simpl. fold n. lia. }
  assert (Hstep : forall h o,
    In h (cluster_harts p c) ->
    run_kernel p k h l itile o idx =
    if (0 <=? cluster_core_idx h) && (cluster_core_idx h <? n) &&
       existsb (Z.eqb (idx / E)) (hart_rows B ts n (cluster_core_idx h))
    then f (row_of itile E (idx / E)) (idx mod E) else o idx).
  { intros h o Hh. specialize (Hharts h Hh).
    destruct (Hk h itile o idx) as [Hc Hd]. fold n B ts E in Hc, Hd.
    destruct (Z.eq_dec (cluster_core_idx h) n) as [En | Nn].
    - rewrite (Hd En).
      replace (cluster_core_idx h <? n) with false
        by (symmetry; apply Z.ltb_ge; lia).
      rewrite andb_false_r. reflexivity.
    - rewrite Hc by lia. rewrite fold_write_rows by exact HE.
      replace (0 <=? cluster_core_idx h) with true by (symmetry; apply Z.leb_le; lia).
      replace (cluster_core_idx h <? n) with true by (symmetry; apply Z.ltb_lt; lia).
      reflexivity. }
  destruct ((0 <=? idx) && (idx <? B * ts * E)) eqn:Hin.
  - apply andb_prop in Hin. destruct Hin as [H0 H1].
    apply Z.leb_le in H0. apply Z.ltb_lt in H1.
    pose proof (Z.div_mod idx E ltac:(lia)) as Hdm.
    pose proof (Z.mod_pos_bound idx E HE) as Hmb.
    assert (Hr : 0 <= idx / E < B * ts).
    { split; [apply Z.div_pos; lia | apply Z.div_lt_upper_bound; nia]. }
    pose proof (Z.mod_pos_bound (idx / E) n Hn) as Hown.
    set (h0 := {| cluster_idx := c; cluster_core_idx := (idx / E) mod n |}).
    assert (Hh0 : In h0 (cluster_harts p c)).
    { unfold cluster_harts. apply in_map_iff. exists (Z.to_nat ((idx / E) mod n)).
      split; [unfold h0; f_equal; lia|]. apply in_seq. fold n. lia. }
    apply (fold_left_establish (fun out h => run_kernel p k h l itile out)
             (fun o : buf F => o idx = f (row_of itile E (idx / E)) (idx mod E))
             (cluster_harts p c) h0 Hh0).
    + intros o. rewrite Hstep by exact Hh0. simpl.
      replace (0 <=? (idx / E) mod n) with true by (symmetry; apply Z.leb_le; lia).
      replace ((idx / E) mod n <? n) with true by (symmetry; apply Z.ltb_lt; lia).
      replace (existsb (Z.eqb (idx / E)) (hart_rows B ts n ((idx / E) mod n))) with true;
        [reflexivity|].
      symmetry. apply existsb_exists. exists (idx / E). split; [|apply Z.eqb_refl].
      apply hart_rows_in; try assumption. split; [exact Hr | reflexivity].
    + intros h o Hh Ho. rewrite Hstep by exact Hh.
      destruct ((0 <=? cluster_core_idx h) && (cluster_core_idx h <? n) &&
                existsb (Z.eqb (idx / E)) (hart_rows B ts n (cluster_core_idx h)));
        [reflexivity | exact Ho].
  - apply (fold_left_preserve (fun out h => run_kernel p k h l itile out)
             (fun o : buf F => o idx = otile idx)); [|reflexivity].
    intros h o Hh Ho. rewrite Hstep by exact Hh.
    destruct ((0 <=? cluster_core_idx h) && (cluster_core_idx h <? n)) eqn:Hc;
      [|exact Ho].
    apply andb_prop in Hc. destruct Hc as [Hc0 Hc1].
    apply Z.leb_le in Hc0. apply Z.ltb_lt in Hc1. simpl.
    destruct (existsb (Z.eqb (idx / E)) (hart_rows B ts n (cluster_core_idx h))) eqn:Hex;
      [|exact Ho].
    exfalso. apply existsb_exists in Hex. destruct Hex as [r [Hr Er]].
    apply Z.eqb_eq in Er. subst r.
    apply hart_rows_in in Hr; try assumption; [|lia].
    destruct Hr as [Hr _].
    pose proof (Z.div_mod idx E ltac:(lia)) as Hdm.
    pose proof (Z.mod_pos_bound idx E HE) as Hmb.
    apply andb_false_iff in Hin. destruct Hin as [Hin | Hin].
    + apply Z.leb_gt in Hin. nia.
    + apply Z.ltb_ge in Hin. nia.
Qed.

(** The quantities the driver derives from a configuration it is written
    for. *)
Lemma layer_geometry (l : layernorm_layer_t F) :
  layer_ok p l ->
  let B := batch_size l in
  let S := seq_len l in
  let E := embeddings l in
  let T := n_tiles l in
  let ts := S / T in
  let tpc := T / cluster_num p in
  tile_seq_len l = ts /\ n_tiles_per_cluster p l = tpc /\
  S = ts * T /\ T = tpc * cluster_num p /\ 0 < ts /\ 0 < tpc /\
  B * S * E < 2 ^ 30 /\
  tile_offset l sizeof_float = ts * E * 4 /\
  u32 (tile_seq_len l * E * sizeof_float) = ts * E * 4 /\
  u32 (S * E * sizeof_float) = S * E * 4.
Proof.
  intros (HB & HS & HE & HT & HC & Hn & [q Hq] & [q' Hq'] & Hdiv & Hfit).
  intros B S E T ts tpc. fold B S E T in HB, HS, HE, HT, Hq, Hq', Hfit.
  unfold sizeof_float in *.
  assert (Hts : ts = q) by (unfold ts; rewrite Hq; apply Z.div_mul; lia).
  assert (Htpc : tpc = q') by (unfold tpc; rewrite Hq'; apply Z.div_mul; lia).
  assert (HTS : T <= S) by (apply Z.divide_pos_le; [lia | exists q; exact Hq]).
  assert (HCT : cluster_num p <= T) by (apply Z.divide_pos_le; [lia | exists q'; exact Hq']).
  assert (HSb : S < 2 ^ 32) by nia.
  assert (H1 : tile_seq_len l = ts).
  { unfold tile_seq_len. fold S T. apply udiv_small; lia. }
  assert (H2 : n_tiles_per_cluster p l = tpc).
  { unfold n_tiles_per_cluster. fold T. apply udiv_small; lia. }
  assert (Hqpos : 0 < q) by nia.
  assert (Hq'pos : 0 < q') by nia.
  assert (HtsS : ts <= S) by nia.
  assert (HSE : S * E <= B * S * E) by nia.
  assert (HtsE : 0 <= ts * E <= S * E) by nia.
  rewrite H1.
  repeat split; try assumption; try lia.
  - unfold tile_offset. rewrite H1. fold E. apply u32_small. lia.
  - apply u32_small. lia.
  - apply u32_small. lia.
Qed.

(** One iteration of the tile loop on the output feature map: the rows of
    tile [c * tpc + j] are normalised, whatever the scratchpad held. *)
Lemma tile_step_ofmap (f : (Z -> F) -> Z -> F) (k : kernel_t)
    (l : layernorm_layer_t F) (c j : Z) (t : @tcdm F) (o : buf F) (idx : Z) :
  let B := batch_size l in
  let S := seq_len l in
  let E := embeddings l in
  let ts := S / n_tiles l in
  let tpc := n_tiles l / cluster_num p in
  let off := idx - (c * tpc + j) * ts * E in
  layer_ok p l -> kernel_rowwise p f k l -> row_local E f ->
  0 <= c < cluster_num p -> 0 <= j < tpc ->
  snd (tile_step p sizeof_float k l c j (t, o)) idx =
  if (0 <=? off) && (off <? B * (S * E)) && (off mod (S * E) <? ts * E)
  then f (row_of (ifmap l) E (idx / E)) (idx mod E)
  else o idx.
Proof.
  intros B S E ts tpc off Hok Hk Hloc Hc Hj.
  destruct (layer_geometry Hok) as (Hts & Htpc & HS & HT & Htspos & Htpcpos & Hfit & Hto & Hsz & Hst).
  fold B S E ts tpc in Hts, Htpc, HS, HT, Htspos, Htpcpos, Hfit, Hto, Hsz, Hst.
  destruct Hok as (HB & HSpos & HE & HTpos & HC & Hn & _ & _ & Hdiv & _).
  fold B S E in HB, HSpos, HE. fold ts in Hdiv.
  set (tau := c * tpc + j) in *.
  assert (Htau : 0 <= tau < n_tiles l).
  { assert (c * tpc <= (cluster_num p - 1) * tpc)
      by (apply Z.mul_le_mono_nonneg_r; lia).
    unfold tau. lia. }
  assert (HtauS : tau * ts + ts <= S).
  { assert ((tau + 1) * ts <= n_tiles l * ts)
      by (apply Z.mul_le_mono_nonneg_r; lia).
    lia. }
  assert (HTS : n_tiles l <= S) by nia.
  assert (HSE : 0 < S * E <= B * S * E) by nia.
  assert (HtauE : 0 <= tau * ts * E /\ tau * ts * E + ts * E <= S * E) by nia.
  assert (HtsE : 0 < ts * E) by nia.
  unfold tile_step. cbn [snd].
  assert (Hti : tile_idx_of p l c j = tau).
  { unfold tile_idx_of. rewrite Htpc. apply u32_small. fold tau. lia. }
  rewrite Hti, Hto. fold E S B. rewrite Hsz, Hst.
  assert (Hptr : u32 (tau * (ts * E * 4)) = tau * ts * E * 4).
  { rewrite u32_small by lia. ring. }
  rewrite Hptr.
  rewrite dma_2d_at_bytes
    with (dp := tau * ts * E) (sp := 0) (cnt := ts * E) (ds := S * E) (ss := ts * E)
    by (unfold sizeof_float; lia).
  fold off.
  destruct ((0 <=? off) && (off <? B * (S * E)) && (off mod (S * E) <? ts * E)) eqn:Hcond;
    [|reflexivity].
  apply andb_prop in Hcond. destruct Hcond as [Hcond H3].
  apply andb_prop in Hcond. destruct Hcond as [H1 H2].
  apply Z.leb_le in H1. apply Z.ltb_lt in H2. apply Z.ltb_lt in H3.
  pose proof (Z.div_mod off (S * E) ltac:(lia)) as Hdm.
  pose proof (Z.mod_pos_bound off (S * E) ltac:(lia)) as Hmb.
  set (b := off / (S * E)) in *. set (m := off mod (S * E)) in *.
  assert (Hb : 0 <= b < B).
  { split; [apply Z.div_pos; lia | apply Z.div_lt_upper_bound; lia]. }
  pose proof (Z.div_mod m E ltac:(lia)) as Hdm2.
  pose proof (Z.mod_pos_bound m E HE) as Hmb2.
  set (mr := m / E) in *. set (mi := m mod E) in *.
  assert (Hmr : 0 <= mr < ts).
  { split; [apply Z.div_pos; lia | apply Z.div_lt_upper_bound; lia]. }
  clearbody b m mr mi.
  pose proof (flat_index_bound Hb Hmr Hmb2) as Hflat.
  (* the element of the output tile that is copied *)
  rewrite compute_tile_at with (f := f)
    by (rewrite ?Hts; first [exact Hdiv | exact Hk | lia]).
  rewrite Hts. fold B E.
  replace (0 + b * (ts * E) + m) with ((b * ts + mr) * E + mi)
    by (rewrite Hdm2; ring).
  destruct (div_mod_row (b * ts + mr) HE Hmb2) as [Hd1 Hd2].
  rewrite Hd1, Hd2.
  replace ((0 <=? (b * ts + mr) * E + mi)) with true by (symmetry; apply Z.leb_le; lia).
  replace ((b * ts + mr) * E + mi <? B * ts * E) with true
    by (symmetry; apply Z.ltb_lt; lia).
  cbn [andb].
  assert (Hidx : idx = (tau * ts + b * S + mr) * E + mi).
  { unfold off in Hdm. rewrite Hdm2 in Hdm. lia. }
  destruct (div_mod_row (tau * ts + b * S + mr) HE Hmb2) as [Hd3 Hd4].
  rewrite Hidx, Hd3, Hd4.
  apply Hloc; [exact Hmb2|]. intros jj Hjj. unfold row_of.
  rewrite dma_2d_at_bytes
    with (dp := 0) (sp := tau * ts * E) (cnt := ts * E) (ds := ts * E) (ss := S * E)
    by (unfold sizeof_float; lia).
  rewrite Z.sub_0_r.
  pose proof (flat_index_bound Hb Hmr Hjj) as Hflat2.
  assert (Hrow : 0 <= mr * E + jj < ts * E).
  { pose proof (@flat_index_bound 1 ts E 0 mr jj ltac:(lia) Hmr Hjj). lia. }
  assert (Hq1 : ((b * ts + mr) * E + jj) / (ts * E) = b).
  { symmetry. apply (Z.div_unique _ (ts * E) b (mr * E + jj)); [lia | ring]. }
  assert (Hq2 : ((b * ts + mr) * E + jj) mod (ts * E) = mr * E + jj).
  { symmetry. apply (Z.mod_unique _ (ts * E) b (mr * E + jj)); [lia | ring]. }
  rewrite Hq1, Hq2.
  replace (0 <=? (b * ts + mr) * E + jj) with true by (symmetry; apply Z.leb_le; lia).
  replace ((b * ts + mr) * E + jj <? B * (ts * E)) with true
    by (symmetry; apply Z.ltb_lt; lia).
  replace (mr * E + jj <? ts * E) with true by (symmetry; apply Z.ltb_lt; lia).
  cbn [andb]. f_equal. ring.
Qed.

(** An element written by the transfer of a tile lies in the feature
    map. *)
Lemma tile_cond_range (B S E ts T tau idx : Z) :
  0 < B -> 0 < E -> 0 < ts -> S = ts * T -> 0 <= tau < T ->
  let off := idx - tau * ts * E in
  0 <= off < B * (S * E) -> off mod (S * E) < ts * E ->
  0 <= idx < B * S * E.
Proof.
  intros HB HE Hts HS Htau off Hoff Hm.
  assert (HT : 0 < T) by lia.
  assert (HSpos : 0 < S) by nia.
  assert (HSE : 0 < S * E) by nia.
  pose proof (Z.div_mod off (S * E) ltac:(lia)) as Hdm.
  pose proof (Z.mod_pos_bound off (S * E) HSE) as Hmb.
  assert (Hb : 0 <= off / (S * E) < B).
  { split; [apply Z.div_pos; lia | apply Z.div_lt_upper_bound; lia]. }
  set (b := off / (S * E)) in *. set (m := off mod (S * E)) in *.
  clearbody b m.
  assert (H1 : (tau + 1) * ts <= T * ts) by (apply Z.mul_le_mono_nonneg_r; lia).
  assert (H2 : (tau * ts + ts) * E <= S * E) by (apply Z.mul_le_mono_nonneg_r; lia).
  assert (H3 : 0 <= tau * ts * E)
    by (apply Z.mul_nonneg_nonneg; [apply Z.mul_nonneg_nonneg|]; lia).
  assert (H4 : (b + 1) * (S * E) <= B * (S * E))
    by (apply Z.mul_le_mono_nonneg_r; lia).
  assert (H5 : 0 <= S * E * b) by (apply Z.mul_nonneg_nonneg; lia).
  unfold off in *. lia.
Qed.

(** Every element of the feature map is written by the transfer of the
    tile of its row. *)
Lemma tile_cond_of_index (B S E ts T idx : Z) :
  0 < B -> 0 < E -> 0 < ts -> 0 < T -> S = ts * T ->
  0 <= idx < B * S * E ->
  let tau := (idx / E) mod S / ts in
  let off := idx - tau * ts * E in
  0 <= tau < T /\ 0 <= off < B * (S * E) /\ off mod (S * E) < ts * E.
Proof.
  intros HB HE Hts HT HS Hidx tau off.
  assert (HSpos : 0 < S) by nia.
  pose proof (Z.div_mod idx E ltac:(lia)) as Hd1.
  pose proof (Z.mod_pos_bound idx E HE) as Hb1.
  assert (Hr : 0 <= idx / E < B * S).
  { split; [apply Z.div_pos; lia | apply Z.div_lt_upper_bound; lia]. }
  pose proof (Z.div_mod (idx / E) S ltac:(lia)) as Hd2.
  pose proof (Z.mod_pos_bound (idx / E) S HSpos) as Hb2.
  assert (Hbb : 0 <= idx / E / S < B).
  { split; [apply Z.div_pos; lia | apply Z.div_lt_upper_bound; lia]. }
  pose proof (Z.div_mod ((idx / E) mod S) ts ltac:(lia)) as Hd3.
  pose proof (Z.mod_pos_bound ((idx / E) mod S) ts Hts) as Hb3.
  assert (Htau : 0 <= tau < T).
  { unfold tau. split; [apply Z.div_pos; lia|].
    apply Z.div_lt_upper_bound; lia. }
  fold tau in Hd3.
  set (i := idx mod E) in *. set (r := idx / E) in *.
  set (b := r / S) in *. set (sg := r mod S) in *. set (w := sg mod ts) in *.
  clearbody tau w. clearbody sg b. clearbody r i.
  assert (Hoff : off = S * E * b + (w * E + i)).
  { unfold off. rewrite Hd1, Hd2, Hd3. ring. }
  assert (Hw : 0 <= w * E + i < ts * E).
  { pose proof (@flat_index_bound 1 ts E 0 w i ltac:(lia) Hb3 Hb1). lia. }
  assert (HtsS : ts <= S) by nia.
  assert (HtsE : ts * E <= S * E) by (apply Z.mul_le_mono_nonneg_r; lia).
  assert (HSE : 0 < S * E) by nia.
  assert (Hm : off mod (S * E) = w * E + i).
  { symmetry. apply (Z.mod_unique off (S * E) b (w * E + i)); lia. }
  assert (H4 : (b + 1) * (S * E) <= B * (S * E))
    by (apply Z.mul_le_mono_nonneg_r; lia).
  assert (H5 : 0 <= S * E * b) by (apply Z.mul_nonneg_nonneg; lia).
  split; [exact Htau|]. split; [lia|]. rewrite Hm. lia.
Qed.

(** The layer with a row-wise kernel produces the row-wise image of the
    input feature map, on every configuration it is written for and from
    any contents of the scratchpads. *)
Lemma layer_rowwise (f : (Z -> F) -> Z -> F) (k : kernel_t)
    (l : layernorm_layer_t F) (t0 : Z -> @tcdm F) :
  layer_ok p l -> dtype l = FP32 ->
  select_kernel l = Some k -> kernel_reads k FP32 = true ->
  kernel_rowwise p f k l -> row_local (embeddings l) f ->
  exists o, layernorm_layer p t0 l = Some o /\
            forall idx, o idx = rowwise_spec f l idx.
Proof.
  intros Hok Hd Hsel Hreads Hk Hloc.
  unfold layernorm_layer. rewrite Hd, Hsel. cbn [data_type_size]. rewrite Hreads.
  eexists. split; [reflexivity|]. intros idx.
  destruct (layer_geometry Hok) as (Hts & Htpc & HS & HT & Htspos & Htpcpos & _).
  pose proof Hok as (HB & HSpos & HE & HTpos & HC & Hn & _).
  set (B := batch_size l) in *. set (S := seq_len l) in *.
  set (E := embeddings l) in *. set (T := n_tiles l) in *.
  set (ts := S / T) in *. set (tpc := T / cluster_num p) in *.
  (* what one tile step does to the element *)
  assert (Hstep : forall c j t o,
    0 <= c < cluster_num p -> 0 <= j < tpc ->
    snd (tile_step p sizeof_float k l c j (t, o)) idx =
    if (0 <=? idx - (c * tpc + j) * ts * E) &&
       (idx - (c * tpc + j) * ts * E <? B * (S * E)) &&
       ((idx - (c * tpc + j) * ts * E) mod (S * E) <? ts * E)
    then f (row_of (ifmap l) E (idx / E)) (idx mod E) else o idx).
  { intros c j t o Hc Hj. apply tile_step_ofmap; assumption. }
  assert (Htau : forall c j, 0 <= c < cluster_num p -> 0 <= j < tpc ->
                             0 <= c * tpc + j < T).
  { intros c j Hc Hj.
    assert (c * tpc <= (cluster_num p - 1) * tpc)
      by (apply Z.mul_le_mono_nonneg_r; lia).
    assert (0 <= c * tpc) by (apply Z.mul_nonneg_nonneg; lia). lia. }
  unfold rowwise_spec. fold B S E.
  unfold cluster_run. rewrite Htpc.
  destruct ((0 <=? idx) && (idx <? B * S * E)) eqn:Hin.
  - apply andb_prop in Hin. destruct Hin as [H0 H1].
    apply Z.leb_le in H0. apply Z.ltb_lt in H1.
    destruct (@tile_cond_of_index B S E ts T idx HB HE Htspos HTpos HS (conj H0 H1))
      as (Hta & Hoff & Hm).
    set (tau := (idx / E) mod S / ts) in *.
    pose proof (Z.div_mod tau tpc ltac:(lia)) as Hdt.
    pose proof (Z.mod_pos_bound tau tpc Htpcpos) as Hbt.
    assert (Hc0 : 0 <= tau / tpc < cluster_num p).
    { split; [apply Z.div_pos; lia | apply Z.div_lt_upper_bound; lia]. }
    set (good := fun o : buf F => o idx = f (row_of (ifmap l) E (idx / E)) (idx mod E)).
    assert (Hpres : forall c j st, 0 <= c < cluster_num p -> 0 <= j < tpc ->
              good (snd st) -> good (snd (tile_step p sizeof_float k l c j st))).
    { intros c j [t o] Hc Hj Hg. unfold good. rewrite Hstep by assumption.
      match goal with |- (if ?cnd then _ else _) = _ => destruct cnd end;
        [reflexivity | exact Hg]. }
    apply (for_range_establish good _ (i0 := tau / tpc)); [exact Hc0 | |].
    + intros o.
      apply (for_range_establish (fun st => good (snd st)) _ (i0 := tau mod tpc));
        [exact Hbt | |].
      * intros [t o']. unfold good. rewrite Hstep by assumption.
        replace (tau / tpc * tpc + tau mod tpc) with tau by lia.
        replace (0 <=? idx - tau * ts * E) with true by (symmetry; apply Z.leb_le; lia).
        replace (idx - tau * ts * E <? B * (S * E)) with true
          by (symmetry; apply Z.ltb_lt; lia).
        replace ((idx - tau * ts * E) mod (S * E) <? ts * E) with true
          by (symmetry; apply Z.ltb_lt; lia).
        reflexivity.
      * intros j st Hj Hg. apply Hpres; assumption.
    + intros c o Hc Hg.
      apply (for_range_inv (fun st => good (snd st))); [exact Hg|].
      intros j st Hj Hg'. apply Hpres; assumption.
  - set (good := fun o : buf F => o idx = ofmap l idx).
    assert (Hpres : forall c j st, 0 <= c < cluster_num p -> 0 <= j < tpc ->
              good (snd st) -> good (snd (tile_step p sizeof_float k l c j st))).
    { intros c j [t o] Hc Hj Hg. unfold good. rewrite Hstep by assumption.
      match goal with |- (if ?cnd then _ else _) = _ => destruct cnd eqn:Hcnd end;
        [|exact Hg].
      exfalso.
      apply andb_prop in Hcnd. destruct Hcnd as [Hcnd H3].
      apply andb_prop in Hcnd. destruct Hcnd as [H1 H2].
      apply Z.leb_le in H1. apply Z.ltb_lt in H2. apply Z.ltb_lt in H3.
      pose proof (@tile_cond_range B S E ts T (c * tpc + j) idx HB HE Htspos HS
                    (Htau c j Hc Hj) (conj H1 H2) H3) as Hr.
      apply andb_false_iff in Hin. destruct Hin as [Hin | Hin].
      - apply Z.leb_gt in Hin. lia.
      - apply Z.ltb_ge in Hin. lia. }
    apply (for_range_inv good); [reflexivity|].
    intros c o Hc Hg.
    apply (for_range_inv (fun st => good (snd st))); [exact Hg|].
    intros j st Hj Hg'. apply Hpres; assumption.
Qed.

End LayerRowwise.

(* ===================================================================== *)
(** * Ideal arithmetic *)
(* ===================================================================== *)

Section IdealFacts.

Import Ideal.
Local Open Scope R_scope.

Lemma Rsign_neg (A : Type) (r : R) (a b c : A) : r < 0 -> Rsign r a b c = a.
Proof.
  intros H. unfold Rsign. destruct (total_order_T r 0) as [[H1 | H1] | H1];
    [reflexivity | lra | lra].
Qed.

Lemma Rsign_zero (A : Type) (r : R) (a b c : A) : r = 0 -> Rsign r a b c = b.
Proof.
  intros H. unfold Rsign. destruct (total_order_T r 0) as [[H1 | H1] | H1];
    [lra | reflexivity | lra].
Qed.

Lemma Rsign_pos (A : Type) (r : R) (a b c : A) : 0 < r -> Rsign r a b c = c.
Proof.
  intros H. unfold Rsign. destruct (total_order_T r 0) as [[H1 | H1] | H1];
    [lra | lra | reflexivity].
Qed.

Lemma xdiv_fin (a b : R) : b <> 0 -> xdiv (Fin a) (Fin b) = Fin (a / b).
Proof.
  intros H. unfold xdiv, Rsign.
  destruct (total_order_T b 0) as [[H1 | H1] | H1]; [reflexivity | lra | reflexivity].
Qed.

Lemma xsqrt_fin (a : R) : 0 <= a -> xsqrt (Fin a) = Fin (sqrt a).
Proof.
  intros H. unfold xsqrt, Rsign.
  destruct (total_order_T a 0) as [[H1 | H1] | H1]; [lra | | reflexivity].
  rewrite H1, sqrt_0. reflexivity.
Qed.

Lemma xgt_fin (a b : R) : xgt (Fin a) (Fin b) = true <-> b < a.
Proof.
  unfold xgt. destruct (Rlt_dec b a); split; intros H;
    try reflexivity; try assumption; try discriminate; try contradiction.
Qed.

Lemma xgt_fin_true (a b : R) : b < a -> xgt (Fin a) (Fin b) = true.
Proof. apply xgt_fin. Qed.

Lemma xgt_fin_false (a b : R) : a <= b -> xgt (Fin a) (Fin b) = false.
Proof.
  intros H. unfold xgt. destruct (Rlt_dec b a); [lra | reflexivity].
Qed.

(** An ideal value stored as a float and loaded again is the value
    stored. *)
Lemma ideal_words_round_trip (x : xreal) : f_join (f_low x) (f_high x) = x.
Proof. reflexivity. Qed.

(** The comparison of the ideal values is transitive. *)
#[export] Instance ideal_order : FloatOrder ideal_ops.
Proof.
  constructor. intros a b c. simpl.
  destruct a as [x | | |], b as [y | | |], c as [z | | |]; simpl;
    try discriminate; try reflexivity.
  intros H1 H2. apply xgt_fin in H1. apply xgt_fin in H2. apply xgt_fin. lra.
Qed.

Lemma Rtrunc_small (r : R) : 0 <= r < 1 -> Rtrunc r = 0%Z.
Proof.
  intros H. unfold Rtrunc. destruct (Rle_dec 0 r) as [_ | Hn]; [|lra].
  symmetry. apply Int_part_spec. simpl. lra.
Qed.

Lemma x_to_int_small (r : R) : 0 <= r < 1 -> x_to_int (Fin r) = 0%Z.
Proof. intros H. unfold x_to_int. rewrite Rtrunc_small by exact H. reflexivity. Qed.

(** Dividing by a root and multiplying by its reciprocal agree on every
    ideal value, the degenerate ones included. *)
Lemma xdiv_sqrt_as_mul (a v : R) :
  xdiv (Fin a) (xsqrt (Fin v)) =
  xmul (xadd (Fin a) (Fin 0)) (xdiv (Fin 1) (xsqrt (Fin v))).
Proof.
  destruct (total_order_T v 0) as [[Hv | Hv] | Hv].
  - assert (Hs : xsqrt (Fin v) = NaN) by (unfold xsqrt; apply Rsign_neg; exact Hv).
    rewrite Hs. reflexivity.
  - subst v. rewrite xsqrt_fin, sqrt_0 by lra.
    unfold xdiv. rewrite !(Rsign_zero _ _ _ (eq_refl 0)).
    unfold xinf_signed at 2. rewrite Rsign_pos by lra.
    cbn [xadd xmul]. unfold xinf_signed. rewrite Rplus_0_r. reflexivity.
  - pose proof (sqrt_lt_R0 v Hv) as Hs.
    rewrite xsqrt_fin by lra.
    rewrite !xdiv_fin by lra. simpl. f_equal. field. lra.
Qed.

End IdealFacts.

(** Decides the sign tests left by the evaluation of ideal operations. *)
Ltac rsign :=
  repeat first
    [ rewrite Rsign_pos by lra
    | rewrite Rsign_neg by lra
    | rewrite Rsign_zero by lra ].

(* ===================================================================== *)
(** * LayerNorm: the scalar kernel *)
(* ===================================================================== *)

Section ScalarKernel.

Import Machine Runtime LayerNorm.
Local Open Scope Z_scope.

Context {F : Type} {FO : FloatOps F}.
Variable p : platform.

Lemma row_mean_local (E : Z) (x y : Z -> F) :
  (forall j, 0 <= j < E -> x j = y j) -> row_mean E x = row_mean E y.
Proof.
  intros H. unfold row_mean. f_equal.
  apply for_range_ext. intros i m Hi. rewrite H by exact Hi. reflexivity.
Qed.

Lemma row_var_local (E : Z) (x y : Z -> F) :
  (forall j, 0 <= j < E -> x j = y j) -> row_var E x = row_var E y.
Proof.
  intros H. unfold row_var. rewrite (@row_mean_local E x y H). f_equal.
  apply for_range_ext. intros i m Hi. rewrite H by exact Hi. reflexivity.
Qed.

Lemma layernorm_row_local (E : Z) (e : F) : row_local E (layernorm_row E e).
Proof.
  intros x y i Hi H. unfold layernorm_row.
  rewrite (@row_mean_local E x y H), (@row_var_local E x y H), (H i Hi). reflexivity.
Qed.

(** The scalar kernel is row-wise, with the [eps] of the configuration
    converted to the [int32_t] the kernel declares. *)
Lemma naive_kernel_rowwise (l : layernorm_layer_t F) :
  layer_ok p l ->
  kernel_rowwise p (layernorm_row (embeddings l) (f_of_int (f_to_int (eps l))))
                 K_fp32_naive l.
Proof.
  intros Hok h input output idx.
  destruct (layer_geometry Hok) as (Hts & _ & HS & _ & Htspos & _ & Hfit & _).
  pose proof Hok as (HB & HSpos & HE & HT & _ & Hn & _ & _ & Hdiv & _).
  split.
  - intros Hk. cbn [run_kernel].
    rewrite naive_kernel_rows; try assumption; try (rewrite Hts; assumption);
      [reflexivity|].
    rewrite Hts.
    assert (seq_len l / n_tiles l <= seq_len l) by nia.
    assert (batch_size l * (seq_len l / n_tiles l) <= batch_size l * seq_len l)
      by (apply Z.mul_le_mono_nonneg_l; lia).
    assert (batch_size l * (seq_len l / n_tiles l) * embeddings l
            <= batch_size l * seq_len l * embeddings l)
      by (apply Z.mul_le_mono_nonneg_r; lia).
    lia.
  - intros Hk. cbn [run_kernel]. unfold layernorm_fp32_naive.
    replace (is_compute_core p h) with false; [reflexivity|].
    symmetry. unfold is_compute_core. apply Z.ltb_ge. lia.
Qed.

(** The baseline layer in single precision normalises every row of the
    feature map with the truncated [eps]. *)
Lemma baseline_layer_rows (l : layernorm_layer_t F) (t0 : Z -> @tcdm F) :
  layer_ok p l -> dtype l = FP32 -> baseline l = 1 ->
  exists o, layernorm_layer p t0 l = Some o /\
            forall idx, o idx =
              rowwise_spec (layernorm_row (embeddings l) (f_of_int (f_to_int (eps l))))
                           l idx.
Proof.
  intros Hok Hd Hb.
  apply (layer_rowwise (k := K_fp32_naive) t0 Hok Hd).
  - unfold select_kernel. rewrite Hb. reflexivity.
  - reflexivity.
  - apply naive_kernel_rowwise. exact Hok.
  - apply layernorm_row_local.
Qed.

Lemma rowwise_spec_in (f : (Z -> F) -> Z -> F) (l : layernorm_layer_t F) (idx : Z) :
  0 <= idx < batch_size l * seq_len l * embeddings l ->
  rowwise_spec f l idx =
  f (row_of (ifmap l) (embeddings l) (idx / embeddings l)) (idx mod embeddings l).
Proof.
  intros H. unfold rowwise_spec.
  replace (0 <=? idx) with true by (symmetry; apply Z.leb_le; lia).
  replace (idx <? batch_size l * seq_len l * embeddings l) with true
    by (symmetry; apply Z.ltb_lt; lia).
  reflexivity.
Qed.

End ScalarKernel.

(* ===================================================================== *)
(** * LayerNorm: the integer [eps] *)
(* ===================================================================== *)

Section EpsTruncation.

Import Machine Runtime LayerNorm Ideal Scenarios.
Local Open Scope Z_scope.

Lemma constant_row_ok : layer_ok one_core constant_row.
Proof.
  unfold layer_ok. simpl.
  repeat split; try lia; try (exists 1; reflexivity).
Qed.

(** C3 on the constant row [1, 1] with [eps = 1e-5]: the kernel receives
    [eps] as the integer 0, the variance is 0, and every element of the
    output row is 0 / 0, a NaN; with the [eps] of the configuration the row
    would be 0 / sqrt (1e-5), that is 0. *)
Theorem layernorm_eps_truncated :
  f_to_int (eps constant_row) = 0 /\
  (exists o, layernorm_layer one_core zero_tiles constant_row = Some o /\
             o 0 = NaN /\ o 1 = NaN) /\
  layernorm_row 2 (eps constant_row) (row_of (ifmap constant_row) 2 0) 0 = Fin 0 /\
  layernorm_row 2 (eps constant_row) (row_of (ifmap constant_row) 2 0) 1 = Fin 0.
Proof.
  assert (He : f_to_int (eps constant_row) = 0).
  { simpl. apply x_to_int_small. lra. }
  assert (Hmean : row_mean 2 (fun _ : Z => Fin 1) = Fin 1).
  { unfold row_mean, for_range. simpl. rsign. f_equal. lra. }
  assert (Hvar : row_var 2 (fun _ : Z => Fin 1) = Fin 0).
  { unfold row_var. rewrite Hmean. unfold for_range. simpl. rsign. f_equal. lra. }
  split; [exact He|]. split; [|split].
  - destruct (baseline_layer_rows zero_tiles constant_row_ok eq_refl eq_refl)
      as [o [Ho Hval]].
    exists o. split; [exact Ho|].
    rewrite !Hval, !rowwise_spec_in by (simpl; lia). rewrite He.
    change (row_of (ifmap constant_row) (embeddings constant_row) _)
      with (fun _ : Z => Fin 1).
    change (embeddings constant_row) with 2.
    unfold layernorm_row. rewrite Hmean, Hvar. simpl. rsign. simpl. rsign.
    unfold xinf_signed. rsign. split; reflexivity.
  - change (row_of (ifmap constant_row) 2 0) with (fun _ : Z => Fin 1).
    unfold layernorm_row. rewrite Hmean, Hvar. simpl. rsign.
    assert (Hp : (0 < sqrt (0 + 1 / 100000))%R) by (apply sqrt_lt_R0; lra).
    simpl. rsign. f_equal. unfold Rdiv. rewrite Rplus_opp_r. ring.
  - change (row_of (ifmap constant_row) 2 0) with (fun _ : Z => Fin 1).
    unfold layernorm_row. rewrite Hmean, Hvar. simpl. rsign.
    assert (Hp : (0 < sqrt (0 + 1 / 100000))%R) by (apply sqrt_lt_R0; lra).
    simpl. rsign. f_equal. unfold Rdiv. rewrite Rplus_opp_r. ring.
Qed.

End EpsTruncation.

(* ===================================================================== *)
(** * The theorems at concrete configurations *)
(* ===================================================================== *)

Section Witnesses.

Import Machine Runtime Ideal Scenarios.
Local Open Scope Z_scope.

Lemma row_partition_bounds_witness :
  (cluster_num two_cores = 1 -> cluster_idx core1 < cluster_num two_cores ->
     FlashAttention.compute_id two_cores core1 = cluster_core_idx core1 /\
     FlashAttention.compute_id two_cores core1 < FlashAttention.num_cores two_cores /\
     Forall (fun row_idx => 0 <= row_idx < FlashAttention.B_r four_rows)
            (loop_indices (FlashAttention.start_row two_cores four_rows core1)
                          (FlashAttention.end_row two_cores four_rows core1))) /\
  (FlashAttention.num_cores two_cores <= FlashAttention.compute_id two_cores core1 ->
     loop_indices (FlashAttention.start_row two_cores four_rows core1)
                  (FlashAttention.end_row two_cores four_rows core1) <> [] /\
     Forall (fun row_idx => FlashAttention.B_r four_rows <= row_idx)
            (loop_indices (FlashAttention.start_row two_cores four_rows core1)
                          (FlashAttention.end_row two_cores four_rows core1))).
Proof.
  apply (@row_partition_bounds xreal two_cores four_rows core1).
  - unfold FlashAttention.num_cores. simpl. lia.
  - simpl. lia.
  - exists 2. reflexivity.
  - reflexivity.
  - simpl. lia.
  - simpl. lia.
  - vm_compute. reflexivity.
Defined.




Lemma unsupported_dtype_reported_witness :
  In (LayerNorm.EvPrintf LayerNorm.unsupported_msg)
     (LayerNorm.layernorm_layer_events one_core core0 double_rows) /\
  LayerNorm.data_type_size (LayerNorm.dtype double_rows) = None /\
  LayerNorm.layernorm_layer one_core zero_tiles double_rows = None /\
  (LayerNorm.baseline double_rows <> 1 ->
     forall k d, ~ In (LayerNorm.EvKernel k d)
                      (LayerNorm.layernorm_layer_events one_core core0 double_rows)) /\
  (LayerNorm.baseline double_rows = 1 ->
     forall k d, In (LayerNorm.EvKernel k d)
                    (LayerNorm.layernorm_layer_events one_core core0 double_rows) ->
                 k = LayerNorm.K_fp32_naive /\ d = LayerNorm.FP_other 8).
Proof.
  apply (@unsupported_dtype_reported xreal ideal_ops one_core zero_tiles core0
           double_rows 8).
  reflexivity.
Defined.

End Witnesses.

(* ===================================================================== *)
(** * LayerNorm: tiling of the sequence axis *)
(* ===================================================================== *)

Section TilingScalar.

Import Machine Runtime LayerNorm Ideal Scenarios.
Local Open Scope Z_scope.

Lemma two_rows_ok : layer_ok two_cores (with_tiles two_rows 1).
Proof.
  unfold layer_ok. simpl.
  repeat split; try lia; try (exists 1; reflexivity); try (exists 2; reflexivity).
Qed.

(** C8 fails when the compute cores do not divide the rows of a tile: two
    rows [0, 2] on two compute cores.  In one tile each core normalises
    one row, to [-1, 1].  In two tiles (2 divides [seq_len], and the single
    cluster divides 2) a tile has one row, [1 / 2 = 0] rows per core: no
    row is normalised and the scratchpad contents, here zeros, are written
    back. *)
Lemma tiling_changes_output :
  (2 | seq_len two_rows) /\ (cluster_num two_cores | 2) /\
  exists o1 o2,
    layernorm_layer two_cores zero_tiles (with_tiles two_rows 1) = Some o1 /\
    layernorm_layer two_cores zero_tiles (with_tiles two_rows 2) = Some o2 /\
    o1 1 = Fin 1 /\ o2 1 = Fin 0 /\ o1 1 <> o2 1.
Proof.
  split; [exists 1; reflexivity|]. split; [exists 2; reflexivity|].
  destruct (baseline_layer_rows zero_tiles two_rows_ok eq_refl eq_refl)
    as [o1 [Ho1 Hval]].
  exists o1. eexists. split; [exact Ho1|]. split; [reflexivity|].
  assert (H1 : o1 1 = Fin 1).
  { rewrite Hval, rowwise_spec_in by (simpl; lia).
    change (embeddings (with_tiles two_rows 1)) with 2.
    assert (He : f_to_int (eps (with_tiles two_rows 1)) = 0).
    { simpl. apply x_to_int_small. lra. }
    rewrite He.
    set (x := row_of (ifmap (with_tiles two_rows 1)) 2 (1 / 2)).
    assert (Hmean : row_mean 2 x = Fin 1).
    { unfold row_mean, for_range. simpl. rsign. f_equal. lra. }
    assert (Hvar : row_var 2 x = Fin 1).
    { unfold row_var. rewrite Hmean. unfold for_range. simpl. rsign. f_equal. lra. }
    unfold layernorm_row. rewrite Hmean, Hvar.
    change (x (1 mod 2)) with (Fin 2). simpl.
    rewrite Rsign_pos by lra.
    replace (1 + 0)%R with 1%R by lra. rewrite sqrt_1.
    rewrite Rsign_pos by lra. f_equal. lra. }
  split; [exact H1|]. split.
  - lazy. reflexivity.
  - rewrite H1. lazy. intros E. inversion E. lra.
Qed.

End TilingScalar.

(* ===================================================================== *)
(** * LayerNorm: the vectorised kernel *)
(* ===================================================================== *)

Section VectorKernel.

Import Machine Runtime LayerNorm.
Local Open Scope Z_scope.

Context {F : Type} {FO : FloatOps F}.

Lemma store2_at_fst (b : buf F) (i idx : Z) (v : v2f32) :
  idx = i -> store2 b i v idx = fst v.
Proof.
  intros ->. unfold store2. rewrite upd_other by lia. apply upd_same.
Qed.

Lemma store2_at_snd (b : buf F) (i idx : Z) (v : v2f32) :
  idx = i + 1 -> store2 b i v idx = snd v.
Proof. intros ->. unfold store2. apply upd_same. Qed.

Lemma store2_other (b : buf F) (i idx : Z) (v : v2f32) :
  idx <> i -> idx <> i + 1 -> store2 b i v idx = b idx.
Proof. intros H1 H2. unfold store2. rewrite !upd_other by assumption. reflexivity. Qed.

Ltac store2_simpl :=
  repeat first [ rewrite store2_at_fst by lia
               | rewrite store2_at_snd by lia
               | rewrite store2_other by lia ];
  cbn [fst snd].

(** Congruence down to the indices, which linear arithmetic settles. *)
Ltac index_congruence :=
  repeat match goal with
         | |- @eq Z _ _ => lia
         | |- _ => progress f_equal
         end.

(** A block of repetitions that each rewrite eight consecutive elements,
    two per unrolled instruction, each from its index and its old value. *)
Lemma for_range_map8 (w : Z -> F -> F) (a q : Z) (out : buf F) (idx : Z) :
  0 <= q ->
  for_range 0 q (fun j o =>
    let o := store2 o (a + 8 * j)
                    (w (a + 8 * j) (o (a + 8 * j)),
                     w (a + 8 * j + 1) (o (a + 8 * j + 1))) in
    let o := store2 o (a + 8 * j + 2)
                    (w (a + 8 * j + 2) (o (a + 8 * j + 2)),
                     w (a + 8 * j + 3) (o (a + 8 * j + 3))) in
    let o := store2 o (a + 8 * j + 4)
                    (w (a + 8 * j + 4) (o (a + 8 * j + 4)),
                     w (a + 8 * j + 5) (o (a + 8 * j + 5))) in
    store2 o (a + 8 * j + 6)
           (w (a + 8 * j + 6) (o (a + 8 * j + 6)),
            w (a + 8 * j + 7) (o (a + 8 * j + 7)))) out idx =
  if (a <=? idx) && (idx <? a + 8 * q) then w idx (out idx) else out idx.
Proof.
  intros Hq. revert idx.
  apply (for_range_ind
    (fun j (o : buf F) => forall idx,
       o idx = if (a <=? idx) && (idx <? a + 8 * j) then w idx (out idx) else out idx));
    [exact Hq| |].
  - intros idx. destruct (Z.leb_spec a idx); destruct (Z.ltb_spec idx (a + 8 * 0));
      try reflexivity; lia.
  - intros j o Hj IHo idx. cbv zeta.
    assert (Hold : forall i, a + 8 * j <= i -> o i = out i).
    { intros i Hi. rewrite IHo.
      destruct (Z.leb_spec a i); destruct (Z.ltb_spec i (a + 8 * j));
        try reflexivity; lia. }
    destruct (Z.leb_spec a idx) as [Ha | Ha];
      destruct (Z.ltb_spec idx (a + 8 * (j + 1))) as [Hb | Hb]; cbn [andb].
    + destruct (Z.ltb_spec idx (a + 8 * j)) as [Hc | Hc].
      * store2_simpl. rewrite IHo.
        destruct (Z.leb_spec a idx); destruct (Z.ltb_spec idx (a + 8 * j));
          try reflexivity; lia.
      * assert (Hk : idx = a + 8 * j \/ idx = a + 8 * j + 1 \/ idx = a + 8 * j + 2 \/
                     idx = a + 8 * j + 3 \/ idx = a + 8 * j + 4 \/ idx = a + 8 * j + 5 \/
                     idx = a + 8 * j + 6 \/ idx = a + 8 * j + 7) by lia.
        destruct Hk as [-> | [-> | [-> | [-> | [-> | [-> | [-> | ->]]]]]]];
          store2_simpl; rewrite Hold by lia; reflexivity.
    + store2_simpl. rewrite Hold by lia. reflexivity.
    + store2_simpl. rewrite IHo.
      destruct (Z.leb_spec a idx); destruct (Z.ltb_spec idx (a + 8 * j));
        try reflexivity; lia.
    + store2_simpl. rewrite IHo.
      destruct (Z.leb_spec a idx); destruct (Z.ltb_spec idx (a + 8 * j));
        try reflexivity; lia.
Qed.

Lemma for_range_pair (A B : Type) (ga : Z -> A -> A) (gb : Z -> B -> B)
    (lo hi : Z) (a0 : A) (b0 : B) :
  for_range lo hi (fun j '(a, b) => (ga j a, gb j b)) (a0, b0) =
  (for_range lo hi ga a0, for_range lo hi gb b0).
Proof.
  rewrite !for_range_fold. revert a0 b0.
  induction (loop_indices lo hi) as [|i L IH]; intros a0 b0; simpl; [reflexivity|].
  apply IH.
Qed.

Lemma frep_count_pos (q : Z) : 1 <= q < 2 ^ 32 -> frep_count q = q.
Proof. intros H. unfold frep_count. rewrite u32_small by lia. lia. Qed.

(** A stream that walks a row of [8 * q] elements from element [a]. *)
Definition walks (dm : Z -> Z -> Z) (a q : Z) : Prop :=
  forall u j, 0 <= u < 4 -> 0 <= j < q -> dm u j = a + 8 * j + 2 * u.

Lemma asm_row_mean_eq (input : buf F) (dm0 : Z -> Z -> Z) (q E a : Z) :
  1 <= q < 2 ^ 32 -> walks dm0 a q ->
  asm_row_mean input dm0 q E =
  f_div (tree_sum4 (lanes_sum4 q (fun i => input (a + i)))) (f_of_int E).
Proof.
  intros Hq Hdm. unfold asm_row_mean. rewrite frep_count_pos by exact Hq.
  assert (Hl :
    for_range 0 q (fun j '(m0, m1, m2, m3) =>
      (vfsum_s m0 (load2 input (dm0 0 j)), vfsum_s m1 (load2 input (dm0 1 j)),
       vfsum_s m2 (load2 input (dm0 2 j)), vfsum_s m3 (load2 input (dm0 3 j))))
      (f_zero, f_zero, f_zero, f_zero)
    = lanes_sum4 q (fun i => input (a + i))).
  { unfold lanes_sum4. apply for_range_ext. intros j [[[m0 m1] m2] m3] Hj.
    unfold load2. rewrite !Hdm by lia. index_congruence. }
  rewrite Hl. destruct (lanes_sum4 q (fun i => input (a + i))) as [[[a0 a1] a2] a3].
  reflexivity.
Qed.

Lemma asm_row_variance_eq (input : buf F) (dm0 dm1 : Z -> Z -> Z)
    (q E eps a_in a_out : Z) (mean_tot : F) (out : buf F) :
  1 <= q < 2 ^ 32 -> walks dm0 a_in q -> walks dm1 a_out q ->
  let dev := fun i => f_sub (input (a_in + i)) mean_tot in
  (forall idx,
     fst (asm_row_variance input dm0 dm1 q E eps mean_tot out) idx =
     if (a_out <=? idx) && (idx <? a_out + 8 * q)
     then f_add (dev (idx - a_out)) f_zero else out idx) /\
  snd (asm_row_variance input dm0 dm1 q E eps mean_tot out) =
  f_div f_one
        (f_sqrt (f_add (f_div (tree_sum4 (lanes_sum4 q (fun i => f_mul (dev i) (dev i))))
                              (f_of_int E))
                       (f_of_int eps))).
Proof.
  intros Hq Hdm0 Hdm1 dev. unfold asm_row_variance.
  rewrite frep_count_pos by exact Hq.
  set (w := fun (idx : Z) (_ : F) => f_add (dev (idx - a_out)) f_zero).
  match goal with
  | |- context [for_range 0 q ?body (out, ?init)] =>
      assert (Hl : for_range 0 q body (out, init) =
        (for_range 0 q (fun j o =>
           let o := store2 o (a_out + 8 * j)
                      (w (a_out + 8 * j) (o (a_out + 8 * j)),
                       w (a_out + 8 * j + 1) (o (a_out + 8 * j + 1))) in
           let o := store2 o (a_out + 8 * j + 2)
                      (w (a_out + 8 * j + 2) (o (a_out + 8 * j + 2)),
                       w (a_out + 8 * j + 3) (o (a_out + 8 * j + 3))) in
           let o := store2 o (a_out + 8 * j + 4)
                      (w (a_out + 8 * j + 4) (o (a_out + 8 * j + 4)),
                       w (a_out + 8 * j + 5) (o (a_out + 8 * j + 5))) in
           store2 o (a_out + 8 * j + 6)
                  (w (a_out + 8 * j + 6) (o (a_out + 8 * j + 6)),
                   w (a_out + 8 * j + 7) (o (a_out + 8 * j + 7)))) out,
         lanes_sum4 q (fun i => f_mul (dev i) (dev i))))
  end.
  { unfold lanes_sum4. rewrite <- for_range_pair.
    apply for_range_ext. intros j [o [[[v0 v1] v2] v3]] Hj.
    unfold load2, vfsub_s, vfadd_s, vfmul_s, vfcpka_s_s, w, dev. cbn [fst snd].
    rewrite !Hdm0, !Hdm1 by lia.
    index_congruence. }
  rewrite Hl.
  destruct (lanes_sum4 q (fun i => f_mul (dev i) (dev i))) as [[[a0 a1] a2] a3].
  cbn [fst snd]. split; [|reflexivity].
  intros idx. rewrite for_range_map8 by lia. reflexivity.
Qed.

Lemma asm_row_normalize_eq (dm2 dm1 : Z -> Z -> Z) (q a : Z) (c : F)
    (out : buf F) (idx : Z) :
  1 <= q < 2 ^ 32 -> walks dm2 a q -> walks dm1 a q ->
  asm_row_normalize dm2 dm1 q (vfcpka_s_s c c) out idx =
  if (a <=? idx) && (idx <? a + 8 * q) then f_mul (out idx) c else out idx.
Proof.
  intros Hq Hdm2 Hdm1. unfold asm_row_normalize.
  rewrite frep_count_pos by exact Hq.
  rewrite <- (for_range_map8 (fun _ v => f_mul v c) a out idx) by lia.
  apply (f_equal (fun b : buf F => b idx)).
  apply for_range_ext. intros j o Hj. cbv zeta.
  unfold load2, vfmul_s, vfcpka_s_s. cbn [fst snd].
  rewrite !Hdm2, !Hdm1 by lia.
  index_congruence.
Qed.

(** Loops over batches and rows whose bodies each rewrite one row. *)
Lemma nested_range_effect (E : Z) (body : Z -> Z -> buf F -> buf F)
    (rho : Z -> Z -> Z) (fv : Z -> F) (nb ns : Z) :
  (forall b s o idx, 0 <= b < nb -> 0 <= s < ns ->
     body b s o idx = if idx / E =? rho b s then fv idx else o idx) ->
  forall (o : buf F) (idx : Z),
    for_range 0 nb (fun b o => for_range 0 ns (fun s o => body b s o) o) o idx =
    if existsb (Z.eqb (idx / E))
               (flat_map (fun b => map (rho b) (loop_indices 0 ns)) (loop_indices 0 nb))
    then fv idx else o idx.
Proof.
  intros Hbody o idx.
  assert (Hin : forall b, 0 <= b < nb ->
    forall Ls, (forall s, In s Ls -> 0 <= s < ns) ->
    forall o',
      fold_left (fun o s => body b s o) Ls o' idx =
      if existsb (Z.eqb (idx / E)) (map (rho b) Ls) then fv idx else o' idx).
  { intros b Hb Ls. induction Ls as [|s Ls IHs]; intros Hs o'; [reflexivity|].
    cbn [fold_left map existsb].
    rewrite IHs by (intros s' Hs'; apply Hs; right; exact Hs').
    rewrite Hbody by (first [exact Hb | apply Hs; left; reflexivity]).
    destruct (idx / E =? rho b s); destruct (existsb (Z.eqb (idx / E)) (map (rho b) Ls));
      reflexivity. }
  rewrite for_range_fold.
  assert (Hb : forall b, In b (loop_indices 0 nb) -> 0 <= b < nb)
    by (intros b; apply in_loop_indices).
  revert o Hb. generalize (loop_indices 0 nb) as Lb.
  induction Lb as [|b Lb IHb]; intros o Hb; [reflexivity|].
  cbn [fold_left flat_map]. rewrite existsb_app.
  rewrite IHb by (intros b' Hb'; apply Hb; right; exact Hb').
  rewrite for_range_fold.
  rewrite Hin;
    [| apply Hb; left; reflexivity | intros s; apply in_loop_indices].
  destruct (existsb (Z.eqb (idx / E)) (map (rho b) (loop_indices 0 ns)));
    destruct (existsb (Z.eqb (idx / E))
                (flat_map (fun b0 => map (rho b0) (loop_indices 0 ns)) Lb));
    reflexivity.
Qed.

Variable p : platform.

(** [layernorm_fp32_opt] writes the rows of its hart, each as the
    vectorised row function computes it. *)
Lemma opt_kernel_rows (h : hart) (input output : buf F) (B ts E eps idx : Z) :
  let n := cluster_compute_core_num p in
  let k := cluster_core_idx h in
  0 < B -> 0 < ts -> 0 < E -> (8 | E) -> 0 < n -> (n | ts) -> 0 <= k < n ->
  B * ts * E * 4 < 2 ^ 32 ->
  layernorm_fp32_opt p h input output B ts E eps idx =
  fold_left (fun o r => write_row (layernorm_row_opt E (f_of_int eps)) E input r o)
            (hart_rows B ts n k) output idx.
Proof.
  intros n k HB Hts HE [q Hq] Hn Hdiv Hk Hfit.
  assert (Hnts : n <= ts) by (apply Z.divide_pos_le; assumption).
  assert (HtsE : ts * E <= B * ts * E) by nia.
  assert (HnE : 0 < n * E <= ts * E) by nia.
  assert (HkE : 0 <= k * E < n * E) by nia.
  assert (Hqpos : 1 <= q) by lia.
  assert (Hq8 : E / 8 = q) by (rewrite Hq; apply Z.div_mul; lia).
  unfold layernorm_fp32_opt.
  replace (is_compute_core p h) with true
    by (symmetry; unfold is_compute_core; apply Z.ltb_lt; apply Hk).
  fold n k. cbv zeta.
  change (sizeof_double / sizeof_float) with 2.
  change (UNROLL * 2) with 8. change (UNROLL * sizeof_double) with 32.
  unfold sizeof_double, sizeof_float.
  assert (Ho : u32 (k * E) = k * E) by (apply u32_small; lia).
  assert (Hst : u32 (n * E) = n * E) by (apply u32_small; lia).
  assert (Hbo : u32 (ts * E) = ts * E) by (apply u32_small; lia).
  assert (Hud : udiv ts n = ts / n) by (apply udiv_small; lia).
  assert (Hst4 : u32 (n * E * 4) = n * E * 4) by (apply u32_small; lia).
  assert (Hnf : udiv E 8 = q) by (rewrite udiv_small by lia; exact Hq8).
  rewrite Ho, Hst, Hbo, Hud, Hst4, Hnf.
  rewrite fold_write_rows by exact HE.
  unfold hart_rows.
  rewrite nested_range_effect
    with (E := E) (rho := fun b s => b * ts + s * n + k)
         (fv := fun idx => layernorm_row_opt E (f_of_int eps)
                             (row_of input E (idx / E)) (idx mod E));
    [reflexivity|].
  intros b s o j Hb Hs.
  assert (Hsq : s * n + n <= ts).
  { destruct Hdiv as [m Hm]. rewrite Hm, Z.div_mul in Hs by lia. nia. }
  set (r := b * ts + s * n + k).
  assert (Hr : 0 <= r /\ r + 1 <= B * ts) by (unfold r; nia).
  assert (HrE : 0 <= r * E /\ r * E + E <= B * ts * E) by nia.
  assert (Hub : u32 (b * (ts * E)) = b * (ts * E)) by (apply u32_small; nia).
  assert (Hubs : u32 (b * (ts * E) + s * (n * E)) = b * (ts * E) + s * (n * E))
    by (apply u32_small; nia).
  rewrite Hub, Hubs.
  assert (Hw0 : forall pass,
    walks (fun i0 i1 =>
             k * E + b * (ts * E) + ssr_offset 8 32 0 (n * E * 4) i0 i1 pass s / 4)
          (r * E) q).
  { intros pass u i Hu Hi. unfold ssr_offset, r.
    replace (u * 8 + i * 32 + pass * 0 + s * (n * E * 4))
      with ((2 * u + 8 * i + s * n * E) * 4) by ring.
    rewrite Z.div_mul by lia. ring. }
  assert (Hw2 : walks (fun i0 i1 =>
             k * E + (b * (ts * E) + s * (n * E)) + ssr_offset 8 32 0 0 i0 i1 0 0 / 4)
          (r * E) q).
  { intros u i Hu Hi. unfold ssr_offset, r.
    replace (u * 8 + i * 32 + 0 * 0 + 0 * 0) with ((2 * u + 8 * i) * 4) by ring.
    rewrite Z.div_mul by lia. ring. }
  assert (Hq32 : 1 <= q < 2 ^ 32) by lia.
  rewrite (asm_row_mean_eq input E Hq32 (Hw0 0)).
  destruct (asm_row_variance_eq input E eps
              (f_div (tree_sum4 (lanes_sum4 q (fun i => input (r * E + i)))) (f_of_int E))
              o Hq32 (Hw0 1) (Hw0 0)) as [Hfst Hsnd].
  destruct (asm_row_variance input _ _ q E eps _ o) as [o1 rstd].
  cbn [fst snd] in Hfst, Hsnd.
  rewrite (asm_row_normalize_eq rstd o1 j Hq32 Hw2 (Hw0 1)).
  rewrite Hfst.
  replace (r * E + 8 * q) with (r * E + E) by lia.
  destruct (j / E =? r) eqn:Ejr.
  - apply Z.eqb_eq in Ejr.
    pose proof (Z.div_mod j E ltac:(lia)) as Hdm.
    pose proof (Z.mod_pos_bound j E HE) as Hmb.
    rewrite Ejr in Hdm.
    replace (r * E <=? j) with true by (symmetry; apply Z.leb_le; lia).
    replace (j <? r * E + E) with true by (symmetry; apply Z.ltb_lt; lia).
    cbn [andb]. rewrite Hsnd.
    replace (j - r * E) with (j mod E) by lia.
    unfold layernorm_row_opt, opt_rstd, opt_mean, row_of. rewrite Hq8, Ejr.
    reflexivity.
  - apply Z.eqb_neq in Ejr.
    destruct (Z.leb_spec (r * E) j); destruct (Z.ltb_spec j (r * E + E));
      try reflexivity.
    exfalso. apply Ejr. symmetry.
    apply (Z.div_unique j E r (j - r * E)); lia.
Qed.

End VectorKernel.

(* ===================================================================== *)
(** * LayerNorm: the single-precision layer and its tiling *)
(* ===================================================================== *)

Section TilingInvariance.

Import Machine Runtime LayerNorm.
Local Open Scope Z_scope.

Context {F : Type} {FO : FloatOps F}.
Variable p : platform.

Lemma lanes_sum4_local (q : Z) (x y : Z -> F) :
  (forall i, 0 <= i < 8 * q -> x i = y i) -> lanes_sum4 q x = lanes_sum4 q y.
Proof.
  intros H. unfold lanes_sum4. apply for_range_ext.
  intros j [[[a0 a1] a2] a3] Hj. rewrite !H by lia. reflexivity.
Qed.

Lemma layernorm_row_opt_local (E : Z) (e : F) :
  0 < E -> (8 | E) -> row_local E (layernorm_row_opt E e).
Proof.
  intros HE [q Hq] x y i Hi H.
  assert (Hq8 : 8 * (E / 8) = E) by (rewrite Hq, Z.div_mul by lia; lia).
  assert (Hm : opt_mean E x = opt_mean E y).
  { unfold opt_mean. rewrite (@lanes_sum4_local (E / 8) x y); [reflexivity|].
    intros j Hj. apply H. lia. }
  unfold layernorm_row_opt, opt_rstd. rewrite Hm, (H i Hi).
  rewrite (@lanes_sum4_local (E / 8)
             (fun i0 => f_mul (f_sub (x i0) (opt_mean E y)) (f_sub (x i0) (opt_mean E y)))
             (fun i0 => f_mul (f_sub (y i0) (opt_mean E y)) (f_sub (y i0) (opt_mean E y))));
    [reflexivity|].
  intros j Hj. rewrite H by lia. reflexivity.
Qed.

Lemma tile_fits (l : layernorm_layer_t F) :
  layer_ok p l ->
  batch_size l * tile_seq_len l * embeddings l * 4 < 2 ^ 32.
Proof.
  intros Hok.
  destruct (layer_geometry Hok) as (Hts & _ & HS & _ & Htspos & _ & Hfit & _).
  pose proof Hok as (HB & HSpos & HE & HT & _).
  rewrite Hts.
  assert (seq_len l / n_tiles l <= seq_len l) by nia.
  assert (batch_size l * (seq_len l / n_tiles l) <= batch_size l * seq_len l)
    by (apply Z.mul_le_mono_nonneg_l; lia).
  assert (batch_size l * (seq_len l / n_tiles l) * embeddings l
          <= batch_size l * seq_len l * embeddings l)
    by (apply Z.mul_le_mono_nonneg_r; lia).
  lia.
Qed.

(** The vectorised kernel is row-wise when the rows are whole groups of
    eight elements. *)
Lemma opt_kernel_rowwise (l : layernorm_layer_t F) :
  layer_ok p l -> (8 | embeddings l) ->
  kernel_rowwise p (layernorm_row_opt (embeddings l) (f_of_int (f_to_int (eps l))))
                 K_fp32_opt l.
Proof.
  intros Hok H8 h input output idx.
  pose proof (tile_fits Hok) as Hfit.
  destruct (layer_geometry Hok) as (Hts & _ & _ & _ & Htspos & _).
  pose proof Hok as (HB & HSpos & HE & HT & _ & Hn & _ & _ & Hdiv & _).
  split.
  - intros Hk. cbn [run_kernel].
    apply opt_kernel_rows; try assumption; rewrite Hts; assumption.
  - intros Hk. cbn [run_kernel]. unfold layernorm_fp32_opt.
    replace (is_compute_core p h) with false; [reflexivity|].
    symmetry. unfold is_compute_core. apply Z.ltb_ge. lia.
Qed.

(** The single-precision layer normalises every row of the feature map
    with the row function of the kernel it selects. *)
Lemma fp32_layer_rows (l : layernorm_layer_t F) (t0 : Z -> @tcdm F) :
  layer_ok p l -> dtype l = FP32 ->
  (baseline l <> 1 -> (8 | embeddings l)) ->
  exists o, layernorm_layer p t0 l = Some o /\
            forall idx, o idx = rowwise_spec (fp32_row l) l idx.
Proof.
  intros Hok Hd H8. unfold fp32_row.
  pose proof Hok as (_ & _ & HE & _).
  destruct (baseline l =? 1) eqn:Hb.
  - apply Z.eqb_eq in Hb. apply baseline_layer_rows; assumption.
  - apply Z.eqb_neq in Hb.
    apply (layer_rowwise (k := K_fp32_opt) t0 Hok Hd).
    + unfold select_kernel. apply Z.eqb_neq in Hb. rewrite Hb, Hd. reflexivity.
    + reflexivity.
    + apply opt_kernel_rowwise; [exact Hok | apply H8; exact Hb].
    + apply layernorm_row_opt_local; [exact HE | apply H8; exact Hb].
Qed.

(** C8, amended: in single precision, when the compute cores divide the
    rows of a tile for the single tile and for [k] tiles alike (and the
    rows are whole groups of eight elements for the vectorised kernel),
    the layer run on one tile and the layer run on [k] tiles produce the
    same output feature map, from any contents of the scratchpads. *)
Theorem tiling_invariance (l : layernorm_layer_t F) (k : Z) (t0 t0' : Z -> @tcdm F) :
  dtype l = FP32 ->
  (baseline l <> 1 -> (8 | embeddings l)) ->
  layer_ok p (with_tiles l 1) -> layer_ok p (with_tiles l k) ->
  exists o1 ok,
    layernorm_layer p t0 (with_tiles l 1) = Some o1 /\
    layernorm_layer p t0' (with_tiles l k) = Some ok /\
    forall idx, o1 idx = ok idx.
Proof.
  intros Hd H8 Hok1 Hokk.
  destruct (@fp32_layer_rows (with_tiles l 1) t0 Hok1 Hd H8) as [o1 [Ho1 Hv1]].
  destruct (@fp32_layer_rows (with_tiles l k) t0' Hokk Hd H8) as [ok [Hok' Hvk]].
  exists o1, ok. split; [exact Ho1|]. split; [exact Hok'|].
  intros idx. rewrite Hv1, Hvk. reflexivity.
Qed.

End TilingInvariance.

(* ===================================================================== *)
(** * LayerNorm: vectorised against scalar *)
(* ===================================================================== *)

Section VectorVsScalar.

Import Machine Runtime LayerNorm Ideal Scenarios.
Local Open Scope Z_scope.

Lemma Rsum_succ (g : Z -> R) (n : Z) : 0 <= n -> Rsum g (n + 1) = (Rsum g n + g n)%R.
Proof. intros H. unfold Rsum. rewrite for_range_snoc by exact H. reflexivity. Qed.

Lemma Rsum_8 (g : Z -> R) (j : Z) :
  0 <= j ->
  Rsum g (8 * (j + 1)) =
  (Rsum g (8 * j) + g (8 * j)%Z + g (8 * j + 1)%Z + g (8 * j + 2)%Z
   + g (8 * j + 3)%Z + g (8 * j + 4)%Z + g (8 * j + 5)%Z + g (8 * j + 6)%Z
   + g (8 * j + 7)%Z)%R.
Proof.
  intros H.
  replace (8 * (j + 1)) with (8 * j + 7 + 1) by lia. rewrite Rsum_succ by lia.
  replace (8 * j + 7) with (8 * j + 6 + 1) at 1 by lia. rewrite Rsum_succ by lia.
  replace (8 * j + 6) with (8 * j + 5 + 1) at 1 by lia. rewrite Rsum_succ by lia.
  replace (8 * j + 5) with (8 * j + 4 + 1) at 1 by lia. rewrite Rsum_succ by lia.
  replace (8 * j + 4) with (8 * j + 3 + 1) at 1 by lia. rewrite Rsum_succ by lia.
  replace (8 * j + 3) with (8 * j + 2 + 1) at 1 by lia. rewrite Rsum_succ by lia.
  replace (8 * j + 2) with (8 * j + 1 + 1) at 1 by lia. rewrite Rsum_succ by lia.
  rewrite Rsum_succ by lia. reflexivity.
Qed.

(** The scalar sum of finite values. *)
Lemma scalar_sum_finite (x : Z -> xreal) (n : Z) :
  0 <= n -> (forall i, 0 <= i < n -> finite (x i)) ->
  for_range 0 n (fun i acc => f_add acc (x i)) f_zero
  = Fin (Rsum (fun i => to_R (x i)) n).
Proof.
  intros Hn Hfin.
  apply (for_range_ind
    (fun i (acc : xreal) => acc = Fin (Rsum (fun i => to_R (x i)) i))); [exact Hn| |].
  - reflexivity.
  - intros i acc Hi ->. rewrite Rsum_succ by lia. rewrite (Hfin i Hi). reflexivity.
Qed.

(** The four-accumulator sum of finite values. *)
Lemma lanes_sum_finite (x : Z -> xreal) (q : Z) :
  0 <= q -> (forall i, 0 <= i < 8 * q -> finite (x i)) ->
  tree_sum4 (lanes_sum4 q x) = Fin (Rsum (fun i => to_R (x i)) (8 * q)).
Proof.
  intros Hq Hfin.
  assert (H : exists a0 a1 a2 a3,
    lanes_sum4 q x = (Fin a0, Fin a1, Fin a2, Fin a3) /\
    (a0 + a1 + (a2 + a3))%R = Rsum (fun i => to_R (x i)) (8 * q)).
  { unfold lanes_sum4.
    apply (for_range_ind
      (fun j (st : xreal * xreal * xreal * xreal) =>
         exists a0 a1 a2 a3, st = (Fin a0, Fin a1, Fin a2, Fin a3) /\
           (a0 + a1 + (a2 + a3))%R = Rsum (fun i => to_R (x i)) (8 * j)));
      [exact Hq| |].
    - exists 0%R, 0%R, 0%R, 0%R. split; [reflexivity|].
      unfold Rsum. rewrite for_range_nil by lia. lra.
    - intros j st Hj (a0 & a1 & a2 & a3 & -> & Hs).
      rewrite (Hfin (8 * j)), (Hfin (8 * j + 1)), (Hfin (8 * j + 2)),
        (Hfin (8 * j + 3)), (Hfin (8 * j + 4)), (Hfin (8 * j + 5)),
        (Hfin (8 * j + 6)), (Hfin (8 * j + 7)) by lia.
      do 4 eexists. split; [reflexivity|].
      rewrite Rsum_8 by lia. cbn [to_R]. lra. }
  destruct H as (a0 & a1 & a2 & a3 & -> & Hs). cbn [tree_sum4]. simpl.
  f_equal. exact Hs.
Qed.

Lemma Rsum_ext (g g' : Z -> R) (n : Z) :
  (forall i, 0 <= i < n -> g i = g' i) -> Rsum g n = Rsum g' n.
Proof.
  intros H. unfold Rsum. apply for_range_ext. intros i a Hi. rewrite H by exact Hi.
  reflexivity.
Qed.

(** On a finite row of whole groups of eight the two row functions
    agree. *)
Lemma row_opt_matches (E eps : Z) (x : Z -> xreal) (i : Z) :
  0 < E -> (8 | E) -> (forall j, 0 <= j < E -> finite (x j)) -> 0 <= i < E ->
  layernorm_row_opt E (f_of_int eps) x i = layernorm_row E (f_of_int eps) x i.
Proof.
  intros HE [q Hq] Hfin Hi.
  assert (Hq8 : E / 8 = q) by (rewrite Hq; apply Z.div_mul; lia).
  assert (HEq : 8 * q = E) by lia.
  assert (HER : (0 < IZR E)%R) by (apply IZR_lt; exact HE).
  assert (Hmean : opt_mean E x = row_mean E x).
  { unfold opt_mean, row_mean. rewrite Hq8.
    rewrite lanes_sum_finite by (try lia; intros j Hj; apply Hfin; lia).
    rewrite scalar_sum_finite by (try lia; exact Hfin).
    rewrite HEq. reflexivity. }
  assert (Hmu : row_mean E x = Fin (Rsum (fun i => to_R (x i)) E / IZR E)).
  { unfold row_mean. rewrite scalar_sum_finite by (try lia; exact Hfin).
    simpl. apply xdiv_fin. lra. }
  set (mu := (Rsum (fun i => to_R (x i)) E / IZR E)%R) in *.
  assert (Hdev : forall j, 0 <= j < E ->
            f_sub (x j) (row_mean E x) = Fin (to_R (x j) - mu)).
  { intros j Hj. rewrite Hmu, (Hfin j Hj). reflexivity. }
  set (sq := fun j => f_mul (f_sub (x j) (row_mean E x)) (f_sub (x j) (row_mean E x))).
  assert (Hsq : forall j, 0 <= j < E -> finite (sq j)).
  { intros j Hj. unfold sq, finite. rewrite Hdev by exact Hj. reflexivity. }
  assert (Hvar : f_div (tree_sum4 (lanes_sum4 (E / 8) sq)) (f_of_int E) = row_var E x).
  { unfold row_var. fold sq. rewrite Hq8.
    rewrite lanes_sum_finite by (try lia; intros j Hj; apply Hsq; lia).
    rewrite (scalar_sum_finite sq) by (try lia; exact Hsq).
    rewrite HEq. reflexivity. }
  assert (Hv : exists v, row_var E x = Fin v).
  { unfold row_var. fold sq. rewrite (scalar_sum_finite sq) by (try lia; exact Hsq).
    cbn [f_div f_of_int ideal_ops]. rewrite xdiv_fin by lra. eexists. reflexivity. }
  destruct Hv as [v Hv].
  unfold layernorm_row_opt, opt_rstd, layernorm_row.
  rewrite Hmean. fold sq. rewrite Hvar, Hv, (Hdev i Hi).
  simpl. symmetry. apply xdiv_sqrt_as_mul.
Qed.

End VectorVsScalar.

Section HalfPrecision.

Import Machine Runtime LayerNorm Ideal Scenarios.
Local Open Scope Z_scope.

Lemma sixteen_mean : row_mean 16 (row_of sixteen 16 0) = Fin 1.
Proof.
  unfold row_mean, for_range, row_of, sixteen. simpl. rsign. f_equal. lra.
Qed.

Lemma sixteen_var : row_var 16 (row_of sixteen 16 0) = Fin 1.
Proof.
  unfold row_var. rewrite sixteen_mean.
  unfold for_range, row_of, sixteen. simpl. rsign. f_equal. lra.
Qed.

(** C6: [layernorm_fp16_opt] is not equivalent to the scalar half-precision
    reference.  On one row [0, 2, 0, 2, ...] of sixteen elements and an
    output tile of zeros, [layernorm_fp16_naive] writes 1 into element 1 of
    the output ((2 - 1) / sqrt 1), and [layernorm_fp16_opt], whose variance
    and normalisation blocks are commented out, leaves the zero that was
    there. *)
Theorem fp16_opt_writes_nothing :
  layernorm_fp16_naive one_core core0 sixteen zeros 1 1 16 0 1 = Fin 1 /\
  layernorm_fp16_opt sixteen zeros 1 1 16 0 1 = Fin 0 /\
  layernorm_fp16_opt sixteen zeros 1 1 16 0 1
    <> layernorm_fp16_naive one_core core0 sixteen zeros 1 1 16 0 1.
Proof.
  assert (H : layernorm_fp16_naive one_core core0 sixteen zeros 1 1 16 0 1 = Fin 1).
  { change (layernorm_fp16_naive one_core core0 sixteen zeros 1 1 16 0 1)
      with (layernorm_fp32_naive one_core core0 sixteen zeros 1 1 16 0 1).
    rewrite naive_kernel_rows;
      try (simpl; lia); try (exists 1; reflexivity).
    rewrite fold_write_rows by lia.
    change (existsb (Z.eqb (1 / 16))
              (hart_rows 1 1 (cluster_compute_core_num one_core)
                         (cluster_core_idx core0))) with true.
    cbv iota.
    change (1 / 16) with 0. change (1 mod 16) with 1.
    unfold layernorm_row. rewrite sixteen_mean, sixteen_var.
    change (row_of sixteen 16 0 1) with (Fin 2). simpl.
    rewrite Rsign_pos by lra.
    replace (1 + 0)%R with 1%R by lra. rewrite sqrt_1.
    rewrite Rsign_pos by lra. f_equal. lra. }
  split; [exact H|]. split; [reflexivity|].
  rewrite H. unfold layernorm_fp16_opt, zeros. intros E. inversion E. lra.
Qed.

End HalfPrecision.

(* ===================================================================== *)
(** * FlashAttention-2: one row, one column, head dimension one *)
(* ===================================================================== *)

Section SingleRow.

Import Machine Runtime Blas FlashAttention Scenarios.
Local Open Scope Z_scope.

Context {F : Type} {FO : FloatOps F}.
Variable l : flashattention_2_layer_t F.
Hypothesis HBr : B_r l = 1.
Hypothesis HBc : B_c l = 1.
Hypothesis Hd : d l = 1.

Lemma for_range_single (S : Type) (body : Z -> S -> S) (lo : Z) (s : S) :
  for_range lo (lo + 1) body s = body lo s.
Proof.
  unfold for_range. replace (Z.to_nat (lo + 1 - lo)) with 1%nat by lia. reflexivity.
Qed.

Lemma for_range_01 (S : Type) (body : Z -> S -> S) (s : S) :
  for_range 0 1 body s = body 0 s.
Proof. reflexivity. Qed.

Lemma dma_single (dst src : buf F) (o : Z) :
  dma_2d sizeof_float dst 0 src (o * sizeof_float) (u32 (1 * sizeof_float))
         (u32 (1 * sizeof_float)) (u32 (1 * sizeof_float)) 1
  = upd dst 0 (src o).
Proof.
  unfold dma_2d. change (u32 (1 * sizeof_float)) with 4. unfold sizeof_float.
  change (4 / 4) with 1. rewrite !for_range_01.
  change ((0 + 0 * 4) / 4 + 0) with 0.
  replace ((o * 4 + 0 * 4) / 4 + 0) with o; [reflexivity|].
  rewrite Z.add_0_r. change (0 * 4) with 0. rewrite Z.add_0_r. symmetry. apply Z.div_mul. lia.
Qed.

Lemma gemm_single (ta tb alpha : Z) (A B C : buf F) (lda ldb ldc beta : Z) :
  gemm ta tb 1 1 1 alpha A lda B ldb beta C ldc =
  upd C 0 (if beta =? 0
           then f_mul (f_of_int alpha) (f_add f_zero (f_mul (A 0) (B 0)))
           else f_add (f_mul (f_of_int alpha) (f_add f_zero (f_mul (A 0) (B 0))))
                      (f_mul (f_of_int beta) (C 0))).
Proof.
  unfold gemm. rewrite !for_range_01. cbn [Z.mul Z.add].
  destruct (ta =? 0); destruct (tb =? 0); reflexivity.
Qed.

Lemma harts_one_core (phase : hart -> tcdm F -> tcdm F) (t : tcdm F) :
  all_harts one_core 0 phase t = phase core1 (phase core0 t).
Proof. reflexivity. Qed.

Lemma rows_core0 :
  start_row one_core l core0 = 0 /\ end_row one_core l core0 = 1.
Proof.
  unfold end_row, start_row, rows_per_core, compute_id, num_cores. rewrite HBr.
  split; reflexivity.
Qed.

Lemma softmax_row_single (t_c : Z) (t : tcdm F) :
  f_gt (S_fa t 0) (m_i t 0) = true ->
  let s := S_fa t 0 in
  let pv := f_exp (f_sub s s) in
  let rs := f_add f_zero pv in
  let se := f_exp (f_sub (m_i t 0) s) in
  let t' := softmax_row l t_c 0 t in
  Q_fa t' = Q_fa t /\ V_fa t' = V_fa t /\ V_t t' = V_t t /\
  m_i t' 0 = s /\ P_fa t' 0 = pv /\
  l_i t' 0 = (if t_c =? 0 then rs else f_add (f_mul (l_i t 0) se) rs) /\
  O_fa t' 0 = (if t_c =? 0 then O_fa t 0 else f_div (O_fa t 0) se).
Proof.
  intros Hgt s pv rs se t'. unfold t', softmax_row.
  rewrite HBc, Hd. rewrite !for_range_01.
  change (u32 (0 * 1 + 0)) with 0. cbn [set_m_i_prev S_fa m_i].
  rewrite Hgt. subst s pv rs se.
  destruct (t_c =? 0) eqn:Et; cbn; rewrite ?upd_same; repeat split; reflexivity.
Qed.

Lemma transpose_single (src dst : buf F) :
  transpose_kernel src dst 1 1 = upd dst 0 (src 0).
Proof. reflexivity. Qed.

Lemma softmax_phase_single (t_c : Z) (t : tcdm F) :
  all_harts one_core 0 (softmax_rows one_core l t_c) t = softmax_row l t_c 0 t.
Proof.
  rewrite harts_one_core.
  change (softmax_rows one_core l t_c core1 ?x) with x.
  unfold softmax_rows. change (is_compute_core one_core core0) with true. cbv iota.
  destruct rows_core0 as [-> ->]. apply for_range_01.
Qed.

Lemma inner_iter_single (t_c : Z) (t : tcdm F) (q mx li ov : F) :
  0 <= t_c < 2 ^ 32 -> row_state t q mx li ov ->
  let s := f_mul (f_of_int 1) (f_add f_zero (f_mul q (K l t_c))) in
  f_gt s mx = true ->
  let pv := f_exp (f_sub s s) in
  let rs := f_add f_zero pv in
  let se := f_exp (f_sub mx s) in
  let ab := f_mul (f_of_int 1) (f_add f_zero (f_mul pv (V l t_c))) in
  row_state (inner_iter one_core l 0 t_c t) q s
            (if t_c =? 0 then rs else f_add (f_mul li se) rs)
            (if t_c =? 0 then ab else f_add ab (f_mul (f_of_int 1) (f_div ov se))).
Proof.
  intros Ht (Hq & Hm & Hl & Ho) s Hgt pv rs se ab.
  unfold inner_iter. rewrite HBr, HBc, Hd.
  assert (Hu : u32 (t_c * 1 * 1) = t_c) by (rewrite !Z.mul_1_r; apply u32_small; exact Ht).
  rewrite Hu, !dma_single, gemm_single. cbn [Z.eqb].
  rewrite softmax_phase_single.
  match goal with
  | |- context [softmax_row l t_c 0 ?x] => set (t1 := x)
  end.
  assert (HS : S_fa t1 0 = s).
  { unfold t1. cbn. rewrite ?upd_same. rewrite Hq. reflexivity. }
  assert (Hm1 : m_i t1 0 = mx) by (unfold t1; cbn; exact Hm).
  assert (Hl1 : l_i t1 0 = li) by (unfold t1; cbn; exact Hl).
  assert (Ho1 : O_fa t1 0 = ov) by (unfold t1; cbn; exact Ho).
  assert (Hq1 : Q_fa t1 0 = q) by (unfold t1; cbn; exact Hq).
  assert (Hv1 : V_fa t1 0 = V l t_c) by (unfold t1; cbn; rewrite ?upd_same; reflexivity).
  assert (Hgt1 : f_gt (S_fa t1 0) (m_i t1 0) = true) by (rewrite HS, Hm1; exact Hgt).
  destruct (softmax_row_single t_c t1 Hgt1) as (HQ & HV & HVt & Hm2 & HP & Hl2 & Ho2).
  rewrite HS, Hm1 in *. rewrite Hl1 in Hl2. rewrite Ho1 in Ho2.
  set (t2 := softmax_row l t_c 0 t1) in *.
  unfold row_state.
  destruct (negb (baseline l =? 0)).
  - rewrite gemm_single. cbn [Q_fa m_i l_i O_fa set_O_fa].
    rewrite upd_same, HQ, Hq1, Hm2, Hl2, HP, HV, Hv1, Ho2.
    destruct (t_c =? 0); repeat split; reflexivity.
  - rewrite transpose_single, gemm_single.
    cbn [Q_fa m_i l_i O_fa P_fa V_fa V_t set_O_fa set_V_t].
    rewrite !upd_same, HQ, Hq1, Hm2, Hl2, HP, HV, Hv1, Ho2.
    destruct (t_c =? 0); repeat split; reflexivity.
Qed.

Lemma init_phase_single (t : tcdm F) :
  all_harts one_core 0 (init_stats one_core l) t =
  set_l_i (set_m_i_prev (set_m_i t (upd (m_i t) 0 f_neg_inf))
                        (upd (m_i_prev t) 0 f_neg_inf))
          (upd (l_i t) 0 f_zero).
Proof.
  rewrite harts_one_core.
  change (init_stats one_core l core1 ?x) with x.
  unfold init_stats. change (is_compute_core one_core core0) with true. cbv iota.
  destruct rows_core0 as [-> ->]. apply for_range_01.
Qed.

Lemma normalize_phase_single (t : tcdm F) :
  all_harts one_core 0 (normalize_rows one_core l) t =
  set_O_fa t (upd (O_fa t) 0 (f_div (O_fa t 0) (l_i t 0))).
Proof.
  rewrite harts_one_core.
  change (normalize_rows one_core l core1 ?x) with x.
  unfold normalize_rows. change (is_compute_core one_core core0) with true. cbv iota.
  destruct rows_core0 as [-> ->]. rewrite Hd, !for_range_01. reflexivity.
Qed.

Lemma outer_prologue_single (t_r : Z) (t : tcdm F) :
  0 <= t_r < 2 ^ 32 ->
  row_state (outer_prologue one_core l 0 t_r t) (Q l t_r) f_neg_inf f_zero (O_fa t 0).
Proof.
  intros Ht. unfold outer_prologue. rewrite HBr, Hd.
  assert (Hu : u32 (t_r * 1 * 1) = t_r) by (rewrite !Z.mul_1_r; apply u32_small; exact Ht).
  rewrite Hu, dma_single, init_phase_single.
  unfold row_state. cbn [Q_fa m_i l_i O_fa set_l_i set_m_i_prev set_m_i set_Q_fa].
  rewrite !upd_same. repeat split; reflexivity.
Qed.

Lemma outer_epilogue_single (t_r : Z) (t : tcdm F) (O_l3 : buf F) (q mx li ov : F) :
  0 <= t_r < 2 ^ 32 -> row_state t q mx li ov ->
  snd (outer_epilogue one_core l 0 t_r (t, O_l3)) = upd O_l3 t_r (f_div ov li).
Proof.
  intros Ht (Hq & Hm & Hl & Ho). unfold outer_epilogue. cbn [snd].
  rewrite HBr, Hd.
  assert (Hu : u32 (t_r * 1 * 1) = t_r) by (rewrite !Z.mul_1_r; apply u32_small; exact Ht).
  rewrite Hu, normalize_phase_single.
  unfold dma_2d. change (u32 (1 * sizeof_float)) with 4. unfold sizeof_float.
  change (4 / 4) with 1. rewrite !for_range_01.
  change ((0 + 0 * 4) / 4 + 0) with 0.
  replace ((t_r * 4 + 0 * 4) / 4 + 0) with t_r.
  - cbn [O_fa set_O_fa]. rewrite upd_same, Ho, Hl. reflexivity.
  - rewrite Z.add_0_r. change (0 * 4) with 0. rewrite Z.add_0_r. symmetry.
    apply Z.div_mul. lia.
Qed.

End SingleRow.


(* ===================================================================== *)
(** * FlashAttention-2: attention over two tokens *)
(* ===================================================================== *)

Section TwoTokens.

Import Machine Runtime Blas FlashAttention Ideal Scenarios.
Local Open Scope Z_scope.

Lemma exp_1_gt_2 : (2 < exp 1)%R.
Proof. pose proof (exp_ineq1 1 ltac:(lra)). lra. Qed.

Variable b : Z.

Let l := two_tokens b.

Lemma two_tokens_tile0 (t_r : Z) (t : tcdm xreal) :
  0 <= t_r < 2 ->
  row_state (inner_loop one_core l 0 1 (outer_prologue one_core l 0 t_r t))
            (Fin 1) (Fin 0) (Fin 1) (Fin 1).
Proof.
  intros Ht.
  pose proof (@outer_prologue_single _ _ l eq_refl eq_refl t_r t ltac:(lia)) as H0.
  unfold inner_loop. rewrite for_range_01.
  pose proof (@inner_iter_single _ _ l eq_refl eq_refl eq_refl 0 _ _ _ _ _
                ltac:(lia) H0) as H1.
  cbv zeta in H1. specialize (H1 eq_refl).
  destruct H1 as (Hq & Hm & Hl & Ho). unfold row_state.
  rewrite Hq, Hm, Hl, Ho.
  assert (HQ : Q l t_r = Fin 1) by reflexivity.
  rewrite HQ. cbn.
  assert (He : exp (1 * (0 + 1 * 0) + - (1 * (0 + 1 * 0))) = 1%R).
  { replace (1 * (0 + 1 * 0) + - (1 * (0 + 1 * 0)))%R with 0%R by lra. apply exp_0. }
  rewrite He.
  repeat split; f_equal; lra.
Qed.

Lemma two_tokens_tile1 (t_r : Z) (t : tcdm xreal) :
  0 <= t_r < 2 ->
  row_state (inner_loop one_core l 0 2 (outer_prologue one_core l 0 t_r t))
            (Fin 1) (Fin 1) (Fin (/ exp 1 + 1)) (Fin (exp 1)).
Proof.
  intros Ht.
  pose proof (two_tokens_tile0 t Ht) as H0.
  unfold inner_loop in *. change 2 with (1 + 1). rewrite for_range_snoc by lia.
  pose proof (@inner_iter_single _ _ l eq_refl eq_refl eq_refl 1 _ _ _ _ _
                ltac:(lia) H0) as H1.
  cbv zeta in H1.
  assert (Hgt : f_gt (f_mul (f_of_int 1) (f_add f_zero (f_mul (Fin 1) (K l 1)))) (Fin 0)
                = true).
  { cbn. apply xgt_fin_true. lra. }
  specialize (H1 Hgt).
  destruct H1 as (Hq & Hm & Hl & Ho). unfold row_state.
  rewrite Hq, Hm, Hl, Ho. cbn.
  assert (He0 : exp (1 * (0 + 1 * 1) + - (1 * (0 + 1 * 1))) = 1%R).
  { replace (1 * (0 + 1 * 1) + - (1 * (0 + 1 * 1)))%R with 0%R by lra. apply exp_0. }
  assert (He1 : exp (0 + - (1 * (0 + 1 * 1))) = (/ exp 1)%R).
  { replace (0 + - (1 * (0 + 1 * 1)))%R with (- 1)%R by lra. apply exp_Ropp. }
  rewrite He0, He1.
  pose proof exp_1_gt_2 as He.
  assert (Hi : (0 < / exp 1)%R) by (apply Rinv_0_lt_compat; lra).
  rewrite Rsign_pos by exact Hi. cbn.
  repeat split; f_equal; try lra. field. lra.
Qed.

(** One iteration of the row-tile loop writes the same value for either
    query. *)
Lemma two_tokens_row (t_r : Z) (t : tcdm xreal) (O_l3 : buf xreal) :
  0 <= t_r < 2 ->
  snd (outer_iter one_core l 0 t_r (t, O_l3))
  = upd O_l3 t_r (Fin (exp 1 * exp 1 / (1 + exp 1))).
Proof.
  intros Ht. unfold outer_iter.
  change (T_c l) with 2.
  erewrite outer_epilogue_single
    by first [reflexivity | lia | (apply two_tokens_tile1; exact Ht)].
  pose proof exp_1_gt_2 as He.
  assert (Hi : (0 < / exp 1)%R) by (apply Rinv_0_lt_compat; lra).
  cbn. rewrite Rsign_pos by lra. do 2 f_equal. field. lra.
Qed.

Lemma two_tokens_output :
  flashattention_2_layer one_core l 0 zero_tcdm 0 = Fin (exp 1 * exp 1 / (1 + exp 1)).
Proof.
  unfold flashattention_2_layer. change (T_r l) with (1 + 1).
  rewrite for_range_snoc by lia. rewrite for_range_01.
  destruct (outer_iter one_core l 0 0 (zero_tcdm, O l)) as [t1 O1] eqn:E1.
  rewrite two_tokens_row by lia.
  rewrite upd_other by lia.
  replace O1 with (snd (outer_iter one_core l 0 0 (zero_tcdm, O l))) by (rewrite E1; reflexivity).
  rewrite two_tokens_row by lia. apply upd_same.
Qed.

End TwoTokens.

Section AttentionValue.

Import Machine Runtime FlashAttention Ideal Reference Scenarios.
Local Open Scope Z_scope.

Lemma two_tokens_reference (baseline : Z) :
  let l := two_tokens baseline in
  softmax_attention (fun i => to_R (Q l i)) (fun i => to_R (K l i))
                    (fun i => to_R (V l i)) (d l) 1 0 0 = 1%R /\
  softmax_attention (fun i => to_R (Q l i)) (fun i => to_R (K l i))
                    (fun i => to_R (V l i)) (d l) 2 0 0 = (1 / (1 + exp 1))%R.
Proof.
  intros l. pose proof exp_1_gt_2 as He.
  unfold softmax_attention, score, Rsum, for_range. simpl.
  replace (0 + 1 * 0)%R with 0%R by lra.
  replace (0 + 1 * 1)%R with 1%R by lra.
  rewrite exp_0. split; field; lra.
Qed.

(** C1 on two tokens, for either GEMM path: the kernel writes
    e^2 / (1 + e) into the first output element, the direct softmax
    attention is 1 / (1 + e); the two differ by e - 1, more than 1 and
    more than the reference itself. *)
Theorem attention_output_diverges (baseline : Z) :
  let l := two_tokens baseline in
  let ref := softmax_attention (fun i => to_R (Q l i)) (fun i => to_R (K l i))
                               (fun i => to_R (V l i)) (d l) (N l) 0 0 in
  exists x,
    flashattention_2_layer one_core l 0 zero_tcdm 0 = Fin x /\
    (0 < ref < 1)%R /\ (x - ref > 1)%R.
Proof.
  intros l ref. pose proof exp_1_gt_2 as He.
  exists (exp 1 * exp 1 / (1 + exp 1))%R. split; [apply two_tokens_output|].
  destruct (two_tokens_reference baseline) as [_ Hr].
  subst ref l. change (N (two_tokens baseline)) with 2.
  cbv zeta in Hr. rewrite Hr.
  assert (Hp : (0 < / (1 + exp 1) < 1)%R).
  { split; [apply Rinv_0_lt_compat; lra|].
    pose proof (Rinv_lt_contravar 1 (1 + exp 1) ltac:(lra) ltac:(lra)) as Hc.
    rewrite Rinv_1 in Hc. exact Hc. }
  split; [unfold Rdiv; lra|].
  replace (exp 1 * exp 1 / (1 + exp 1) - 1 / (1 + exp 1))%R with (exp 1 - 1)%R
    by (field; lra).
  lra.
Qed.

(** C2 on two tokens, for either GEMM path: after the first column tile
    the accumulator over the running sum is the softmax-weighted value of
    that tile, 1; after the second it is e^2 / (1 + e), while the
    softmax-weighted sum over both tiles is 1 / (1 + e). *)
Theorem online_rescaling_prefix (baseline : Z) :
  let l := two_tokens baseline in
  let start := outer_prologue one_core l 0 0 zero_tcdm in
  let after := fun t => inner_loop one_core l 0 (t + 1) start in
  let prefix := fun t =>
    softmax_attention (fun i => to_R (Q l i)) (fun i => to_R (K l i))
                      (fun i => to_R (V l i)) (d l) ((t + 1) * B_c l) 0 0 in
  f_div (O_fa (after 0) 0) (l_i (after 0) 0) = Fin (prefix 0) /\
  exists x,
    f_div (O_fa (after 1) 0) (l_i (after 1) 0) = Fin x /\
    (x - prefix 1%Z > 1)%R.
Proof.
  intros l start after prefix. pose proof exp_1_gt_2 as He.
  destruct (two_tokens_reference baseline) as [Hr0 Hr1].
  assert (Hi : (0 < / exp 1)%R) by (apply Rinv_0_lt_compat; lra).
  subst prefix after start l. cbv beta.
  change ((0 + 1) * B_c (two_tokens baseline)) with 1.
  change ((1 + 1) * B_c (two_tokens baseline)) with 2.
  change (0 + 1) with 1. change (1 + 1) with 2.
  cbv zeta in Hr0, Hr1. rewrite Hr0, Hr1.
  split.
  - destruct (@two_tokens_tile0 baseline 0 zero_tcdm ltac:(lia)) as (_ & _ & Hl & Ho).
    rewrite Hl, Ho. simpl. rewrite Rsign_pos by lra. f_equal. field.
  - destruct (@two_tokens_tile1 baseline 0 zero_tcdm ltac:(lia)) as (_ & _ & Hl & Ho).
    exists (exp 1 * exp 1 / (1 + exp 1))%R. split.
    + rewrite Hl, Ho. simpl. rewrite Rsign_pos by lra. f_equal. field. lra.
    + replace (exp 1 * exp 1 / (1 + exp 1) - 1 / (1 + exp 1))%R with (exp 1 - 1)%R
        by (field; lra).
      lra.
Qed.

End AttentionValue.

Section LayerNormWitnesses.

Import Machine Runtime LayerNorm Ideal Scenarios.
Local Open Scope Z_scope.

Lemma tiling_invariance_witness :
  exists o1 ok,
    layernorm_layer one_core zero_tiles (with_tiles two_rows 1) = Some o1 /\
    layernorm_layer one_core zero_tiles (with_tiles two_rows 2) = Some ok /\
    forall idx, o1 idx = ok idx.
Proof.
  apply (@tiling_invariance xreal ideal_ops one_core two_rows 2 zero_tiles zero_tiles).
  - reflexivity.
  - intros H. exfalso. apply H. reflexivity.
  - unfold layer_ok. simpl.
    repeat split; try lia; try (exists 1; reflexivity); try (exists 2; reflexivity).
  - unfold layer_ok. simpl.
    repeat split; try lia; try (exists 1; reflexivity); try (exists 2; reflexivity).
Defined.

End LayerNormWitnesses.

(* ===================================================================== *)
(** * LayerNorm: the synchronisation and the transfers of the driver *)
(* ===================================================================== *)

Section LayerNormTrace.

Import Machine Runtime LayerNorm.
Local Open Scope Z_scope.

Context {F : Type} {FO : FloatOps F}.
Variable p : platform.

Lemma cluster_barriers_app (a b : list event) :
  cluster_barriers (a ++ b) = (cluster_barriers a + cluster_barriers b)%nat.
Proof. unfold cluster_barriers. rewrite filter_app, length_app. reflexivity. Qed.

Lemma tile_events_barriers (h : hart) (l : layernorm_layer_t F) (j : Z) :
  cluster_barriers (tile_events p h l j) = 2%nat.
Proof.
  unfold tile_events. cbv zeta. rewrite !cluster_barriers_app.
  destruct (is_core1 p h); destruct (baseline l =? 1); destruct (dtype l);
    reflexivity.
Qed.

Lemma concat_tile_barriers (h : hart) (l : layernorm_layer_t F) (L : list Z) :
  cluster_barriers (concat (map (tile_events p h l) L)) = (2 * length L)%nat.
Proof.
  induction L as [|j L IH]; [reflexivity|].
  cbn [map concat length]. rewrite cluster_barriers_app, tile_events_barriers, IH. lia.
Qed.

Lemma loop_indices_length (lo hi : Z) : length (loop_indices lo hi) = Z.to_nat (hi - lo).
Proof. unfold loop_indices. rewrite length_map, length_seq. reflexivity. Qed.

Lemma global_barrier_not_in_tile (h : hart) (l : layernorm_layer_t F) (j : Z) :
  ~ In EvGlobalBarrier (tile_events p h l j).
Proof.
  unfold tile_events. cbv zeta. rewrite !in_app_iff.
  destruct (is_core1 p h); destruct (baseline l =? 1); destruct (dtype l);
    simpl; intuition discriminate.
Qed.

(** X1: whatever its role, and whatever the precision selector and the
    baseline flag, a hart running [layernorm_layer] waits at the cluster
    barrier exactly twice per tile of its cluster, so all harts of a cluster
    meet the same number of barriers; the global barrier is the last thing
    it does, and it does it once. *)
Theorem layernorm_barrier_parity (h : hart) (l : layernorm_layer_t F) :
  cluster_barriers (layernorm_layer_events p h l)
    = (2 * Z.to_nat (n_tiles_per_cluster p l))%nat /\
  (forall h' : hart,
     cluster_barriers (layernorm_layer_events p h' l)
     = cluster_barriers (layernorm_layer_events p h l)) /\
  exists evs, layernorm_layer_events p h l = evs ++ [EvGlobalBarrier] /\
              ~ In EvGlobalBarrier evs.
Proof.
  assert (Hcount : forall h0,
    cluster_barriers (layernorm_layer_events p h0 l)
    = (2 * Z.to_nat (n_tiles_per_cluster p l))%nat).
  { intros h0. rewrite layernorm_layer_events_unfold, !cluster_barriers_app.
    rewrite concat_tile_barriers, loop_indices_length, Z.sub_0_r.
    destruct (dtype l); cbn; lia. }
  split; [apply Hcount|]. split; [intros h'; rewrite !Hcount; reflexivity|].
  rewrite layernorm_layer_events_unfold. rewrite !app_assoc.
  eexists. split; [reflexivity|].
  rewrite !in_app_iff, in_concat.
  intros [[H | H] | [evs [Hevs Hin]]].
  - destruct (dtype l); simpl in H; intuition discriminate.
  - destruct (dtype l); simpl in H; intuition discriminate.
  - apply in_map_iff in Hevs. destruct Hevs as [j [<- _]].
    exact (global_barrier_not_in_tile h l j Hin).
Qed.

(** The transfers among the events of a hart: the data mover of a cluster
    moves each tile of its cluster in and out, a compute core moves
    nothing. *)
Lemma dma_event_in (h : hart) (l : layernorm_layer_t F) (tau : Z) :
  let moved :=
    is_core1 p h = true /\
    exists j, 0 <= j < n_tiles_per_cluster p l /\ tau = tile_idx_of p l (cluster_idx h) j in
  (In (EvDmaIn tau) (layernorm_layer_events p h l) <-> moved) /\
  (In (EvDmaOut tau) (layernorm_layer_events p h l) <-> moved).
Proof.
  cbv zeta. rewrite layernorm_layer_events_unfold.
  assert (Hpre : forall e : event,
    (e = EvDmaIn tau \/ e = EvDmaOut tau) ->
    (In e ((match dtype l with FP32 | FP16 => [] | FP_other _ => [EvPrintf unsupported_msg] end)
           ++ (match dtype l with FP32 | FP16 => [] | FP_other _ => [EvPrintf unsupported_msg] end)
           ++ concat (map (tile_events p h l) (loop_indices 0 (n_tiles_per_cluster p l)))
           ++ [EvGlobalBarrier])
     <-> exists j, 0 <= j < n_tiles_per_cluster p l /\ In e (tile_events p h l j))).
  { intros e He. rewrite !in_app_iff, in_concat. split.
    - intros [H | [H | [[evs [Hevs Hin]] | H]]].
      + destruct (dtype l); simpl in H; destruct He; subst e; intuition discriminate.
      + destruct (dtype l); simpl in H; destruct He; subst e; intuition discriminate.
      + apply in_map_iff in Hevs. destruct Hevs as [j [<- Hj]].
        apply in_loop_indices in Hj. exists j. split; [lia | exact Hin].
      + simpl in H. destruct He; subst e; intuition discriminate.
    - intros [j [Hj Hin]]. right. right. left.
      exists (tile_events p h l j). split; [|exact Hin].
      apply in_map. apply in_loop_indices. lia. }
  assert (Htile : forall j,
    (In (EvDmaIn tau) (tile_events p h l j)
       <-> is_core1 p h = true /\ tau = tile_idx_of p l (cluster_idx h) j) /\
    (In (EvDmaOut tau) (tile_events p h l j)
       <-> is_core1 p h = true /\ tau = tile_idx_of p l (cluster_idx h) j)).
  { intros j. unfold tile_events. cbv zeta. rewrite !in_app_iff.
    destruct (is_core1 p h); destruct (baseline l =? 1); destruct (dtype l); simpl;
      split; split; intros H;
      repeat match goal with
             | H : _ \/ _ |- _ => destruct H
             | H : _ /\ _ |- _ => destruct H
             | H : False |- _ => destruct H
             | H : EvDmaIn _ = EvDmaIn _ |- _ => inversion H; clear H
             | H : EvDmaOut _ = EvDmaOut _ |- _ => inversion H; clear H
             end;
      try discriminate; subst; auto 10. }
  split.
  - rewrite Hpre by (left; reflexivity). split.
    + intros [j [Hj Hin]]. apply Htile in Hin. destruct Hin as [Hc Ht].
      split; [exact Hc|]. exists j. auto.
    + intros [Hc [j [Hj Ht]]]. exists j. split; [exact Hj|]. apply Htile. auto.
  - rewrite Hpre by (right; reflexivity). split.
    + intros [j [Hj Hin]]. apply Htile in Hin. destruct Hin as [Hc Ht].
      split; [exact Hc|]. exists j. auto.
    + intros [Hc [j [Hj Ht]]]. exists j. split; [exact Hj|]. apply Htile. auto.
Qed.

(** X2: which tiles [layernorm_layer] transfers.  Only the data mover of a
    cluster starts transfers, and it moves out exactly the tiles it moved
    in.  Over the clusters, the tiles moved are those below
    [cluster_num * (n_tiles / cluster_num)], each by one cluster only: when
    the clusters do not divide [n_tiles], the last [n_tiles mod cluster_num]
    tiles are never processed, and with fewer tiles than clusters none is. *)
Theorem dma_tile_coverage (l : layernorm_layer_t F) (tau : Z) :
  0 < cluster_num p < 2 ^ 32 -> 0 <= n_tiles l < 2 ^ 32 ->
  ((exists h, 0 <= cluster_idx h < cluster_num p /\
              In (EvDmaIn tau) (layernorm_layer_events p h l))
   <-> 0 <= tau < cluster_num p * (n_tiles l / cluster_num p)) /\
  (forall h, In (EvDmaIn tau) (layernorm_layer_events p h l)
             <-> In (EvDmaOut tau) (layernorm_layer_events p h l)) /\
  (forall h, is_compute_core p h = true ->
             ~ In (EvDmaIn tau) (layernorm_layer_events p h l) /\
             ~ In (EvDmaOut tau) (layernorm_layer_events p h l)) /\
  (forall h h',
     0 <= cluster_idx h < cluster_num p -> 0 <= cluster_idx h' < cluster_num p ->
     In (EvDmaIn tau) (layernorm_layer_events p h l) ->
     In (EvDmaIn tau) (layernorm_layer_events p h' l) ->
     cluster_idx h = cluster_idx h').
Proof.
  intros Hc Hn.
  set (tpc := n_tiles l / cluster_num p).
  assert (Htpc : n_tiles_per_cluster p l = tpc).
  { unfold n_tiles_per_cluster. apply udiv_small; lia. }
  assert (Htpc0 : 0 <= tpc) by (apply Z.div_pos; lia).
  assert (Hle : cluster_num p * tpc <= n_tiles l) by (apply Z.mul_div_le; lia).
  assert (Hidx : forall c j, 0 <= c < cluster_num p -> 0 <= j < tpc ->
            tile_idx_of p l c j = c * tpc + j).
  { intros c j Hc' Hj. unfold tile_idx_of. rewrite Htpc. apply u32_small. nia. }
  split; [|split; [|split]].
  - split.
    + intros [h [Hh Hin]]. apply dma_event_in in Hin.
      destruct Hin as [_ [j [Hj ->]]]. rewrite Htpc in Hj.
      rewrite Hidx by lia. nia.
    + intros Ht.
      assert (Hpos : 0 < tpc) by nia.
      exists {| cluster_idx := tau / tpc; cluster_core_idx := cluster_compute_core_num p |}.
      assert (Hq : 0 <= tau / tpc < cluster_num p).
      { split; [apply Z.div_pos; lia|]. apply Z.div_lt_upper_bound; lia. }
      cbn [cluster_idx]. split; [exact Hq|].
      apply dma_event_in. cbn [cluster_idx]. split.
      * unfold is_core1, is_compute_core. cbn [cluster_core_idx].
        rewrite Z.ltb_irrefl. reflexivity.
      * exists (tau mod tpc).
        pose proof (Z.mod_pos_bound tau tpc Hpos) as Hm.
        rewrite Htpc. split; [lia|]. rewrite Hidx by lia.
        pose proof (Z.div_mod tau tpc ltac:(lia)). lia.
  - intros h. destruct (dma_event_in h l tau) as [Hi Ho]. rewrite Hi, Ho. reflexivity.
  - intros h Hcc.
    destruct (dma_event_in h l tau) as [Hi Ho].
    unfold is_core1 in Hi, Ho. rewrite Hcc in Hi, Ho. cbn [negb] in Hi, Ho.
    split; intros Hin; [apply Hi in Hin | apply Ho in Hin];
      destruct Hin as [Hf _]; discriminate.
  - intros h h' Hh Hh' Hin Hin'.
    apply dma_event_in in Hin. apply dma_event_in in Hin'.
    destruct Hin as [_ [j [Hj Ht]]]. destruct Hin' as [_ [j' [Hj' Ht']]].
    rewrite Htpc in Hj, Hj'. rewrite Hidx in Ht, Ht' by lia. nia.
Qed.

(** X3: with fewer tiles than clusters the tile loop of every cluster is
    empty: no hart transfers a tile or calls a kernel, and the output
    feature map is returned as it was, with no diagnostic. *)
Theorem fewer_tiles_than_clusters (l : layernorm_layer_t F) (t0 : Z -> @tcdm F) (h : hart) :
  0 <= n_tiles l < cluster_num p -> cluster_num p < 2 ^ 32 ->
  dtype l = FP32 ->
  layernorm_layer p t0 l = Some (ofmap l) /\
  layernorm_layer_events p h l = [EvGlobalBarrier].
Proof.
  intros Hn Hc Hd.
  assert (Htpc : n_tiles_per_cluster p l = 0).
  { unfold n_tiles_per_cluster. rewrite udiv_small by lia. apply Z.div_small. lia. }
  split.
  - unfold layernorm_layer. rewrite Hd. cbn [data_type_size].
    unfold select_kernel. rewrite Hd.
    assert (Hrun : forall k,
      for_range 0 (cluster_num p) (fun c remote_ofmap =>
        cluster_run p sizeof_float k l c (t0 c) remote_ofmap) (ofmap l) = ofmap l).
    { intros k. apply (for_range_inv (fun o : buf F => o = ofmap l)); [reflexivity|].
      intros c o _ ->. unfold cluster_run. rewrite Htpc.
      rewrite for_range_nil by lia. reflexivity. }
    destruct (baseline l =? 1); cbn [kernel_reads]; rewrite Hrun; reflexivity.
  - rewrite layernorm_layer_events_unfold, Htpc, Hd.
    rewrite loop_indices_nil by lia. reflexivity.
Qed.

End LayerNormTrace.

(* ===================================================================== *)
(** * LayerNorm: what a kernel call writes, for any tile geometry *)
(* ===================================================================== *)

Section KernelEffect.

Import Machine Runtime LayerNorm.
Local Open Scope Z_scope.

Context {F : Type} {FO : FloatOps F}.
Variable p : platform.

(** The rows of a hart, without assuming that the team divides the rows of
    a batch: within a batch only the first [n * (ts / n)] rows are dealt
    out. *)
Lemma hart_rows_member (B ts n k r : Z) :
  0 < n -> 0 < ts -> 0 <= k < n ->
  In r (hart_rows B ts n k) <->
  0 <= r < B * ts /\ r mod ts < n * (ts / n) /\ (r mod ts) mod n = k.
Proof.
  intros Hn Hts Hk. unfold hart_rows.
  pose proof (Z.mul_div_le ts n Hn) as Hq.
  assert (Hq0 : 0 <= ts / n) by (apply Z.div_pos; lia).
  rewrite in_flat_map. split.
  - intros [b [Hb Hin]]. apply in_loop_indices in Hb.
    apply in_map_iff in Hin. destruct Hin as [s [<- Hs]].
    apply in_loop_indices in Hs.
    assert (Hsn : 0 <= s * n + k < ts) by nia.
    assert (Hm : (b * ts + s * n + k) mod ts = s * n + k).
    { symmetry. apply (Z.mod_unique_pos _ _ b); lia. }
    rewrite Hm. split; [nia|]. split; [nia|].
    symmetry. apply (Z.mod_unique_pos _ _ s); lia.
  - intros (Hr & Hlt & Hm).
    pose proof (Z.div_mod r ts ltac:(lia)) as Hd1.
    pose proof (Z.mod_pos_bound r ts Hts) as Hb1.
    pose proof (Z.div_mod (r mod ts) n ltac:(lia)) as Hd2.
    exists (r / ts). split.
    + apply in_loop_indices. split; [apply Z.div_pos; lia|].
      apply Z.div_lt_upper_bound; nia.
    + apply in_map_iff. exists ((r mod ts) / n). split; [lia|].
      apply in_loop_indices. split; [apply Z.div_pos; lia|].
      apply Z.div_lt_upper_bound; lia.
Qed.

Lemma existsb_eqb_in (x : Z) (L : list Z) :
  existsb (Z.eqb x) L = true <-> In x L.
Proof.
  rewrite existsb_exists. split.
  - intros [y [Hy He]]. apply Z.eqb_eq in He. subst y. exact Hy.
  - intros H. exists x. split; [exact H | apply Z.eqb_refl].
Qed.

Lemma index_row_bounds (B ts E idx : Z) :
  0 < E -> (0 <= idx < B * ts * E <-> 0 <= idx / E < B * ts).
Proof.
  intros HE.
  pose proof (Z.div_mod idx E ltac:(lia)) as Hd.
  pose proof (Z.mod_pos_bound idx E HE) as Hm.
  split; intros H.
  - split; [apply Z.div_pos; lia|]. apply Z.div_lt_upper_bound; lia.
  - nia.
Qed.

(** The two scalar kernels share their text up to the rounding of the
    stored value; so do the proofs that they write row by row. *)
Ltac scalar_kernel_setup n k Hn Hk :=
  replace (is_compute_core p _) with true
    by (symmetry; unfold is_compute_core; apply Z.ltb_lt; apply Hk);
  fold n k;
  let Ho := fresh "Ho" in let Hst := fresh "Hst" in
  let Hbo := fresh "Hbo" in let Hud := fresh "Hud" in
  match goal with
  | |- context [udiv ?ts _] =>
      match goal with
      | |- context [u32 (?ts' * ?E)] =>
          constr_eq ts ts';
          assert (Ho : u32 (k * E) = k * E) by (apply u32_small; nia);
          assert (Hst : u32 (n * E) = n * E) by (apply u32_small; nia);
          assert (Hbo : u32 (ts * E) = ts * E) by (apply u32_small; nia);
          assert (Hud : udiv ts n = ts / n) by (apply udiv_small; nia);
          rewrite Ho, Hst, Hbo, Hud;
          pose proof (Z.mul_div_le ts n Hn)
      end
  end.

Ltac scalar_kernel_rows n k B ts E input Hn Hk :=
  scalar_kernel_setup n k Hn Hk;
  unfold hart_rows; rewrite fold_left_flat_map, for_range_fold;
  apply fold_left_agree; intros b out Hb; apply in_loop_indices in Hb;
  rewrite for_range_fold, fold_left_mapped;
  apply fold_left_agree; intros s out' Hs; apply in_loop_indices in Hs;
  assert (Hsq : s * n + n <= ts) by nia;
  assert (Hrow : s * (n * E) + E <= ts * E)
    by (pose proof (Z.mul_le_mono_nonneg_r (s * n + 1) ts E ltac:(lia) ltac:(lia)); lia);
  assert (Hbat : 0 <= b * (ts * E) /\ b * (ts * E) + ts * E <= B * ts * E)
    by (pose proof (Z.mul_le_mono_nonneg_r (b + 1) B (ts * E) ltac:(nia) ltac:(lia));
        split; [nia | lia]);
  assert (Hs0 : 0 <= s * (n * E)) by nia;
  assert (Hat : forall i, 0 <= i < E ->
            k * E + u32 (b * (ts * E) + s * (n * E) + i) = (b * ts + s * n + k) * E + i)
    by (intros i Hi; rewrite u32_small by lia; ring);
  unfold write_row;
  set (x := row_of input E (b * ts + s * n + k));
  match goal with
  | |- context [f_div (for_range 0 E ?body f_zero) (f_of_int E)] =>
      assert (Hmean : f_div (for_range 0 E body f_zero) (f_of_int E) = row_mean E x)
        by (unfold row_mean; f_equal; apply for_range_ext;
            intros i m Hi; unfold x, row_of; rewrite Hat by exact Hi; reflexivity);
      rewrite Hmean
  end;
  match goal with
  | |- context [f_div (for_range 0 E ?body f_zero) (f_of_int E)] =>
      assert (Hvar : f_div (for_range 0 E body f_zero) (f_of_int E) = row_var E x)
        by (unfold row_var; f_equal; apply for_range_ext;
            intros i m Hi; unfold x, row_of; rewrite Hat by exact Hi; reflexivity);
      rewrite Hvar
  end;
  apply for_range_ext; intros i o Hi; rewrite Hat by exact Hi;
  unfold layernorm_row, x, row_of; reflexivity.

Lemma naive_kernel_rows_any (h : hart) (input output : buf F) (B ts E eps : Z) :
  let n := cluster_compute_core_num p in
  let k := cluster_core_idx h in
  0 < B -> 0 <= ts -> 0 < E -> 0 < n -> 0 <= k < n ->
  B * ts * E < 2 ^ 32 -> n * E < 2 ^ 32 ->
  layernorm_fp32_naive p h input output B ts E eps =
  fold_left (fun o r => write_row (layernorm_row E (f_of_int eps)) E input r o)
            (hart_rows B ts n k) output.
Proof.
  intros n k HB Hts HE Hn Hk Hfit HnE. unfold layernorm_fp32_naive.
  scalar_kernel_rows n k B ts E input Hn Hk.
Qed.

Lemma half_kernel_rows_any (h : hart) (input output : buf F) (B ts E eps : Z) :
  let n := cluster_compute_core_num p in
  let k := cluster_core_idx h in
  0 < B -> 0 <= ts -> 0 < E -> 0 < n -> 0 <= k < n ->
  B * ts * E < 2 ^ 32 -> n * E < 2 ^ 32 ->
  layernorm_fp16_naive p h input output B ts E eps =
  fold_left (fun o r =>
               write_row (fun x i => f_half (layernorm_row E (f_of_int eps) x i))
                         E input r o)
            (hart_rows B ts n k) output.
Proof.
  intros n k HB Hts HE Hn Hk Hfit HnE. unfold layernorm_fp16_naive.
  scalar_kernel_rows n k B ts E input Hn Hk.
Qed.

(** The elements a hart owns in a tile of [B] batches of [ts] rows of [E]
    elements, in a team of [n]. *)
Lemma hart_rows_hit (B ts n k E idx : Z) :
  0 < n -> 0 < ts -> 0 <= k < n -> 0 < E ->
  existsb (Z.eqb (idx / E)) (hart_rows B ts n k) = true <->
  0 <= idx < B * ts * E /\
  (idx / E) mod ts < n * (ts / n) /\ ((idx / E) mod ts) mod n = k.
Proof.
  intros Hn Hts Hk HE.
  rewrite existsb_eqb_in, hart_rows_member by assumption.
  rewrite (index_row_bounds B ts idx HE). reflexivity.
Qed.

Lemma rows_effect (f : (Z -> F) -> Z -> F) (h : hart) (input output : buf F)
    (B ts E idx : Z) (v : F) :
  let n := cluster_compute_core_num p in
  let k := cluster_core_idx h in
  0 < n -> 0 < ts -> 0 <= k < n -> 0 < E ->
  v = fold_left (fun o r => write_row f E input r o) (hart_rows B ts n k) output idx ->
  let mine := 0 <= idx < B * ts * E /\
              (idx / E) mod ts < n * (ts / n) /\ ((idx / E) mod ts) mod n = k in
  (mine -> v = f (row_of input E (idx / E)) (idx mod E)) /\
  (~ mine -> v = output idx).
Proof.
  intros n k Hn Hts Hk HE -> mine.
  rewrite fold_write_rows by exact HE.
  pose proof (hart_rows_hit B idx Hn Hts Hk HE) as Hhit. fold mine in Hhit.
  destruct (existsb (Z.eqb (idx / E)) (hart_rows B ts n k)).
  - split; [reflexivity|]. intros Hno. exfalso. apply Hno. apply Hhit. reflexivity.
  - split; [|reflexivity]. intros Hyes. apply Hhit in Hyes. discriminate.
Qed.

(** X4: what a call of [layernorm_fp32_naive] writes, for any tile
    geometry.  Hart [k] of a team of [n] compute cores writes the element
    [idx] of the output tile exactly when [idx] lies in the tile, in a row
    whose index within its batch is below [n * (ts / n)] and is [k] modulo
    [n]; the value is the normalisation of that input row with the integer
    [eps].  Everything else is left as it was: the rows of the other harts,
    the last [ts mod n] rows of every batch (all rows when [ts < n]), and the
    whole tile when the caller is the data mover. *)
Theorem naive_kernel_effect (h : hart) (input output : buf F) (B ts E eps idx : Z) :
  let n := cluster_compute_core_num p in
  let k := cluster_core_idx h in
  0 < B -> 0 < ts -> 0 < E -> 0 < n -> 0 <= k ->
  B * ts * E < 2 ^ 32 -> n * E < 2 ^ 32 ->
  let mine := 0 <= idx < B * ts * E /\
              (idx / E) mod ts < n * (ts / n) /\ ((idx / E) mod ts) mod n = k in
  (mine -> layernorm_fp32_naive p h input output B ts E eps idx
           = layernorm_row E (f_of_int eps) (row_of input E (idx / E)) (idx mod E)) /\
  (~ mine -> layernorm_fp32_naive p h input output B ts E eps idx = output idx).
Proof.
  intros n k HB Hts HE Hn Hk Hfit HnE mine.
  destruct (Z.lt_ge_cases k n) as [Hlt | Hge].
  - apply (@rows_effect (layernorm_row E (f_of_int eps)) h input output B ts E idx);
      try assumption; [unfold k in *; lia|].
    rewrite naive_kernel_rows_any; try assumption; [reflexivity | lia | unfold k in *; lia].
  - assert (Hout : layernorm_fp32_naive p h input output B ts E eps = output).
    { unfold layernorm_fp32_naive.
      replace (is_compute_core p h) with false; [reflexivity|].
      symmetry. unfold is_compute_core. apply Z.ltb_ge. exact Hge. }
    rewrite Hout. split; [|reflexivity].
    intros (_ & _ & Hm). exfalso.
    pose proof (Z.mod_pos_bound ((idx / E) mod ts) n Hn). lia.
Qed.

(** X5: [layernorm_fp16_naive] is [layernorm_fp32_naive] with every stored
    value rounded to half precision: the two kernels write the same
    elements, and where they write, the half-precision kernel stores the
    rounding of what the single-precision kernel stores. *)
Theorem fp16_naive_rounds_fp32_naive (h : hart) (input output : buf F)
    (B ts E eps idx : Z) :
  let n := cluster_compute_core_num p in
  let k := cluster_core_idx h in
  0 < B -> 0 < ts -> 0 < E -> 0 < n -> 0 <= k < n ->
  B * ts * E < 2 ^ 32 -> n * E < 2 ^ 32 ->
  let mine := 0 <= idx < B * ts * E /\
              (idx / E) mod ts < n * (ts / n) /\ ((idx / E) mod ts) mod n = k in
  (mine -> layernorm_fp16_naive p h input output B ts E eps idx
           = f_half (layernorm_fp32_naive p h input output B ts E eps idx)) /\
  (~ mine -> layernorm_fp16_naive p h input output B ts E eps idx = output idx /\
             layernorm_fp32_naive p h input output B ts E eps idx = output idx).
Proof.
  intros n k HB Hts HE Hn Hk Hfit HnE mine.
  destruct (@rows_effect (layernorm_row E (f_of_int eps)) h input output B ts E idx
              (layernorm_fp32_naive p h input output B ts E eps idx))
    as [H32 H32'];
    try assumption.
  { rewrite naive_kernel_rows_any; try assumption; [reflexivity | lia]. }
  destruct (@rows_effect (fun x i => f_half (layernorm_row E (f_of_int eps) x i))
              h input output B ts E idx
              (layernorm_fp16_naive p h input output B ts E eps idx))
    as [H16 H16'];
    try assumption.
  { rewrite half_kernel_rows_any; try assumption; [reflexivity | lia]. }
  fold n k mine in H32, H32', H16, H16'.
  split.
  - intros Hm. rewrite (H16 Hm), (H32 Hm). reflexivity.
  - intros Hm. split; [exact (H16' Hm) | exact (H32' Hm)].
Qed.

Lemma cluster_harts_in (c : Z) (h : hart) :
  In h (cluster_harts p c) <->
  cluster_idx h = c /\ 0 <= cluster_core_idx h < cluster_compute_core_num p + 1.
Proof.
  unfold cluster_harts. rewrite in_map_iff. split.
  - intros [k [<- Hk]]. apply in_seq in Hk. cbn [cluster_idx cluster_core_idx]. lia.
  - intros [Hc Hk]. exists (Z.to_nat (cluster_core_idx h)). split.
    + destruct h as [ci cc]. cbn [cluster_idx cluster_core_idx] in *.
      subst ci. rewrite Z2Nat.id by lia. reflexivity.
    + apply in_seq. lia.
Qed.

(** One call of the scalar kernel, seen from one element of the tile. *)
Lemma naive_call_at (h : hart) (input out : buf F) (B ts E eps idx : Z) :
  let n := cluster_compute_core_num p in
  0 < B -> 0 < ts -> 0 < E -> 0 < n -> 0 <= cluster_core_idx h ->
  B * ts * E < 2 ^ 32 -> n * E < 2 ^ 32 ->
  let covered := 0 <= idx < B * ts * E /\ (idx / E) mod ts < n * (ts / n) in
  let v := layernorm_row E (f_of_int eps) (row_of input E (idx / E)) (idx mod E) in
  (covered -> cluster_core_idx h = ((idx / E) mod ts) mod n ->
     layernorm_fp32_naive p h input out B ts E eps idx = v) /\
  (covered -> layernorm_fp32_naive p h input out B ts E eps idx = v \/
              layernorm_fp32_naive p h input out B ts E eps idx = out idx) /\
  (~ covered -> layernorm_fp32_naive p h input out B ts E eps idx = out idx).
Proof.
  intros n HB Hts HE Hn Hk Hfit HnE covered v.
  destruct (Z.lt_ge_cases (cluster_core_idx h) n) as [Hlt | Hge].
  - destruct (@rows_effect (layernorm_row E (f_of_int eps)) h input out B ts E idx
                (layernorm_fp32_naive p h input out B ts E eps idx))
      as [Hyes Hno]; try assumption; [lia | |].
    { rewrite naive_kernel_rows_any; try assumption; [reflexivity | lia | lia]. }
    fold n in Hyes, Hno. unfold covered. split; [|split].
    + intros [Hi Hr] Hmine. apply Hyes. auto.
    + intros [Hi Hr].
      destruct (Z.eq_dec (((idx / E) mod ts) mod n) (cluster_core_idx h)) as [He | Hne].
      * left. apply Hyes. auto.
      * right. apply Hno. intros (_ & _ & Hm). contradiction.
    + intros Hc. apply Hno. intros (Hi & Hr & _). apply Hc. auto.
  - assert (Hout : layernorm_fp32_naive p h input out B ts E eps = out).
    { unfold layernorm_fp32_naive.
      replace (is_compute_core p h) with false; [reflexivity|].
      symmetry. unfold is_compute_core. apply Z.ltb_ge. exact Hge. }
    rewrite Hout. split; [|split]; auto.
    intros _ Hm. exfalso.
    pose proof (Z.mod_pos_bound ((idx / E) mod ts) n Hn). fold n in Hge. lia.
Qed.

(** X6: the compute phase of a tile with the scalar kernel, for a team
    that need not divide the rows of the tile.  After all harts of the
    cluster have made their call, the rows whose index within their batch
    is below [n * (ts / n)] hold the normalised input rows; the remaining
    [ts mod n] rows of every batch, which no hart is given, still hold what
    the output tile held before, as does everything outside the tile. *)
Theorem compute_phase_rows (l : layernorm_layer_t F) (c : Z) (itile otile : buf F)
    (idx : Z) :
  let n := cluster_compute_core_num p in
  let B := batch_size l in
  let ts := tile_seq_len l in
  let E := embeddings l in
  0 < B -> 0 < ts -> 0 < E -> 0 < n ->
  B * ts * E < 2 ^ 32 -> n * E < 2 ^ 32 ->
  let covered := 0 <= idx < B * ts * E /\ (idx / E) mod ts < n * (ts / n) in
  (covered ->
     compute_tile p K_fp32_naive c l itile otile idx
     = layernorm_row E (f_of_int (f_to_int (eps l))) (row_of itile E (idx / E)) (idx mod E)) /\
  (~ covered -> compute_tile p K_fp32_naive c l itile otile idx = otile idx).
Proof.
  intros n B ts E HB Hts HE Hn Hfit HnE covered.
  unfold compute_tile. cbn [run_kernel]. fold B ts E.
  assert (Hcall : forall h out, In h (cluster_harts p c) ->
    let v := layernorm_row E (f_of_int (f_to_int (eps l))) (row_of itile E (idx / E))
                           (idx mod E) in
    (covered -> cluster_core_idx h = ((idx / E) mod ts) mod n ->
       layernorm_fp32_naive p h itile out B ts E (f_to_int (eps l)) idx = v) /\
    (covered -> layernorm_fp32_naive p h itile out B ts E (f_to_int (eps l)) idx = v \/
                layernorm_fp32_naive p h itile out B ts E (f_to_int (eps l)) idx = out idx) /\
    (~ covered -> layernorm_fp32_naive p h itile out B ts E (f_to_int (eps l)) idx = out idx)).
  { intros h out Hin. apply cluster_harts_in in Hin.
    apply naive_call_at; try assumption. lia. }
  split.
  - intros Hcov.
    pose proof (Z.mod_pos_bound ((idx / E) mod ts) n Hn) as Hm.
    apply (@fold_left_establish (buf F) hart
             (fun out h => layernorm_fp32_naive p h itile out B ts E (f_to_int (eps l)))
             (fun out => out idx = layernorm_row E (f_of_int (f_to_int (eps l)))
                                     (row_of itile E (idx / E)) (idx mod E))
             (cluster_harts p c)
             {| cluster_idx := c; cluster_core_idx := ((idx / E) mod ts) mod n |}).
    + apply cluster_harts_in. cbn [cluster_idx cluster_core_idx]. fold n. lia.
    + intros out.
      assert (Hin : In {| cluster_idx := c; cluster_core_idx := ((idx / E) mod ts) mod n |}
                       (cluster_harts p c)).
      { apply cluster_harts_in. cbn [cluster_idx cluster_core_idx]. fold n. lia. }
      destruct (Hcall _ out Hin) as [Hyes _]. apply Hyes; [exact Hcov | reflexivity].
    + intros h out Hin Hgood.
      destruct (Hcall h out Hin) as (_ & Hor & _).
      destruct (Hor Hcov) as [Hv | Hv]; rewrite Hv; [reflexivity | exact Hgood].
  - intros Hno.
    apply (@fold_left_preserve (buf F) hart
             (fun out h => layernorm_fp32_naive p h itile out B ts E (f_to_int (eps l)))
             (fun out => out idx = otile idx) (cluster_harts p c)); [|reflexivity].
    intros h out Hin Hgood.
    destruct (Hcall h out Hin) as (_ & _ & Hkeep). rewrite (Hkeep Hno). exact Hgood.
Qed.

End KernelEffect.

(* ===================================================================== *)
(** * LayerNorm: the vectorised kernel on rows of any length *)
(* ===================================================================== *)

Section VectorKernelEffect.

Import Machine Runtime LayerNorm.
Local Open Scope Z_scope.

Context {F : Type} {FO : FloatOps F}.
Variable p : platform.

(** Loops over batches and rows whose bodies each rewrite the elements
    they hit. *)
Lemma nested_range_hits (body : Z -> Z -> buf F -> buf F)
    (hit : Z -> Z -> Z -> bool) (fv : Z -> F) (nb ns : Z) :
  (forall b s o idx, 0 <= b < nb -> 0 <= s < ns ->
     body b s o idx = if hit b s idx then fv idx else o idx) ->
  forall (o : buf F) (idx : Z),
    for_range 0 nb (fun b o => for_range 0 ns (fun s o => body b s o) o) o idx =
    if existsb (fun b => existsb (fun s => hit b s idx) (loop_indices 0 ns))
               (loop_indices 0 nb)
    then fv idx else o idx.
Proof.
  intros Hbody o idx.
  assert (Hin : forall b, 0 <= b < nb ->
    forall Ls, (forall s, In s Ls -> 0 <= s < ns) ->
    forall o',
      fold_left (fun o s => body b s o) Ls o' idx =
      if existsb (fun s => hit b s idx) Ls then fv idx else o' idx).
  { intros b Hb Ls. induction Ls as [|s Ls IHs]; intros Hs o'; [reflexivity|].
    cbn [fold_left existsb].
    rewrite IHs by (intros s' Hs'; apply Hs; right; exact Hs').
    rewrite Hbody by (first [exact Hb | apply Hs; left; reflexivity]).
    destruct (hit b s idx); destruct (existsb (fun s0 => hit b s0 idx) Ls); reflexivity. }
  rewrite for_range_fold.
  assert (Hb : forall b, In b (loop_indices 0 nb) -> 0 <= b < nb)
    by (intros b; apply in_loop_indices).
  revert o Hb. generalize (loop_indices 0 nb) as Lb.
  induction Lb as [|b Lb IHb]; intros o Hb; [reflexivity|].
  cbn [fold_left existsb].
  rewrite IHb by (intros b' Hb'; apply Hb; right; exact Hb').
  rewrite for_range_fold.
  rewrite Hin; [| apply Hb; left; reflexivity | intros s; apply in_loop_indices].
  destruct (existsb (fun s => hit b s idx) (loop_indices 0 ns));
    destruct (existsb (fun b0 => existsb (fun s => hit b0 s idx) (loop_indices 0 ns)) Lb);
    reflexivity.
Qed.

Lemma reached_rows (B ts n k E q idx : Z) :
  0 < n -> 0 < ts -> 0 <= k < n -> 0 < E -> 0 <= 8 * q <= E ->
  existsb (fun b => existsb (fun s => reached E q (b * ts + s * n + k) idx)
                            (loop_indices 0 (ts / n)))
          (loop_indices 0 B) = true <->
  0 <= idx < B * ts * E /\
  (idx / E) mod ts < n * (ts / n) /\ ((idx / E) mod ts) mod n = k /\
  idx mod E < 8 * q.
Proof.
  intros Hn Hts Hk HE Hq.
  pose proof (Z.div_mod idx E ltac:(lia)) as Hd.
  pose proof (Z.mod_pos_bound idx E HE) as Hm.
  pose proof (hart_rows_hit B idx Hn Hts Hk HE) as Hh.
  rewrite existsb_eqb_in in Hh. unfold hart_rows in Hh. rewrite in_flat_map in Hh.
  rewrite existsb_exists. split.
  - intros [b [Hb Hex]]. apply existsb_exists in Hex. destruct Hex as [s [Hs Hr]].
    unfold reached in Hr. apply andb_true_iff in Hr. destruct Hr as [H1 H2].
    apply Z.leb_le in H1. apply Z.ltb_lt in H2.
    assert (Hrow : idx / E = b * ts + s * n + k).
    { symmetry. apply (Z.div_unique idx E _ (idx - (b * ts + s * n + k) * E)); lia. }
    assert (Hin : exists b0, In b0 (loop_indices 0 B) /\
              In (idx / E) (map (fun s0 => b0 * ts + s0 * n + k) (loop_indices 0 (ts / n)))).
    { exists b. split; [exact Hb|]. apply in_map_iff. exists s. auto. }
    apply Hh in Hin. destruct Hin as (Ha & Hb' & Hc).
    rewrite Hrow in Hd. repeat split; try lia.
  - intros (Ha & Hb' & Hc & Hlt).
    destruct (proj2 Hh (conj Ha (conj Hb' Hc))) as [b [Hb Hin]].
    apply in_map_iff in Hin. destruct Hin as [s [Hrow Hs]].
    exists b. split; [exact Hb|]. apply existsb_exists. exists s. split; [exact Hs|].
    unfold reached. rewrite Hrow. apply andb_true_iff. split.
    + apply Z.leb_le. lia.
    + apply Z.ltb_lt. lia.
Qed.

Lemma opt_kernel_reached (h : hart) (input output : buf F) (B ts E eps idx : Z) :
  let n := cluster_compute_core_num p in
  let k := cluster_core_idx h in
  0 < B -> 0 < ts -> 8 <= E -> 0 < n -> 0 <= k < n ->
  B * ts * E * 4 < 2 ^ 32 -> n * E * 4 < 2 ^ 32 ->
  layernorm_fp32_opt p h input output B ts E eps idx =
  if existsb (fun b => existsb (fun s => reached E (E / 8) (b * ts + s * n + k) idx)
                               (loop_indices 0 (ts / n)))
             (loop_indices 0 B)
  then layernorm_row_opt E (f_of_int eps) (row_of input E (idx / E)) (idx mod E)
  else output idx.
Proof.
  intros n k HB Hts HE Hn Hk Hfit HnE4.
  set (q := E / 8).
  assert (Hqpos : 1 <= q).
  { unfold q. apply Z.div_le_lower_bound; lia. }
  assert (Hq8 : 8 * q <= E) by (unfold q; apply Z.mul_div_le; lia).
  assert (HtsE : ts * E <= B * ts * E) by nia.
  assert (HkE : 0 <= k * E < n * E) by nia.
  assert (Hts32 : ts < 2 ^ 32) by nia.
  pose proof (Z.mul_div_le ts n Hn) as Hqn.
  unfold layernorm_fp32_opt.
  replace (is_compute_core p h) with true
    by (symmetry; unfold is_compute_core; apply Z.ltb_lt; apply Hk).
  fold n k. cbv zeta.
  change (sizeof_double / sizeof_float) with 2.
  change (UNROLL * 2) with 8. change (UNROLL * sizeof_double) with 32.
  unfold sizeof_double, sizeof_float.
  assert (Ho : u32 (k * E) = k * E) by (apply u32_small; lia).
  assert (Hst : u32 (n * E) = n * E) by (apply u32_small; lia).
  assert (Hbo : u32 (ts * E) = ts * E) by (apply u32_small; lia).
  assert (Hud : udiv ts n = ts / n) by (apply udiv_small; lia).
  assert (Hst4 : u32 (n * E * 4) = n * E * 4) by (apply u32_small; lia).
  assert (Hnf : udiv E 8 = q) by (rewrite udiv_small by lia; reflexivity).
  rewrite Ho, Hst, Hbo, Hud, Hst4, Hnf.
  rewrite nested_range_hits
    with (hit := fun b s => reached E q (b * ts + s * n + k))
         (fv := fun idx => layernorm_row_opt E (f_of_int eps)
                             (row_of input E (idx / E)) (idx mod E));
    [reflexivity|].
  intros b s o j Hb Hs.
  assert (Hsq : s * n + n <= ts) by nia.
  set (r := b * ts + s * n + k).
  assert (Hrow : s * (n * E) + E <= ts * E).
  { pose proof (Z.mul_le_mono_nonneg_r (s * n + 1) ts E ltac:(lia) ltac:(lia)). lia. }
  assert (Hbat : 0 <= b * (ts * E) /\ b * (ts * E) + ts * E <= B * ts * E).
  { pose proof (Z.mul_le_mono_nonneg_r (b + 1) B (ts * E) ltac:(nia) ltac:(lia)).
    split; [nia | lia]. }
  assert (Hs0 : 0 <= s * (n * E)) by nia.
  assert (Hub : u32 (b * (ts * E)) = b * (ts * E)) by (apply u32_small; lia).
  assert (Hubs : u32 (b * (ts * E) + s * (n * E)) = b * (ts * E) + s * (n * E))
    by (apply u32_small; lia).
  rewrite Hub, Hubs.
  assert (Hw0 : forall pass,
    walks (fun i0 i1 =>
             k * E + b * (ts * E) + ssr_offset 8 32 0 (n * E * 4) i0 i1 pass s / 4)
          (r * E) q).
  { intros pass u i Hu Hi. unfold ssr_offset, r.
    replace (u * 8 + i * 32 + pass * 0 + s * (n * E * 4))
      with ((2 * u + 8 * i + s * n * E) * 4) by ring.
    rewrite Z.div_mul by lia. ring. }
  assert (Hw2 : walks (fun i0 i1 =>
             k * E + (b * (ts * E) + s * (n * E)) + ssr_offset 8 32 0 0 i0 i1 0 0 / 4)
          (r * E) q).
  { intros u i Hu Hi. unfold ssr_offset, r.
    replace (u * 8 + i * 32 + 0 * 0 + 0 * 0) with ((2 * u + 8 * i) * 4) by ring.
    rewrite Z.div_mul by lia. ring. }
  assert (Hq32 : 1 <= q < 2 ^ 32) by lia.
  rewrite (asm_row_mean_eq input E Hq32 (Hw0 0)).
  destruct (asm_row_variance_eq input E eps
              (f_div (tree_sum4 (lanes_sum4 q (fun i => input (r * E + i)))) (f_of_int E))
              o Hq32 (Hw0 1) (Hw0 0)) as [Hfst Hsnd].
  destruct (asm_row_variance input _ _ q E eps _ o) as [o1 rstd].
  cbn [fst snd] in Hfst, Hsnd.
  rewrite (asm_row_normalize_eq rstd o1 j Hq32 Hw2 (Hw0 1)).
  rewrite Hfst. unfold reached.
  destruct ((r * E <=? j) && (j <? r * E + 8 * q)) eqn:Hhit; [|reflexivity].
  apply andb_true_iff in Hhit. destruct Hhit as [H1 H2].
  apply Z.leb_le in H1. apply Z.ltb_lt in H2.
  assert (Ejr : j / E = r).
  { symmetry. apply (Z.div_unique j E r (j - r * E)); lia. }
  pose proof (Z.div_mod j E ltac:(lia)) as Hdm. rewrite Ejr in Hdm.
  rewrite Hsnd.
  replace (j - r * E) with (j mod E) by lia.
  unfold layernorm_row_opt, opt_rstd, opt_mean, row_of. fold q. rewrite Ejr.
  reflexivity.
Qed.

(** X7: what a call of [layernorm_fp32_opt] writes when the rows are at
    least 8 elements long but their length need not be a multiple of 8 (an
    even length, so that every row starts on a 64-bit boundary, as the
    streams read and write 64-bit words).  The streams cover
    [8 * (E / 8)] elements per row, so hart [k] writes an element of one of
    its rows exactly when its position in the row is below [8 * (E / 8)],
    with the value of the vectorised row function (whose sums run over those
    elements only, while it still divides by [E]).  The last [E mod 8]
    elements of every row, like the rows of the other harts and the
    remainder rows of a batch, are left as they were. *)
Theorem opt_kernel_effect (h : hart) (input output : buf F) (B ts E eps idx : Z) :
  let n := cluster_compute_core_num p in
  let k := cluster_core_idx h in
  0 < B -> 0 < ts -> 8 <= E -> (2 | E) -> 0 < n -> 0 <= k < n ->
  B * ts * E * 4 < 2 ^ 32 -> n * E * 4 < 2 ^ 32 ->
  let mine := 0 <= idx < B * ts * E /\
              (idx / E) mod ts < n * (ts / n) /\ ((idx / E) mod ts) mod n = k /\
              idx mod E < 8 * (E / 8) in
  (mine -> layernorm_fp32_opt p h input output B ts E eps idx
           = layernorm_row_opt E (f_of_int eps) (row_of input E (idx / E)) (idx mod E)) /\
  (~ mine -> layernorm_fp32_opt p h input output B ts E eps idx = output idx).
Proof.
  intros n k HB Hts HE Heven Hn Hk Hfit HnE4 mine.
  rewrite opt_kernel_reached by assumption. fold n k.
  assert (Hq : 0 <= 8 * (E / 8) <= E).
  { split; [|apply Z.mul_div_le; lia].
    assert (0 <= E / 8) by (apply Z.div_pos; lia). lia. }
  pose proof (@reached_rows B ts n k E (E / 8) idx Hn Hts Hk ltac:(lia) Hq) as Hhit.
  fold mine in Hhit.
  destruct (existsb _ (loop_indices 0 B)).
  - split; [reflexivity|]. intros Hno. exfalso. apply Hno. apply Hhit. reflexivity.
  - split; [|reflexivity]. intros Hyes. apply Hhit in Hyes. discriminate.
Qed.

End VectorKernelEffect.

Section VectorMatchesScalar.

Import Machine Runtime LayerNorm Ideal.
Local Open Scope Z_scope.

(** X25: on a tile of finite values whose rows are whole groups of eight
    elements, [layernorm_fp32_opt] and [layernorm_fp32_naive] leave the same
    output tile in arithmetic without rounding, for every hart of the
    cluster (compute core or data mover), whether or not the compute cores
    divide the rows of the tile. *)
Theorem fp32_opt_matches_naive (p : platform) (h : hart) (input output : buf xreal)
    (B ts E eps : Z) :
  0 < B -> 0 < ts -> 0 < E -> (8 | E) ->
  0 < cluster_compute_core_num p -> 0 <= cluster_core_idx h ->
  B * ts * E * 4 < 2 ^ 32 -> cluster_compute_core_num p * E * 4 < 2 ^ 32 ->
  (forall i, 0 <= i < B * ts * E -> finite (input i)) ->
  forall idx,
    layernorm_fp32_opt p h input output B ts E eps idx =
    layernorm_fp32_naive p h input output B ts E eps idx.
Proof.
  intros HB Hts HE H8 Hn Hk Hfit HnE Hfin idx.
  destruct (Z.lt_ge_cases (cluster_core_idx h) (cluster_compute_core_num p)) as [Hc | Hc].
  - assert (HE8 : 8 <= E) by (destruct H8 as [q Hq]; lia).
    assert (Hq : 8 * (E / 8) = E).
    { destruct H8 as [q Hq]. rewrite Hq, Z.div_mul by lia. ring. }
    rewrite (@opt_kernel_reached xreal ideal_ops p h input output B ts E eps idx
               HB Hts HE8 Hn (conj Hk Hc) Hfit HnE).
    rewrite (@naive_kernel_rows_any xreal ideal_ops p h input output B ts E eps
               HB ltac:(lia) HE Hn (conj Hk Hc) ltac:(lia) ltac:(lia)).
    rewrite fold_write_rows by exact HE.
    pose proof (@reached_rows B ts (cluster_compute_core_num p) (cluster_core_idx h)
                  E (E / 8) idx Hn Hts (conj Hk Hc) HE ltac:(lia)) as Hreach.
    pose proof (@hart_rows_hit B ts (cluster_compute_core_num p) (cluster_core_idx h)
                  E idx Hn Hts (conj Hk Hc) HE) as Hhit.
    pose proof (Z.mod_pos_bound idx E HE) as Hmb.
    assert (Hsame :
      existsb (fun b => existsb (fun s =>
                 reached E (E / 8)
                   (b * ts + s * cluster_compute_core_num p + cluster_core_idx h) idx)
                 (loop_indices 0 (ts / cluster_compute_core_num p)))
              (loop_indices 0 B)
      = existsb (Z.eqb (idx / E))
          (hart_rows B ts (cluster_compute_core_num p) (cluster_core_idx h))).
    { apply Bool.eq_iff_eq_true. rewrite Hreach, Hhit. rewrite Hq.
      split.
      - intros (H1 & H2 & H3 & _). split; [exact H1|]. split; assumption.
      - intros (H1 & H2 & H3). split; [exact H1|]. split; [exact H2|].
        split; [exact H3 | lia]. }
    rewrite Hsame.
    destruct (existsb (Z.eqb (idx / E))
                (hart_rows B ts (cluster_compute_core_num p) (cluster_core_idx h)))
      eqn:Hex; [|reflexivity].
    destruct (proj1 Hhit eq_refl) as (Hin & _).
    apply row_opt_matches; try assumption.
    intros j Hj. unfold row_of. apply Hfin.
    assert (Hr : 0 <= idx / E < B * ts).
    { split; [apply Z.div_pos; lia|].
      apply Z.div_lt_upper_bound; [exact HE|].
      replace (E * (B * ts)) with (B * ts * E) by ring. lia. }
    pose proof (@flat_index_bound (B * ts) 1 E (idx / E) 0 j ltac:(lia) ltac:(lia) Hj).
    lia.
  - unfold layernorm_fp32_opt, layernorm_fp32_naive.
    replace (is_compute_core p h) with false; [reflexivity|].
    symmetry. unfold is_compute_core. apply Z.ltb_ge. lia.
Qed.

End VectorMatchesScalar.

(* ===================================================================== *)
(** * LayerNorm: the values of the output feature map *)
(* ===================================================================== *)

Section LayerValues.

Import Machine Runtime LayerNorm Ideal RowStatistics.
Local Open Scope Z_scope.

Lemma Rsum_0 (g : Z -> R) : Rsum g 0 = 0%R.
Proof. unfold Rsum. apply for_range_nil. lia. Qed.

Lemma Rsum_scale (g : Z -> R) (c : R) (n : Z) :
  0 <= n -> Rsum (fun j => (g j * c)%R) n = (Rsum g n * c)%R.
Proof.
  intros Hn. pattern n. apply natlike_ind; [| |exact Hn].
  - rewrite !Rsum_0. lra.
  - intros m Hm IH. unfold Z.succ. rewrite !Rsum_succ by lia. rewrite IH. lra.
Qed.

Lemma Rsum_shift (g : Z -> R) (c : R) (n : Z) :
  0 <= n -> Rsum (fun j => (g j - c)%R) n = (Rsum g n - IZR n * c)%R.
Proof.
  intros Hn. pattern n. apply natlike_ind; [| |exact Hn].
  - rewrite !Rsum_0. simpl. lra.
  - intros m Hm IH. unfold Z.succ. rewrite !Rsum_succ by lia. rewrite IH.
    rewrite plus_IZR. simpl. lra.
Qed.

Lemma Rsum_const (c : R) (n : Z) : 0 <= n -> Rsum (fun _ => c) n = (IZR n * c)%R.
Proof.
  intros Hn. pattern n. apply natlike_ind; [| |exact Hn].
  - rewrite Rsum_0. simpl. lra.
  - intros m Hm IH. unfold Z.succ. rewrite Rsum_succ by lia. rewrite IH.
    rewrite plus_IZR. simpl. lra.
Qed.

(** The scalar row function on a finite row, up to the square root. *)
Lemma layernorm_row_parts (E eps : Z) (x : Z -> xreal) (i : Z) :
  0 < E -> (forall j, 0 <= j < E -> finite (x j)) -> 0 <= i < E ->
  let xr := fun j => to_R (x j) in
  layernorm_row E (f_of_int eps) x i =
  xdiv (Fin (xr i - mean xr E)) (xsqrt (Fin (variance xr E + IZR eps))).
Proof.
  intros HE Hfin Hi xr.
  assert (HER : (0 < IZR E)%R) by (apply IZR_lt; exact HE).
  assert (Hmu : row_mean E x = Fin (mean xr E)).
  { unfold row_mean, mean. rewrite scalar_sum_finite by (try lia; exact Hfin).
    simpl. apply xdiv_fin. lra. }
  assert (Hdev : forall j, 0 <= j < E ->
            f_sub (x j) (row_mean E x) = Fin (xr j - mean xr E)).
  { intros j Hj. rewrite Hmu. unfold xr. rewrite (Hfin j Hj). reflexivity. }
  set (sq := fun j => f_mul (f_sub (x j) (row_mean E x)) (f_sub (x j) (row_mean E x))).
  assert (Hsqv : forall j, 0 <= j < E ->
            sq j = Fin ((xr j - mean xr E) * (xr j - mean xr E))).
  { intros j Hj. unfold sq. rewrite Hdev by exact Hj. reflexivity. }
  assert (Hsq : forall j, 0 <= j < E -> finite (sq j)).
  { intros j Hj. unfold finite. rewrite Hsqv by exact Hj. reflexivity. }
  assert (Hvar : row_var E x = Fin (variance xr E)).
  { unfold row_var. fold sq. rewrite (scalar_sum_finite sq) by (try lia; exact Hsq).
    cbn [f_div f_of_int ideal_ops]. rewrite xdiv_fin by lra.
    unfold variance. f_equal. f_equal. apply Rsum_ext. intros j Hj.
    rewrite Hsqv by exact Hj. reflexivity. }
  unfold layernorm_row. rewrite Hvar, (Hdev i Hi). reflexivity.
Qed.

Lemma layernorm_row_real (E eps : Z) (x : Z -> xreal) (i : Z) :
  0 < E -> (forall j, 0 <= j < E -> finite (x j)) -> 0 <= i < E ->
  let xr := fun j => to_R (x j) in
  (0 < variance xr E + IZR eps)%R ->
  layernorm_row E (f_of_int eps) x i = Fin (normalized xr E (IZR eps) i).
Proof.
  intros HE Hfin Hi xr Hpos.
  rewrite layernorm_row_parts by assumption. fold xr.
  rewrite xsqrt_fin by lra.
  pose proof (sqrt_lt_R0 _ Hpos) as Hs.
  rewrite xdiv_fin by lra. reflexivity.
Qed.

(** The row function of the kernel a single-precision configuration
    selects, on a finite row. *)
Lemma fp32_row_scalar (l : layernorm_layer_t xreal) (x : Z -> xreal) (i : Z) :
  0 < embeddings l -> (baseline l <> 1 -> (8 | embeddings l)) ->
  (forall j, 0 <= j < embeddings l -> finite (x j)) -> 0 <= i < embeddings l ->
  fp32_row l x i = layernorm_row (embeddings l) (f_of_int (f_to_int (eps l))) x i.
Proof.
  intros HE H8 Hfin Hi. unfold fp32_row.
  destruct (baseline l =? 1) eqn:Hb; [reflexivity|].
  apply Z.eqb_neq in Hb.
  apply (@row_opt_matches (embeddings l) (f_to_int (eps l)) x i HE (H8 Hb) Hfin Hi).
Qed.

Lemma layer_row_values (p : platform) (l : layernorm_layer_t xreal) (t0 : Z -> @tcdm xreal) :
  layer_ok p l -> dtype l = FP32 ->
  (baseline l <> 1 -> (8 | embeddings l)) ->
  exists o, layernorm_layer p t0 l = Some o /\
    (forall idx, ~ 0 <= idx < batch_size l * seq_len l * embeddings l ->
       o idx = ofmap l idx) /\
    (forall r i,
       0 <= r < batch_size l * seq_len l -> 0 <= i < embeddings l ->
       (forall j, 0 <= j < embeddings l -> finite (ifmap l (r * embeddings l + j))) ->
       o (r * embeddings l + i) =
       layernorm_row (embeddings l) (f_of_int (f_to_int (eps l)))
                     (row_of (ifmap l) (embeddings l) r) i).
Proof.
  intros Hok Hd H8.
  destruct (@fp32_layer_rows xreal ideal_ops p l t0 Hok Hd H8) as [o [Ho Hrows]].
  assert (HE : 0 < embeddings l) by (destruct Hok as (_ & _ & HE & _); exact HE).
  exists o. split; [exact Ho|]. split.
  - intros idx Hout. rewrite Hrows. unfold rowwise_spec.
    destruct (0 <=? idx) eqn:E1; [|reflexivity].
    destruct (idx <? batch_size l * seq_len l * embeddings l) eqn:E2; [|reflexivity].
    apply Z.leb_le in E1. apply Z.ltb_lt in E2. exfalso. apply Hout. lia.
  - intros r i Hr Hi Hfin.
    rewrite Hrows, rowwise_spec_in.
    + destruct (div_mod_row r HE Hi) as [Hq Hm]. rewrite Hq, Hm.
      apply fp32_row_scalar; try assumption.
    + pose proof (@flat_index_bound (batch_size l * seq_len l) 1 (embeddings l) r 0 i
                    ltac:(lia) ltac:(lia) Hi).
      lia.
Qed.

(** X8: the values [layernorm_layer] produces on single-precision data, in
    arithmetic without rounding, for both kernels (rows of whole groups of
    eight for the vectorised one).  Every element of a finite input row is
    replaced by [(x - mean) / sqrt (variance + e)], where mean and variance
    are those of the row and [e] is the configured [eps] after its
    conversion to an integer, provided [variance + e] is positive; nothing
    outside the feature map is written, and the result does not depend on
    what the scratchpads held. *)
Theorem layernorm_layer_values (p : platform) (l : layernorm_layer_t xreal)
    (t0 : Z -> @tcdm xreal) :
  layer_ok p l -> dtype l = FP32 ->
  (baseline l <> 1 -> (8 | embeddings l)) ->
  exists o, layernorm_layer p t0 l = Some o /\
    (forall idx, ~ 0 <= idx < batch_size l * seq_len l * embeddings l ->
       o idx = ofmap l idx) /\
    (forall r i,
       0 <= r < batch_size l * seq_len l -> 0 <= i < embeddings l ->
       (forall j, 0 <= j < embeddings l -> finite (ifmap l (r * embeddings l + j))) ->
       let x := fun j => to_R (ifmap l (r * embeddings l + j)) in
       let e := IZR (f_to_int (eps l)) in
       (0 < variance x (embeddings l) + e)%R ->
       o (r * embeddings l + i) = Fin (normalized x (embeddings l) e i)).
Proof.
  intros Hok Hd H8.
  destruct (layer_row_values t0 Hok Hd H8) as [o (Ho & Hout & Hin)].
  assert (HE : 0 < embeddings l) by (destruct Hok as (_ & _ & HE & _); exact HE).
  exists o. split; [exact Ho|]. split; [exact Hout|].
  intros r i Hr Hi Hfin x e Hpos.
  rewrite Hin by assumption.
  apply (@layernorm_row_real (embeddings l) (f_to_int (eps l))
           (row_of (ifmap l) (embeddings l) r) i HE Hfin Hi Hpos).
Qed.

Lemma normalized_statistics (x : Z -> R) (E : Z) (e : R) :
  0 < E -> (0 < variance x E + e)%R ->
  mean (normalized x E e) E = 0%R /\
  variance (normalized x E e) E = (variance x E / (variance x E + e))%R.
Proof.
  intros HE Hpos.
  assert (HER : (0 < IZR E)%R) by (apply IZR_lt; exact HE).
  pose proof (sqrt_lt_R0 _ Hpos) as Hs.
  pose proof (sqrt_sqrt (variance x E + e) ltac:(lra)) as Hss.
  set (s := sqrt (variance x E + e)) in *.
  set (m := mean x E).
  assert (Hmean : mean (normalized x E e) E = 0%R).
  { unfold mean at 1.
    rewrite (Rsum_ext (normalized x E e) (fun j => ((x j - m) * / s)%R))
      by (intros j _; reflexivity).
    rewrite (Rsum_scale (fun j => (x j - m)%R) (/ s)) by lia.
    rewrite Rsum_shift by lia.
    unfold m, mean. field. lra. }
  split; [exact Hmean|].
  unfold variance at 1. rewrite Hmean.
  rewrite (Rsum_ext _ (fun j => (((x j - m) * (x j - m)) * / (s * s))%R)).
  - rewrite (Rsum_scale (fun j => ((x j - m) * (x j - m))%R) (/ (s * s))) by lia.
    rewrite Hss.
    assert (Hv : Rsum (fun j => ((x j - m) * (x j - m))%R) E
                 = (variance x E * IZR E)%R).
    { unfold variance. fold m. field. lra. }
    rewrite Hv. field. split; lra.
  - intros j _. unfold normalized. fold m s. field. lra.
Qed.

(** X9: on finite single-precision data a row that [layernorm_layer] has
    normalised has mean 0, and variance [v / (v + e)] for [v] the variance
    of the input row and [e] the integer the kernel adds under the root: 1
    when [e] is 0 (in arithmetic without rounding, and provided [v + e] is
    positive). *)
Theorem normalized_row_statistics (p : platform) (l : layernorm_layer_t xreal)
    (t0 : Z -> @tcdm xreal) (r : Z) :
  layer_ok p l -> dtype l = FP32 ->
  (baseline l <> 1 -> (8 | embeddings l)) ->
  0 <= r < batch_size l * seq_len l ->
  (forall j, 0 <= j < embeddings l -> finite (ifmap l (r * embeddings l + j))) ->
  let x := fun j => to_R (ifmap l (r * embeddings l + j)) in
  let e := IZR (f_to_int (eps l)) in
  (0 < variance x (embeddings l) + e)%R ->
  exists o, layernorm_layer p t0 l = Some o /\
    let y := fun j => to_R (o (r * embeddings l + j)) in
    mean y (embeddings l) = 0%R /\
    variance y (embeddings l)
      = (variance x (embeddings l) / (variance x (embeddings l) + e))%R.
Proof.
  intros Hok Hd H8 Hr Hfin x e Hpos.
  destruct (layer_row_values t0 Hok Hd H8) as [o (Ho & _ & Hin)].
  assert (HE : 0 < embeddings l) by (destruct Hok as (_ & _ & HE & _); exact HE).
  exists o. split; [exact Ho|]. intros y.
  assert (Hy : forall j, 0 <= j < embeddings l ->
            y j = normalized x (embeddings l) e j).
  { intros j Hj. unfold y. rewrite Hin by assumption.
    rewrite (@layernorm_row_real (embeddings l) (f_to_int (eps l))
               (row_of (ifmap l) (embeddings l) r) j HE Hfin Hj Hpos).
    reflexivity. }
  destruct (@normalized_statistics x (embeddings l) e HE Hpos) as [Hm Hv].
  assert (Hmy : mean y (embeddings l) = mean (normalized x (embeddings l) e) (embeddings l)).
  { unfold mean. f_equal. apply Rsum_ext. exact Hy. }
  split; [rewrite Hmy; exact Hm|].
  rewrite <- Hv. unfold variance. rewrite Hmy. f_equal.
  apply Rsum_ext. intros j Hj. rewrite Hy by exact Hj. reflexivity.
Qed.

(** X10: in arithmetic without rounding, on a single-precision
    configuration the driver is written for (rows of whole groups of eight
    for the vectorised kernel), a row whose elements are all the same finite
    number (a row of padding, say) comes out of [layernorm_layer] as NaN in
    every element whenever the configured [eps] is in [0, 1): the mean is
    the element, the kernel adds the integer 0 under the root and divides 0
    by 0, whichever of the two single-precision kernels is selected. *)
Theorem constant_row_gives_nan (p : platform) (l : layernorm_layer_t xreal)
    (t0 : Z -> @tcdm xreal) (r : Z) (c e : R) :
  layer_ok p l -> dtype l = FP32 ->
  (baseline l <> 1 -> (8 | embeddings l)) ->
  eps l = Fin e -> (0 <= e < 1)%R ->
  0 <= r < batch_size l * seq_len l ->
  (forall j, 0 <= j < embeddings l -> ifmap l (r * embeddings l + j) = Fin c) ->
  exists o, layernorm_layer p t0 l = Some o /\
            forall i, 0 <= i < embeddings l -> o (r * embeddings l + i) = NaN.
Proof.
  intros Hok Hd H8 He Hsmall Hr Hconst.
  destruct (layer_row_values t0 Hok Hd H8) as [o (Ho & _ & Hin)].
  assert (HE : 0 < embeddings l) by (destruct Hok as (_ & _ & HE & _); exact HE).
  assert (HER : (0 < IZR (embeddings l))%R) by (apply IZR_lt; exact HE).
  exists o. split; [exact Ho|]. intros i Hi.
  assert (Hfin : forall j, 0 <= j < embeddings l ->
            finite (ifmap l (r * embeddings l + j))).
  { intros j Hj. unfold finite. rewrite Hconst by exact Hj. reflexivity. }
  rewrite Hin by assumption.
  rewrite layernorm_row_parts by assumption.
  assert (Hint : f_to_int (eps l) = 0).
  { rewrite He. apply x_to_int_small. exact Hsmall. }
  rewrite Hint.
  set (xr := fun j => to_R (row_of (ifmap l) (embeddings l) r j)).
  assert (Hxr : forall j, 0 <= j < embeddings l -> xr j = c).
  { intros j Hj. unfold xr, row_of. rewrite Hconst by exact Hj. reflexivity. }
  assert (Hm : mean xr (embeddings l) = c).
  { unfold mean. rewrite (Rsum_ext xr (fun _ => c)) by exact Hxr.
    rewrite Rsum_const by lia. field. lra. }
  assert (Hv : variance xr (embeddings l) = 0%R).
  { unfold variance. rewrite Hm.
    rewrite (Rsum_ext _ (fun _ => 0%R)).
    - rewrite Rsum_const by lia. field. lra.
    - intros j Hj. rewrite Hxr by exact Hj. ring. }
  rewrite Hm, Hv.
  change (to_R (row_of (ifmap l) (embeddings l) r i)) with (xr i).
  rewrite (Hxr i Hi).
  unfold xsqrt. rewrite Rsign_zero by (simpl; lra).
  unfold xdiv. rewrite Rsign_zero by reflexivity.
  unfold xinf_signed. apply Rsign_zero. ring.
Qed.

End LayerValues.

Section EpsConversion.

Import Machine Runtime LayerNorm.
Local Open Scope Z_scope.

Context {F : Type} {FO : FloatOps F}.
Variable p : platform.

(** The driver reads [eps] only through its conversion to an integer. *)
Lemma layer_reads_eps_as_int (l : layernorm_layer_t F) (e' : F) (t0 : Z -> @tcdm F) :
  f_to_int (eps l) = f_to_int e' ->
  layernorm_layer p t0 l = layernorm_layer p t0 (with_eps l e').
Proof.
  intros He.
  assert (Hrun : forall k h itile otile,
    run_kernel p k h (with_eps l e') itile otile = run_kernel p k h l itile otile).
  { intros k h itile otile. destruct k; unfold run_kernel;
      cbn [with_eps eps batch_size embeddings]; rewrite <- He; reflexivity. }
  assert (Hcomp : forall k c itile otile,
    compute_tile p k c (with_eps l e') itile otile = compute_tile p k c l itile otile).
  { intros k c itile otile. unfold compute_tile. apply fold_left_agree.
    intros h out _. apply Hrun. }
  assert (Hstep : forall dts k c j st,
    tile_step p dts k (with_eps l e') c j st = tile_step p dts k l c j st).
  { intros dts k c j [t o]. unfold tile_step. rewrite Hcomp. reflexivity. }
  unfold layernorm_layer. change (dtype (with_eps l e')) with (dtype l).
  change (select_kernel (with_eps l e')) with (select_kernel l).
  destruct (data_type_size (dtype l)) as [dts|]; [|reflexivity].
  destruct (select_kernel l) as [k|]; [|reflexivity].
  destruct (kernel_reads k (dtype l)).
  - f_equal. apply for_range_ext. intros c o _.
    unfold cluster_run. f_equal. apply for_range_ext. intros j st _.
    symmetry. apply Hstep.
  - destruct k; try reflexivity. destruct (dtype l); try reflexivity.
    f_equal. apply for_range_ext. intros c o _.
    unfold cluster_run_words. f_equal. apply for_range_ext. intros j [t o'] _.
    unfold tile_step_words, compute_tile_words.
    cbn [with_eps eps batch_size embeddings]. rewrite <- He. reflexivity.
Qed.

End EpsConversion.

Section EpsBelowOne.

Import Machine Runtime LayerNorm Ideal.
Local Open Scope Z_scope.

(** X11: the configured [eps] reaches the kernels as an integer, so any
    two values with the same integer part configure the same layer.  For
    the two supported precisions, FP32 and FP16, with either setting of the
    baseline flag and any tiling, the call has a result, and every [eps] in
    [0, 1), such as the usual 1e-5, gives exactly the result that [eps = 0]
    gives. *)
Theorem eps_below_one_ignored (p : platform) (l : layernorm_layer_t xreal)
    (t0 : Z -> @tcdm xreal) (e : R) :
  eps l = Fin e -> (0 <= e < 1)%R ->
  dtype l = FP32 \/ dtype l = FP16 ->
  exists o, layernorm_layer p t0 l = Some o /\
            layernorm_layer p t0 (with_eps l (Fin 0)) = Some o.
Proof.
  intros He Hsmall Hd.
  assert (Heq : layernorm_layer p t0 l = layernorm_layer p t0 (with_eps l (Fin 0))).
  { apply layer_reads_eps_as_int.
    rewrite He. cbn [f_to_int ideal_ops].
    rewrite !x_to_int_small by lra. reflexivity. }
  rewrite <- Heq.
  assert (Hsome : exists o, layernorm_layer p t0 l = Some o).
  { unfold layernorm_layer, select_kernel.
    destruct Hd as [Hd | Hd]; rewrite Hd; cbn [data_type_size];
      destruct (baseline l =? 1); cbn [kernel_reads]; eexists; reflexivity. }
  destruct Hsome as [o Ho]. exists o. split; exact Ho.
Qed.

End EpsBelowOne.

(* ===================================================================== *)
(** * FlashAttention: what reaches the output tensor *)
(* ===================================================================== *)

Section AttentionOutput.

Import Machine Runtime Blas FlashAttention.
Local Open Scope Z_scope.

Context {F : Type} {FO : FloatOps F}.
Variable p : platform.
Variable l : flashattention_2_layer_t F.

(** The write-back of row block [t_r]: the block of the output tensor is
    replaced by the accumulator tile, the rest of the tensor is kept. *)
Lemma outer_iter_output (c t_r : Z) (t : tcdm F) (O_l3 : buf F) (idx : Z) :
  0 < d l -> 0 <= B_r l -> d l * 4 < 2 ^ 32 ->
  0 <= t_r * B_r l * d l < 2 ^ 32 ->
  let off := t_r * B_r l * d l in
  let t' := fst (outer_iter p l c t_r (t, O_l3)) in
  snd (outer_iter p l c t_r (t, O_l3)) idx =
  if (off <=? idx) && (idx <? off + B_r l * d l) then O_fa t' (idx - off) else O_l3 idx.
Proof.
  intros Hd HB Hd4 Hoff off t'.
  unfold t', outer_iter, outer_epilogue. cbn [fst snd].
  rewrite (@u32_small (t_r * B_r l * d l)) by lia. fold off.
  rewrite dma_2d_at_bytes
    with (dp := off) (sp := 0) (cnt := d l) (ds := d l) (ss := d l);
    try (unfold sizeof_float; rewrite ?u32_small by lia; lia).
  pose proof (Z.div_mod (idx - off) (d l) ltac:(lia)) as Hdm.
  pose proof (Z.mod_pos_bound (idx - off) (d l) Hd) as Hmb.
  replace ((idx - off) mod d l <? d l) with true by (symmetry; apply Z.ltb_lt; lia).
  rewrite andb_true_r.
  replace (0 + (idx - off) / d l * d l + (idx - off) mod d l) with (idx - off) by lia.
  destruct (0 <=? idx - off) eqn:E1; destruct (off <=? idx) eqn:E1'; cbn [andb];
    try (apply Z.leb_le in E1; apply Z.leb_gt in E1'; lia);
    try (apply Z.leb_gt in E1; apply Z.leb_le in E1'; lia);
    try reflexivity.
  destruct (idx - off <? B_r l * d l) eqn:E2; destruct (idx <? off + B_r l * d l) eqn:E2';
    try (apply Z.ltb_lt in E2; apply Z.ltb_ge in E2'; lia);
    try (apply Z.ltb_ge in E2; apply Z.ltb_lt in E2'; lia);
    reflexivity.
Qed.

(** X12: [flashattention_2_layer] writes the output tensor only within
    the [N / B_r] whole row blocks.  Every element from row
    [(N / B_r) * B_r] on keeps the value it had before the call: when [B_r]
    does not divide [N] the last [N mod B_r] queries get no output, and when
    [N < B_r] the call leaves the whole tensor as it was. *)
Theorem output_frame (c : Z) (t0 : tcdm F) (idx : Z) :
  0 < d l -> 0 < B_r l < 2 ^ 32 -> 0 <= N l -> N l * d l * 4 < 2 ^ 32 ->
  idx < 0 \/ N l / B_r l * B_r l * d l <= idx ->
  flashattention_2_layer p l c t0 idx = O l idx.
Proof.
  intros Hd HB HN Hfit Hout.
  assert (HN32 : N l < 2 ^ 32) by nia.
  assert (HTr : T_r l = N l / B_r l) by (unfold T_r; apply udiv_small; lia).
  pose proof (Z.mul_div_le (N l) (B_r l) ltac:(lia)) as Hle.
  assert (HTr0 : 0 <= N l / B_r l) by (apply Z.div_pos; lia).
  unfold flashattention_2_layer. rewrite HTr.
  apply (for_range_inv (fun st : tcdm F * buf F => snd st idx = O l idx));
    [reflexivity|].
  intros t_r [t O_l3] Ht Hinv. cbn [snd] in Hinv.
  assert (Hblk : 0 <= t_r * B_r l /\ t_r * B_r l + B_r l <= N l).
  { pose proof (Z.mul_le_mono_nonneg_r (t_r + 1) (N l / B_r l) (B_r l)
                  ltac:(lia) ltac:(lia)).
    split; [nia | lia]. }
  assert (Hblkd : 0 <= t_r * B_r l * d l /\ t_r * B_r l * d l + B_r l * d l <= N l * d l).
  { pose proof (Z.mul_le_mono_nonneg_r (t_r * B_r l + B_r l) (N l) (d l)
                  ltac:(lia) ltac:(lia)).
    split; [nia | lia]. }
  rewrite outer_iter_output by lia.
  destruct (Z.leb_spec (t_r * B_r l * d l) idx);
    destruct (Z.ltb_spec idx (t_r * B_r l * d l + B_r l * d l)); cbn [andb];
    try exact Hinv.
  exfalso. destruct Hout as [Hneg | Hbig]; [lia|].
  assert (t_r * B_r l + B_r l <= N l / B_r l * B_r l).
  { pose proof (Z.mul_le_mono_nonneg_r (t_r + 1) (N l / B_r l) (B_r l)
                  ltac:(lia) ltac:(lia)). lia. }
  pose proof (Z.mul_le_mono_nonneg_r (t_r * B_r l + B_r l) (N l / B_r l * B_r l) (d l)
                ltac:(lia) ltac:(lia)).
  lia.
Qed.

End AttentionOutput.

(* ===================================================================== *)
(** * FlashAttention: the use of the scratchpad *)
(* ===================================================================== *)

Section ScratchpadLayout.

Import Machine Runtime FlashAttention.
Local Open Scope Z_scope.

Context {F : Type}.
Variable l : flashattention_2_layer_t F.

Lemma for_range_bump (sz lim a n : Z) :
  0 <= n -> 0 <= sz -> 0 <= a -> a + n * sz < lim ->
  forall body : Z -> Z -> Z,
    (forall i x, 0 <= x -> x + sz < lim -> body i x = x + sz) ->
    for_range 0 n body a = a + n * sz.
Proof.
  intros Hn Hsz Ha Hlim body Hbody.
  assert (H : forall m, 0 <= m -> m <= n -> for_range 0 m body a = a + m * sz).
  { intros m Hm. pattern m. apply natlike_ind; [| |exact Hm].
    - intros _. rewrite for_range_nil by lia. lia.
    - intros k Hk IH Hle. unfold Z.succ. rewrite for_range_snoc by lia.
      rewrite IH by lia. rewrite Hbody by nia. ring. }
  apply H; lia.
Qed.

Lemma allocate_layout (l1_next : Z) :
  0 <= B_r l -> 0 <= B_c l -> 0 <= d l -> 0 <= l1_next ->
  l1_next + fixed_bytes l < 2 ^ 32 ->
  let a := allocate l l1_next in
  Q_fa_at a = l1_next /\
  K_fa_at a = Q_fa_at a + B_r l * d l * 4 /\
  V_fa_at a = K_fa_at a + B_c l * d l * 4 /\
  S_fa_at a = V_fa_at a + B_c l * d l * 4 /\
  P_fa_at a = S_fa_at a + B_r l * B_c l * 4 /\
  O_fa_at a = P_fa_at a + B_r l * B_c l * 4 /\
  m_i_at a = O_fa_at a + B_r l * d l * 4 /\
  m_i_prev_at a = m_i_at a + B_r l * 4 /\
  l_i_at a = m_i_prev_at a + B_r l * 4 /\
  tcdm_ptr a = l_i_at a + B_r l * 4 /\
  tcdm_ptr a = l1_next + fixed_bytes l.
Proof.
  intros HB HC Hd Hl Hfit. unfold fixed_bytes in *.
  assert (H1 : 0 <= B_r l * d l) by nia.
  assert (H2 : 0 <= B_c l * d l) by nia.
  assert (H3 : 0 <= B_r l * B_c l) by nia.
  cbv zeta. unfold allocate, sizeof_float.
  cbn [Q_fa_at K_fa_at V_fa_at S_fa_at P_fa_at O_fa_at m_i_at m_i_prev_at l_i_at tcdm_ptr].
  rewrite (@u32_small (B_r l * d l * 4)) by lia.
  rewrite (@u32_small (B_c l * d l * 4)) by lia.
  rewrite (@u32_small (B_r l * B_c l * 4)) by lia.
  rewrite (@u32_small (B_r l * 4)) by lia.
  repeat (rewrite u32_small by lia).
  repeat split; lia.
Qed.

(** X13: the scratchpad that [flashattention_2_layer] takes.  The nine
    tiles are laid out back to back from the address [snrt_l1_next ()]
    returns.  With [baseline == 0] every inner iteration then takes a fresh
    transposed value tile from the bump pointer and none is given back:
    iteration [(t_r, t_c)] gets the address after [t_r * T_c + t_c] earlier
    ones, so the tiles of different iterations do not overlap, and the
    kernel ends [T_r * T_c * B_c * d * 4] bytes above the nine tiles.  With
    [baseline != 0] the pointer stays where the nine tiles end. *)
Theorem scratchpad_growth (l1_next : Z) :
  0 <= B_r l -> 0 <= B_c l -> 0 <= d l -> 0 <= l1_next ->
  0 <= T_r l -> 0 <= T_c l ->
  l1_next + fixed_bytes l + T_r l * T_c l * (B_c l * d l * 4) < 2 ^ 32 ->
  let top := l1_next + fixed_bytes l in
  tcdm_ptr (allocate l l1_next) = top /\
  (baseline l = 0 ->
     (forall t_r t_c, 0 <= t_r < T_r l -> 0 <= t_c < T_c l ->
        V_t_at l l1_next t_r t_c = top + (t_r * T_c l + t_c) * (B_c l * d l * 4)) /\
     final_tcdm_ptr l l1_next = top + T_r l * T_c l * (B_c l * d l * 4)) /\
  (baseline l <> 0 -> final_tcdm_ptr l l1_next = top).
Proof.
  intros HB HC Hd Hl HTr HTc Hfit top.
  set (sz := B_c l * d l * 4) in *.
  assert (Hsz : 0 <= sz) by (unfold sz; nia).
  assert (Hgrow : 0 <= T_r l * T_c l * sz) by nia.
  assert (Hfix : 0 <= fixed_bytes l) by (unfold fixed_bytes; nia).
  destruct (@allocate_layout l1_next HB HC Hd Hl ltac:(lia)) as (_ & _ & _ & _ & _ & _ & _ & _ & _ & _ & Htop).
  fold top in Htop. split; [exact Htop|].
  split.
  - intros Hb.
    assert (Hstep : forall x, 0 <= x -> x + sz < 2 ^ 32 -> inner_iter_ptr l x = x + sz).
    { intros x Hx Hlt. unfold inner_iter_ptr. rewrite Hb. cbn [Z.eqb negb].
      unfold sizeof_float. fold sz. rewrite (@u32_small sz) by lia.
      apply u32_small. lia. }
    assert (Hrows : forall t_r, 0 <= t_r <= T_r l ->
      for_range 0 t_r
        (fun _ ptr => for_range 0 (T_c l) (fun _ ptr => inner_iter_ptr l ptr) ptr)
        (tcdm_ptr (allocate l l1_next))
      = top + t_r * (T_c l * sz)).
    { intros t_r Ht. rewrite Htop.
      assert (Hle : t_r * (T_c l * sz) <= T_r l * (T_c l * sz))
        by (apply Z.mul_le_mono_nonneg_r; nia).
      apply (@for_range_bump (T_c l * sz) (2 ^ 32)); try nia; try lia.
      intros i x Hx Hlt.
      apply (@for_range_bump sz (2 ^ 32)); try lia.
      intros j y Hy Hlt'. apply Hstep; lia. }
    split.
    + intros t_r t_c Htr Htc. unfold V_t_at. rewrite Hrows by lia.
      assert (Hle : (t_r + 1) * (T_c l * sz) <= T_r l * (T_c l * sz))
        by (apply Z.mul_le_mono_nonneg_r; nia).
      assert (Hle2 : t_c * sz <= T_c l * sz) by (apply Z.mul_le_mono_nonneg_r; lia).
      assert (H0 : 0 <= t_r * (T_c l * sz)) by nia.
      rewrite (@for_range_bump sz (2 ^ 32) (top + t_r * (T_c l * sz)) t_c);
        [ring | lia | lia | lia | nia |].
      intros j y Hy Hlt'. apply Hstep; lia.
    + unfold final_tcdm_ptr, V_t_at. rewrite for_range_nil by lia.
      rewrite Hrows by lia. ring.
  - intros Hb. unfold final_tcdm_ptr, V_t_at. rewrite for_range_nil by lia.
    rewrite <- Htop.
    apply (for_range_inv (fun x => x = tcdm_ptr (allocate l l1_next))); [reflexivity|].
    intros i x _ ->.
    apply (for_range_inv (fun x => x = tcdm_ptr (allocate l l1_next))); [reflexivity|].
    intros j y _ ->. unfold inner_iter_ptr.
    apply Z.eqb_neq in Hb. rewrite Hb. reflexivity.
Qed.

End ScratchpadLayout.

(* ===================================================================== *)
(** * FlashAttention: the statistics pass over one row *)
(* ===================================================================== *)

Section SoftmaxRow.

Import Machine Runtime FlashAttention.
Local Open Scope Z_scope.

Context {F : Type} {FO : FloatOps F}.
Variable l : flashattention_2_layer_t F.

Lemma running_max_snoc (n : Z) (s : Z -> F) (m0 : F) :
  0 <= n ->
  running_max (n + 1) s m0 =
  if f_gt (s n) (running_max n s m0) then s n else running_max n s m0.
Proof. intros Hn. unfold running_max. rewrite for_range_snoc by exact Hn. reflexivity. Qed.

Lemma exp_sum_snoc (n : Z) (s : Z -> F) (m : F) :
  0 <= n ->
  exp_sum (n + 1) s m = f_add (exp_sum n s m) (f_exp (f_sub (s n) m)).
Proof. intros Hn. unfold exp_sum. rewrite for_range_snoc by exact Hn. reflexivity. Qed.

Lemma in_range_snoc (a i j : Z) :
  0 <= i ->
  ((a <=? j) && (j <? a + (i + 1))) =
  ((a <=? j) && (j <? a + i)) || (j =? a + i).
Proof.
  intros Hi.
  destruct (Z.leb_spec a j); destruct (Z.ltb_spec j (a + (i + 1)));
    destruct (Z.ltb_spec j (a + i)); destruct (Z.eqb_spec j (a + i));
    cbn [andb orb]; try reflexivity; lia.
Qed.

Variable r : Z.
Hypothesis Hr : 0 <= r.

(** Lines 196-199: the maximum of the row. *)
Lemma max_loop (t1 : tcdm F) :
  0 <= B_c l -> (r + 1) * B_c l <= 2 ^ 32 ->
  let t2 :=
    for_range 0 (B_c l) (fun col t =>
      let val := S_fa t (u32 (r * B_c l + col)) in
      if f_gt val (m_i t r) then set_m_i t (upd (m_i t) r val) else t) t1 in
  (forall f, f <> f_m_i -> get f t2 = get f t1) /\
  (forall r', r' <> r -> m_i t2 r' = m_i t1 r') /\
  m_i t2 r = running_max (B_c l) (fun col => S_fa t1 (r * B_c l + col)) (m_i t1 r).
Proof.
  intros HB Hfit. cbv zeta.
  apply (for_range_ind (fun i (t2 : tcdm F) =>
     (forall f, f <> f_m_i -> get f t2 = get f t1) /\
     (forall r', r' <> r -> m_i t2 r' = m_i t1 r') /\
     m_i t2 r = running_max i (fun col => S_fa t1 (r * B_c l + col)) (m_i t1 r)));
    [exact HB | |].
  - repeat split; try reflexivity.
  - intros i t2 Hi (Hf & Ho & Hm).
    assert (HS : S_fa t2 = S_fa t1) by (apply (Hf f_S_fa); discriminate).
    rewrite u32_small by nia. rewrite HS, Hm, running_max_snoc by lia.
    destruct (f_gt (S_fa t1 (r * B_c l + i))
                   (running_max i (fun col => S_fa t1 (r * B_c l + col)) (m_i t1 r))).
    + split; [|split].
      * intros f Hne. rewrite <- (Hf f Hne). destruct f; try reflexivity.
        contradiction.
      * intros r' Hr'. cbn [m_i set_m_i]. rewrite upd_other by exact Hr'. apply Ho, Hr'.
      * cbn [m_i set_m_i]. apply upd_same.
    + auto.
Qed.

(** Lines 202-206: the row of the P tile and its sum. *)
Lemma exp_loop (t2 : tcdm F) :
  0 <= B_c l -> (r + 1) * B_c l <= 2 ^ 32 ->
  let res :=
    for_range 0 (B_c l) (fun col '(t, row_sum) =>
      let t :=
        set_P_fa t (upd (P_fa t) (u32 (r * B_c l + col))
                        (f_exp (f_sub (S_fa t (u32 (r * B_c l + col)))
                                      (m_i t r)))) in
      (t, f_add row_sum (P_fa t (u32 (r * B_c l + col)))))
      (t2, f_zero) in
  (forall f, f <> f_P_fa -> get f (fst res) = get f t2) /\
  (forall j, P_fa (fst res) j =
             if (r * B_c l <=? j) && (j <? r * B_c l + B_c l)
             then f_exp (f_sub (S_fa t2 j) (m_i t2 r)) else P_fa t2 j) /\
  snd res = exp_sum (B_c l) (fun col => S_fa t2 (r * B_c l + col)) (m_i t2 r).
Proof.
  intros HB Hfit. cbv zeta.
  apply (for_range_ind (fun i (res : tcdm F * F) =>
     (forall f, f <> f_P_fa -> get f (fst res) = get f t2) /\
     (forall j, P_fa (fst res) j =
                if (r * B_c l <=? j) && (j <? r * B_c l + i)
                then f_exp (f_sub (S_fa t2 j) (m_i t2 r)) else P_fa t2 j) /\
     snd res = exp_sum i (fun col => S_fa t2 (r * B_c l + col)) (m_i t2 r)));
    [exact HB | |].
  - cbn [fst snd]. split; [reflexivity|]. split; [|reflexivity].
    intros j. destruct (Z.leb_spec (r * B_c l) j); destruct (Z.ltb_spec j (r * B_c l + 0));
      cbn [andb]; try reflexivity; lia.
  - intros i [t3 rs] Hi (Hf & HP & Hs). cbn [fst snd] in *.
    assert (HS : S_fa t3 = S_fa t2) by (apply (Hf f_S_fa); discriminate).
    assert (Hm : m_i t3 = m_i t2) by (apply (Hf f_m_i); discriminate).
    rewrite u32_small by nia. rewrite HS, Hm.
    split; [|split].
    + intros f Hne. rewrite <- (Hf f Hne). destruct f; try reflexivity. contradiction.
    + intros j. cbn [P_fa set_P_fa]. rewrite in_range_snoc by lia.
      unfold upd. destruct (Z.eqb_spec j (r * B_c l + i)) as [-> | Hne].
      * rewrite orb_true_r. reflexivity.
      * rewrite orb_false_r. apply HP.
    + cbn [P_fa set_P_fa]. rewrite upd_same, Hs, exp_sum_snoc by lia. reflexivity.
Qed.

(** Lines 218-222: the accumulator row divided by the rescaling factor. *)
Lemma rescale_loop (se : F) (t4 : tcdm F) :
  0 <= d l -> (r + 1) * d l <= 2 ^ 32 ->
  let t5 :=
    for_range 0 (d l) (fun col_idx t =>
      set_O_fa t (upd (O_fa t) (u32 (r * d l + col_idx))
                      (f_div (O_fa t (u32 (r * d l + col_idx))) se))) t4 in
  (forall f, f <> f_O_fa -> get f t5 = get f t4) /\
  (forall j, O_fa t5 j =
             if (r * d l <=? j) && (j <? r * d l + d l)
             then f_div (O_fa t4 j) se else O_fa t4 j).
Proof.
  intros Hd Hfit. cbv zeta.
  apply (for_range_ind (fun i (t5 : tcdm F) =>
     (forall f, f <> f_O_fa -> get f t5 = get f t4) /\
     (forall j, O_fa t5 j =
                if (r * d l <=? j) && (j <? r * d l + i)
                then f_div (O_fa t4 j) se else O_fa t4 j)));
    [exact Hd | |].
  - split; [reflexivity|].
    intros j. destruct (Z.leb_spec (r * d l) j); destruct (Z.ltb_spec j (r * d l + 0));
      cbn [andb]; try reflexivity; lia.
  - intros i t5 Hi (Hf & HO).
    rewrite u32_small by nia.
    split.
    + intros f Hne. rewrite <- (Hf f Hne). destruct f; try reflexivity. contradiction.
    + intros j. cbn [O_fa set_O_fa]. rewrite in_range_snoc by lia.
      unfold upd. destruct (Z.eqb_spec j (r * d l + i)) as [-> | Hne].
      * rewrite orb_true_r. rewrite HO.
        replace ((r * d l <=? r * d l + i) && (r * d l + i <? r * d l + i)) with false;
          [reflexivity|].
        symmetry. apply andb_false_iff. right. apply Z.ltb_ge. lia.
      * rewrite orb_false_r. apply HO.
Qed.

(** Lines 187-223 as a whole: what one row of the statistics pass leaves
    in each tile of the scratchpad. *)
Lemma softmax_row_spec (t_c : Z) (t : tcdm F) :
  0 <= B_c l -> (r + 1) * B_c l <= 2 ^ 32 ->
  0 <= d l -> (r + 1) * d l <= 2 ^ 32 ->
  let s := fun col => S_fa t (r * B_c l + col) in
  let m := running_max (B_c l) s (m_i t r) in
  let se := f_exp (f_sub (m_i t r) m) in
  let t' := softmax_row l t_c r t in
  (forall f, f <> f_P_fa -> f <> f_O_fa -> f <> f_m_i -> f <> f_m_i_prev -> f <> f_l_i ->
             get f t' = get f t) /\
  (forall r', m_i t' r' = if r' =? r then m else m_i t r') /\
  (forall r', m_i_prev t' r' = if r' =? r then m_i t r else m_i_prev t r') /\
  (forall r', l_i t' r' =
              if r' =? r
              then (if t_c =? 0 then exp_sum (B_c l) s m
                    else f_add (f_mul (l_i t r) se) (exp_sum (B_c l) s m))
              else l_i t r') /\
  (forall j, P_fa t' j =
             if (r * B_c l <=? j) && (j <? r * B_c l + B_c l)
             then f_exp (f_sub (S_fa t j) m) else P_fa t j) /\
  (forall j, O_fa t' j =
             if negb (t_c =? 0) && ((r * d l <=? j) && (j <? r * d l + d l))
             then f_div (O_fa t j) se else O_fa t j).
Proof.
  intros HB HfitB Hd Hfitd s m se t'. subst t'. unfold softmax_row.
  set (t1 := set_m_i_prev t (upd (m_i_prev t) r (m_i t r))).
  destruct (max_loop t1 HB HfitB) as (Hf2 & Ho2 & Hm2).
  cbv zeta in Hf2, Ho2, Hm2.
  set (t2 := for_range 0 (B_c l) _ t1) in *.
  change (m_i t1) with (m_i t) in *. change (S_fa t1) with (S_fa t) in *.
  fold s in Hm2. fold m in Hm2.
  destruct (exp_loop t2 HB HfitB) as (Hf3 & HP3 & Hs3).
  cbv zeta in Hf3, HP3, Hs3.
  destruct (for_range 0 (B_c l) _ (t2, f_zero)) as [t3 rs].
  cbn [fst snd] in Hf3, HP3, Hs3.
  assert (HS2 : S_fa t2 = S_fa t) by (apply (Hf2 f_S_fa); discriminate).
  assert (HP2 : P_fa t2 = P_fa t) by (apply (Hf2 f_P_fa); discriminate).
  rewrite HS2, Hm2 in Hs3, HP3. rewrite HP2 in HP3. fold s in Hs3. subst rs.
  assert (Hm3 : m_i t3 = m_i t2) by (apply (Hf3 f_m_i); discriminate).
  assert (Hmp3 : m_i_prev t3 r = m_i t r).
  { assert (E3 : m_i_prev t3 = m_i_prev t2) by (apply (Hf3 f_m_i_prev); discriminate).
    assert (E2 : m_i_prev t2 = m_i_prev t1) by (apply (Hf2 f_m_i_prev); discriminate).
    rewrite E3, E2. unfold t1. cbn [m_i_prev set_m_i_prev]. apply upd_same. }
  rewrite Hm3, Hm2, Hmp3. fold se.
  assert (Hl3 : l_i t3 = l_i t).
  { assert (E3 : l_i t3 = l_i t2) by (apply (Hf3 f_l_i); discriminate).
    assert (E2 : l_i t2 = l_i t1) by (apply (Hf2 f_l_i); discriminate).
    rewrite E3, E2. reflexivity. }
  assert (HO3 : O_fa t3 = O_fa t).
  { assert (E3 : O_fa t3 = O_fa t2) by (apply (Hf3 f_O_fa); discriminate).
    assert (E2 : O_fa t2 = O_fa t1) by (apply (Hf2 f_O_fa); discriminate).
    rewrite E3, E2. reflexivity. }
  assert (Hkeep : forall f, f <> f_P_fa -> f <> f_O_fa -> f <> f_m_i ->
                            f <> f_m_i_prev -> f <> f_l_i -> get f t3 = get f t).
  { intros f H1 H2 H3 H4 H5. rewrite (Hf3 f H1), (Hf2 f H3).
    unfold t1. destruct f; try reflexivity; contradiction. }
  assert (Hmi : forall r', m_i t3 r' = if r' =? r then m else m_i t r').
  { intros r'. rewrite Hm3. destruct (Z.eqb_spec r' r) as [-> | Hne];
      [exact Hm2 | apply Ho2, Hne]. }
  assert (Hmp : forall r', m_i_prev t3 r' = if r' =? r then m_i t r else m_i_prev t r').
  { intros r'.
    assert (E3 : m_i_prev t3 = m_i_prev t2) by (apply (Hf3 f_m_i_prev); discriminate).
    assert (E2 : m_i_prev t2 = m_i_prev t1) by (apply (Hf2 f_m_i_prev); discriminate).
    rewrite E3, E2. unfold t1. cbn [m_i_prev set_m_i_prev]. reflexivity. }
  set (lnew := if t_c =? 0 then exp_sum (B_c l) s m
                else f_add (f_mul (l_i t r) se) (exp_sum (B_c l) s m)).
  set (t4 := if negb (t_c =? 0)
             then set_l_i t3 (upd (l_i t3) r
                                  (f_add (f_mul (l_i t3 r) se) (exp_sum (B_c l) s m)))
             else set_l_i t3 (upd (l_i t3) r (exp_sum (B_c l) s m))).
  assert (H4 : t4 = set_l_i t3 (upd (l_i t) r lnew)).
  { unfold t4, lnew. rewrite Hl3. destruct (t_c =? 0); reflexivity. }
  clearbody t4. subst t4.
  destruct (t_c =? 0) eqn:Htc; cbn [negb andb].
  - split; [|split; [|split; [|split; [|split]]]].
    + intros f H1 H2 H3 H4 H5. rewrite <- (Hkeep f H1 H2 H3 H4 H5).
      destruct f; try reflexivity; contradiction.
    + exact Hmi.
    + exact Hmp.
    + intros r'. cbn [l_i set_l_i]. reflexivity.
    + intros j. cbn [P_fa set_l_i]. apply HP3.
    + intros j. cbn [O_fa set_l_i]. rewrite HO3. reflexivity.
  - destruct (rescale_loop se (set_l_i t3 (upd (l_i t) r lnew)) Hd Hfitd) as (Hf5 & HO5).
    cbv zeta in Hf5, HO5.
    set (t5 := for_range 0 (d l) _ _) in *.
    split; [|split; [|split; [|split; [|split]]]].
    + intros f H1 H2 H3 H4 H5. rewrite (Hf5 f H2). rewrite <- (Hkeep f H1 H2 H3 H4 H5).
      destruct f; try reflexivity; contradiction.
    + intros r'. assert (E : m_i t5 = m_i t3) by (apply (Hf5 f_m_i); discriminate).
      rewrite E. apply Hmi.
    + intros r'. assert (E : m_i_prev t5 = m_i_prev t3) by (apply (Hf5 f_m_i_prev); discriminate).
      rewrite E. apply Hmp.
    + intros r'. assert (E : l_i t5 = upd (l_i t) r lnew) by (apply (Hf5 f_l_i); discriminate).
      rewrite E. reflexivity.
    + intros j. assert (E : P_fa t5 = P_fa t3) by (apply (Hf5 f_P_fa); discriminate).
      rewrite E. apply HP3.
    + intros j. rewrite HO5. cbn [O_fa set_l_i]. rewrite HO3. reflexivity.
Qed.

End SoftmaxRow.

Section RowMaximum.

Import Machine Runtime FlashAttention.
Local Open Scope Z_scope.

Context {F : Type} {FO : FloatOps F} {FL : FloatOrder FO}.
Hypothesis f_gt_irrefl : forall a : F, f_gt a a = false.

(** The loop of lines 196-199 leaves a value that no entry exceeds, and
    that is the starting value or one of the entries. *)
Lemma running_max_bound (n : Z) (s : Z -> F) (m0 : F) :
  0 <= n ->
  (forall col, 0 <= col < n -> f_gt (s col) (running_max n s m0) = false) /\
  (running_max n s m0 = m0 \/
   exists col, 0 <= col < n /\ running_max n s m0 = s col).
Proof.
  intros Hn. pattern n. apply natlike_ind; [| |exact Hn].
  - split; [intros col Hcol; lia|]. left. unfold running_max.
    apply for_range_nil. lia.
  - intros k Hk [Hub Hatt]. unfold Z.succ. rewrite running_max_snoc by exact Hk.
    destruct (f_gt (s k) (running_max k s m0)) eqn:Hgt.
    + split.
      * intros col Hcol. destruct (Z.eq_dec col k) as [-> | Hne];
          [apply f_gt_irrefl|].
        destruct (f_gt (s col) (s k)) eqn:Hc; [|reflexivity].
        rewrite <- (Hub col ltac:(lia)). symmetry.
        apply (f_gt_trans _ _ _ Hc Hgt).
      * right. exists k. split; [lia | reflexivity].
    + split.
      * intros col Hcol. destruct (Z.eq_dec col k) as [-> | Hne];
          [exact Hgt | apply Hub; lia].
      * destruct Hatt as [Hatt | [col [Hcol Hatt]]]; [left; exact Hatt|].
        right. exists col. split; [lia | exact Hatt].
Qed.

(** X14: the running maximum after the statistics pass over a row of a
    column tile.  No entry of the row of S compares greater than the new
    [m_i] of the row; the new [m_i] is the previous one or an entry of the
    row; and [m_i_prev] holds the previous [m_i], which the rescaling factor
    is computed from. *)
Theorem softmax_row_maximum (l : flashattention_2_layer_t F) (t_c r : Z) (t : tcdm F) :
  0 <= r -> 0 <= B_c l -> (r + 1) * B_c l <= 2 ^ 32 ->
  0 <= d l -> (r + 1) * d l <= 2 ^ 32 ->
  let t' := softmax_row l t_c r t in
  (forall col, 0 <= col < B_c l ->
     f_gt (S_fa t (r * B_c l + col)) (m_i t' r) = false) /\
  (m_i t' r = m_i t r \/
   exists col, 0 <= col < B_c l /\ m_i t' r = S_fa t (r * B_c l + col)) /\
  m_i_prev t' r = m_i t r.
Proof.
  intros Hr HB HfitB Hd Hfitd t'.
  destruct (softmax_row_spec l Hr t_c t HB HfitB Hd Hfitd) as (_ & Hm & Hmp & _).
  cbv zeta in Hm, Hmp. fold t' in Hm, Hmp.
  rewrite Hm, Hmp, Z.eqb_refl.
  destruct (running_max_bound (fun col => S_fa t (r * B_c l + col)) (m_i t r) HB)
    as [Hub Hatt].
  split; [exact Hub|]. split; [exact Hatt | reflexivity].
Qed.

End RowMaximum.

Section RowTiles.

Import Machine Runtime FlashAttention.
Local Open Scope Z_scope.

Context {F : Type} {FO : FloatOps F}.
Variable l : flashattention_2_layer_t F.

(** X15: what the statistics pass over row [r] of column tile [t_c]
    leaves behind, in terms of the new running maximum [m_i r].  The row of
    the P tile holds [exp (S - m_i r)]; [l_i r] is the sum of that row in
    column order, to which every column tile but the first adds the previous
    [l_i r] times [exp (m_i_prev r - m_i r)]; and in every column tile but
    the first the row of the accumulator O has been divided by that same
    factor. *)
Theorem softmax_row_tiles (t_c r : Z) (t : tcdm F) :
  0 <= r -> 0 <= B_c l -> (r + 1) * B_c l <= 2 ^ 32 ->
  0 <= d l -> (r + 1) * d l <= 2 ^ 32 ->
  let t' := softmax_row l t_c r t in
  let shifted_exp := f_exp (f_sub (m_i_prev t' r) (m_i t' r)) in
  let row_sum :=
    for_range 0 (B_c l) (fun col a => f_add a (P_fa t' (r * B_c l + col))) f_zero in
  (forall col, 0 <= col < B_c l ->
     P_fa t' (r * B_c l + col)
     = f_exp (f_sub (S_fa t (r * B_c l + col)) (m_i t' r))) /\
  l_i t' r = (if t_c =? 0 then row_sum
              else f_add (f_mul (l_i t r) shifted_exp) row_sum) /\
  (forall col, 0 <= col < d l ->
     O_fa t' (r * d l + col)
     = if t_c =? 0 then O_fa t (r * d l + col)
       else f_div (O_fa t (r * d l + col)) shifted_exp).
Proof.
  intros Hr HB HfitB Hd Hfitd t' shifted_exp row_sum.
  destruct (softmax_row_spec l Hr t_c t HB HfitB Hd Hfitd)
    as (_ & Hm & Hmp & Hl & HP & HO).
  cbv zeta in Hm, Hmp, Hl, HP, HO. fold t' in Hm, Hmp, Hl, HP, HO.
  assert (HPr : forall col, 0 <= col < B_c l ->
            P_fa t' (r * B_c l + col)
            = f_exp (f_sub (S_fa t (r * B_c l + col)) (m_i t' r))).
  { intros col Hcol. rewrite HP, Hm, Z.eqb_refl.
    replace (r * B_c l <=? r * B_c l + col) with true by (symmetry; apply Z.leb_le; lia).
    replace (r * B_c l + col <? r * B_c l + B_c l) with true
      by (symmetry; apply Z.ltb_lt; lia).
    reflexivity. }
  assert (Hsum : row_sum
            = exp_sum (B_c l) (fun col => S_fa t (r * B_c l + col)) (m_i t' r)).
  { unfold row_sum, exp_sum. apply for_range_ext. intros col a Hcol.
    rewrite HPr by exact Hcol. reflexivity. }
  assert (Hse : shifted_exp = f_exp (f_sub (m_i t r) (m_i t' r))).
  { unfold shifted_exp. rewrite Hmp, Z.eqb_refl. reflexivity. }
  split; [exact HPr|]. split.
  - rewrite Hl, Z.eqb_refl, Hsum, Hse. rewrite Hm, Z.eqb_refl. reflexivity.
  - intros col Hcol. rewrite HO, Hse. rewrite Hm, Z.eqb_refl.
    replace (r * d l <=? r * d l + col) with true by (symmetry; apply Z.leb_le; lia).
    replace (r * d l + col <? r * d l + d l) with true
      by (symmetry; apply Z.ltb_lt; lia).
    destruct (t_c =? 0); reflexivity.
Qed.

End RowTiles.

Section UnitInterval.

Import Machine Runtime FlashAttention Ideal.
Local Open Scope Z_scope.

Lemma xgt_irrefl (a : xreal) : xgt a a = false.
Proof.
  destruct a; try reflexivity. simpl. destruct (Rlt_dec r r) as [H | H];
    [exfalso; lra | reflexivity].
Qed.

Lemma exp_le_1 (x : R) : (x <= 0)%R -> (0 < exp x <= 1)%R.
Proof.
  intros Hx. split; [apply exp_pos|].
  destruct (Rle_lt_or_eq_dec x 0 Hx) as [Hlt | ->].
  - pose proof (exp_increasing x 0 Hlt) as Hi. rewrite exp_0 in Hi. lra.
  - rewrite exp_0. lra.
Qed.

(** X16: why the maximum is subtracted.  On a row of finite scores, with
    the running maximum of the row at [-INFINITY] (as the prologue leaves
    it) or finite, the statistics pass leaves a finite maximum, and every
    entry of the row of the P tile is a number in (0, 1]: the exponential is
    never taken of a positive argument. *)
Theorem probabilities_in_unit_interval (l : flashattention_2_layer_t xreal)
    (t_c r : Z) (t : tcdm xreal) :
  0 <= r -> 1 <= B_c l -> (r + 1) * B_c l <= 2 ^ 32 ->
  0 <= d l -> (r + 1) * d l <= 2 ^ 32 ->
  (forall col, 0 <= col < B_c l -> finite (S_fa t (r * B_c l + col))) ->
  m_i t r = NInf \/ finite (m_i t r) ->
  let t' := softmax_row l t_c r t in
  finite (m_i t' r) /\
  forall col, 0 <= col < B_c l ->
    exists pr, P_fa t' (r * B_c l + col) = Fin pr /\ (0 < pr <= 1)%R.
Proof.
  intros Hr HB HfitB Hd Hfitd Hfin Hm0 t'.
  destruct (@softmax_row_spec xreal ideal_ops l r Hr t_c t ltac:(lia) HfitB Hd Hfitd)
    as (_ & Hm & _ & _ & HP & _).
  cbv zeta in Hm, HP. fold t' in Hm, HP.
  set (s := fun col => S_fa t (r * B_c l + col)) in *.
  destruct (@running_max_bound xreal ideal_ops ideal_order xgt_irrefl (B_c l) s (m_i t r)
              ltac:(lia)) as [Hub Hatt].
  specialize (Hm r). rewrite Z.eqb_refl in Hm. rewrite <- Hm in Hub, Hatt.
  assert (Hfm : exists mm, m_i t' r = Fin mm).
  { destruct Hatt as [Hatt | [col [Hcol Hatt]]].
    - destruct Hm0 as [Hinf | Hf].
      + exfalso. specialize (Hub 0 ltac:(lia)). rewrite Hatt, Hinf in Hub.
        unfold s in Hub. rewrite (Hfin 0 ltac:(lia)) in Hub. discriminate.
      + exists (to_R (m_i t r)). rewrite Hatt. exact Hf.
    - exists (to_R (s col)). rewrite Hatt. apply (Hfin col Hcol). }
  destruct Hfm as [mm Hmm]. split; [unfold finite; rewrite Hmm; reflexivity|].
  intros col Hcol. rewrite HP.
  replace (r * B_c l <=? r * B_c l + col) with true by (symmetry; apply Z.leb_le; lia).
  replace (r * B_c l + col <? r * B_c l + B_c l) with true
    by (symmetry; apply Z.ltb_lt; lia).
  cbn [andb]. rewrite <- Hm, Hmm.
  specialize (Hub col Hcol). unfold s in Hub. rewrite Hmm in Hub.
  rewrite (Hfin col Hcol) in Hub |- *.
  set (a := to_R (S_fa t (r * B_c l + col))) in *.
  assert (Hle : (a <= mm)%R).
  { destruct (Rle_lt_dec a mm) as [H | H]; [exact H|].
    cbn [f_gt ideal_ops] in Hub. rewrite (xgt_fin_true H) in Hub. discriminate. }
  exists (exp (a + - mm)). split; [reflexivity|]. apply exp_le_1. lra.
Qed.

End UnitInterval.

(* ===================================================================== *)
(** * FlashAttention: the phases of a cluster *)
(* ===================================================================== *)

Section RowRanges.

Import Machine Runtime FlashAttention.
Local Open Scope Z_scope.

Context {F : Type} {FO : FloatOps F}.
Variable l : flashattention_2_layer_t F.

Lemma rows_snoc (a i r : Z) :
  a <= i ->
  ((a <=? r) && (r <? i + 1)) = ((a <=? r) && (r <? i)) || (r =? i).
Proof.
  intros Hi.
  destruct (Z.leb_spec a r); destruct (Z.ltb_spec r (i + 1));
    destruct (Z.ltb_spec r i); destruct (Z.eqb_spec r i);
    cbn [andb orb]; try reflexivity; lia.
Qed.

(** Element [j] of a tile of rows of [w] elements lies in row [i]. *)
Lemma elems_snoc (a i w j : Z) :
  0 <= a <= i -> 0 < w ->
  ((a * w <=? j) && (j <? (i + 1) * w)) =
  ((a * w <=? j) && (j <? i * w)) || ((i * w <=? j) && (j <? i * w + w)).
Proof.
  intros Hi Hw.
  assert (Hai : a * w <= i * w) by (apply Z.mul_le_mono_nonneg_r; lia).
  replace ((i + 1) * w) with (i * w + w) by ring.
  destruct (Z.leb_spec (a * w) j); destruct (Z.ltb_spec j (i * w + w));
    destruct (Z.ltb_spec j (i * w)); destruct (Z.leb_spec (i * w) j);
    cbn [andb orb]; try reflexivity; lia.
Qed.

Lemma elem_row (i w j : Z) :
  0 < w -> i * w <= j < i * w + w -> j / w = i.
Proof.
  intros Hw Hj. symmetry. apply (Z.div_unique j w i (j - i * w)); lia.
Qed.

Lemma elems_empty (a w j : Z) : ((a * w <=? j) && (j <? a * w)) = false.
Proof.
  destruct (Z.leb_spec (a * w) j); destruct (Z.ltb_spec j (a * w));
    cbn [andb]; try reflexivity; lia.
Qed.

Lemma rows_empty (a r : Z) : ((a <=? r) && (r <? a)) = false.
Proof.
  destruct (Z.leb_spec a r); destruct (Z.ltb_spec r a); cbn [andb];
    try reflexivity; lia.
Qed.

(** Lines 187-223 over the rows [a .. b - 1]: every row is processed once,
    from the values the scratchpad held before the loop. *)
Lemma softmax_range_spec (t_c a b : Z) (t : tcdm F) :
  0 <= a <= b -> 0 < B_c l -> b * B_c l <= 2 ^ 32 -> 0 < d l -> b * d l <= 2 ^ 32 ->
  let t' := for_range a b (softmax_row l t_c) t in
  (forall f, read_only f = true -> get f t' = get f t) /\
  (forall r, m_i t' r = if (a <=? r) && (r <? b) then new_max l t r else m_i t r) /\
  (forall r, m_i_prev t' r = if (a <=? r) && (r <? b) then m_i t r else m_i_prev t r) /\
  (forall r, l_i t' r = if (a <=? r) && (r <? b) then new_sum l t_c t r else l_i t r) /\
  (forall j, P_fa t' j =
             if (a * B_c l <=? j) && (j <? b * B_c l)
             then f_exp (f_sub (S_fa t j) (new_max l t (j / B_c l))) else P_fa t j) /\
  (forall j, O_fa t' j =
             if negb (t_c =? 0) && ((a * d l <=? j) && (j <? b * d l))
             then f_div (O_fa t j) (rescale_factor l t (j / d l)) else O_fa t j).
Proof.
  intros Hab HB HfitB Hd Hfitd. cbv zeta.
  apply (for_range_ind (fun i (t' : tcdm F) =>
    (forall f, read_only f = true -> get f t' = get f t) /\
    (forall r, m_i t' r = if (a <=? r) && (r <? i) then new_max l t r else m_i t r) /\
    (forall r, m_i_prev t' r = if (a <=? r) && (r <? i) then m_i t r else m_i_prev t r) /\
    (forall r, l_i t' r = if (a <=? r) && (r <? i) then new_sum l t_c t r else l_i t r) /\
    (forall j, P_fa t' j =
               if (a * B_c l <=? j) && (j <? i * B_c l)
               then f_exp (f_sub (S_fa t j) (new_max l t (j / B_c l))) else P_fa t j) /\
    (forall j, O_fa t' j =
               if negb (t_c =? 0) && ((a * d l <=? j) && (j <? i * d l))
               then f_div (O_fa t j) (rescale_factor l t (j / d l)) else O_fa t j)));
    [lia | |].
  - split; [reflexivity|].
    split; [intros r; rewrite rows_empty; reflexivity|].
    split; [intros r; rewrite rows_empty; reflexivity|].
    split; [intros r; rewrite rows_empty; reflexivity|].
    split; [intros j; rewrite elems_empty; reflexivity|].
    intros j. rewrite elems_empty, andb_false_r. reflexivity.
  - intros i ti Hi (Hro & Hm & Hmp & Hl & HP & HO).
    assert (HiB : (i + 1) * B_c l <= 2 ^ 32).
    { pose proof (Z.mul_le_mono_nonneg_r (i + 1) b (B_c l) ltac:(lia) ltac:(lia)). lia. }
    assert (Hid : (i + 1) * d l <= 2 ^ 32).
    { pose proof (Z.mul_le_mono_nonneg_r (i + 1) b (d l) ltac:(lia) ltac:(lia)). lia. }
    destruct (@softmax_row_spec F FO l i ltac:(lia) t_c ti ltac:(lia) HiB ltac:(lia) Hid)
      as (Hro' & Hm' & Hmp' & Hl' & HP' & HO').
    cbv zeta in Hro', Hm', Hmp', Hl', HP', HO'.
    assert (HS : S_fa ti = S_fa t) by (apply (Hro f_S_fa); reflexivity).
    assert (Hmi : m_i ti i = m_i t i).
    { rewrite Hm. replace (i <? i) with false by (symmetry; apply Z.ltb_irrefl).
      rewrite andb_false_r. reflexivity. }
    assert (Hli : l_i ti i = l_i t i).
    { rewrite Hl. replace (i <? i) with false by (symmetry; apply Z.ltb_irrefl).
      rewrite andb_false_r. reflexivity. }
    rewrite HS, Hmi, Hli in *.
    change (running_max (B_c l) (fun col => S_fa t (i * B_c l + col)) (m_i t i))
      with (new_max l t i) in *.
    change (f_exp (f_sub (m_i t i) (new_max l t i))) with (rescale_factor l t i) in *.
    split; [|split; [|split; [|split; [|split]]]].
    + intros f Hf. rewrite <- (Hro f Hf).
      apply Hro'; destruct f; try discriminate; intros E; discriminate E.
    + intros r. rewrite Hm', rows_snoc by lia.
      destruct (Z.eqb_spec r i) as [-> | Hne];
        [rewrite orb_true_r; reflexivity | rewrite orb_false_r; apply Hm].
    + intros r. rewrite Hmp', rows_snoc by lia.
      destruct (Z.eqb_spec r i) as [-> | Hne];
        [rewrite orb_true_r; reflexivity | rewrite orb_false_r; apply Hmp].
    + intros r. rewrite Hl', rows_snoc by lia.
      destruct (Z.eqb_spec r i) as [-> | Hne];
        [rewrite orb_true_r; reflexivity | rewrite orb_false_r; apply Hl].
    + intros j. rewrite HP', (@elems_snoc a i (B_c l) j) by lia.
      destruct ((i * B_c l <=? j) && (j <? i * B_c l + B_c l)) eqn:Hrow.
      * rewrite orb_true_r.
        apply andb_true_iff in Hrow. destruct Hrow as [H1 H2].
        apply Z.leb_le in H1. apply Z.ltb_lt in H2.
        rewrite (@elem_row i (B_c l) j) by lia. reflexivity.
      * rewrite orb_false_r. apply HP.
    + intros j. rewrite HO', (@elems_snoc a i (d l) j) by lia.
      destruct (negb (t_c =? 0)); cbn [andb]; [|apply HO].
      destruct ((i * d l <=? j) && (j <? i * d l + d l)) eqn:Hrow.
      * rewrite orb_true_r.
        apply andb_true_iff in Hrow. destruct Hrow as [H1 H2].
        apply Z.leb_le in H1. apply Z.ltb_lt in H2.
        rewrite (@elem_row i (d l) j) by lia.
        rewrite HO.
        assert (Hij : (a * d l <=? j) && (j <? i * d l) = false).
        { apply andb_false_iff. right. apply Z.ltb_ge. lia. }
        rewrite Hij, andb_false_r. reflexivity.
      * rewrite orb_false_r. rewrite HO. reflexivity.
Qed.

End RowRanges.

Section ClusterPhases.

Import Machine Runtime FlashAttention.
Local Open Scope Z_scope.

Context {F : Type} {FO : FloatOps F}.
Variable p : platform.
Variable l : flashattention_2_layer_t F.

Lemma for_range_split (S : Type) (body : Z -> S -> S) (a b c : Z) (s : S) :
  a <= b <= c ->
  for_range a c body s = for_range b c body (for_range a b body s).
Proof.
  intros H. symmetry.
  apply (for_range_ind (fun i x => x = for_range a i body s)); [lia | reflexivity |].
  intros i x Hi ->. rewrite for_range_snoc by lia. reflexivity.
Qed.

(** A phase of the harts of cluster [c], hart after hart. *)
Lemma all_harts_range (c : Z) (phase : hart -> tcdm F -> tcdm F) (t : tcdm F) :
  all_harts p c phase t =
  for_range 0 (cluster_compute_core_num p + 1)
            (fun k t => phase {| cluster_idx := c; cluster_core_idx := k |} t) t.
Proof.
  unfold all_harts, cluster_harts. rewrite for_range_fold. unfold loop_indices.
  rewrite !fold_left_mapped, Z.sub_0_r. reflexivity.
Qed.

(** The rows of the harts of the first cluster follow one another and
    make up the row block. *)
Lemma cluster_rows (body : Z -> tcdm F -> tcdm F) (t : tcdm F) :
  0 < num_cores p -> 0 < B_r l < 2 ^ 32 -> (num_cores p | B_r l) ->
  all_harts p 0
    (fun h t => if is_compute_core p h
                then for_range (start_row p l h) (end_row p l h) body t else t) t
  = for_range 0 (B_r l) body t.
Proof.
  intros Hn HB Hdiv. unfold num_cores in Hn, Hdiv.
  set (n := cluster_compute_core_num p) in *. set (rpc := rows_per_core p l).
  assert (Hrows : forall k, 0 <= k < n ->
    let h := {| cluster_idx := 0; cluster_core_idx := k |} in
    0 < rpc /\ B_r l = rpc * n /\
    start_row p l h = rpc * k /\ end_row p l h = rpc * (k + 1)).
  { intros k Hk h.
    assert (Hg : global_core_idx p h = k) by (unfold global_core_idx, h; cbn; lia).
    assert (Hq : 0 < rpc /\ B_r l = rpc * n).
    { assert (Hnle : n <= B_r l) by (apply Z.divide_pos_le; [lia | exact Hdiv]).
      destruct Hdiv as [q Hq]. unfold rpc, rows_per_core, num_cores. fold n.
      rewrite udiv_small by lia.
      rewrite Hq, Z.div_mul by lia. split; [nia | ring]. }
    destruct (@rows_of_hart F p l h Hn HB Hdiv) as (_ & _ & _ & Hs & He).
    - rewrite Hg. lia.
    - rewrite Hg. fold rpc. destruct Hq as [Hq1 Hq2]. nia.
    - rewrite Hg in Hs, He. fold rpc in Hs, He. tauto. }
  assert (Hrpc : 0 < rpc /\ B_r l = rpc * n).
  { destruct (Hrows 0 ltac:(lia)) as (H1 & H2 & _). auto. }
  rewrite all_harts_range. fold n.
  rewrite for_range_snoc by lia.
  replace (is_compute_core p {| cluster_idx := 0; cluster_core_idx := n |}) with false
    by (symmetry; unfold is_compute_core; cbn [cluster_core_idx]; apply Z.ltb_irrefl).
  destruct Hrpc as [Hpos HBr]. rewrite HBr, (Z.mul_comm rpc n).
  apply (for_range_ind (fun k x => x = for_range 0 (k * rpc) body t)); [lia | |].
  - rewrite for_range_nil by lia. reflexivity.
  - intros k x Hk ->.
    replace (is_compute_core p {| cluster_idx := 0; cluster_core_idx := k |}) with true
      by (symmetry; unfold is_compute_core; cbn [cluster_core_idx]; apply Z.ltb_lt;
          fold n; lia).
    destruct (Hrows k Hk) as (_ & _ & Hs & He). cbv zeta in Hs, He.
    rewrite Hs, He.
    rewrite (@for_range_split _ body 0 (k * rpc) ((k + 1) * rpc)) by nia.
    f_equal; ring.
Qed.

(** X17: on the first cluster, with the compute cores dividing [B_r],
    the rows the cores are given follow one another and make up the row
    block exactly.  Each of the three row-parallel phases (the reset of the
    statistics, the statistics pass of a column tile, the final rescaling)
    therefore does to the scratchpad what the plain loop over the rows
    [0 .. B_r - 1] does: every row is handled once and none is left out, the
    data mover taking no part. *)
Theorem phases_cover_row_block (t_c : Z) (t : tcdm F) :
  0 < num_cores p -> 0 < B_r l < 2 ^ 32 -> (num_cores p | B_r l) ->
  all_harts p 0 (init_stats p l) t
    = for_range 0 (B_r l) (fun row_idx t =>
        let t := set_m_i t (upd (m_i t) row_idx f_neg_inf) in
        let t := set_m_i_prev t (upd (m_i_prev t) row_idx f_neg_inf) in
        set_l_i t (upd (l_i t) row_idx f_zero)) t /\
  all_harts p 0 (softmax_rows p l t_c) t
    = for_range 0 (B_r l) (softmax_row l t_c) t /\
  all_harts p 0 (normalize_rows p l) t
    = for_range 0 (B_r l) (fun row_idx t =>
        for_range 0 (d l) (fun col_idx t =>
          set_O_fa t (upd (O_fa t) (u32 (row_idx * d l + col_idx))
                          (f_div (O_fa t (u32 (row_idx * d l + col_idx)))
                                 (l_i t row_idx)))) t) t.
Proof.
  intros Hn HB Hdiv. split; [|split].
  - rewrite <- cluster_rows by assumption. reflexivity.
  - rewrite <- cluster_rows by assumption. reflexivity.
  - rewrite <- cluster_rows by assumption. reflexivity.
Qed.

End ClusterPhases.

Section PhaseEffects.

Import Machine Runtime FlashAttention.
Local Open Scope Z_scope.

Context {F : Type} {FO : FloatOps F}.
Variable p : platform.
Variable l : flashattention_2_layer_t F.

Lemma in_block (w i n j : Z) :
  0 < w -> 0 <= i < n -> 0 <= j < w ->
  ((0 * w <=? i * w + j) && (i * w + j <? n * w)) = true.
Proof.
  intros Hw Hi Hj.
  pose proof (Z.mul_le_mono_nonneg_r (i + 1) n w ltac:(lia) ltac:(lia)).
  assert (0 <= i * w) by nia.
  apply andb_true_iff. split; [apply Z.leb_le | apply Z.ltb_lt]; lia.
Qed.

Lemma out_of_block (w n j : Z) :
  ~ 0 <= j < n * w -> ((0 * w <=? j) && (j <? n * w)) = false.
Proof.
  intros H. destruct (Z.leb_spec (0 * w) j); destruct (Z.ltb_spec j (n * w));
    cbn [andb]; try reflexivity. exfalso. apply H. lia.
Qed.

Lemma out_of_rows (n r : Z) : ~ 0 <= r < n -> ((0 <=? r) && (r <? n)) = false.
Proof.
  intros H. destruct (Z.leb_spec 0 r); destruct (Z.ltb_spec r n);
    cbn [andb]; try reflexivity. exfalso. apply H. lia.
Qed.

Lemma in_rows (n r : Z) : 0 <= r < n -> ((0 <=? r) && (r <? n)) = true.
Proof.
  intros H. apply andb_true_iff. split; [apply Z.leb_le | apply Z.ltb_lt]; lia.
Qed.

(** The statistics pass of a column tile on the first cluster: the loop
    over the rows of the row block. *)
Lemma statistics_phase_rows (t_c : Z) (t : tcdm F) :
  0 < num_cores p -> 0 < B_r l < 2 ^ 32 -> (num_cores p | B_r l) ->
  0 < B_c l -> B_r l * B_c l <= 2 ^ 32 -> 0 < d l -> B_r l * d l <= 2 ^ 32 ->
  let t' := all_harts p 0 (softmax_rows p l t_c) t in
  (forall f, read_only f = true -> get f t' = get f t) /\
  (forall r, m_i t' r = if (0 <=? r) && (r <? B_r l) then new_max l t r else m_i t r) /\
  (forall r, m_i_prev t' r = if (0 <=? r) && (r <? B_r l) then m_i t r else m_i_prev t r) /\
  (forall r, l_i t' r = if (0 <=? r) && (r <? B_r l) then new_sum l t_c t r else l_i t r) /\
  (forall j, P_fa t' j =
             if (0 * B_c l <=? j) && (j <? B_r l * B_c l)
             then f_exp (f_sub (S_fa t j) (new_max l t (j / B_c l))) else P_fa t j) /\
  (forall j, O_fa t' j =
             if negb (t_c =? 0) && ((0 * d l <=? j) && (j <? B_r l * d l))
             then f_div (O_fa t j) (rescale_factor l t (j / d l)) else O_fa t j).
Proof.
  intros Hn HB Hdiv HBc HfitB Hd Hfitd t'.
  assert (Hphase : t' = for_range 0 (B_r l) (softmax_row l t_c) t).
  { unfold t'. rewrite <- (@cluster_rows F p l (softmax_row l t_c) t Hn HB Hdiv).
    reflexivity. }
  rewrite Hphase.
  apply (@softmax_range_spec F FO l t_c 0 (B_r l) t ltac:(lia) HBc HfitB Hd Hfitd).
Qed.

(** X18: the statistics pass of column tile [t_c] as the first cluster
    runs it, with the compute cores dividing [B_r].  Every row of the row
    block gets, from the values held before the phase, its new maximum, the
    previous maximum in [m_i_prev], its new sum, its row of the P tile and
    (from the second column tile on) its row of O divided by the rescaling
    factor.  The tiles Q, K, V, S and V^t are not written, and neither is
    anything beyond row [B_r - 1] in the other tiles. *)
Theorem statistics_phase (t_c : Z) (t : tcdm F) :
  0 < num_cores p -> 0 < B_r l < 2 ^ 32 -> (num_cores p | B_r l) ->
  0 < B_c l -> B_r l * B_c l <= 2 ^ 32 -> 0 < d l -> B_r l * d l <= 2 ^ 32 ->
  let t' := all_harts p 0 (softmax_rows p l t_c) t in
  (forall f, read_only f = true -> get f t' = get f t) /\
  (forall r, 0 <= r < B_r l ->
     m_i t' r = new_max l t r /\
     m_i_prev t' r = m_i t r /\
     l_i t' r = new_sum l t_c t r /\
     (forall col, 0 <= col < B_c l ->
        P_fa t' (r * B_c l + col)
        = f_exp (f_sub (S_fa t (r * B_c l + col)) (new_max l t r))) /\
     (forall col, 0 <= col < d l ->
        O_fa t' (r * d l + col)
        = if t_c =? 0 then O_fa t (r * d l + col)
          else f_div (O_fa t (r * d l + col)) (rescale_factor l t r))) /\
  (forall r, ~ 0 <= r < B_r l ->
     m_i t' r = m_i t r /\ m_i_prev t' r = m_i_prev t r /\ l_i t' r = l_i t r) /\
  (forall j, ~ 0 <= j < B_r l * B_c l -> P_fa t' j = P_fa t j) /\
  (forall j, ~ 0 <= j < B_r l * d l -> O_fa t' j = O_fa t j).
Proof.
  intros Hn HB Hdiv HBc HfitB Hd Hfitd t'.
  destruct (@statistics_phase_rows t_c t Hn HB Hdiv HBc HfitB Hd Hfitd)
    as (Hro & Hm & Hmp & Hl & HP & HO).
  cbv zeta in Hro, Hm, Hmp, Hl, HP, HO. fold t' in Hro, Hm, Hmp, Hl, HP, HO.
  split; [exact Hro|]. split; [|split; [|split]].
  - intros r Hr.
    rewrite Hm, Hmp, Hl, (@in_rows (B_r l) r Hr).
    split; [reflexivity|]. split; [reflexivity|]. split; [reflexivity|]. split.
    + intros col Hcol. rewrite HP, (@in_block (B_c l) r (B_r l) col HBc Hr Hcol).
      rewrite (@elem_row r (B_c l) (r * B_c l + col)) by lia. reflexivity.
    + intros col Hcol. rewrite HO, (@in_block (d l) r (B_r l) col Hd Hr Hcol).
      rewrite (@elem_row r (d l) (r * d l + col)) by lia.
      destruct (t_c =? 0); reflexivity.
  - intros r Hr. rewrite Hm, Hmp, Hl, (@out_of_rows (B_r l) r Hr). auto.
  - intros j Hj. rewrite HP, (@out_of_block (B_c l) (B_r l) j Hj). reflexivity.
  - intros j Hj. rewrite HO, (@out_of_block (d l) (B_r l) j Hj), andb_false_r. reflexivity.
Qed.

(** Lines 278-280: one row of the accumulator divided by the sum of the
    row. *)
Lemma normalize_row_loop (r : Z) (t4 : tcdm F) :
  0 <= r -> 0 <= d l -> (r + 1) * d l <= 2 ^ 32 ->
  let t5 :=
    for_range 0 (d l) (fun col_idx t =>
      set_O_fa t (upd (O_fa t) (u32 (r * d l + col_idx))
                      (f_div (O_fa t (u32 (r * d l + col_idx))) (l_i t r)))) t4 in
  (forall f, f <> f_O_fa -> get f t5 = get f t4) /\
  (forall j, O_fa t5 j =
             if (r * d l <=? j) && (j <? r * d l + d l)
             then f_div (O_fa t4 j) (l_i t4 r) else O_fa t4 j).
Proof.
  intros Hr Hd Hfit. cbv zeta.
  apply (for_range_ind (fun i (t5 : tcdm F) =>
     (forall f, f <> f_O_fa -> get f t5 = get f t4) /\
     (forall j, O_fa t5 j =
                if (r * d l <=? j) && (j <? r * d l + i)
                then f_div (O_fa t4 j) (l_i t4 r) else O_fa t4 j)));
    [exact Hd | |].
  - split; [reflexivity|].
    intros j. destruct (Z.leb_spec (r * d l) j); destruct (Z.ltb_spec j (r * d l + 0));
      cbn [andb]; try reflexivity; lia.
  - intros i t5 Hi (Hf & HO).
    assert (Hl : l_i t5 = l_i t4) by (apply (Hf f_l_i); discriminate).
    rewrite u32_small by nia. rewrite Hl.
    split.
    + intros f Hne. rewrite <- (Hf f Hne). destruct f; try reflexivity. contradiction.
    + intros j. cbn [O_fa set_O_fa]. rewrite in_range_snoc by lia.
      unfold upd. destruct (Z.eqb_spec j (r * d l + i)) as [-> | Hne].
      * rewrite orb_true_r. rewrite HO.
        replace ((r * d l <=? r * d l + i) && (r * d l + i <? r * d l + i)) with false;
          [reflexivity|].
        symmetry. apply andb_false_iff. right. apply Z.ltb_ge. lia.
      * rewrite orb_false_r. apply HO.
Qed.

(** Lines 277-281 over the rows [0 .. n - 1]. *)
Lemma normalize_range (n : Z) (t : tcdm F) :
  0 <= n -> 0 < d l -> n * d l <= 2 ^ 32 ->
  let t' :=
    for_range 0 n (fun row_idx t =>
      for_range 0 (d l) (fun col_idx t =>
        set_O_fa t (upd (O_fa t) (u32 (row_idx * d l + col_idx))
                        (f_div (O_fa t (u32 (row_idx * d l + col_idx)))
                               (l_i t row_idx)))) t) t in
  (forall f, f <> f_O_fa -> get f t' = get f t) /\
  (forall j, O_fa t' j =
             if (0 * d l <=? j) && (j <? n * d l)
             then f_div (O_fa t j) (l_i t (j / d l)) else O_fa t j).
Proof.
  intros Hn Hd Hfitd. cbv zeta.
  apply (for_range_ind (fun i (t' : tcdm F) =>
    (forall f, f <> f_O_fa -> get f t' = get f t) /\
    (forall j, O_fa t' j =
               if (0 * d l <=? j) && (j <? i * d l)
               then f_div (O_fa t j) (l_i t (j / d l)) else O_fa t j)));
    [lia | |].
  - split; [reflexivity|]. intros j. rewrite elems_empty. reflexivity.
  - intros i ti Hi (Hf & HO).
    assert (Hid : (i + 1) * d l <= 2 ^ 32).
    { pose proof (Z.mul_le_mono_nonneg_r (i + 1) n (d l) ltac:(lia) ltac:(lia)). lia. }
    destruct (@normalize_row_loop i ti ltac:(lia) ltac:(lia) Hid) as (Hf' & HO').
    cbv zeta in Hf', HO'.
    assert (Hl : l_i ti = l_i t) by (apply (Hf f_l_i); discriminate).
    rewrite Hl in HO'.
    split.
    + intros f Hne. rewrite (Hf' f Hne). apply Hf, Hne.
    + intros j. rewrite HO', (@elems_snoc 0 i (d l) j) by lia.
      destruct ((i * d l <=? j) && (j <? i * d l + d l)) eqn:Hrow.
      * rewrite orb_true_r.
        apply andb_true_iff in Hrow. destruct Hrow as [H1 H2].
        apply Z.leb_le in H1. apply Z.ltb_lt in H2.
        rewrite (@elem_row i (d l) j) by lia. rewrite HO.
        assert (Hij : (0 * d l <=? j) && (j <? i * d l) = false).
        { apply andb_false_iff. right. apply Z.ltb_ge. lia. }
        rewrite Hij. reflexivity.
      * rewrite orb_false_r. apply HO.
Qed.

(** The final rescaling on the first cluster: the loop over the rows of
    the row block. *)
Lemma normalize_phase_rows (t : tcdm F) :
  0 < num_cores p -> 0 < B_r l < 2 ^ 32 -> (num_cores p | B_r l) ->
  0 < d l -> B_r l * d l <= 2 ^ 32 ->
  let t' := all_harts p 0 (normalize_rows p l) t in
  (forall f, f <> f_O_fa -> get f t' = get f t) /\
  (forall j, O_fa t' j =
             if (0 * d l <=? j) && (j <? B_r l * d l)
             then f_div (O_fa t j) (l_i t (j / d l)) else O_fa t j).
Proof.
  intros Hn HB Hdiv Hd Hfitd t'.
  assert (Hphase : t' = for_range 0 (B_r l) (fun row_idx t =>
            for_range 0 (d l) (fun col_idx t =>
              set_O_fa t (upd (O_fa t) (u32 (row_idx * d l + col_idx))
                              (f_div (O_fa t (u32 (row_idx * d l + col_idx)))
                                     (l_i t row_idx)))) t) t).
  { unfold t'.
    rewrite <- (@cluster_rows F p l (fun row_idx t =>
            for_range 0 (d l) (fun col_idx t =>
              set_O_fa t (upd (O_fa t) (u32 (row_idx * d l + col_idx))
                              (f_div (O_fa t (u32 (row_idx * d l + col_idx)))
                                     (l_i t row_idx)))) t) t Hn HB Hdiv).
    reflexivity. }
  rewrite Hphase.
  apply (@normalize_range (B_r l) t ltac:(lia) Hd Hfitd).
Qed.

(** X19: the final rescaling as the first cluster runs it, with the
    compute cores dividing [B_r]: every element of the [B_r] x [d]
    accumulator tile is divided, once, by the [l_i] of its row, and nothing
    else in the scratchpad changes. *)
Theorem normalize_phase (t : tcdm F) :
  0 < num_cores p -> 0 < B_r l < 2 ^ 32 -> (num_cores p | B_r l) ->
  0 < d l -> B_r l * d l <= 2 ^ 32 ->
  let t' := all_harts p 0 (normalize_rows p l) t in
  (forall f, f <> f_O_fa -> get f t' = get f t) /\
  (forall j, O_fa t' j =
             if (0 <=? j) && (j <? B_r l * d l)
             then f_div (O_fa t j) (l_i t (j / d l)) else O_fa t j).
Proof.
  intros Hn HB Hdiv Hd Hfitd t'.
  destruct (@normalize_phase_rows t Hn HB Hdiv Hd Hfitd) as (Hf & HO).
  cbv zeta in Hf, HO. fold t' in Hf, HO.
  split; [exact Hf|].
  intros j. rewrite HO, Z.mul_0_l. reflexivity.
Qed.

End PhaseEffects.

(* ===================================================================== *)
(** * FlashAttention: transfers and matrix products on tiles *)
(* ===================================================================== *)

Section TileOperations.

Import Machine Runtime Blas FlashAttention.
Local Open Scope Z_scope.

Context {F : Type} {FO : FloatOps F}.

(** The transfer of [reps] rows of [w] elements that lie back to back on
    both sides. *)
Lemma dma_rows (dst src : buf F) (off w reps idx : Z) :
  0 < w -> w * 4 < 2 ^ 32 -> 0 <= reps ->
  dma_2d sizeof_float dst 0 src (off * sizeof_float) (u32 (w * sizeof_float))
         (u32 (w * sizeof_float)) (u32 (w * sizeof_float)) reps idx
  = if (0 <=? idx) && (idx <? reps * w) then src (off + idx) else dst idx.
Proof.
  intros Hw Hfit Hreps. unfold sizeof_float. rewrite (@u32_small (w * 4)) by lia.
  rewrite dma_2d_at_bytes
    with (dp := 0) (sp := off) (cnt := w) (ds := w) (ss := w) by lia.
  rewrite Z.sub_0_r.
  pose proof (Z.div_mod idx w ltac:(lia)) as Hdm.
  pose proof (Z.mod_pos_bound idx w Hw) as Hmb.
  replace (idx mod w <? w) with true by (symmetry; apply Z.ltb_lt; lia).
  rewrite andb_true_r.
  replace (off + idx / w * w + idx mod w) with (off + idx) by lia.
  reflexivity.
Qed.

(** A loop nest that rewrites the elements of an [M] x [w] row-major
    matrix one by one. *)
Lemma matrix_loop (g : Z -> Z -> F -> F) (M w : Z) (C : buf F) (idx : Z) :
  0 <= M -> 0 < w ->
  for_range 0 M (fun m C =>
    for_range 0 w (fun n C => upd C (m * w + n) (g m n (C (m * w + n)))) C) C idx
  = if (0 * w <=? idx) && (idx <? M * w) then g (idx / w) (idx mod w) (C idx) else C idx.
Proof.
  intros HM Hw. revert idx.
  apply (for_range_ind (fun i (C' : buf F) => forall idx,
    C' idx = if (0 * w <=? idx) && (idx <? i * w)
             then g (idx / w) (idx mod w) (C idx) else C idx)); [exact HM | |].
  - intros j. rewrite elems_empty. reflexivity.
  - intros i Ci Hi IH j.
    assert (Hrow : forall n, 0 <= n <= w -> forall j,
      for_range 0 n (fun n C => upd C (i * w + n) (g i n (C (i * w + n)))) Ci j
      = if (i * w <=? j) && (j <? i * w + n) then g i (j - i * w) (C j) else Ci j).
    { intros n Hn.
      apply (for_range_ind (fun n (C' : buf F) => forall j,
        C' j = if (i * w <=? j) && (j <? i * w + n)
               then g i (j - i * w) (C j) else Ci j)); [lia | |].
      - intros j'. destruct (Z.leb_spec (i * w) j'); destruct (Z.ltb_spec j' (i * w + 0));
          cbn [andb]; try reflexivity; lia.
      - intros n' C' Hn' IH' j'. rewrite in_range_snoc by lia. unfold upd.
        destruct (Z.eqb_spec j' (i * w + n')) as [-> | Hne].
        + rewrite orb_true_r. rewrite IH'.
          replace ((i * w <=? i * w + n') && (i * w + n' <? i * w + n')) with false
            by (symmetry; apply andb_false_iff; right; apply Z.ltb_ge; lia).
          rewrite IH.
          assert (Hout : (0 * w <=? i * w + n') && (i * w + n' <? i * w) = false).
          { apply andb_false_iff. right. apply Z.ltb_ge. lia. }
          rewrite Hout. f_equal. lia.
        + rewrite orb_false_r. apply IH'. }
    rewrite Hrow by lia. rewrite (@elems_snoc 0 i w j) by lia.
    destruct ((i * w <=? j) && (j <? i * w + w)) eqn:Hin.
    + rewrite orb_true_r.
      apply andb_true_iff in Hin. destruct Hin as [H1 H2].
      apply Z.leb_le in H1. apply Z.ltb_lt in H2.
      rewrite (@elem_row i w j) by lia.
      replace (j mod w) with (j - i * w); [reflexivity|].
      apply (Z.mod_unique j w i (j - i * w)); lia.
    + rewrite orb_false_r. apply IH.
Qed.

(** The GEMM primitive on a result matrix stored with its rows back to back
    ([ldc = N]). *)
Lemma gemm_at (transa transb M N K alpha : Z) (A : buf F) (lda : Z) (B : buf F)
    (ldb beta : Z) (C : buf F) (idx : Z) :
  0 <= M -> 0 < N ->
  gemm transa transb M N K alpha A lda B ldb beta C N idx =
  if (0 <=? idx) && (idx <? M * N)
  then
    let m := idx / N in
    let n := idx mod N in
    let ab :=
      f_mul (f_of_int alpha)
            (dot K (fun k => if transa =? 0 then A (m * lda + k) else A (k * lda + m))
                   (fun k => if transb =? 0 then B (k * ldb + n) else B (n * ldb + k))) in
    if beta =? 0 then ab else f_add ab (f_mul (f_of_int beta) (C idx))
  else C idx.
Proof.
  intros HM HN.
  set (g := fun m n c =>
       let ab :=
         f_mul (f_of_int alpha)
               (dot K (fun k => if transa =? 0 then A (m * lda + k) else A (k * lda + m))
                      (fun k => if transb =? 0 then B (k * ldb + n) else B (n * ldb + k))) in
       if beta =? 0 then ab else f_add ab (f_mul (f_of_int beta) c)).
  transitivity
    (for_range 0 M (fun m C =>
       for_range 0 N (fun n C => upd C (m * N + n) (g m n (C (m * N + n)))) C) C idx).
  - reflexivity.
  - rewrite (@matrix_loop g M N C idx HM HN). reflexivity.
Qed.

(** The transpose primitive: [dst = src^t]. *)
Lemma transpose_at (src dst : buf F) (rows cols idx : Z) :
  0 < rows -> 0 <= cols ->
  transpose_kernel src dst rows cols idx =
  if (0 <=? idx) && (idx <? rows * cols)
  then src (idx mod rows * cols + idx / rows) else dst idx.
Proof.
  intros Hr Hc. unfold transpose_kernel.
  pose proof (Z.div_mod idx rows ltac:(lia)) as Hdm.
  pose proof (Z.mod_pos_bound idx rows Hr) as Hmb.
  set (q := idx / rows) in *. set (m := idx mod rows) in *.
  assert (Hinner : forall r (d0 : buf F) n, 0 <= r < rows -> 0 <= n ->
    for_range 0 n (fun c d1 => upd d1 (c * rows + r) (src (r * cols + c))) d0 idx
    = if (m =? r) && (0 <=? q) && (q <? n) then src (r * cols + q) else d0 idx).
  { intros r d0 n Hrr Hn.
    apply (for_range_ind (fun n (d1 : buf F) =>
      d1 idx = if (m =? r) && (0 <=? q) && (q <? n) then src (r * cols + q) else d0 idx));
      [exact Hn | |].
    - destruct (m =? r); destruct (Z.leb_spec 0 q); destruct (Z.ltb_spec q 0);
        cbn [andb]; try reflexivity; lia.
    - intros c d1 Hcc IH. unfold upd.
      destruct (Z.eqb_spec idx (c * rows + r)) as [He | Hne].
      + assert (Hqm : q = c /\ m = r).
        { assert (Hq : c = q).
          { apply (Z.div_unique idx rows c r); lia. }
          split; [lia|]. subst c. lia. }
        destruct Hqm as [-> ->]. rewrite Z.eqb_refl.
        replace (0 <=? c) with true by (symmetry; apply Z.leb_le; lia).
        replace (c <? c + 1) with true by (symmetry; apply Z.ltb_lt; lia).
        reflexivity.
      + rewrite IH.
        destruct (Z.eqb_spec m r) as [Hm | Hm]; cbn [andb]; [|reflexivity].
        destruct (Z.leb_spec 0 q); cbn [andb]; [|reflexivity].
        destruct (Z.ltb_spec q c); destruct (Z.ltb_spec q (c + 1)); try reflexivity; try lia.
        exfalso. apply Hne. assert (q = c) by lia. subst c. lia. }
  assert (Houter : forall n, 0 <= n <= rows ->
    for_range 0 n (fun r d0 =>
      for_range 0 cols (fun c d1 => upd d1 (c * rows + r) (src (r * cols + c))) d0) dst idx
    = if (m <? n) && (0 <=? q) && (q <? cols) then src (m * cols + q) else dst idx).
  { intros n Hn.
    apply (for_range_ind (fun n (d0 : buf F) =>
      d0 idx = if (m <? n) && (0 <=? q) && (q <? cols) then src (m * cols + q) else dst idx));
      [lia | |].
    - replace (m <? 0) with false by (symmetry; apply Z.ltb_ge; lia). reflexivity.
    - intros r d0 Hrr IH. rewrite Hinner by lia. rewrite IH.
      destruct (Z.eqb_spec m r) as [Hm | Hm].
      + subst r.
        replace (m <? m + 1) with true by (symmetry; apply Z.ltb_lt; lia).
        replace (m <? m) with false by (symmetry; apply Z.ltb_ge; lia).
        cbn [andb]. destruct ((0 <=? q) && (q <? cols)); reflexivity.
      + cbn [andb].
        destruct (Z.ltb_spec m r); destruct (Z.ltb_spec m (r + 1)); try reflexivity; lia. }
  rewrite Houter by lia.
  replace (m <? rows) with true by (symmetry; apply Z.ltb_lt; lia). cbn [andb].
  destruct (Z.leb_spec 0 q); destruct (Z.leb_spec 0 idx); cbn [andb]; try nia;
    destruct (Z.ltb_spec q cols); destruct (Z.ltb_spec idx (rows * cols));
    try reflexivity; nia.
Qed.

End TileOperations.

(* ===================================================================== *)
(** * FlashAttention: the first column tile *)
(* ===================================================================== *)

Section FirstColumnTile.

Import Machine Runtime Blas FlashAttention.
Local Open Scope Z_scope.

Context {F : Type} {FO : FloatOps F}.
Variable p : platform.
Variable l : flashattention_2_layer_t F.

Hypothesis Hn : 0 < num_cores p.
Hypothesis HBr : 0 < B_r l < 2 ^ 32.
Hypothesis Hdiv : (num_cores p | B_r l).
Hypothesis HBc : 0 < B_c l.
Hypothesis Hd : 0 < d l.
Hypothesis HfitS : B_r l * B_c l <= 2 ^ 32.
Hypothesis HfitO : B_r l * d l <= 2 ^ 32.
Hypothesis Hd4 : d l * 4 < 2 ^ 32.

Lemma dot_ext (K : Z) (a a' b b' : Z -> F) :
  (forall k, 0 <= k < K -> a k = a' k) -> (forall k, 0 <= k < K -> b k = b' k) ->
  dot K a b = dot K a' b'.
Proof.
  intros Ha Hb. unfold dot. apply for_range_ext. intros k acc Hk.
  rewrite Ha, Hb by exact Hk. reflexivity.
Qed.

Lemma running_max_ext (n : Z) (s s' : Z -> F) (m0 : F) :
  (forall col, 0 <= col < n -> s col = s' col) ->
  running_max n s m0 = running_max n s' m0.
Proof.
  intros Hs. unfold running_max. apply for_range_ext. intros col m Hcol.
  rewrite Hs by exact Hcol. reflexivity.
Qed.

Lemma exp_sum_ext (n : Z) (s s' : Z -> F) (m : F) :
  (forall col, 0 <= col < n -> s col = s' col) ->
  exp_sum n s m = exp_sum n s' m.
Proof.
  intros Hs. unfold exp_sum. apply for_range_ext. intros col a Hcol.
  rewrite Hs by exact Hcol. reflexivity.
Qed.

Lemma block_elem (w n r c : Z) :
  0 < w -> 0 <= r < n -> 0 <= c < w ->
  ((0 <=? r * w + c) && (r * w + c <? n * w)) = true /\
  (r * w + c) / w = r /\ (r * w + c) mod w = c.
Proof.
  intros Hw Hr Hc.
  pose proof (@in_block w r n c Hw Hr Hc) as Hin.
  destruct (div_mod_row r Hw Hc) as [H1 H2].
  split; [exact Hin|]. split; assumption.
Qed.

(** The scratchpad after column tile 0: the accumulator holds P V and
    [l_i] the row sums of P, with P the exponentials of the scores less
    their running maximum. *)
Lemma first_tile_state (t : tcdm F) (r c : Z) :
  0 <= r < B_r l -> 0 <= c < d l ->
  let t' := inner_iter p l 0 0 t in
  let s := tile_scores l t r in
  let mx := running_max (B_c l) s (m_i t r) in
  O_fa t' (r * d l + c)
  = f_mul (f_of_int 1)
          (dot (B_c l) (fun j => f_exp (f_sub (s j) mx)) (fun j => V l (j * d l + c))) /\
  l_i t' r = exp_sum (B_c l) s mx.
Proof.
  intros Hr Hc t' s mx. subst t'. unfold inner_iter. cbv zeta.
  replace (u32 (0 * B_c l * d l)) with 0 by reflexivity.
  set (Kt := dma_2d sizeof_float (K_fa t) 0 (K l) (0 * sizeof_float)
                    (u32 (d l * sizeof_float)) (u32 (d l * sizeof_float))
                    (u32 (d l * sizeof_float)) (B_c l)).
  set (t1 := set_K_fa t Kt).
  set (Vt := dma_2d sizeof_float (V_fa t1) 0 (V l) (0 * sizeof_float)
                    (u32 (d l * sizeof_float)) (u32 (d l * sizeof_float))
                    (u32 (d l * sizeof_float)) (B_c l)).
  set (t2 := set_V_fa t1 Vt).
  set (St := gemm 0 1 (B_r l) (B_c l) (d l) 1 (Q_fa t2) (d l) (K_fa t2) (d l) 0
                  (S_fa t2) (B_c l)).
  set (t3 := set_S_fa t2 St).
  assert (HK : forall j k, 0 <= j < B_c l -> 0 <= k < d l -> Kt (j * d l + k) = K l (j * d l + k)).
  { intros j k Hj Hk. unfold Kt. rewrite dma_rows by lia.
    destruct (@block_elem (d l) (B_c l) j k Hd Hj Hk) as (Hin & _). rewrite Hin.
    reflexivity. }
  assert (HV : forall j k, 0 <= j < B_c l -> 0 <= k < d l -> Vt (j * d l + k) = V l (j * d l + k)).
  { intros j k Hj Hk. unfold Vt. rewrite dma_rows by lia.
    destruct (@block_elem (d l) (B_c l) j k Hd Hj Hk) as (Hin & _). rewrite Hin.
    reflexivity. }
  assert (HS : forall j, 0 <= j < B_c l -> St (r * B_c l + j) = s j).
  { intros j Hj. unfold St. rewrite gemm_at by lia.
    destruct (@block_elem (B_c l) (B_r l) r j HBc Hr Hj) as (Hin & Hq & Hm).
    rewrite Hin. cbv zeta. rewrite Hq, Hm. cbn [Z.eqb].
    unfold s, tile_scores. f_equal. apply dot_ext.
    - intros k Hk. reflexivity.
    - intros k Hk. change (K_fa t2) with Kt. apply HK; assumption. }
  destruct (@statistics_phase_rows F FO p l 0 t3 Hn HBr Hdiv HBc HfitS Hd HfitO)
    as (Hro & _ & _ & Hl' & HP' & _).
  cbv zeta in Hro, Hl', HP'.
  set (t4 := all_harts p 0 (softmax_rows p l 0) t3) in *.
  assert (Hl : l_i t4 r = new_sum l 0 t3 r).
  { rewrite Hl', (@in_rows (B_r l) r Hr). reflexivity. }
  assert (HP : forall col, 0 <= col < B_c l ->
            P_fa t4 (r * B_c l + col)
            = f_exp (f_sub (S_fa t3 (r * B_c l + col)) (new_max l t3 r))).
  { intros col Hcol. rewrite HP', (@in_block (B_c l) r (B_r l) col HBc Hr Hcol).
    rewrite (@elem_row r (B_c l) (r * B_c l + col)) by lia. reflexivity. }
  assert (Hmx : new_max l t3 r = mx).
  { unfold new_max, mx. change (m_i t3 r) with (m_i t r).
    apply running_max_ext. intros col Hcol. unfold row_scores.
    change (S_fa t3) with St. apply HS, Hcol. }
  assert (Hl4 : l_i t4 r = exp_sum (B_c l) s mx).
  { rewrite Hl. unfold new_sum. cbn [Z.eqb]. rewrite Hmx.
    apply exp_sum_ext. intros col Hcol. unfold row_scores.
    change (S_fa t3) with St. apply HS, Hcol. }
  assert (HP4 : forall j, 0 <= j < B_c l ->
            P_fa t4 (r * B_c l + j) = f_exp (f_sub (s j) mx)).
  { intros j Hj. rewrite (HP j Hj), Hmx. change (S_fa t3) with St.
    rewrite HS by exact Hj. reflexivity. }
  assert (HV4 : V_fa t4 = Vt) by (apply (Hro f_V_fa); reflexivity).
  destruct (@block_elem (d l) (B_r l) r c Hd Hr Hc) as (Hin & Hq & Hm).
  destruct (negb (baseline l =? 0)).
  - cbn [O_fa l_i set_O_fa]. split; [|exact Hl4].
    rewrite gemm_at by lia. rewrite Hin. cbv zeta. rewrite Hq, Hm. cbn [Z.eqb].
    f_equal. apply dot_ext.
    + intros j Hj. apply HP4, Hj.
    + intros j Hj. rewrite HV4. apply HV; assumption.
  - cbn [O_fa l_i set_O_fa set_V_t P_fa V_t]. split; [|exact Hl4].
    rewrite gemm_at by lia. rewrite Hin. cbv zeta. rewrite Hq, Hm. cbn [Z.eqb].
    f_equal. apply dot_ext.
    + intros j Hj. apply HP4, Hj.
    + intros j Hj. rewrite transpose_at by lia.
      destruct (@block_elem (B_c l) (d l) c j HBc Hc Hj) as (Hin' & Hq' & Hm').
      replace (d l * B_c l) with (d l * B_c l) by reflexivity.
      rewrite (Z.mul_comm (B_c l) (d l)), Hin', Hq', Hm', HV4.
      apply HV; assumption.
Qed.

End FirstColumnTile.

Section OneColumnTile.

Import Machine Runtime Blas FlashAttention.
Local Open Scope Z_scope.

Context {F : Type} {FO : FloatOps F}.
Variable p : platform.
Variable l : flashattention_2_layer_t F.

Hypothesis Hn : 0 < num_cores p.
Hypothesis HBr : 0 < B_r l < 2 ^ 32.
Hypothesis Hdiv : (num_cores p | B_r l).
Hypothesis HBc : 0 < B_c l.
Hypothesis Hd : 0 < d l.
Hypothesis HfitS : B_r l * B_c l <= 2 ^ 32.
Hypothesis HfitO : B_r l * d l <= 2 ^ 32.
Hypothesis Hd4 : d l * 4 < 2 ^ 32.

(** The row block in the scratchpad after the prologue of row-tile
    iteration [t_r]: the queries of the block, and statistics reset. *)
Lemma prologue_state (t_r : Z) (t : tcdm F) (r : Z) :
  0 <= t_r * B_r l * d l < 2 ^ 32 -> 0 <= r < B_r l ->
  let t' := outer_prologue p l 0 t_r t in
  (forall k, 0 <= k < d l ->
     Q_fa t' (r * d l + k) = Q l ((t_r * B_r l + r) * d l + k)) /\
  m_i t' r = f_neg_inf.
Proof.
  intros Hoff Hr t'. split.
  - intros k Hk. unfold t', outer_prologue. cbv zeta.
    rewrite (@u32_small (t_r * B_r l * d l)) by lia.
    set (t1 := set_Q_fa t _).
    assert (HQ : Q_fa (all_harts p 0 (init_stats p l) t1) = Q_fa t1).
    { unfold init_stats.
      rewrite (@cluster_rows F p l (fun row_idx t =>
                 let t := set_m_i t (upd (m_i t) row_idx f_neg_inf) in
                 let t := set_m_i_prev t (upd (m_i_prev t) row_idx f_neg_inf) in
                 set_l_i t (upd (l_i t) row_idx f_zero)) t1 Hn HBr Hdiv).
      apply (for_range_inv (fun t2 : tcdm F => Q_fa t2 = Q_fa t1)); [reflexivity|].
      intros i t2 _ H2. cbn [Q_fa set_l_i set_m_i_prev set_m_i]. exact H2. }
    rewrite HQ. unfold t1. cbn [Q_fa set_Q_fa]. rewrite dma_rows by lia.
    destruct (@block_elem (d l) (B_r l) r k Hd Hr Hk) as (Hin & _). rewrite Hin.
    f_equal. ring.
  - destruct (@statistics_reset F FO p l t_r t r Hn HBr Hdiv Hr) as (Hm & _).
    exact Hm.
Qed.

(** Row-tile iteration [t_r] when there is one column tile: the block of
    the output tensor it writes, element by element. *)
Lemma one_tile_block (t_r : Z) (t : tcdm F) (O_l3 : buf F) (r c : Z) :
  T_c l = 1 -> 0 <= t_r * B_r l * d l < 2 ^ 32 ->
  0 <= r < B_r l -> 0 <= c < d l ->
  snd (outer_iter p l 0 t_r (t, O_l3)) ((t_r * B_r l + r) * d l + c)
  = first_tile_attention l (t_r * B_r l + r) c.
Proof.
  intros HTc Hoff Hr Hc.
  rewrite outer_iter_output by lia. cbv zeta.
  destruct (@block_elem (d l) (B_r l) r c Hd Hr Hc) as (Hin & Hq & Hm).
  apply andb_true_iff in Hin. destruct Hin as [H1 H2].
  apply Z.leb_le in H1. apply Z.ltb_lt in H2.
  replace ((t_r * B_r l + r) * d l + c) with (t_r * B_r l * d l + (r * d l + c)) by ring.
  replace (t_r * B_r l * d l <=? t_r * B_r l * d l + (r * d l + c)) with true
    by (symmetry; apply Z.leb_le; lia).
  replace (t_r * B_r l * d l + (r * d l + c) <? t_r * B_r l * d l + B_r l * d l) with true
    by (symmetry; apply Z.ltb_lt; lia).
  cbn [andb].
  replace (t_r * B_r l * d l + (r * d l + c) - t_r * B_r l * d l) with (r * d l + c) by ring.
  unfold outer_iter, outer_epilogue. cbn [fst].
  unfold inner_loop. rewrite HTc, for_range_01.
  set (tp := outer_prologue p l 0 t_r t).
  set (ti := inner_iter p l 0 0 tp).
  destruct (@normalize_phase_rows F FO p l ti Hn HBr Hdiv Hd HfitO) as (_ & HO).
  cbv zeta in HO. rewrite HO.
  replace ((0 * d l <=? r * d l + c) && (r * d l + c <? B_r l * d l)) with true
    by (symmetry; apply andb_true_iff; split; [apply Z.leb_le | apply Z.ltb_lt]; lia).
  rewrite Hq.
  destruct (@first_tile_state F FO p l Hn HBr Hdiv HBc Hd HfitS HfitO Hd4 tp r c Hr Hc)
    as (HOi & Hli).
  cbv zeta in HOi, Hli. fold ti in HOi, Hli. rewrite HOi, Hli.
  destruct (@prologue_state t_r t r Hoff Hr) as (HQ & Hmi).
  cbv zeta in HQ, Hmi. fold tp in HQ, Hmi. rewrite Hmi.
  assert (Hs : forall j, 0 <= j < B_c l ->
            tile_scores l tp r j
            = f_mul (f_of_int 1)
                    (dot (d l) (fun k => Q l ((t_r * B_r l + r) * d l + k))
                               (fun k => K l (j * d l + k)))).
  { intros j Hj. unfold tile_scores. f_equal. apply dot_ext.
    - intros k Hk. apply HQ, Hk.
    - intros k Hk. reflexivity. }
  unfold first_tile_attention. cbv zeta.
  set (s' := fun j => f_mul (f_of_int 1)
                 (dot (d l) (fun k => Q l ((t_r * B_r l + r) * d l + k))
                            (fun k => K l (j * d l + k)))) in *.
  rewrite (@running_max_ext F FO (B_c l) (tile_scores l tp r) s' f_neg_inf Hs).
  rewrite (@exp_sum_ext F FO (B_c l) (tile_scores l tp r) s'
             (running_max (B_c l) s' f_neg_inf) Hs).
  f_equal. f_equal. apply dot_ext.
  - intros j Hj. rewrite Hs by exact Hj. reflexivity.
  - intros j Hj. reflexivity.
Qed.

(** The whole kernel when there is one column tile. *)
Lemma one_tile_output (t0 : tcdm F) (i c : Z) :
  0 <= N l -> N l * d l * 4 < 2 ^ 32 -> T_c l = 1 ->
  0 <= i < N l / B_r l * B_r l -> 0 <= c < d l ->
  flashattention_2_layer p l 0 t0 (i * d l + c) = first_tile_attention l i c.
Proof.
  intros HN Hfit HTc Hi Hc.
  assert (HN32 : N l < 2 ^ 32) by nia.
  assert (HTr : T_r l = N l / B_r l) by (unfold T_r; apply udiv_small; lia).
  pose proof (Z.mul_div_le (N l) (B_r l) ltac:(lia)) as Hle.
  assert (HTr0 : 0 <= N l / B_r l) by (apply Z.div_pos; lia).
  unfold flashattention_2_layer. rewrite HTr.
  revert i c Hi Hc.
  apply (for_range_ind (fun n (st : tcdm F * buf F) =>
    forall i c, 0 <= i < n * B_r l -> 0 <= c < d l ->
      snd st (i * d l + c) = first_tile_attention l i c)); [exact HTr0 | |].
  - intros i c Hi Hc. lia.
  - intros t_r [t O_l3] Ht IH i c Hi Hc.
    assert (Hblk : 0 <= t_r * B_r l /\ t_r * B_r l + B_r l <= N l).
    { pose proof (Z.mul_le_mono_nonneg_r (t_r + 1) (N l / B_r l) (B_r l)
                    ltac:(lia) ltac:(lia)).
      split; [nia | lia]. }
    assert (Hblkd : 0 <= t_r * B_r l * d l /\
                    t_r * B_r l * d l + B_r l * d l <= N l * d l).
    { pose proof (Z.mul_le_mono_nonneg_r (t_r * B_r l + B_r l) (N l) (d l)
                    ltac:(lia) ltac:(lia)).
      split; [nia | lia]. }
    destruct (Z.lt_ge_cases i (t_r * B_r l)) as [Hold | Hnew].
    + rewrite outer_iter_output by lia. cbv zeta.
      assert (Hlt : i * d l + c < t_r * B_r l * d l).
      { pose proof (Z.mul_le_mono_nonneg_r (i + 1) (t_r * B_r l) (d l)
                      ltac:(lia) ltac:(lia)). lia. }
      replace (t_r * B_r l * d l <=? i * d l + c) with false
        by (symmetry; apply Z.leb_gt; exact Hlt).
      cbn [andb]. apply (IH i c); lia.
    + replace i with (t_r * B_r l + (i - t_r * B_r l)) by ring.
      apply one_tile_block; try assumption; lia.
Qed.

End OneColumnTile.

Section SingleColumnTile.

Import Machine Runtime Blas FlashAttention.
Local Open Scope Z_scope.

Context {F : Type} {FO : FloatOps F}.
Variable p : platform.
Variable l : flashattention_2_layer_t F.

(** X20: [flashattention_2_layer] when the keys and values make one column
    tile ([T_c = 1]), on the first cluster with the compute cores dividing
    [B_r], for either GEMM path and any scratchpad contents before the call.
    Every element of the [N / B_r] whole row blocks of the output is the
    value [first_tile_attention] of its row and column: the dot products of
    the query with the keys, the exponentials of the scores less their
    maximum, their dot product with the column of V, divided by their sum,
    each computed in the order of the loops. *)
Theorem single_column_tile_output (t0 : tcdm F) (idx : Z) :
  0 < num_cores p -> 0 < B_r l < 2 ^ 32 -> (num_cores p | B_r l) ->
  0 < B_c l -> 0 < d l -> B_r l * B_c l <= 2 ^ 32 -> B_r l * d l <= 2 ^ 32 ->
  0 <= N l -> N l * d l * 4 < 2 ^ 32 -> T_c l = 1 ->
  0 <= idx < N l / B_r l * B_r l * d l ->
  flashattention_2_layer p l 0 t0 idx
  = first_tile_attention l (idx / d l) (idx mod d l).
Proof.
  intros Hn HBr Hdiv HBc Hd HfitS HfitO HN Hfit HTc Hidx.
  assert (Hd4 : d l * 4 < 2 ^ 32).
  { destruct (Z.eq_dec (N l) 0) as [H0 | H0]; [rewrite H0 in Hidx; simpl in Hidx; lia|].
    pose proof (Z.mul_le_mono_nonneg_r 1 (N l) (d l) ltac:(lia) ltac:(lia)). lia. }
  pose proof (Z.div_mod idx (d l) ltac:(lia)) as Hdm.
  pose proof (Z.mod_pos_bound idx (d l) Hd) as Hmb.
  assert (Hrow : 0 <= idx / d l < N l / B_r l * B_r l).
  { split; [apply Z.div_pos; lia|].
    apply Z.div_lt_upper_bound; [exact Hd|]. lia. }
  rewrite Hdm at 1.
  replace (d l * (idx / d l) + idx mod d l) with (idx / d l * d l + idx mod d l) by ring.
  apply (@one_tile_output F FO p l Hn HBr Hdiv HBc Hd HfitS HfitO Hd4 t0
           (idx / d l) (idx mod d l) HN Hfit HTc Hrow Hmb).
Qed.

End SingleColumnTile.

Section SingleTileValue.

Import Machine Runtime Blas FlashAttention Ideal Reference.
Local Open Scope Z_scope.

Lemma Rsum_pos (g : Z -> R) (n : Z) :
  0 < n -> (forall j, 0 <= j < n -> (0 < g j)%R) -> (0 < Rsum g n)%R.
Proof.
  intros Hn Hg.
  assert (H : forall m, 0 <= m -> m + 1 <= n -> (0 < Rsum g (m + 1))%R).
  { intros m Hm. pattern m. apply natlike_ind; [| |exact Hm].
    - intros _. change (0 + 1) with 1. replace 1 with (0 + 1) by reflexivity.
      rewrite Rsum_succ by lia. rewrite Rsum_0.
      pose proof (Hg 0 ltac:(lia)). lra.
    - intros k Hk IH Hle. unfold Z.succ. rewrite Rsum_succ by lia.
      pose proof (IH ltac:(lia)). pose proof (Hg (k + 1) ltac:(lia)). lra. }
  replace n with (n - 1 + 1) by ring. apply H; lia.
Qed.

(** The dot product of finite vectors. *)
Lemma dot_finite (n : Z) (a b : Z -> xreal) :
  0 <= n ->
  (forall k, 0 <= k < n -> finite (a k)) -> (forall k, 0 <= k < n -> finite (b k)) ->
  dot n a b = Fin (Rsum (fun k => (to_R (a k) * to_R (b k))%R) n).
Proof.
  intros Hn Ha Hb. unfold dot.
  assert (Hf : forall k, 0 <= k < n -> finite (xmul (a k) (b k))).
  { intros k Hk. rewrite (Ha k Hk), (Hb k Hk). reflexivity. }
  etransitivity; [exact (@scalar_sum_finite (fun k => xmul (a k) (b k)) n Hn Hf)|].
  f_equal. apply Rsum_ext. intros k Hk.
  rewrite (Ha k Hk), (Hb k Hk). reflexivity.
Qed.

(** The running maximum of finite scores, started at [-INFINITY], is
    finite. *)
Lemma running_max_finite (n : Z) (s : Z -> xreal) :
  1 <= n -> (forall j, 0 <= j < n -> finite (s j)) ->
  finite (running_max n s NInf).
Proof.
  intros Hn Hs.
  destruct (@running_max_bound xreal ideal_ops ideal_order xgt_irrefl n s NInf
              ltac:(lia)) as [Hub Hatt].
  destruct Hatt as [Hatt | [col [Hcol Hatt]]].
  - exfalso. specialize (Hub 0 ltac:(lia)). rewrite Hatt in Hub.
    rewrite (Hs 0 ltac:(lia)) in Hub. discriminate.
  - rewrite Hatt. apply Hs, Hcol.
Qed.

(** The sum of the exponentials of finite scores less a finite value. *)
Lemma exp_sum_finite (n : Z) (s : Z -> xreal) (mm : R) :
  0 <= n -> (forall j, 0 <= j < n -> finite (s j)) ->
  exp_sum n s (Fin mm) = Fin (Rsum (fun j => exp (to_R (s j) - mm)) n).
Proof.
  intros Hn Hs. unfold exp_sum.
  assert (Hf : forall j, 0 <= j < n -> finite (xexp (xsub (s j) (Fin mm)))).
  { intros j Hj. rewrite (Hs j Hj). reflexivity. }
  etransitivity;
    [exact (@scalar_sum_finite (fun j => xexp (xsub (s j) (Fin mm))) n Hn Hf)|].
  f_equal. apply Rsum_ext. intros j Hj. rewrite (Hs j Hj). reflexivity.
Qed.

(** The value of one column tile on finite data is the softmax attention
    over the keys and values of the tile. *)
Lemma first_tile_attention_value (l : flashattention_2_layer_t xreal) (i c : Z) :
  1 <= B_c l -> 0 <= d l ->
  (forall k, 0 <= k < d l -> finite (Q l (i * d l + k))) ->
  (forall j k, 0 <= j < B_c l -> 0 <= k < d l -> finite (K l (j * d l + k))) ->
  (forall j, 0 <= j < B_c l -> finite (V l (j * d l + c))) ->
  first_tile_attention l i c
  = Fin (softmax_attention (fun i => to_R (Q l i)) (fun i => to_R (K l i))
                           (fun i => to_R (V l i)) (d l) (B_c l) i c).
Proof.
  intros HBc Hd HQ HK HV.
  unfold first_tile_attention. cbv zeta.
  set (Qr := fun i => to_R (Q l i)). set (Kr := fun i => to_R (K l i)).
  set (Vr := fun i => to_R (V l i)).
  set (s := fun j => f_mul (f_of_int 1)
                (dot (d l) (fun k => Q l (i * d l + k)) (fun k => K l (j * d l + k)))).
  assert (Hs : forall j, 0 <= j < B_c l -> s j = Fin (score Qr Kr (d l) i j)).
  { intros j Hj. unfold s.
    rewrite (@dot_finite (d l) (fun k => Q l (i * d l + k)) (fun k => K l (j * d l + k))
               Hd HQ (fun k Hk => HK j k Hj Hk)).
    cbn [f_mul f_of_int ideal_ops xmul]. f_equal. unfold score, Qr, Kr. lra. }
  assert (Hsf : forall j, 0 <= j < B_c l -> finite (s j)).
  { intros j Hj. rewrite (Hs j Hj). reflexivity. }
  pose proof (@running_max_finite (B_c l) s HBc Hsf) as Hmx.
  change f_neg_inf with NInf.
  set (mx := running_max (B_c l) s NInf) in *.
  clearbody mx. unfold finite in Hmx.
  set (mm := to_R mx) in *. clearbody mm. subst mx.
  change (f_div (f_mul (f_of_int 1)
                   (dot (B_c l) (fun j => f_exp (f_sub (s j) (Fin mm)))
                                (fun j => V l (j * d l + c))))
                (exp_sum (B_c l) s (Fin mm))
          = Fin (softmax_attention Qr Kr Vr (d l) (B_c l) i c)).
  assert (Hpf : forall j, 0 <= j < B_c l -> finite (f_exp (f_sub (s j) (Fin mm)))).
  { intros j Hj. rewrite (Hs j Hj). reflexivity. }
  rewrite (@exp_sum_finite (B_c l) s mm ltac:(lia) Hsf).
  rewrite (@dot_finite (B_c l) (fun j => f_exp (f_sub (s j) (Fin mm)))
             (fun j => V l (j * d l + c)) ltac:(lia) Hpf HV).
  cbn [f_mul f_div f_of_int ideal_ops xmul].
  assert (He : forall j, 0 <= j < B_c l ->
            exp (to_R (s j) - mm) = (exp (score Qr Kr (d l) i j) * exp (- mm))%R).
  { intros j Hj. rewrite (Hs j Hj). cbn [to_R]. rewrite <- exp_plus. f_equal. }
  rewrite (@Rsum_ext (fun j => exp (to_R (s j) - mm))
             (fun j => (exp (score Qr Kr (d l) i j) * exp (- mm))%R) (B_c l) He).
  rewrite (@Rsum_ext
             (fun j => (to_R (f_exp (f_sub (s j) (Fin mm))) * to_R (V l (j * d l + c)%Z))%R)
             (fun j => (exp (score Qr Kr (d l) i j) * Vr (j * d l + c)%Z * exp (- mm))%R)
             (B_c l)).
  2:{ intros j Hj. rewrite (Hs j Hj). cbn [f_exp f_sub ideal_ops xsub xopp xadd xexp to_R].
      fold (Vr (j * d l + c)). rewrite exp_plus. ring. }
  rewrite !Rsum_scale by lia.
  pose proof (exp_pos (- mm)) as Hpos.
  assert (Hden : (0 < Rsum (fun j => exp (score Qr Kr (d l) i j)) (B_c l))%R).
  { apply Rsum_pos; [lia|]. intros j _. apply exp_pos. }
  rewrite xdiv_fin by (apply Rgt_not_eq, Rmult_lt_0_compat; assumption).
  f_equal. unfold softmax_attention. fold Qr Kr Vr. field. split; lra.
Qed.

(** X21: the kernel is right when the keys and values make one column
    tile.  With [T_c = 1], finite Q, K and V, on the first cluster with the
    compute cores dividing [B_r], in arithmetic without rounding, every
    element of the [N / B_r] whole row blocks of the output is the softmax
    attention of its query over the [B_c] keys and values of the tile, the
    exact real value of softmax (Q K^t) V when [B_c = N]. *)
Theorem single_column_tile_attention (p : platform) (l : flashattention_2_layer_t xreal)
    (t0 : tcdm xreal) (i c : Z) :
  0 < num_cores p -> 0 < B_r l < 2 ^ 32 -> (num_cores p | B_r l) ->
  0 < B_c l -> 0 < d l -> B_r l * B_c l <= 2 ^ 32 -> B_r l * d l <= 2 ^ 32 ->
  0 <= N l -> N l * d l * 4 < 2 ^ 32 -> T_c l = 1 ->
  (forall j, 0 <= j < N l * d l -> finite (Q l j)) ->
  (forall j, 0 <= j < B_c l * d l -> finite (K l j)) ->
  (forall j, 0 <= j < B_c l * d l -> finite (V l j)) ->
  0 <= i < N l / B_r l * B_r l -> 0 <= c < d l ->
  flashattention_2_layer p l 0 t0 (i * d l + c)
  = Fin (softmax_attention (fun i => to_R (Q l i)) (fun i => to_R (K l i))
                           (fun i => to_R (V l i)) (d l) (B_c l) i c).
Proof.
  intros Hn HBr Hdiv HBc Hd HfitS HfitO HN Hfit HTc HQ HK HV Hi Hc.
  assert (Hd4 : d l * 4 < 2 ^ 32).
  { destruct (Z.eq_dec (N l) 0) as [H0 | H0]; [rewrite H0 in Hi; simpl in Hi; lia|].
    pose proof (Z.mul_le_mono_nonneg_r 1 (N l) (d l) ltac:(lia) ltac:(lia)). lia. }
  rewrite (@one_tile_output xreal ideal_ops p l Hn HBr Hdiv HBc Hd HfitS HfitO Hd4 t0
             i c HN Hfit HTc Hi Hc).
  pose proof (Z.mul_div_le (N l) (B_r l) ltac:(lia)) as Hle.
  assert (Hin : forall n j k, 0 <= j < n -> 0 <= k < d l -> 0 <= j * d l + k < n * d l).
  { intros n j k Hj Hk.
    pose proof (Z.mul_le_mono_nonneg_r (j + 1) n (d l) ltac:(lia) ltac:(lia)).
    pose proof (Z.mul_nonneg_nonneg j (d l) ltac:(lia) ltac:(lia)). lia. }
  apply first_tile_attention_value; try lia.
  - intros k Hk. apply HQ, Hin; lia.
  - intros j k Hj Hk. apply HK, Hin; lia.
  - intros j Hj. apply HV, Hin; lia.
Qed.

End SingleTileValue.

(* ===================================================================== *)
(** * FlashAttention: no column tile *)
(* ===================================================================== *)

Section NoColumnTile.

Import Machine Runtime Blas FlashAttention.
Local Open Scope Z_scope.

Context {F : Type} {FO : FloatOps F}.
Variable p : platform.
Variable l : flashattention_2_layer_t F.

Hypothesis Hn : 0 < num_cores p.
Hypothesis HBr : 0 < B_r l < 2 ^ 32.
Hypothesis Hdiv : (num_cores p | B_r l).
Hypothesis Hd : 0 < d l.
Hypothesis HfitO : B_r l * d l <= 2 ^ 32.
Hypothesis Hd4 : d l * 4 < 2 ^ 32.

(** The prologue of a row-tile iteration leaves the accumulator tile as
    it was. *)
Lemma prologue_accumulator (t_r : Z) (t : tcdm F) :
  O_fa (outer_prologue p l 0 t_r t) = O_fa t.
Proof.
  unfold outer_prologue. cbv zeta.
  set (t1 := set_Q_fa t _).
  unfold init_stats.
  rewrite (@cluster_rows F p l (fun row_idx t =>
             let t := set_m_i t (upd (m_i t) row_idx f_neg_inf) in
             let t := set_m_i_prev t (upd (m_i_prev t) row_idx f_neg_inf) in
             set_l_i t (upd (l_i t) row_idx f_zero)) t1 Hn HBr Hdiv).
  apply (for_range_inv (fun t2 : tcdm F => O_fa t2 = O_fa t)); [reflexivity|].
  intros i t2 _ H2. cbn [O_fa set_l_i set_m_i_prev set_m_i]. exact H2.
Qed.

(** A row-tile iteration whose inner loop is empty: the accumulator tile
    is divided by the zero the sums were reset to. *)
Lemma no_tile_iter (t_r : Z) (t : tcdm F) (O_l3 : buf F) (r c : Z) :
  T_c l = 0 -> 0 <= r < B_r l -> 0 <= c < d l ->
  O_fa (fst (outer_iter p l 0 t_r (t, O_l3))) (r * d l + c)
  = f_div (O_fa t (r * d l + c)) f_zero.
Proof.
  intros HTc Hr Hc.
  unfold outer_iter, outer_epilogue. cbn [fst].
  unfold inner_loop. rewrite HTc, for_range_nil by lia.
  set (tp := outer_prologue p l 0 t_r t).
  destruct (@normalize_phase_rows F FO p l tp Hn HBr Hdiv Hd HfitO) as (_ & HO).
  cbv zeta in HO. rewrite HO.
  destruct (@block_elem (d l) (B_r l) r c Hd Hr Hc) as (Hin & Hq & _).
  rewrite Z.mul_0_l, Hin, Hq.
  unfold tp. rewrite prologue_accumulator.
  destruct (@statistics_reset F FO p l t_r t r Hn HBr Hdiv Hr) as (_ & _ & Hl).
  rewrite Hl. reflexivity.
Qed.

(** The whole kernel when there is no column tile. *)
Lemma no_tile_output (t0 : tcdm F) (t_r r c : Z) :
  0 <= N l -> N l * d l * 4 < 2 ^ 32 -> T_c l = 0 ->
  0 <= t_r < N l / B_r l -> 0 <= r < B_r l -> 0 <= c < d l ->
  flashattention_2_layer p l 0 t0 ((t_r * B_r l + r) * d l + c)
  = Nat.iter (Z.to_nat (t_r + 1)) (fun x => f_div x f_zero) (O_fa t0 (r * d l + c)).
Proof.
  intros HN Hfit HTc Ht Hr Hc.
  assert (HN32 : N l < 2 ^ 32) by nia.
  assert (HTr : T_r l = N l / B_r l) by (unfold T_r; apply udiv_small; lia).
  pose proof (Z.mul_div_le (N l) (B_r l) ltac:(lia)) as Hle.
  unfold flashattention_2_layer. rewrite HTr.
  assert (Hinv :
    let st := for_range 0 (N l / B_r l) (outer_iter p l 0) (t0, O l) in
    (forall r c, 0 <= r < B_r l -> 0 <= c < d l ->
       O_fa (fst st) (r * d l + c)
       = Nat.iter (Z.to_nat (N l / B_r l)) (fun x => f_div x f_zero)
                  (O_fa t0 (r * d l + c))) /\
    (forall t_r r c, 0 <= t_r < N l / B_r l -> 0 <= r < B_r l -> 0 <= c < d l ->
       snd st ((t_r * B_r l + r) * d l + c)
       = Nat.iter (Z.to_nat (t_r + 1)) (fun x => f_div x f_zero)
                  (O_fa t0 (r * d l + c)))).
  { cbv zeta.
    apply (for_range_ind (fun n (st : tcdm F * buf F) =>
      (forall r c, 0 <= r < B_r l -> 0 <= c < d l ->
         O_fa (fst st) (r * d l + c)
         = Nat.iter (Z.to_nat n) (fun x => f_div x f_zero) (O_fa t0 (r * d l + c))) /\
      (forall t_r r c, 0 <= t_r < n -> 0 <= r < B_r l -> 0 <= c < d l ->
         snd st ((t_r * B_r l + r) * d l + c)
         = Nat.iter (Z.to_nat (t_r + 1)) (fun x => f_div x f_zero)
                    (O_fa t0 (r * d l + c))))); [lia | |].
    - split; [intros r' c' _ _; reflexivity|]. intros t' r' c' Ht'. lia.
    - intros n [t O_l3] Hn' [Hacc Hout]. cbn [fst snd] in Hacc, Hout.
      assert (Hblk : 0 <= n * B_r l /\ n * B_r l + B_r l <= N l).
      { pose proof (Z.mul_le_mono_nonneg_r (n + 1) (N l / B_r l) (B_r l)
                      ltac:(lia) ltac:(lia)).
        pose proof (Z.mul_nonneg_nonneg n (B_r l) ltac:(lia) ltac:(lia)). lia. }
      assert (Hblkd : 0 <= n * B_r l * d l /\
                      n * B_r l * d l + B_r l * d l <= N l * d l).
      { pose proof (Z.mul_le_mono_nonneg_r (n * B_r l + B_r l) (N l) (d l)
                      ltac:(lia) ltac:(lia)).
        pose proof (Z.mul_nonneg_nonneg (n * B_r l) (d l) ltac:(lia) ltac:(lia)). lia. }
      assert (Hnew : forall r c, 0 <= r < B_r l -> 0 <= c < d l ->
                O_fa (fst (outer_iter p l 0 n (t, O_l3))) (r * d l + c)
                = Nat.iter (Z.to_nat (n + 1)) (fun x => f_div x f_zero)
                           (O_fa t0 (r * d l + c))).
      { intros r' c' Hr' Hc'. rewrite (@no_tile_iter n t O_l3 r' c' HTc Hr' Hc').
        rewrite (Hacc r' c' Hr' Hc').
        replace (Z.to_nat (n + 1)) with (S (Z.to_nat n)) by lia. reflexivity. }
      split; [exact Hnew|].
      intros t' r' c' Ht' Hr' Hc'.
      rewrite outer_iter_output by lia. cbv zeta.
      destruct (@block_elem (d l) (B_r l) r' c' Hd Hr' Hc') as (Hin & _).
      apply andb_true_iff in Hin. destruct Hin as [H1 H2].
      apply Z.leb_le in H1. apply Z.ltb_lt in H2.
      destruct (Z.eq_dec t' n) as [-> | Hne].
      + replace ((n * B_r l + r') * d l + c') with (n * B_r l * d l + (r' * d l + c'))
          by ring.
        replace (n * B_r l * d l <=? n * B_r l * d l + (r' * d l + c')) with true
          by (symmetry; apply Z.leb_le; lia).
        replace (n * B_r l * d l + (r' * d l + c') <? n * B_r l * d l + B_r l * d l)
          with true by (symmetry; apply Z.ltb_lt; lia).
        cbn [andb].
        replace (n * B_r l * d l + (r' * d l + c') - n * B_r l * d l)
          with (r' * d l + c') by ring.
        apply Hnew; assumption.
      + assert (Hlt : (t' * B_r l + r') * d l + c' < n * B_r l * d l).
        { pose proof (Z.mul_le_mono_nonneg_r (t' + 1) n (B_r l) ltac:(lia) ltac:(lia)).
          pose proof (Z.mul_le_mono_nonneg_r (t' * B_r l + r' + 1) (n * B_r l) (d l)
                        ltac:(lia) ltac:(lia)). lia. }
        replace (n * B_r l * d l <=? (t' * B_r l + r') * d l + c') with false
          by (symmetry; apply Z.leb_gt; exact Hlt).
        cbn [andb]. apply Hout; [lia | assumption | assumption]. }
  cbv zeta in Hinv. destruct Hinv as [_ Hout]. apply Hout; assumption.
Qed.

(** X23: [flashattention_2_layer] when the column block is longer than
    the sequence ([B_c > N], so [T_c = 0]), on the first cluster with the
    compute cores dividing [B_r].  The inner loop is never entered: Q, K and
    V play no part, and element [idx] of the [N / B_r] whole row blocks of
    the output is what the accumulator tile of the scratchpad held before
    the call, divided by the zero of the reset sums once for every row block
    up to its own. *)
Theorem no_column_tile_output (t0 : tcdm F) (idx : Z) :
  0 <= N l -> N l * d l * 4 < 2 ^ 32 -> T_c l = 0 ->
  0 <= idx < N l / B_r l * (B_r l * d l) ->
  flashattention_2_layer p l 0 t0 idx
  = Nat.iter (Z.to_nat (idx / (B_r l * d l) + 1)) (fun x => f_div x f_zero)
             (O_fa t0 (idx mod (B_r l * d l))).
Proof.
  intros HN Hfit HTc Hidx.
  assert (Hw : 0 < B_r l * d l) by (apply Z.mul_pos_pos; lia).
  pose proof (Z.div_mod idx (B_r l * d l) ltac:(lia)) as Hdm.
  pose proof (Z.mod_pos_bound idx (B_r l * d l) Hw) as Hmb.
  assert (Ht : 0 <= idx / (B_r l * d l) < N l / B_r l).
  { split; [apply Z.div_pos; lia|].
    apply Z.div_lt_upper_bound; [exact Hw|]. lia. }
  set (t_r := idx / (B_r l * d l)) in *. set (m := idx mod (B_r l * d l)) in *.
  pose proof (Z.div_mod m (d l) ltac:(lia)) as Hdm2.
  pose proof (Z.mod_pos_bound m (d l) Hd) as Hmb2.
  assert (Hr : 0 <= m / d l < B_r l).
  { split; [apply Z.div_pos; lia|].
    apply Z.div_lt_upper_bound; [exact Hd|]. lia. }
  clearbody t_r m.
  assert (Hflat : idx = (t_r * B_r l + m / d l) * d l + m mod d l).
  { rewrite Hdm. rewrite Hdm2 at 1. ring. }
  rewrite Hflat at 1.
  rewrite (@no_tile_output t0 t_r (m / d l) (m mod d l) HN Hfit HTc Ht Hr Hmb2).
  f_equal. f_equal. lia.
Qed.

End NoColumnTile.

Section NoColumnTileValue.

Import Machine Runtime Blas FlashAttention Ideal.
Local Open Scope Z_scope.

(** A quotient by zero is never a number. *)
Lemma xdiv_zero (x : xreal) :
  xdiv x (Fin 0) = PInf \/ xdiv x (Fin 0) = NInf \/ xdiv x (Fin 0) = NaN.
Proof.
  destruct x as [r | | |]; cbn [xdiv].
  - rewrite (Rsign_zero _ _ _ (eq_refl 0%R)). unfold xinf_signed, Rsign.
    destruct (total_order_T r 0) as [[H | H] | H]; cbn [xopp]; auto.
  - rewrite (Rsign_zero _ _ _ (eq_refl 0%R)). auto.
  - rewrite (Rsign_zero _ _ _ (eq_refl 0%R)). auto.
  - auto.
Qed.

(** X24: with no column tile ([T_c = 0]), on the first cluster with the
    compute cores dividing [B_r], in arithmetic without rounding, no element
    of the [N / B_r] whole row blocks of the output of
    [flashattention_2_layer] is a number: each is an infinity or a NaN,
    whatever Q, K, V and the scratchpad hold. *)
Theorem no_column_tile_no_number (p : platform) (l : flashattention_2_layer_t xreal)
    (t0 : tcdm xreal) (i c : Z) :
  0 < num_cores p -> 0 < B_r l < 2 ^ 32 -> (num_cores p | B_r l) ->
  0 < d l -> B_r l * d l <= 2 ^ 32 ->
  0 <= N l -> N l * d l * 4 < 2 ^ 32 -> T_c l = 0 ->
  0 <= i < N l / B_r l * B_r l -> 0 <= c < d l ->
  let v := flashattention_2_layer p l 0 t0 (i * d l + c) in
  v = PInf \/ v = NInf \/ v = NaN.
Proof.
  intros Hn HBr Hdiv Hd HfitO HN Hfit HTc Hi Hc v.
  assert (Hd4 : d l * 4 < 2 ^ 32).
  { destruct (Z.eq_dec (N l) 0) as [H0 | H0]; [rewrite H0 in Hi; simpl in Hi; lia|].
    pose proof (Z.mul_le_mono_nonneg_r 1 (N l) (d l) ltac:(lia) ltac:(lia)). lia. }
  pose proof (Z.div_mod i (B_r l) ltac:(lia)) as Hdm.
  pose proof (Z.mod_pos_bound i (B_r l) ltac:(lia)) as Hmb.
  assert (Ht : 0 <= i / B_r l < N l / B_r l).
  { split; [apply Z.div_pos; lia|].
    apply Z.div_lt_upper_bound; lia. }
  assert (Hv : v = Nat.iter (Z.to_nat (i / B_r l + 1)) (fun x => f_div x f_zero)
                        (O_fa t0 (i mod B_r l * d l + c))).
  { unfold v.
    replace (i * d l + c) with ((i / B_r l * B_r l + i mod B_r l) * d l + c)
      by (f_equal; f_equal; lia).
    apply (@no_tile_output xreal ideal_ops p l Hn HBr Hdiv Hd HfitO Hd4 t0
             (i / B_r l) (i mod B_r l) c HN Hfit HTc Ht Hmb Hc). }
  rewrite Hv.
  replace (Z.to_nat (i / B_r l + 1)) with (S (Z.to_nat (i / B_r l))) by lia.
  cbn [Nat.iter f_div f_zero ideal_ops]. apply xdiv_zero.
Qed.

End NoColumnTileValue.

(* ===================================================================== *)
(** * LayerNorm: the half-precision vectorised path of the layer *)
(* ===================================================================== *)

Section HalfPrecisionLayer.

Import Machine Runtime LayerNorm.
Local Open Scope Z_scope.

Context {F : Type} {FO : FloatOps F}.
Variable p : platform.

(** The transfer of tile [tau] reaches element [idx] of a feature map
    exactly when [idx] lies in the map and in that tile; the element of the
    scratchpad tile it is paired with is [tile_slot]. *)
Lemma tile_cond_iff (B S E ts T tau idx : Z) :
  0 < B -> 0 < E -> 0 < ts -> 0 < T -> S = ts * T -> 0 <= tau < T ->
  let off := idx - tau * ts * E in
  let cond := (0 <=? off) && (off <? B * (S * E)) && (off mod (S * E) <? ts * E) in
  cond = (0 <=? idx) && (idx <? B * S * E) && (tile_of S E ts idx =? tau) /\
  (cond = true ->
   off / (S * E) * (ts * E) + off mod (S * E) = tile_slot S E ts idx).
Proof.
  intros HB HE Hts HT HS Htau off cond.
  unfold tile_of, tile_slot.
  set (SE := S * E) in *. set (tE := ts * E) in *.
  assert (HtE : 0 < tE) by (apply Z.mul_pos_pos; assumption).
  assert (HSE : SE = T * tE) by (unfold SE, tE; rewrite HS; ring).
  assert (HtS : tE <= SE).
  { rewrite HSE. pose proof (Z.mul_le_mono_nonneg_r 1 T tE ltac:(lia) ltac:(lia)). lia. }
  assert (Htau1 : 0 <= tau * tE /\ tau * tE + tE <= SE).
  { rewrite HSE.
    pose proof (Z.mul_le_mono_nonneg_r (tau + 1) T tE ltac:(lia) ltac:(lia)).
    pose proof (Z.mul_nonneg_nonneg tau tE ltac:(lia) ltac:(lia)). lia. }
  assert (Hoff : off = idx - tau * tE) by (unfold off, tE; ring).
  assert (Hbig : B * S * E = B * SE) by (unfold SE; ring).
  rewrite Hbig.
  assert (Hblock : forall b, 0 <= b < B -> 0 <= SE * b /\ SE * b + SE <= B * SE).
  { intros b Hb.
    pose proof (Z.mul_le_mono_nonneg_r (b + 1) B SE ltac:(lia) ltac:(lia)).
    pose proof (Z.mul_nonneg_nonneg SE b ltac:(lia) ltac:(lia)). lia. }
  assert (Hfwd : cond = true ->
            0 <= idx < B * SE /\ idx mod SE / tE = tau /\
            off / SE * tE + off mod SE = idx / SE * tE + idx mod SE mod tE).
  { intros Hc. unfold cond in Hc.
    apply andb_prop in Hc. destruct Hc as [Hc H3].
    apply andb_prop in Hc. destruct Hc as [H1 H2].
    apply Z.leb_le in H1. apply Z.ltb_lt in H2. apply Z.ltb_lt in H3.
    pose proof (Z.div_mod off SE ltac:(lia)) as Hdm.
    pose proof (Z.mod_pos_bound off SE ltac:(lia)) as Hmb.
    assert (Hb : 0 <= off / SE < B).
    { split; [apply Z.div_pos; lia | apply Z.div_lt_upper_bound; lia]. }
    set (b := off / SE) in *. set (m := off mod SE) in *. clearbody b m.
    destruct (Hblock b Hb) as [Hb0 Hb1].
    assert (Hq : idx / SE = b).
    { symmetry. apply (Z.div_unique idx SE b (tau * tE + m)); lia. }
    assert (Hr : idx mod SE = tau * tE + m).
    { symmetry. apply (Z.mod_unique idx SE b (tau * tE + m)); lia. }
    rewrite Hq, Hr.
    assert (Hq2 : (tau * tE + m) / tE = tau).
    { symmetry. apply (Z.div_unique (tau * tE + m) tE tau m); lia. }
    assert (Hr2 : (tau * tE + m) mod tE = m).
    { symmetry. apply (Z.mod_unique (tau * tE + m) tE tau m); lia. }
    rewrite Hq2, Hr2. split; [lia|]. split; reflexivity. }
  assert (Hbwd : 0 <= idx < B * SE -> idx mod SE / tE = tau -> cond = true).
  { intros Hin Ht.
    pose proof (Z.div_mod idx SE ltac:(lia)) as Hdm.
    pose proof (Z.mod_pos_bound idx SE ltac:(lia)) as Hmb.
    assert (Hb : 0 <= idx / SE < B).
    { split; [apply Z.div_pos; lia | apply Z.div_lt_upper_bound; lia]. }
    pose proof (Z.div_mod (idx mod SE) tE ltac:(lia)) as Hdm2.
    pose proof (Z.mod_pos_bound (idx mod SE) tE HtE) as Hmb2.
    rewrite Ht in Hdm2.
    set (b := idx / SE) in *. set (r := idx mod SE) in *.
    set (m := r mod tE) in *. clearbody b r m.
    destruct (Hblock b Hb) as [Hb0 Hb1].
    assert (Hm : off mod SE = m).
    { symmetry. apply (Z.mod_unique off SE b m); lia. }
    unfold cond. rewrite Hm.
    apply andb_true_intro. split; [apply andb_true_intro; split|].
    - apply Z.leb_le. lia.
    - apply Z.ltb_lt. lia.
    - apply Z.ltb_lt. lia. }
  split.
  - destruct cond eqn:Hc.
    + destruct (Hfwd eq_refl) as (Hin & Ht & _). symmetry.
      apply andb_true_intro. split; [apply andb_true_intro; split|].
      * apply Z.leb_le. lia.
      * apply Z.ltb_lt. lia.
      * apply Z.eqb_eq. exact Ht.
    + symmetry. apply not_true_is_false. intros Hall.
      apply andb_prop in Hall. destruct Hall as [Hall H3].
      apply andb_prop in Hall. destruct Hall as [H1 H2].
      apply Z.leb_le in H1. apply Z.ltb_lt in H2. apply Z.eqb_eq in H3.
      pose proof (Hbwd (conj H1 H2) H3) as Hcc. congruence.
  - intros Hc. apply (Hfwd Hc).
Qed.

(** The compute phase of a tile with [layernorm_fp16_opt]: no hart writes
    the output tile. *)
Lemma compute_tile_fp16_opt (c : Z) (l : layernorm_layer_t F) (itile otile : buf F) :
  compute_tile p K_fp16_opt c l itile otile = otile.
Proof.
  unfold compute_tile. generalize otile.
  induction (cluster_harts p c) as [|h hs IH]; intros o; [reflexivity|].
  cbn [fold_left]. rewrite IH. reflexivity.
Qed.

(** One iteration of the tile loop with [layernorm_fp16_opt]: the output
    tile of the scratchpad is kept, and is what is copied into the region of
    tile [c * tpc + j] of the output feature map. *)
Lemma fp16_opt_tile_step (l : layernorm_layer_t F) (c j : Z) (t : @tcdm F) (o : buf F) :
  let B := batch_size l in
  let S := seq_len l in
  let E := embeddings l in
  let ts := S / n_tiles l in
  let tpc := n_tiles l / cluster_num p in
  layer_ok p l -> 0 <= c < cluster_num p -> 0 <= j < tpc ->
  local_otile (fst (tile_step p sizeof_fp16 K_fp16_opt l c j (t, o))) = local_otile t /\
  forall idx,
    snd (tile_step p sizeof_fp16 K_fp16_opt l c j (t, o)) idx =
    if (0 <=? idx) && (idx <? B * S * E) && (tile_of S E ts idx =? c * tpc + j)
    then local_otile t (tile_slot S E ts idx) else o idx.
Proof.
  intros B S E ts tpc Hok Hc Hj.
  destruct (layer_geometry Hok)
    as (Hts & Htpc & HS & HT & Htspos & Htpcpos & Hfit & _).
  fold B S E ts tpc in Hts, Htpc, HS, HT, Htspos, Htpcpos, Hfit.
  destruct Hok as (HB & HSpos & HE & HTpos & HC & Hn & _).
  fold B S E in HB, HSpos, HE.
  set (tau := c * tpc + j) in *.
  assert (Htau : 0 <= tau < n_tiles l).
  { assert (c * tpc <= (cluster_num p - 1) * tpc)
      by (apply Z.mul_le_mono_nonneg_r; lia).
    assert (0 <= c * tpc) by (apply Z.mul_nonneg_nonneg; lia).
    unfold tau. lia. }
  assert (HtsE : 0 < ts * E) by (apply Z.mul_pos_pos; assumption).
  assert (HSE : 0 < S * E) by (apply Z.mul_pos_pos; assumption).
  assert (HSEB : S * E <= B * S * E).
  { pose proof (Z.mul_le_mono_nonneg_r 1 B (S * E) ltac:(lia) ltac:(lia)). lia. }
  assert (HtsS : ts * E <= S * E).
  { rewrite HS.
    pose proof (Z.mul_le_mono_nonneg_r 1 (n_tiles l) (ts * E) ltac:(lia) ltac:(lia)).
    replace (ts * n_tiles l * E) with (n_tiles l * (ts * E)) by ring. lia. }
  assert (HtauE : 0 <= tau * ts * E /\ tau * ts * E + ts * E <= S * E).
  { rewrite HS.
    pose proof (Z.mul_le_mono_nonneg_r (tau + 1) (n_tiles l) (ts * E)
                  ltac:(lia) ltac:(lia)).
    pose proof (Z.mul_nonneg_nonneg tau (ts * E) ltac:(lia) ltac:(lia)).
    replace (ts * n_tiles l * E) with (n_tiles l * (ts * E)) by ring.
    replace (tau * ts * E) with (tau * (ts * E)) by ring. lia. }
  unfold tile_step. cbn [fst snd local_otile].
  rewrite compute_tile_fp16_opt. split; [reflexivity|]. intros idx.
  assert (Hti : tile_idx_of p l c j = tau).
  { unfold tile_idx_of. rewrite Htpc. apply u32_small. fold tau. lia. }
  assert (Hto : tile_offset l sizeof_fp16 = ts * E * sizeof_fp16).
  { unfold tile_offset. rewrite Hts. fold E. apply u32_small.
    unfold sizeof_fp16. lia. }
  rewrite Hti, Hto, Hts. fold E S B.
  rewrite (@dma_2d_at_bytes F sizeof_fp16 o _ (local_otile t) 0 _ _ _ B
             (tau * ts * E) 0 (ts * E) (S * E) (ts * E) idx);
    try (unfold sizeof_fp16; rewrite ?u32_small by lia; lia).
  destruct (@tile_cond_iff B S E ts (n_tiles l) tau idx HB HE Htspos HTpos HS Htau)
    as (Hcond & Hslot).
  cbv zeta in Hcond, Hslot.
  rewrite <- Hcond.
  destruct ((0 <=? idx - tau * ts * E) && (idx - tau * ts * E <? B * (S * E)) &&
            ((idx - tau * ts * E) mod (S * E) <? ts * E)) eqn:Hc';
    [|reflexivity].
  rewrite <- (Hslot eq_refl). reflexivity.
Qed.

(** The tile loop of a cluster with [layernorm_fp16_opt]. *)
Lemma fp16_opt_cluster_run (l : layernorm_layer_t F) (c : Z) (t : @tcdm F) (o : buf F)
    (idx : Z) :
  let B := batch_size l in
  let S := seq_len l in
  let E := embeddings l in
  let ts := S / n_tiles l in
  let tpc := n_tiles l / cluster_num p in
  layer_ok p l -> 0 <= c < cluster_num p ->
  cluster_run p sizeof_fp16 K_fp16_opt l c t o idx =
  if (0 <=? idx) && (idx <? B * S * E) && (tile_of S E ts idx / tpc =? c)
  then local_otile t (tile_slot S E ts idx) else o idx.
Proof.
  intros B S E ts tpc Hok Hc.
  destruct (layer_geometry Hok) as (_ & Htpc & _ & _ & _ & Htpcpos & _).
  fold tpc in Htpc, Htpcpos.
  unfold cluster_run. rewrite Htpc.
  assert (Hinv :
    let st := for_range 0 tpc (tile_step p sizeof_fp16 K_fp16_opt l c) (t, o) in
    local_otile (fst st) = local_otile t /\
    snd st idx =
      if (0 <=? idx) && (idx <? B * S * E) &&
         ((c * tpc <=? tile_of S E ts idx) && (tile_of S E ts idx <? c * tpc + tpc))
      then local_otile t (tile_slot S E ts idx) else o idx).
  { cbv zeta.
    apply (for_range_ind (fun i (st : @tcdm F * buf F) =>
      local_otile (fst st) = local_otile t /\
      snd st idx =
        if (0 <=? idx) && (idx <? B * S * E) &&
           ((c * tpc <=? tile_of S E ts idx) && (tile_of S E ts idx <? c * tpc + i))
        then local_otile t (tile_slot S E ts idx) else o idx)); [lia | |].
    - cbn [fst snd]. split; [reflexivity|].
      replace ((c * tpc <=? tile_of S E ts idx) && (tile_of S E ts idx <? c * tpc + 0))
        with false; [rewrite andb_false_r; reflexivity|].
      symmetry. apply andb_false_iff.
      destruct (Z.leb_spec (c * tpc) (tile_of S E ts idx)); [right|left; reflexivity].
      apply Z.ltb_ge. lia.
    - intros j [t' o'] Hj [Hot Hval]. cbn [fst snd] in Hot, Hval.
      destruct (@fp16_opt_tile_step l c j t' o' Hok Hc Hj) as (Hot' & Hval').
      cbv zeta in Hval'. fold B S E ts tpc in Hval'.
      split; [rewrite Hot'; exact Hot|].
      rewrite Hval', Hot, Hval.
      destruct ((0 <=? idx) && (idx <? B * S * E)); cbn [andb]; [|reflexivity].
      destruct (Z.eqb_spec (tile_of S E ts idx) (c * tpc + j)) as [He | Hne].
      + replace ((c * tpc <=? tile_of S E ts idx) &&
                 (tile_of S E ts idx <? c * tpc + (j + 1))) with true; [reflexivity|].
        symmetry. apply andb_true_intro. split; [apply Z.leb_le | apply Z.ltb_lt]; lia.
      + replace ((c * tpc <=? tile_of S E ts idx) &&
                 (tile_of S E ts idx <? c * tpc + (j + 1)))
          with ((c * tpc <=? tile_of S E ts idx) &&
                (tile_of S E ts idx <? c * tpc + j)); [reflexivity|].
        f_equal.
        destruct (Z.ltb_spec (tile_of S E ts idx) (c * tpc + j));
          destruct (Z.ltb_spec (tile_of S E ts idx) (c * tpc + (j + 1)));
          try reflexivity; lia. }
  cbv zeta in Hinv. destruct Hinv as [_ Hval]. rewrite Hval.
  replace ((c * tpc <=? tile_of S E ts idx) && (tile_of S E ts idx <? c * tpc + tpc))
    with (tile_of S E ts idx / tpc =? c); [reflexivity|].
  destruct (Z.eqb_spec (tile_of S E ts idx / tpc) c) as [He | Hne].
  - symmetry. subst c.
    pose proof (Z.div_mod (tile_of S E ts idx) tpc ltac:(lia)) as Hdm.
    pose proof (Z.mod_pos_bound (tile_of S E ts idx) tpc Htpcpos) as Hmb.
    apply andb_true_intro. split; [apply Z.leb_le | apply Z.ltb_lt]; lia.
  - symmetry. apply not_true_is_false. intros Hall.
    apply andb_prop in Hall. destruct Hall as [H1 H2].
    apply Z.leb_le in H1. apply Z.ltb_lt in H2. apply Hne.
    symmetry. apply (Z.div_unique (tile_of S E ts idx) tpc c (tile_of S E ts idx - c * tpc));
      lia.
Qed.

(** X22: half-precision data with [baseline] other than 1.  On a
    configuration the driver is written for, [layernorm_layer] calls
    [layernorm_fp16_opt], which stores nothing, and then copies the output
    tile of the scratchpad into the output feature map: every element of the
    output is what the scratchpad of the cluster of its tile held in the
    matching element before the call, whatever the input feature map is;
    outside the feature map nothing is written. *)
Theorem fp16_layer_copies_scratchpad (l : layernorm_layer_t F) (t0 : Z -> @tcdm F) :
  let B := batch_size l in
  let S := seq_len l in
  let E := embeddings l in
  let ts := S / n_tiles l in
  let tpc := n_tiles l / cluster_num p in
  layer_ok p l -> dtype l = FP16 -> baseline l <> 1 ->
  exists o, layernorm_layer p t0 l = Some o /\
    forall idx,
      o idx = if (0 <=? idx) && (idx <? B * S * E)
              then local_otile (t0 (tile_of S E ts idx / tpc)) (tile_slot S E ts idx)
              else ofmap l idx.
Proof.
  intros B S E ts tpc Hok Hd Hb.
  unfold layernorm_layer, select_kernel. rewrite Hd.
  replace (baseline l =? 1) with false by (symmetry; apply Z.eqb_neq; exact Hb).
  cbn [data_type_size kernel_reads].
  eexists. split; [reflexivity|]. intros idx.
  destruct (layer_geometry Hok) as (_ & _ & HS & HT & Htspos & Htpcpos & _).
  fold S ts tpc in HS, HT, Htspos, Htpcpos.
  pose proof Hok as (HB & HSpos & HE & HTpos & HC & _).
  fold B S E in HB, HSpos, HE.
  assert (Hloop :
    for_range 0 (cluster_num p) (fun c remote_ofmap =>
      cluster_run p sizeof_fp16 K_fp16_opt l c (t0 c) remote_ofmap) (ofmap l) idx =
    if (0 <=? idx) && (idx <? B * S * E) &&
       ((0 <=? tile_of S E ts idx / tpc) && (tile_of S E ts idx / tpc <? cluster_num p))
    then local_otile (t0 (tile_of S E ts idx / tpc)) (tile_slot S E ts idx)
    else ofmap l idx).
  { apply (for_range_ind (fun n (o : buf F) =>
      o idx =
      if (0 <=? idx) && (idx <? B * S * E) &&
         ((0 <=? tile_of S E ts idx / tpc) && (tile_of S E ts idx / tpc <? n))
      then local_otile (t0 (tile_of S E ts idx / tpc)) (tile_slot S E ts idx)
      else ofmap l idx)); [lia | |].
    - replace ((0 <=? tile_of S E ts idx / tpc) && (tile_of S E ts idx / tpc <? 0))
        with false; [rewrite andb_false_r; reflexivity|].
      symmetry. apply andb_false_iff.
      destruct (Z.leb_spec 0 (tile_of S E ts idx / tpc)); [right|left; reflexivity].
      apply Z.ltb_ge. lia.
    - intros c o Hc Hval.
      rewrite (@fp16_opt_cluster_run l c (t0 c) o idx Hok Hc). fold B S E ts tpc.
      rewrite Hval.
      destruct ((0 <=? idx) && (idx <? B * S * E)); cbn [andb]; [|reflexivity].
      destruct (Z.eqb_spec (tile_of S E ts idx / tpc) c) as [He | Hne].
      + replace ((0 <=? tile_of S E ts idx / tpc) &&
                 (tile_of S E ts idx / tpc <? c + 1)) with true.
        * rewrite He. reflexivity.
        * symmetry. apply andb_true_intro. split; [apply Z.leb_le | apply Z.ltb_lt]; lia.
      + replace ((0 <=? tile_of S E ts idx / tpc) &&
                 (tile_of S E ts idx / tpc <? c + 1))
          with ((0 <=? tile_of S E ts idx / tpc) &&
                (tile_of S E ts idx / tpc <? c)); [reflexivity|].
        f_equal.
        destruct (Z.ltb_spec (tile_of S E ts idx / tpc) c);
          destruct (Z.ltb_spec (tile_of S E ts idx / tpc) (c + 1));
          try reflexivity; lia. }
  rewrite Hloop.
  destruct ((0 <=? idx) && (idx <? B * S * E)) eqn:Hin; cbn [andb]; [|reflexivity].
  apply andb_prop in Hin. destruct Hin as [H0 H1].
  apply Z.leb_le in H0. apply Z.ltb_lt in H1.
  replace ((0 <=? tile_of S E ts idx / tpc) &&
           (tile_of S E ts idx / tpc <? cluster_num p)) with true; [reflexivity|].
  symmetry.
  assert (HtsE : 0 < ts * E) by (apply Z.mul_pos_pos; assumption).
  assert (HSE : 0 < S * E) by (apply Z.mul_pos_pos; assumption).
  pose proof (Z.mod_pos_bound idx (S * E) HSE) as Hmb.
  assert (Htile : 0 <= tile_of S E ts idx < n_tiles l).
  { unfold tile_of. split; [apply Z.div_pos; lia|].
    apply Z.div_lt_upper_bound; [exact HtsE|].
    replace (ts * E * n_tiles l) with (ts * n_tiles l * E) by ring.
    rewrite <- HS. lia. }
  apply andb_true_intro. split.
  - apply Z.leb_le. apply Z.div_pos; lia.
  - apply Z.ltb_lt. apply Z.div_lt_upper_bound; [exact Htpcpos|]. lia.
Qed.

End HalfPrecisionLayer.

(* ===================================================================== *)
(** * Kernels and phases at concrete configurations *)
(* ===================================================================== *)

Section KernelWitnesses.

Import Machine Runtime LayerNorm Ideal RowStatistics Scenarios.
Local Open Scope Z_scope.

Lemma dma_tile_coverage_witness :
  ((exists h, 0 <= cluster_idx h < cluster_num two_clusters /\
              In (EvDmaIn 1) (layernorm_layer_events two_clusters h (with_tiles two_rows 2)))
   <-> 0 <= 1 < cluster_num two_clusters
                * (n_tiles (with_tiles two_rows 2) / cluster_num two_clusters)) /\
  (forall h, In (EvDmaIn 1) (layernorm_layer_events two_clusters h (with_tiles two_rows 2))
             <-> In (EvDmaOut 1)
                    (layernorm_layer_events two_clusters h (with_tiles two_rows 2))) /\
  (forall h, is_compute_core two_clusters h = true ->
             ~ In (EvDmaIn 1) (layernorm_layer_events two_clusters h (with_tiles two_rows 2)) /\
             ~ In (EvDmaOut 1)
                  (layernorm_layer_events two_clusters h (with_tiles two_rows 2))) /\
  (forall h h',
     0 <= cluster_idx h < cluster_num two_clusters ->
     0 <= cluster_idx h' < cluster_num two_clusters ->
     In (EvDmaIn 1) (layernorm_layer_events two_clusters h (with_tiles two_rows 2)) ->
     In (EvDmaIn 1) (layernorm_layer_events two_clusters h' (with_tiles two_rows 2)) ->
     cluster_idx h = cluster_idx h').
Proof.
  apply (@dma_tile_coverage xreal two_clusters (with_tiles two_rows 2) 1).
  - simpl. lia.
  - simpl. lia.
Defined.

Lemma fewer_tiles_than_clusters_witness :
  layernorm_layer two_clusters zero_tiles two_rows = Some (ofmap two_rows) /\
  layernorm_layer_events two_clusters core0 two_rows = [EvGlobalBarrier].
Proof.
  apply (@fewer_tiles_than_clusters xreal ideal_ops two_clusters two_rows zero_tiles core0).
  - simpl. lia.
  - simpl. lia.
  - reflexivity.
Defined.

Lemma naive_kernel_effect_witness :
  (0 <= 2 < 1 * 3 * 2 /\
   (2 / 2) mod 3 < cluster_compute_core_num two_cores * (3 / cluster_compute_core_num two_cores) /\
   ((2 / 2) mod 3) mod cluster_compute_core_num two_cores = cluster_core_idx core1 ->
   layernorm_fp32_naive two_cores core1 sixteen zeros 1 3 2 0 2
   = layernorm_row 2 (f_of_int 0) (row_of sixteen 2 (2 / 2)) (2 mod 2)) /\
  (~ (0 <= 2 < 1 * 3 * 2 /\
      (2 / 2) mod 3 < cluster_compute_core_num two_cores * (3 / cluster_compute_core_num two_cores) /\
      ((2 / 2) mod 3) mod cluster_compute_core_num two_cores = cluster_core_idx core1) ->
   layernorm_fp32_naive two_cores core1 sixteen zeros 1 3 2 0 2 = zeros 2).
Proof.
  apply (@naive_kernel_effect xreal ideal_ops two_cores core1 sixteen zeros 1 3 2 0 2);
    simpl; lia.
Defined.

Lemma fp16_naive_rounds_fp32_naive_witness :
  (0 <= 2 < 1 * 3 * 2 /\
   (2 / 2) mod 3 < cluster_compute_core_num two_cores * (3 / cluster_compute_core_num two_cores) /\
   ((2 / 2) mod 3) mod cluster_compute_core_num two_cores = cluster_core_idx core1 ->
   layernorm_fp16_naive two_cores core1 sixteen zeros 1 3 2 0 2
   = f_half (layernorm_fp32_naive two_cores core1 sixteen zeros 1 3 2 0 2)) /\
  (~ (0 <= 2 < 1 * 3 * 2 /\
      (2 / 2) mod 3 < cluster_compute_core_num two_cores * (3 / cluster_compute_core_num two_cores) /\
      ((2 / 2) mod 3) mod cluster_compute_core_num two_cores = cluster_core_idx core1) ->
   layernorm_fp16_naive two_cores core1 sixteen zeros 1 3 2 0 2 = zeros 2 /\
   layernorm_fp32_naive two_cores core1 sixteen zeros 1 3 2 0 2 = zeros 2).
Proof.
  apply (@fp16_naive_rounds_fp32_naive xreal ideal_ops two_cores core1 sixteen zeros
           1 3 2 0 2);
    simpl; lia.
Defined.

Lemma opt_kernel_effect_witness :
  (0 <= 9 < 1 * 1 * 12 /\
   (9 / 12) mod 1 < cluster_compute_core_num one_core * (1 / cluster_compute_core_num one_core) /\
   ((9 / 12) mod 1) mod cluster_compute_core_num one_core = cluster_core_idx core0 /\
   9 mod 12 < 8 * (12 / 8) ->
   layernorm_fp32_opt one_core core0 sixteen zeros 1 1 12 0 9
   = layernorm_row_opt 12 (f_of_int 0) (row_of sixteen 12 (9 / 12)) (9 mod 12)) /\
  (~ (0 <= 9 < 1 * 1 * 12 /\
      (9 / 12) mod 1 < cluster_compute_core_num one_core * (1 / cluster_compute_core_num one_core) /\
      ((9 / 12) mod 1) mod cluster_compute_core_num one_core = cluster_core_idx core0 /\
      9 mod 12 < 8 * (12 / 8)) ->
   layernorm_fp32_opt one_core core0 sixteen zeros 1 1 12 0 9 = zeros 9).
Proof.
  apply (@opt_kernel_effect xreal ideal_ops one_core core0 sixteen zeros 1 1 12 0 9);
    try (simpl; lia).
  exists 6. reflexivity.
Defined.

Lemma fp32_opt_matches_naive_witness :
  layernorm_fp32_opt two_cores core1 sixteen zeros 1 3 16 0 17 =
  layernorm_fp32_naive two_cores core1 sixteen zeros 1 3 16 0 17.
Proof.
  apply (@fp32_opt_matches_naive two_cores core1 sixteen zeros 1 3 16 0).
  - lia.
  - lia.
  - lia.
  - exists 2. reflexivity.
  - simpl. lia.
  - simpl. lia.
  - simpl. lia.
  - simpl. lia.
  - intros i _. unfold finite, sixteen. destruct (Z.odd i); reflexivity.
Defined.

End KernelWitnesses.

Section LayerWitnesses.

Import Machine Runtime LayerNorm Ideal RowStatistics Scenarios.
Local Open Scope Z_scope.

Lemma one_core_two_rows_ok : layer_ok one_core two_rows.
Proof.
  unfold layer_ok. simpl.
  repeat split; try lia; try (exists 1; reflexivity); try (exists 2; reflexivity).
Qed.

Lemma two_rows_finite (i : Z) : finite (ifmap two_rows i).
Proof. unfold finite. simpl. destruct (Z.odd i); reflexivity. Qed.

Lemma two_rows_variance :
  variance (fun j => to_R (ifmap two_rows (0 * embeddings two_rows + j)))
           (embeddings two_rows) = 1%R.
Proof.
  unfold variance, mean, Rsum, for_range. simpl. field.
Qed.

Lemma compute_phase_rows_witness :
  (0 <= 1 < batch_size two_rows * tile_seq_len two_rows * embeddings two_rows /\
   (1 / embeddings two_rows) mod tile_seq_len two_rows
   < cluster_compute_core_num two_cores
     * (tile_seq_len two_rows / cluster_compute_core_num two_cores) ->
   compute_tile two_cores K_fp32_naive 0 two_rows (ifmap two_rows) zeros 1
   = layernorm_row (embeddings two_rows) (f_of_int (f_to_int (eps two_rows)))
                   (row_of (ifmap two_rows) (embeddings two_rows)
                           (1 / embeddings two_rows))
                   (1 mod embeddings two_rows)) /\
  (~ (0 <= 1 < batch_size two_rows * tile_seq_len two_rows * embeddings two_rows /\
      (1 / embeddings two_rows) mod tile_seq_len two_rows
      < cluster_compute_core_num two_cores
        * (tile_seq_len two_rows / cluster_compute_core_num two_cores)) ->
   compute_tile two_cores K_fp32_naive 0 two_rows (ifmap two_rows) zeros 1 = zeros 1).
Proof.
  apply (@compute_phase_rows xreal ideal_ops two_cores two_rows 0 (ifmap two_rows) zeros 1);
    vm_compute; reflexivity.
Defined.

Lemma layernorm_layer_values_witness :
  exists o, layernorm_layer one_core zero_tiles two_rows = Some o /\
    (forall idx,
       ~ 0 <= idx < batch_size two_rows * seq_len two_rows * embeddings two_rows ->
       o idx = ofmap two_rows idx) /\
    (forall r i,
       0 <= r < batch_size two_rows * seq_len two_rows ->
       0 <= i < embeddings two_rows ->
       (forall j, 0 <= j < embeddings two_rows ->
                  finite (ifmap two_rows (r * embeddings two_rows + j))) ->
       (0 < variance (fun j => to_R (ifmap two_rows (r * embeddings two_rows + j)%Z))
                     (embeddings two_rows)
            + IZR (f_to_int (eps two_rows)))%R ->
       o (r * embeddings two_rows + i)
       = Fin (normalized (fun j => to_R (ifmap two_rows (r * embeddings two_rows + j)))
                         (embeddings two_rows) (IZR (f_to_int (eps two_rows))) i)).
Proof.
  apply (@layernorm_layer_values one_core two_rows zero_tiles).
  - exact one_core_two_rows_ok.
  - reflexivity.
  - intros H. exfalso. apply H. reflexivity.
Defined.

Lemma normalized_row_statistics_witness :
  exists o, layernorm_layer one_core zero_tiles two_rows = Some o /\
    mean (fun j => to_R (o (0 * embeddings two_rows + j))) (embeddings two_rows) = 0%R /\
    variance (fun j => to_R (o (0 * embeddings two_rows + j))) (embeddings two_rows)
    = (variance (fun j => to_R (ifmap two_rows (0 * embeddings two_rows + j)%Z))
                (embeddings two_rows)
       / (variance (fun j => to_R (ifmap two_rows (0 * embeddings two_rows + j)%Z))
                   (embeddings two_rows)
          + IZR (f_to_int (eps two_rows))))%R.
Proof.
  apply (@normalized_row_statistics one_core two_rows zero_tiles 0).
  - exact one_core_two_rows_ok.
  - reflexivity.
  - intros H. exfalso. apply H. reflexivity.
  - simpl. lia.
  - intros j _. apply two_rows_finite.
  - rewrite two_rows_variance. change (f_to_int (eps two_rows)) with (x_to_int (Fin 0)).
    rewrite x_to_int_small by lra. simpl. lra.
Defined.

Lemma constant_row_gives_nan_witness :
  exists o, layernorm_layer one_core zero_tiles constant_row = Some o /\
            forall i, 0 <= i < embeddings constant_row ->
                      o (0 * embeddings constant_row + i) = NaN.
Proof.
  apply (@constant_row_gives_nan one_core constant_row zero_tiles 0 1 (1 / 100000)).
  - exact constant_row_ok.
  - reflexivity.
  - intros H. exfalso. apply H. reflexivity.
  - reflexivity.
  - lra.
  - simpl. lia.
  - intros j _. reflexivity.
Defined.

Lemma eps_below_one_ignored_witness :
  exists o, layernorm_layer one_core zero_tiles constant_row = Some o /\
            layernorm_layer one_core zero_tiles (with_eps constant_row (Fin 0)) = Some o.
Proof.
  apply (@eps_below_one_ignored one_core constant_row zero_tiles (1 / 100000)).
  - reflexivity.
  - lra.
  - left. reflexivity.
Defined.

Lemma half_vector_rows_ok : layer_ok one_core half_vector_rows.
Proof.
  unfold layer_ok. simpl.
  repeat split; try lia; try (exists 1; reflexivity); try (exists 2; reflexivity).
Qed.

Lemma fp16_layer_copies_scratchpad_witness :
  exists o, layernorm_layer one_core zero_tiles half_vector_rows = Some o /\
    forall idx,
      o idx = if (0 <=? idx) &&
                 (idx <? batch_size half_vector_rows * seq_len half_vector_rows
                         * embeddings half_vector_rows)
              then local_otile
                     (zero_tiles
                        (tile_of (seq_len half_vector_rows) (embeddings half_vector_rows)
                                 (seq_len half_vector_rows / n_tiles half_vector_rows) idx
                         / (n_tiles half_vector_rows / cluster_num one_core)))
                     (tile_slot (seq_len half_vector_rows) (embeddings half_vector_rows)
                                (seq_len half_vector_rows / n_tiles half_vector_rows) idx)
              else ofmap half_vector_rows idx.
Proof.
  apply (@fp16_layer_copies_scratchpad xreal ideal_ops one_core half_vector_rows
           zero_tiles).
  - exact half_vector_rows_ok.
  - reflexivity.
  - simpl. lia.
Defined.

End LayerWitnesses.

Section AttentionWitnesses.

Import Machine Runtime FlashAttention Ideal Scenarios.
Local Open Scope Z_scope.

Lemma output_frame_witness :
  flashattention_2_layer one_core three_tokens 0 zero_tcdm 2 = O three_tokens 2.
Proof.
  apply (@output_frame xreal ideal_ops one_core three_tokens 0 zero_tcdm 2).
  - simpl. lia.
  - simpl. lia.
  - simpl. lia.
  - simpl. lia.
  - right. vm_compute. discriminate.
Defined.

Lemma scratchpad_growth_witness :
  tcdm_ptr (allocate (two_tokens 0) 0) = 0 + fixed_bytes (two_tokens 0) /\
  (baseline (two_tokens 0) = 0 ->
     (forall t_r t_c, 0 <= t_r < T_r (two_tokens 0) -> 0 <= t_c < T_c (two_tokens 0) ->
        V_t_at (two_tokens 0) 0 t_r t_c
        = 0 + fixed_bytes (two_tokens 0)
          + (t_r * T_c (two_tokens 0) + t_c)
            * (B_c (two_tokens 0) * d (two_tokens 0) * 4)) /\
     final_tcdm_ptr (two_tokens 0) 0
     = 0 + fixed_bytes (two_tokens 0)
       + T_r (two_tokens 0) * T_c (two_tokens 0)
         * (B_c (two_tokens 0) * d (two_tokens 0) * 4)) /\
  (baseline (two_tokens 0) <> 0 ->
     final_tcdm_ptr (two_tokens 0) 0 = 0 + fixed_bytes (two_tokens 0)).
Proof.
  apply (@scratchpad_growth xreal (two_tokens 0) 0);
    vm_compute; first [reflexivity | discriminate].
Defined.

Lemma softmax_row_maximum_witness :
  (forall col, 0 <= col < B_c (two_tokens 1) ->
     f_gt (S_fa zero_tcdm (0 * B_c (two_tokens 1) + col))
          (m_i (softmax_row (two_tokens 1) 0 0 zero_tcdm) 0) = false) /\
  (m_i (softmax_row (two_tokens 1) 0 0 zero_tcdm) 0 = m_i zero_tcdm 0 \/
   exists col, 0 <= col < B_c (two_tokens 1) /\
               m_i (softmax_row (two_tokens 1) 0 0 zero_tcdm) 0
               = S_fa zero_tcdm (0 * B_c (two_tokens 1) + col)) /\
  m_i_prev (softmax_row (two_tokens 1) 0 0 zero_tcdm) 0 = m_i zero_tcdm 0.
Proof.
  apply (@softmax_row_maximum xreal ideal_ops ideal_order xgt_irrefl (two_tokens 1) 0 0
           zero_tcdm);
    simpl; lia.
Defined.

Lemma probabilities_in_unit_interval_witness :
  finite (m_i (softmax_row (two_tokens 1) 0 0 zero_tcdm) 0) /\
  forall col, 0 <= col < B_c (two_tokens 1) ->
    exists pr, P_fa (softmax_row (two_tokens 1) 0 0 zero_tcdm)
                    (0 * B_c (two_tokens 1) + col) = Fin pr /\ (0 < pr <= 1)%R.
Proof.
  apply (@probabilities_in_unit_interval (two_tokens 1) 0 0 zero_tcdm).
  - lia.
  - simpl. lia.
  - simpl. lia.
  - simpl. lia.
  - simpl. lia.
  - intros col _. reflexivity.
  - right. reflexivity.
Defined.

Lemma softmax_row_tiles_witness :
  (forall col, 0 <= col < B_c (two_tokens 1) ->
     P_fa (softmax_row (two_tokens 1) 1 0 zero_tcdm) (0 * B_c (two_tokens 1) + col)
     = f_exp (f_sub (S_fa zero_tcdm (0 * B_c (two_tokens 1) + col))
                    (m_i (softmax_row (two_tokens 1) 1 0 zero_tcdm) 0))) /\
  l_i (softmax_row (two_tokens 1) 1 0 zero_tcdm) 0
  = (if 1 =? 0
     then for_range 0 (B_c (two_tokens 1))
            (fun col a =>
               f_add a (P_fa (softmax_row (two_tokens 1) 1 0 zero_tcdm)
                             (0 * B_c (two_tokens 1) + col))) f_zero
     else f_add
            (f_mul (l_i zero_tcdm 0)
                   (f_exp (f_sub (m_i_prev (softmax_row (two_tokens 1) 1 0 zero_tcdm) 0)
                                 (m_i (softmax_row (two_tokens 1) 1 0 zero_tcdm) 0))))
            (for_range 0 (B_c (two_tokens 1))
               (fun col a =>
                  f_add a (P_fa (softmax_row (two_tokens 1) 1 0 zero_tcdm)
                                (0 * B_c (two_tokens 1) + col))) f_zero)) /\
  (forall col, 0 <= col < d (two_tokens 1) ->
     O_fa (softmax_row (two_tokens 1) 1 0 zero_tcdm) (0 * d (two_tokens 1) + col)
     = if 1 =? 0 then O_fa zero_tcdm (0 * d (two_tokens 1) + col)
       else f_div (O_fa zero_tcdm (0 * d (two_tokens 1) + col))
                  (f_exp (f_sub (m_i_prev (softmax_row (two_tokens 1) 1 0 zero_tcdm) 0)
                                (m_i (softmax_row (two_tokens 1) 1 0 zero_tcdm) 0)))).
Proof.
  apply (@softmax_row_tiles xreal ideal_ops (two_tokens 1) 1 0 zero_tcdm); simpl; lia.
Defined.

Lemma four_rows_cores : (num_cores two_cores | B_r four_rows).
Proof. exists 2. reflexivity. Qed.

Lemma phases_cover_row_block_witness :
  all_harts two_cores 0 (init_stats two_cores four_rows) zero_tcdm
    = for_range 0 (B_r four_rows) (fun row_idx t =>
        let t := set_m_i t (upd (m_i t) row_idx f_neg_inf) in
        let t := set_m_i_prev t (upd (m_i_prev t) row_idx f_neg_inf) in
        set_l_i t (upd (l_i t) row_idx f_zero)) zero_tcdm /\
  all_harts two_cores 0 (softmax_rows two_cores four_rows 0) zero_tcdm
    = for_range 0 (B_r four_rows) (softmax_row four_rows 0) zero_tcdm /\
  all_harts two_cores 0 (normalize_rows two_cores four_rows) zero_tcdm
    = for_range 0 (B_r four_rows) (fun row_idx t =>
        for_range 0 (d four_rows) (fun col_idx t =>
          set_O_fa t (upd (O_fa t) (u32 (row_idx * d four_rows + col_idx))
                          (f_div (O_fa t (u32 (row_idx * d four_rows + col_idx)))
                                 (l_i t row_idx)))) t) zero_tcdm.
Proof.
  apply (@phases_cover_row_block xreal ideal_ops two_cores four_rows 0 zero_tcdm).
  - simpl. lia.
  - simpl. lia.
  - exact four_rows_cores.
Defined.

Lemma statistics_phase_witness :
  (forall f, read_only f = true ->
     get f (all_harts two_cores 0 (softmax_rows two_cores four_rows 1) zero_tcdm)
     = get f zero_tcdm) /\
  (forall r, 0 <= r < B_r four_rows ->
     m_i (all_harts two_cores 0 (softmax_rows two_cores four_rows 1) zero_tcdm) r
     = new_max four_rows zero_tcdm r /\
     m_i_prev (all_harts two_cores 0 (softmax_rows two_cores four_rows 1) zero_tcdm) r
     = m_i zero_tcdm r /\
     l_i (all_harts two_cores 0 (softmax_rows two_cores four_rows 1) zero_tcdm) r
     = new_sum four_rows 1 zero_tcdm r /\
     (forall col, 0 <= col < B_c four_rows ->
        P_fa (all_harts two_cores 0 (softmax_rows two_cores four_rows 1) zero_tcdm)
             (r * B_c four_rows + col)
        = f_exp (f_sub (S_fa zero_tcdm (r * B_c four_rows + col))
                       (new_max four_rows zero_tcdm r))) /\
     (forall col, 0 <= col < d four_rows ->
        O_fa (all_harts two_cores 0 (softmax_rows two_cores four_rows 1) zero_tcdm)
             (r * d four_rows + col)
        = if 1 =? 0 then O_fa zero_tcdm (r * d four_rows + col)
          else f_div (O_fa zero_tcdm (r * d four_rows + col))
                     (rescale_factor four_rows zero_tcdm r))) /\
  (forall r, ~ 0 <= r < B_r four_rows ->
     m_i (all_harts two_cores 0 (softmax_rows two_cores four_rows 1) zero_tcdm) r
     = m_i zero_tcdm r /\
     m_i_prev (all_harts two_cores 0 (softmax_rows two_cores four_rows 1) zero_tcdm) r
     = m_i_prev zero_tcdm r /\
     l_i (all_harts two_cores 0 (softmax_rows two_cores four_rows 1) zero_tcdm) r
     = l_i zero_tcdm r) /\
  (forall j, ~ 0 <= j < B_r four_rows * B_c four_rows ->
     P_fa (all_harts two_cores 0 (softmax_rows two_cores four_rows 1) zero_tcdm) j
     = P_fa zero_tcdm j) /\
  (forall j, ~ 0 <= j < B_r four_rows * d four_rows ->
     O_fa (all_harts two_cores 0 (softmax_rows two_cores four_rows 1) zero_tcdm) j
     = O_fa zero_tcdm j).
Proof.
  apply (@statistics_phase xreal ideal_ops two_cores four_rows 1 zero_tcdm);
    first [exact four_rows_cores | simpl; lia].
Defined.

Lemma normalize_phase_witness :
  (forall f, f <> f_O_fa ->
     get f (all_harts two_cores 0 (normalize_rows two_cores four_rows) zero_tcdm)
     = get f zero_tcdm) /\
  (forall j,
     O_fa (all_harts two_cores 0 (normalize_rows two_cores four_rows) zero_tcdm) j
     = if (0 <=? j) && (j <? B_r four_rows * d four_rows)
       then f_div (O_fa zero_tcdm j) (l_i zero_tcdm (j / d four_rows))
       else O_fa zero_tcdm j).
Proof.
  apply (@normalize_phase xreal ideal_ops two_cores four_rows zero_tcdm);
    first [exact four_rows_cores | simpl; lia].
Defined.

Lemma whole_tile_cores (baseline : Z) : (num_cores one_core | B_r (whole_tile baseline)).
Proof. exists 1. reflexivity. Qed.

Lemma whole_tile_finite (baseline : Z) (j : Z) :
  finite (Q (whole_tile baseline) j) /\ finite (K (whole_tile baseline) j) /\
  finite (V (whole_tile baseline) j).
Proof.
  split; [reflexivity|]. split; simpl.
  - destruct (j =? 1); reflexivity.
  - destruct (j =? 0); reflexivity.
Qed.

Lemma single_column_tile_output_witness :
  flashattention_2_layer one_core (whole_tile 0) 0 zero_tcdm 1
  = first_tile_attention (whole_tile 0) (1 / d (whole_tile 0)) (1 mod d (whole_tile 0)).
Proof.
  apply (@single_column_tile_output xreal ideal_ops one_core (whole_tile 0) zero_tcdm 1).
  - simpl. lia.
  - simpl. lia.
  - exact (whole_tile_cores 0).
  - simpl. lia.
  - simpl. lia.
  - simpl. lia.
  - simpl. lia.
  - simpl. lia.
  - simpl. lia.
  - reflexivity.
  - simpl. lia.
Defined.

Lemma single_column_tile_attention_witness :
  flashattention_2_layer one_core (whole_tile 1) 0 zero_tcdm (1 * d (whole_tile 1) + 0)
  = Fin (Reference.softmax_attention
           (fun i => to_R (Q (whole_tile 1) i)) (fun i => to_R (K (whole_tile 1) i))
           (fun i => to_R (V (whole_tile 1) i))
           (d (whole_tile 1)) (B_c (whole_tile 1)) 1 0).
Proof.
  apply (@single_column_tile_attention one_core (whole_tile 1) zero_tcdm 1 0).
  - simpl. lia.
  - simpl. lia.
  - exact (whole_tile_cores 1).
  - simpl. lia.
  - simpl. lia.
  - simpl. lia.
  - simpl. lia.
  - simpl. lia.
  - simpl. lia.
  - reflexivity.
  - intros j _. apply (whole_tile_finite 1 j).
  - intros j _. apply (whole_tile_finite 1 j).
  - intros j _. apply (whole_tile_finite 1 j).
  - simpl. lia.
  - simpl. lia.
Defined.

Lemma wide_tile_cores : (num_cores one_core | B_r wide_tile).
Proof. exists 1. reflexivity. Qed.

Lemma no_column_tile_output_witness :
  flashattention_2_layer one_core wide_tile 0 zero_tcdm 1
  = Nat.iter (Z.to_nat (1 / (B_r wide_tile * d wide_tile) + 1))
             (fun x => f_div x f_zero)
             (O_fa zero_tcdm (1 mod (B_r wide_tile * d wide_tile))).
Proof.
  apply (@no_column_tile_output xreal ideal_ops one_core wide_tile).
  - simpl. lia.
  - simpl. lia.
  - exact wide_tile_cores.
  - simpl. lia.
  - simpl. lia.
  - simpl. lia.
  - simpl. lia.
  - simpl. lia.
  - reflexivity.
  - simpl. lia.
Defined.

Lemma no_column_tile_no_number_witness :
  flashattention_2_layer one_core wide_tile 0 zero_tcdm (1 * d wide_tile + 0) = PInf \/
  flashattention_2_layer one_core wide_tile 0 zero_tcdm (1 * d wide_tile + 0) = NInf \/
  flashattention_2_layer one_core wide_tile 0 zero_tcdm (1 * d wide_tile + 0) = NaN.
Proof.
  apply (@no_column_tile_no_number one_core wide_tile zero_tcdm 1 0).
  - simpl. lia.
  - simpl. lia.
  - exact wide_tile_cores.
  - simpl. lia.
  - simpl. lia.
  - simpl. lia.
  - simpl. lia.
  - reflexivity.
  - simpl. lia.
  - simpl. lia.
Defined.

End AttentionWitnesses.
